(** * Quickhull convex hull ([ConvexHull], [Face], [HalfEdge], [VertexNode],
    [VertexList]) of three-extras.umd.js

    A shallow embedding of the convex-hull classes of
    [src/three-extras.umd.js].  JavaScript objects live in an object store
    (three arenas: vertex nodes, faces, half-edges) and references are
    indices into it, so that aliasing and in-place mutation are kept.
    A [null] dereference (a [TypeError] in JavaScript) and an exhausted loop
    budget are both the failure [None] of the option monad.

    The numbers of JavaScript are followed in two ways.  The construction of
    the hull (the object store, the vertex lists, the half-edge mesh) is
    followed with exact rationals ([Q]): what is stated of it rests on the
    outcome of the comparisons of the source, not on the values compared.
    The queries [containsPoint] and [intersectRay] and the value of the
    tolerance are followed in [Binary64], at the end, on the binary64
    numbers of JavaScript, with their rounding, their infinities and
    NaN. *)

From Stdlib Require Import QArith Qminmax Qabs Lqa Lia List Floats.
From stdpp Require Import base option list.

Local Open Scope Q_scope.

(** ** Numbers *)

(** [a > b], [a < b], [a >= b], [a <= b] and [a !== b] on numbers. *)
Definition gtb (a b : Q) : bool := negb (Qle_bool a b).
Definition ltb (a b : Q) : bool := negb (Qle_bool b a).
Definition geb (a b : Q) : bool := Qle_bool b a.
Definition leb (a b : Q) : bool := Qle_bool a b.
Definition neqb (a b : Q) : bool := negb (Qeq_bool a b).

(** [Number.EPSILON], two to the power -52. *)
Definition EPSILON : Q := 1 # (2 ^ 52).

(** ** three.Vector3 (external): the exact part of its interface *)

Record Vector3 := V3 { x : Q; y : Q; z : Q }.

Definition dot (a b : Vector3) : Q := x a * x b + y a * y b + z a * z b.

Definition subVectors (a b : Vector3) : Vector3 :=
  V3 (x a - x b) (y a - y b) (z a - z b).

Definition addVectors (a b : Vector3) : Vector3 :=
  V3 (x a + x b) (y a + y b) (z a + z b).

Definition multiplyScalar (a : Vector3) (s : Q) : Vector3 :=
  V3 (x a * s) (y a * s) (z a * s).

Definition cross (a b : Vector3) : Vector3 :=
  V3 (y a * z b - z a * y b) (z a * x b - x a * z b) (x a * y b - y a * x b).

Definition lengthSq (a : Vector3) : Q := dot a a.

Definition distanceToSquared (a b : Vector3) : Q := lengthSq (subVectors a b).

(** [getComponent] and [setComponent] are only called with 0, 1 and 2. *)
Definition getComponent (v : Vector3) (j : nat) : Q :=
  match j with O => x v | S O => y v | _ => z v end.

Definition setComponent (v : Vector3) (j : nat) (q : Q) : Vector3 :=
  match j with
  | O => V3 q (y v) (z v)
  | S O => V3 (x v) q (z v)
  | _ => V3 (x v) (y v) q
  end.

(** ** The object store *)

(** References to vertex nodes, faces and half-edges: indices into the
    three arenas. *)
Abbreviation vref := nat (only parsing).
Abbreviation fref := nat (only parsing).
Abbreviation eref := nat (only parsing).

Inductive Mark := Visible | Deleted.

Global Instance Mark_eq_dec : EqDecision Mark.
Proof. solve_decision. Defined.

Module VertexNode.
Record t := mk {
  point : Vector3;
  prev : option vref;
  next : option vref;
  face : option fref
}.
(** [new VertexNode( point )] *)
Definition new (p : Vector3) : t := mk p None None None.
Definition set_prev (p : option vref) (v : t) : t := mk (point v) p (next v) (face v).
Definition set_next (n : option vref) (v : t) : t := mk (point v) (prev v) n (face v).
Definition set_face (f : option fref) (v : t) : t := mk (point v) (prev v) (next v) f.
End VertexNode.

Module HalfEdge.
Record t := mk {
  vertex : vref;
  prev : option eref;
  next : option eref;
  twin : option eref;
  face : fref
}.
(** [new HalfEdge( vertex, face )] *)
Definition new (v : vref) (f : fref) : t := mk v None None None f.
Definition set_prev (p : option eref) (e : t) : t := mk (vertex e) p (next e) (twin e) (face e).
Definition set_next (n : option eref) (e : t) : t := mk (vertex e) (prev e) n (twin e) (face e).
Definition set_twin (w : option eref) (e : t) : t := mk (vertex e) (prev e) (next e) w (face e).
End HalfEdge.

Module Face.
Record t := mk {
  normal : Vector3;
  midpoint : Vector3;
  area : Q;
  constant : Q;
  outside : option vref;
  mark : Mark;
  edge : option eref
}.
(** [new Face()] *)
Definition new : t := mk (V3 0 0 0) (V3 0 0 0) 0 0 None Visible None.
Definition set_outside (o : option vref) (f : t) : t :=
  mk (normal f) (midpoint f) (area f) (constant f) o (mark f) (edge f).
Definition set_mark (m : Mark) (f : t) : t :=
  mk (normal f) (midpoint f) (area f) (constant f) (outside f) m (edge f).
Definition set_edge (e : option eref) (f : t) : t :=
  mk (normal f) (midpoint f) (area f) (constant f) (outside f) (mark f) e.
Definition set_normal (n : Vector3) (f : t) : t :=
  mk n (midpoint f) (area f) (constant f) (outside f) (mark f) (edge f).
Definition set_midpoint (m : Vector3) (f : t) : t :=
  mk (normal f) m (area f) (constant f) (outside f) (mark f) (edge f).
Definition set_area (a : Q) (f : t) : t :=
  mk (normal f) (midpoint f) a (constant f) (outside f) (mark f) (edge f).
Definition set_constant (c : Q) (f : t) : t :=
  mk (normal f) (midpoint f) (area f) c (outside f) (mark f) (edge f).

(** [distanceToPoint( point )] *)
Definition distanceToPoint (f : t) (p : Vector3) : Q :=
  dot (normal f) p - constant f.
End Face.

(** Update of one object of an arena; fails on a dangling reference. *)
Definition modify {A} (i : nat) (f : A → A) (l : list A) : option (list A) :=
  a ← l !! i; Some (<[i := f a]> l).

(** ** VertexList *)

Module VertexList.
Record t := mk { head : option vref; tail : option vref }.

(** [new VertexList()] *)
Definition new : t := mk None None.
Definition first (L : t) : option vref := head L.
Definition last (L : t) : option vref := tail L.
Definition clear (L : t) : t := mk None None.
Definition isEmpty (L : t) : bool := bool_decide (head L = None).

(** [insertBefore( target, vertex )] *)
Definition insertBefore (target vertex : vref) (s : list VertexNode.t * t) : option (list VertexNode.t * t) :=
  let '(ns, L) := s in
  tg ← ns !! target;
  ns ← modify vertex (VertexNode.set_prev (VertexNode.prev tg)) ns;
  ns ← modify vertex (VertexNode.set_next (Some target)) ns;
  v ← ns !! vertex;
  '(ns, L) ← match VertexNode.prev v with
             | None => Some (ns, mk (Some vertex) (tail L))
             | Some p => ns ← modify p (VertexNode.set_next (Some vertex)) ns; Some (ns, L)
             end;
  ns ← modify target (VertexNode.set_prev (Some vertex)) ns;
  Some (ns, L).

(** [insertAfter( target, vertex )] *)
Definition insertAfter (target vertex : vref) (s : list VertexNode.t * t) : option (list VertexNode.t * t) :=
  let '(ns, L) := s in
  ns ← modify vertex (VertexNode.set_prev (Some target)) ns;
  tg ← ns !! target;
  ns ← modify vertex (VertexNode.set_next (VertexNode.next tg)) ns;
  v ← ns !! vertex;
  '(ns, L) ← match VertexNode.next v with
             | None => Some (ns, mk (head L) (Some vertex))
             | Some n => ns ← modify n (VertexNode.set_prev (Some vertex)) ns; Some (ns, L)
             end;
  ns ← modify target (VertexNode.set_next (Some vertex)) ns;
  Some (ns, L).

(** [append( vertex )] *)
Definition append (vertex : vref) (s : list VertexNode.t * t) : option (list VertexNode.t * t) :=
  let '(ns, L) := s in
  '(ns, L) ← match head L with
             | None => Some (ns, mk (Some vertex) (tail L))
             | Some _ =>
                 tl ← tail L;
                 ns ← modify tl (VertexNode.set_next (Some vertex)) ns;
                 Some (ns, L)
             end;
  ns ← modify vertex (VertexNode.set_prev (tail L)) ns;
  ns ← modify vertex (VertexNode.set_next None) ns;
  Some (ns, mk (head L) (Some vertex)).

(** The loop of [appendChain]: follow [next] to the last vertex of the
    chain. *)
Fixpoint lastOfChain (fuel : nat) (ns : list VertexNode.t) (vertex : vref) : option vref :=
  match fuel with
  | O => None
  | S fuel =>
      v ← ns !! vertex;
      match VertexNode.next v with
      | None => Some vertex
      | Some n => lastOfChain fuel ns n
      end
  end.

(** [appendChain( vertex )] *)
Definition appendChain (vertex : vref) (s : list VertexNode.t * t) : option (list VertexNode.t * t) :=
  let '(ns, L) := s in
  '(ns, L) ← match head L with
             | None => Some (ns, mk (Some vertex) (tail L))
             | Some _ =>
                 tl ← tail L;
                 ns ← modify tl (VertexNode.set_next (Some vertex)) ns;
                 Some (ns, L)
             end;
  ns ← modify vertex (VertexNode.set_prev (tail L)) ns;
  e ← lastOfChain (S (length ns)) ns vertex;
  Some (ns, mk (head L) (Some e)).

(** [remove( vertex )] *)
Definition remove (vertex : vref) (s : list VertexNode.t * t) : option (list VertexNode.t * t) :=
  let '(ns, L) := s in
  v ← ns !! vertex;
  '(ns, L) ← match VertexNode.prev v with
             | None => Some (ns, mk (VertexNode.next v) (tail L))
             | Some p => ns ← modify p (VertexNode.set_next (VertexNode.next v)) ns; Some (ns, L)
             end;
  v ← ns !! vertex;
  match VertexNode.next v with
  | None => Some (ns, mk (head L) (VertexNode.prev v))
  | Some n => ns ← modify n (VertexNode.set_prev (VertexNode.prev v)) ns; Some (ns, L)
  end.

(** [removeSubList( a, b )] *)
Definition removeSubList (a b : vref) (s : list VertexNode.t * t) : option (list VertexNode.t * t) :=
  let '(ns, L) := s in
  va ← ns !! a;
  vb ← ns !! b;
  '(ns, L) ← match VertexNode.prev va with
             | None => Some (ns, mk (VertexNode.next vb) (tail L))
             | Some p => ns ← modify p (VertexNode.set_next (VertexNode.next vb)) ns; Some (ns, L)
             end;
  va ← ns !! a;
  vb ← ns !! b;
  match VertexNode.next vb with
  | None => Some (ns, mk (head L) (VertexNode.prev va))
  | Some n => ns ← modify n (VertexNode.set_prev (VertexNode.prev va)) ns; Some (ns, L)
  end.
End VertexList.

(** ** three.js geometry used by the hull (external collaborator)

    [Triangle], [Plane] and [Line3] belong to the [three] library, which is
    not part of this repository.  The hull code is written against this
    interface; normalisation needs a square root, which is why the
    operations are a parameter of the development. *)

Record Plane := mkPlane { plane_normal : Vector3; plane_constant : Q }.

Record Three := mkThree {
  (** [_triangle.set( a, b, c ); _triangle.getNormal( target )] *)
  getNormal : Vector3 → Vector3 → Vector3 → Vector3;
  (** [_triangle.getMidpoint( target )] *)
  getMidpoint : Vector3 → Vector3 → Vector3 → Vector3;
  (** [_triangle.getArea()] *)
  getArea : Vector3 → Vector3 → Vector3 → Q;
  (** [_plane.setFromCoplanarPoints( a, b, c )] *)
  setFromCoplanarPoints : Vector3 → Vector3 → Vector3 → Plane;
  (** [_plane.distanceToPoint( point )] *)
  planeDistanceToPoint : Plane → Vector3 → Q;
  (** [_line3.set( start, end ); _line3.closestPointToPoint( point, true, target )] *)
  closestPointToPoint : Vector3 → Vector3 → Vector3 → Vector3
}.

(** ** ConvexHull: the instance fields and the object store *)

Record ConvexHull := mkHull {
  tolerance : Q;
  faces : list fref;
  newFaces : list fref;
  assigned : VertexList.t;
  unassigned : VertexList.t;
  vertices : list vref;
  (* the object store *)
  vertexNodes : list VertexNode.t;
  faceObjs : list Face.t;
  halfEdges : list HalfEdge.t
}.

Definition set_tolerance (q : Q) (h : ConvexHull) : ConvexHull :=
  mkHull q (faces h) (newFaces h) (assigned h) (unassigned h) (vertices h)
         (vertexNodes h) (faceObjs h) (halfEdges h).
Definition set_faces (fs : list fref) (h : ConvexHull) : ConvexHull :=
  mkHull (tolerance h) fs (newFaces h) (assigned h) (unassigned h) (vertices h)
         (vertexNodes h) (faceObjs h) (halfEdges h).
Definition set_newFaces (fs : list fref) (h : ConvexHull) : ConvexHull :=
  mkHull (tolerance h) (faces h) fs (assigned h) (unassigned h) (vertices h)
         (vertexNodes h) (faceObjs h) (halfEdges h).
Definition set_assigned (L : VertexList.t) (h : ConvexHull) : ConvexHull :=
  mkHull (tolerance h) (faces h) (newFaces h) L (unassigned h) (vertices h)
         (vertexNodes h) (faceObjs h) (halfEdges h).
Definition set_unassigned (L : VertexList.t) (h : ConvexHull) : ConvexHull :=
  mkHull (tolerance h) (faces h) (newFaces h) (assigned h) L (vertices h)
         (vertexNodes h) (faceObjs h) (halfEdges h).
Definition set_vertices (vs : list vref) (h : ConvexHull) : ConvexHull :=
  mkHull (tolerance h) (faces h) (newFaces h) (assigned h) (unassigned h) vs
         (vertexNodes h) (faceObjs h) (halfEdges h).
Definition set_vertexNodes (ns : list VertexNode.t) (h : ConvexHull) : ConvexHull :=
  mkHull (tolerance h) (faces h) (newFaces h) (assigned h) (unassigned h) (vertices h)
         ns (faceObjs h) (halfEdges h).
Definition set_faceObjs (fs : list Face.t) (h : ConvexHull) : ConvexHull :=
  mkHull (tolerance h) (faces h) (newFaces h) (assigned h) (unassigned h) (vertices h)
         (vertexNodes h) fs (halfEdges h).
Definition set_halfEdges (es : list HalfEdge.t) (h : ConvexHull) : ConvexHull :=
  mkHull (tolerance h) (faces h) (newFaces h) (assigned h) (unassigned h) (vertices h)
         (vertexNodes h) (faceObjs h) es.

(** [new ConvexHull()] *)
Definition newConvexHull : ConvexHull :=
  mkHull (-1) [] [] VertexList.new VertexList.new [] [] [] [].

(** The faces of the hull, read through the store. *)
Definition hullFaces (h : ConvexHull) : list Face.t :=
  omap (λ i, faceObjs h !! i) (faces h).

(** [makeEmpty()] *)
Definition makeEmpty (h : ConvexHull) : ConvexHull :=
  set_vertices [] (set_faces [] h).

(** [containsPoint( point )] *)
Definition containsPoint (h : ConvexHull) (point : Vector3) : bool :=
  (fix loop (fs : list Face.t) : bool :=
     match fs with
     | [] => true
     | face :: fs =>
         if gtb (Face.distanceToPoint face point) (tolerance h) then false
         else loop fs
     end) (hullFaces h).

(** ** ConvexHull: vertex bookkeeping *)

(** [_addVertexToFace( vertex, face )] *)
Definition _addVertexToFace (vertex : vref) (face : fref) (h : ConvexHull)
  : option ConvexHull :=
  ns ← modify vertex (VertexNode.set_face (Some face)) (vertexNodes h);
  f ← faceObjs h !! face;
  '(ns, L) ← match Face.outside f with
             | None => VertexList.append vertex (ns, assigned h)
             | Some o => VertexList.insertBefore o vertex (ns, assigned h)
             end;
  fs ← modify face (Face.set_outside (Some vertex)) (faceObjs h);
  Some (set_faceObjs fs (set_assigned L (set_vertexNodes ns h))).

(** [_removeVertexFromFace( vertex, face )] *)
Definition _removeVertexFromFace (vertex : vref) (face : fref) (h : ConvexHull)
  : option ConvexHull :=
  f ← faceObjs h !! face;
  fs ← (if bool_decide (Face.outside f = Some vertex) then
          v ← vertexNodes h !! vertex;
          match VertexNode.next v with
          | Some n =>
              vn ← vertexNodes h !! n;
              if bool_decide (VertexNode.face vn = Some face)
              then modify face (Face.set_outside (Some n)) (faceObjs h)
              else modify face (Face.set_outside None) (faceObjs h)
          | None => modify face (Face.set_outside None) (faceObjs h)
          end
        else Some (faceObjs h));
  '(ns, L) ← VertexList.remove vertex (vertexNodes h, assigned h);
  Some (set_assigned L (set_vertexNodes ns (set_faceObjs fs h))).

(** The loop of [_removeAllVerticesFromFace]: the last vertex of the run of
    [face] that starts at [e]. *)
Fixpoint endOfRun (fuel : nat) (ns : list VertexNode.t) (face : fref) (e : vref)
  : option vref :=
  match fuel with
  | O => None
  | S fuel =>
      v ← ns !! e;
      match VertexNode.next v with
      | None => Some e
      | Some n =>
          vn ← ns !! n;
          if bool_decide (VertexNode.face vn = Some face)
          then endOfRun fuel ns face n
          else Some e
      end
  end.

(** [_removeAllVerticesFromFace( face )]: the result is the first vertex of
    the removed run, or [None] for [undefined]. *)
Definition _removeAllVerticesFromFace (face : fref) (h : ConvexHull)
  : option (option vref * ConvexHull) :=
  f ← faceObjs h !! face;
  match Face.outside f with
  | None => Some (None, h)
  | Some start =>
      e ← endOfRun (S (length (vertexNodes h))) (vertexNodes h) face start;
      '(ns, L) ← VertexList.removeSubList start e (vertexNodes h, assigned h);
      ns ← modify e (VertexNode.set_next None) ns;
      ns ← modify start (VertexNode.set_prev None) ns;
      fs ← modify face (Face.set_outside None) (faceObjs h);
      Some (Some start, set_faceObjs fs (set_assigned L (set_vertexNodes ns h)))
  end.

(** The [do ... while] of [_deleteFaceVertices] for an absorbing face. *)
Fixpoint absorbLoop (fuel : nat) (absorbingFace : fref) (vertex : vref)
  (h : ConvexHull) : option ConvexHull :=
  match fuel with
  | O => None
  | S fuel =>
      v ← vertexNodes h !! vertex;
      let nextVertex := VertexNode.next v in
      af ← faceObjs h !! absorbingFace;
      let distance := Face.distanceToPoint af (VertexNode.point v) in
      h ← (if gtb distance (tolerance h)
           then _addVertexToFace vertex absorbingFace h
           else '(ns, L) ← VertexList.append vertex (vertexNodes h, unassigned h);
                Some (set_unassigned L (set_vertexNodes ns h)));
      match nextVertex with
      | None => Some h
      | Some n => absorbLoop fuel absorbingFace n h
      end
  end.

(** [_deleteFaceVertices( face, absorbingFace )]; [absorbingFace] is
    [None] when the argument is left out. *)
Definition _deleteFaceVertices (fuel : nat) (face : fref)
  (absorbingFace : option fref) (h : ConvexHull) : option ConvexHull :=
  '(faceVertices, h) ← _removeAllVerticesFromFace face h;
  match faceVertices with
  | None => Some h
  | Some start =>
      match absorbingFace with
      | None =>
          '(ns, L) ← VertexList.appendChain start (vertexNodes h, unassigned h);
          Some (set_unassigned L (set_vertexNodes ns h))
      | Some af => absorbLoop fuel af start h
      end
  end.

(** The [for] loop of [_resolveUnassignedPoints] over the new faces: the
    state is [maxDistance] and [maxFace]. *)
Fixpoint resolveScan (h : ConvexHull) (p : Vector3) (newFaces : list fref)
  (maxDistance : Q) (maxFace : option fref) : option (option fref) :=
  match newFaces with
  | [] => Some maxFace
  | face :: rest =>
      f ← faceObjs h !! face;
      if bool_decide (Face.mark f = Visible) then
        let distance := Face.distanceToPoint f p in
        let '(maxDistance, maxFace) :=
          if gtb distance maxDistance then (distance, Some face)
          else (maxDistance, maxFace) in
        if gtb maxDistance (1000 * tolerance h) then Some maxFace
        else resolveScan h p rest maxDistance maxFace
      else resolveScan h p rest maxDistance maxFace
  end.

(** The [do ... while] of [_resolveUnassignedPoints]. *)
Fixpoint resolveLoop (fuel : nat) (newFaces : list fref) (vertex : vref)
  (h : ConvexHull) : option ConvexHull :=
  match fuel with
  | O => None
  | S fuel =>
      v ← vertexNodes h !! vertex;
      let nextVertex := VertexNode.next v in
      maxFace ← resolveScan h (VertexNode.point v) newFaces (tolerance h) None;
      h ← match maxFace with
          | Some f => _addVertexToFace vertex f h
          | None => Some h
          end;
      match nextVertex with
      | None => Some h
      | Some n => resolveLoop fuel newFaces n h
      end
  end.

(** [_resolveUnassignedPoints( newFaces )] *)
Definition _resolveUnassignedPoints (fuel : nat) (newFaces : list fref)
  (h : ConvexHull) : option ConvexHull :=
  if VertexList.isEmpty (unassigned h) then Some h
  else
    vertex ← VertexList.first (unassigned h);
    resolveLoop fuel newFaces vertex h.

(** The [do ... while] of [_nextVertexToAdd]: the state is [maxDistance] and
    [eyeVertex]. *)
Fixpoint farthestOfRun (fuel : nat) (h : ConvexHull) (eyeFace : fref)
  (vertex : vref) (maxDistance : Q) (eyeVertex : option vref)
  : option (option vref) :=
  match fuel with
  | O => None
  | S fuel =>
      f ← faceObjs h !! eyeFace;
      v ← vertexNodes h !! vertex;
      let distance := Face.distanceToPoint f (VertexNode.point v) in
      let '(maxDistance, eyeVertex) :=
        if gtb distance maxDistance then (distance, Some vertex)
        else (maxDistance, eyeVertex) in
      match VertexNode.next v with
      | None => Some eyeVertex
      | Some n =>
          vn ← vertexNodes h !! n;
          if bool_decide (VertexNode.face vn = Some eyeFace)
          then farthestOfRun fuel h eyeFace n maxDistance eyeVertex
          else Some eyeVertex
      end
  end.

(** [_nextVertexToAdd()]: [Some None] is the result [undefined]. *)
Definition _nextVertexToAdd (h : ConvexHull) : option (option vref) :=
  if VertexList.isEmpty (assigned h) then Some None
  else
    hd ← VertexList.first (assigned h);
    vhd ← vertexNodes h !! hd;
    eyeFace ← VertexNode.face vhd;
    f ← faceObjs h !! eyeFace;
    vertex ← Face.outside f;
    farthestOfRun (S (length (vertexNodes h))) h eyeFace vertex 0 None.

(** [_reindexFaces()] *)
Definition _reindexFaces (h : ConvexHull) : option ConvexHull :=
  activeFaces ← (fix loop (fs : list fref) : option (list fref) :=
                   match fs with
                   | [] => Some []
                   | face :: fs =>
                       f ← faceObjs h !! face;
                       rest ← loop fs;
                       Some (if bool_decide (Face.mark f = Visible)
                             then face :: rest else rest)
                   end) (faces h);
  Some (set_faces activeFaces h).

(** [_cleanup()] *)
Definition _cleanup (h : ConvexHull) : ConvexHull :=
  set_newFaces []
    (set_unassigned (VertexList.clear (unassigned h))
       (set_assigned (VertexList.clear (assigned h)) h)).

(** ** HalfEdge and Face methods over the store *)

(** [head()] *)
Definition HalfEdge_head (es : list HalfEdge.t) (e : eref) : option vref :=
  HalfEdge.vertex <$> es !! e.

(** [tail()]: [Some None] is the result [null]. *)
Definition HalfEdge_tail (es : list HalfEdge.t) (e : eref) : option (option vref) :=
  ed ← es !! e;
  match HalfEdge.prev ed with
  | None => Some None
  | Some p => pe ← es !! p; Some (Some (HalfEdge.vertex pe))
  end.

(** [setTwin( edge )] *)
Definition HalfEdge_setTwin (this edge : eref) (es : list HalfEdge.t)
  : option (list HalfEdge.t) :=
  es ← modify this (HalfEdge.set_twin (Some edge)) es;
  modify edge (HalfEdge.set_twin (Some this)) es.

(** The two [while] loops of [getEdge]: [n] times [edge = edge.next] (or
    [edge.prev]). *)
Fixpoint followLink (link : HalfEdge.t → option eref) (n : nat)
  (es : list HalfEdge.t) (edge : option eref) : option (option eref) :=
  match n with
  | O => Some edge
  | S n => e ← edge; ed ← es !! e; followLink link n es (link ed)
  end.

(** [getEdge( i )]; every caller dereferences the result, so that a [null]
    result is a failure as well. *)
Definition Face_getEdge (h : ConvexHull) (face : fref) (i : Z) : option eref :=
  f ← faceObjs h !! face;
  r ← (if (0 <? i)%Z
       then followLink HalfEdge.next (Z.to_nat i) (halfEdges h) (Face.edge f)
       else followLink HalfEdge.prev (Z.to_nat (- i)) (halfEdges h) (Face.edge f));
  r.

Section Hull.

Variable three : Three.

(** [compute()] *)
Definition Face_compute (face : fref) (h : ConvexHull) : option ConvexHull :=
  f ← faceObjs h !! face;
  e ← Face.edge f;
  ta ← HalfEdge_tail (halfEdges h) e;
  a ← ta;
  b ← HalfEdge_head (halfEdges h) e;
  ed ← halfEdges h !! e;
  en ← HalfEdge.next ed;
  c ← HalfEdge_head (halfEdges h) en;
  va ← vertexNodes h !! a;
  vb ← vertexNodes h !! b;
  vc ← vertexNodes h !! c;
  let pa := VertexNode.point va in
  let pb := VertexNode.point vb in
  let pc := VertexNode.point vc in
  let normal := getNormal three pa pb pc in
  let midpoint := getMidpoint three pa pb pc in
  let area := getArea three pa pb pc in
  fs ← modify face
         (λ f, Face.set_constant (dot normal midpoint)
                 (Face.set_area area
                    (Face.set_midpoint midpoint (Face.set_normal normal f))))
         (faceObjs h);
  Some (set_faceObjs fs h).

(** [Face.create( a, b, c )]: the new face and its three half-edges are
    allocated at the end of their arenas. *)
Definition Face_create (a b c : vref) (h : ConvexHull) : option (fref * ConvexHull) :=
  let face := length (faceObjs h) in
  let e0 := length (halfEdges h) in
  let e1 := S e0 in
  let e2 := S e1 in
  let fs := faceObjs h ++ [Face.new] in
  let es := halfEdges h ++
            [HalfEdge.new a face; HalfEdge.new b face; HalfEdge.new c face] in
  es ← modify e2 (HalfEdge.set_prev (Some e1)) es;
  es ← modify e0 (HalfEdge.set_next (Some e1)) es;
  es ← modify e0 (HalfEdge.set_prev (Some e2)) es;
  es ← modify e1 (HalfEdge.set_next (Some e2)) es;
  es ← modify e1 (HalfEdge.set_prev (Some e0)) es;
  es ← modify e2 (HalfEdge.set_next (Some e0)) es;
  fs ← modify face (Face.set_edge (Some e0)) fs;
  h ← Face_compute face (set_halfEdges es (set_faceObjs fs h));
  Some (face, h).

(** ** ConvexHull: the initial hull *)

(** The state of the loops of [_computeExtremes]. *)
Record Extremes := mkExtremes {
  ext_min : Vector3;
  ext_max : Vector3;
  minVertices : list vref;
  maxVertices : list vref
}.

Definition updateMin (vertex : vref) (point : Vector3) (e : Extremes) (j : nat)
  : Extremes :=
  if ltb (getComponent point j) (getComponent (ext_min e) j)
  then mkExtremes (setComponent (ext_min e) j (getComponent point j)) (ext_max e)
                  (<[j := vertex]> (minVertices e)) (maxVertices e)
  else e.

Definition updateMax (vertex : vref) (point : Vector3) (e : Extremes) (j : nat)
  : Extremes :=
  if gtb (getComponent point j) (getComponent (ext_max e) j)
  then mkExtremes (ext_min e) (setComponent (ext_max e) j (getComponent point j))
                  (minVertices e) (<[j := vertex]> (maxVertices e))
  else e.

Fixpoint extremesLoop (ns : list VertexNode.t) (vs : list vref) (e : Extremes)
  : option Extremes :=
  match vs with
  | [] => Some e
  | vertex :: vs =>
      v ← ns !! vertex;
      let point := VertexNode.point v in
      let e := fold_left (updateMin vertex point) [0; 1; 2]%nat e in
      let e := fold_left (updateMax vertex point) [0; 1; 2]%nat e in
      extremesLoop ns vs e
  end.

(** The tolerance computed from the two corner vectors. *)
Definition toleranceOf (min max : Vector3) : Q :=
  3 * EPSILON * (Qmax (Qabs (x min)) (Qabs (x max)) +
                 Qmax (Qabs (y min)) (Qabs (y max)) +
                 Qmax (Qabs (z min)) (Qabs (z max))).

(** [_computeExtremes()] *)
Definition _computeExtremes (h : ConvexHull) : option (Extremes * ConvexHull) :=
  first ← vertices h !! 0%nat;
  v ← vertexNodes h !! first;
  let e := mkExtremes (VertexNode.point v) (VertexNode.point v)
                      [first; first; first] [first; first; first] in
  e ← extremesLoop (vertexNodes h) (vertices h) e;
  Some (e, set_tolerance (toleranceOf (ext_min e) (ext_max e)) h).

Definition pointOf (h : ConvexHull) (v : vref) : option Vector3 :=
  VertexNode.point <$> vertexNodes h !! v.

(** Step 1 of [_computeInitialHull]: the axis of greatest separation. *)
Fixpoint widestAxis (h : ConvexHull) (min max : list vref) (axes : list nat)
  (maxDistance : Q) (index : nat) : option nat :=
  match axes with
  | [] => Some index
  | i :: axes =>
      mx ← max !! i; pmx ← pointOf h mx;
      mn ← min !! i; pmn ← pointOf h mn;
      let distance := getComponent pmx i - getComponent pmn i in
      if gtb distance maxDistance
      then widestAxis h min max axes distance i
      else widestAxis h min max axes maxDistance index
  end.

(** Step 2: the vertex farthest from the line through [v0] and [v1]. *)
Fixpoint farthestFromLine (h : ConvexHull) (v0 v1 : vref) (p0 p1 : Vector3)
  (vs : list vref) (maxDistance : Q) (v2 : option vref) : option (option vref) :=
  match vs with
  | [] => Some v2
  | vertex :: vs =>
      if bool_decide (vertex ≠ v0) && bool_decide (vertex ≠ v1) then
        p ← pointOf h vertex;
        let closest := closestPointToPoint three p0 p1 p in
        let distance := distanceToSquared closest p in
        if gtb distance maxDistance
        then farthestFromLine h v0 v1 p0 p1 vs distance (Some vertex)
        else farthestFromLine h v0 v1 p0 p1 vs maxDistance v2
      else farthestFromLine h v0 v1 p0 p1 vs maxDistance v2
  end.

(** Step 3: the vertex farthest from the plane through [v0], [v1], [v2]. *)
Fixpoint farthestFromPlane (h : ConvexHull) (v0 v1 v2 : vref) (plane : Plane)
  (vs : list vref) (maxDistance : Q) (v3 : option vref) : option (option vref) :=
  match vs with
  | [] => Some v3
  | vertex :: vs =>
      if bool_decide (vertex ≠ v0) && bool_decide (vertex ≠ v1)
         && bool_decide (vertex ≠ v2) then
        p ← pointOf h vertex;
        let distance := Qabs (planeDistanceToPoint three plane p) in
        if gtb distance maxDistance
        then farthestFromPlane h v0 v1 v2 plane vs distance (Some vertex)
        else farthestFromPlane h v0 v1 v2 plane vs maxDistance v3
      else farthestFromPlane h v0 v1 v2 plane vs maxDistance v3
  end.

(** [a.setTwin( b )] for the edges [fa.getEdge( i )] and [fb.getEdge( j )]. *)
Definition joinEdges (fa : fref) (i : Z) (fb : fref) (j : Z) (h : ConvexHull)
  : option ConvexHull :=
  a ← Face_getEdge h fa i;
  b ← Face_getEdge h fb j;
  es ← HalfEdge_setTwin a b (halfEdges h);
  Some (set_halfEdges es h).

(** The two loops that set the twin edges of the tetrahedron; [outward]
    tells which of the two branches is taken. *)
Fixpoint joinTetrahedron (outward : bool) (fl : list fref) (ixs : list nat)
  (h : ConvexHull) : option ConvexHull :=
  match ixs with
  | [] => Some h
  | i :: ixs =>
      let j := ((i + 1) mod 3)%nat in
      f0 ← fl !! 0%nat;
      fi ← fl !! (i + 1)%nat;
      fj ← fl !! (j + 1)%nat;
      h ← (if outward then
             h ← joinEdges fi 2 f0 (Z.of_nat j) h;
             joinEdges fi 1 fj 0 h
           else
             h ← joinEdges fi 2 f0 (Z.of_nat ((3 - i) mod 3)) h;
             joinEdges fi 0 fj 1 h);
      joinTetrahedron outward fl ixs h
  end.

(** The search of the face a vertex is farthest outside of, over the first
    four faces of the hull: the state is [maxDistance] and [maxFace]. *)
Fixpoint initialScan (h : ConvexHull) (p : Vector3) (js : list nat)
  (maxDistance : Q) (maxFace : option fref) : option (option fref) :=
  match js with
  | [] => Some maxFace
  | j :: js =>
      face ← faces h !! j;
      f ← faceObjs h !! face;
      let distance := Face.distanceToPoint f p in
      if gtb distance maxDistance
      then initialScan h p js distance (Some face)
      else initialScan h p js maxDistance maxFace
  end.

(** The initial assignment of the vertices to the faces of the
    tetrahedron. *)
Fixpoint initialAssign (v0 v1 v2 v3 : vref) (vs : list vref) (h : ConvexHull)
  : option ConvexHull :=
  match vs with
  | [] => Some h
  | vertex :: vs =>
      h ← (if bool_decide (vertex ≠ v0) && bool_decide (vertex ≠ v1)
              && bool_decide (vertex ≠ v2) && bool_decide (vertex ≠ v3) then
             p ← pointOf h vertex;
             maxFace ← initialScan h p [0; 1; 2; 3]%nat (tolerance h) None;
             match maxFace with
             | Some f => _addVertexToFace vertex f h
             | None => Some h
             end
           else Some h);
      initialAssign v0 v1 v2 v3 vs h
  end.

(** The four faces of the tetrahedron, in the order of the source. *)
Definition createTetrahedron (outward : bool) (v0 v1 v2 v3 : vref) (h : ConvexHull)
  : option (list fref * ConvexHull) :=
  if outward then
    '(f0, h) ← Face_create v0 v1 v2 h;
    '(f1, h) ← Face_create v3 v1 v0 h;
    '(f2, h) ← Face_create v3 v2 v1 h;
    '(f3, h) ← Face_create v3 v0 v2 h;
    Some ([f0; f1; f2; f3], h)
  else
    '(f0, h) ← Face_create v0 v2 v1 h;
    '(f1, h) ← Face_create v3 v0 v1 h;
    '(f2, h) ← Face_create v3 v1 v2 h;
    '(f3, h) ← Face_create v3 v2 v0 h;
    Some ([f0; f1; f2; f3], h).

(** [_computeInitialHull()] *)
Definition _computeInitialHull (h : ConvexHull) : option ConvexHull :=
  '(extremes, h) ← _computeExtremes h;
  let min := minVertices extremes in
  let max := maxVertices extremes in
  index ← widestAxis h min max [0; 1; 2]%nat 0 0%nat;
  v0 ← min !! index;
  v1 ← max !! index;
  p0 ← pointOf h v0;
  p1 ← pointOf h v1;
  ov2 ← farthestFromLine h v0 v1 p0 p1 (vertices h) 0 None;
  v2 ← ov2;
  p2 ← pointOf h v2;
  let plane := setFromCoplanarPoints three p0 p1 p2 in
  ov3 ← farthestFromPlane h v0 v1 v2 plane (vertices h) (-1) None;
  v3 ← ov3;
  p3 ← pointOf h v3;
  let outward := ltb (planeDistanceToPoint three plane p3) 0 in
  '(fl, h) ← createTetrahedron outward v0 v1 v2 v3 h;
  h ← joinTetrahedron outward fl [0; 1; 2]%nat h;
  let h := set_faces (faces h ++ fl) h in
  initialAssign v0 v1 v2 v3 (vertices h) h.

(** ** ConvexHull: adding a vertex *)

(** The [do ... while] of [_computeHorizon] over the edges of the face;
    [recurse] is the recursive call of [_computeHorizon]. *)
Fixpoint horizonLoop
  (recurse : option eref → fref → list eref * ConvexHull → option (list eref * ConvexHull))
  (eyePoint : Vector3) (crossEdge : eref) (budget : nat) (edge : eref)
  (st : list eref * ConvexHull) : option (list eref * ConvexHull) :=
  match budget with
  | O => None
  | S budget =>
      let '(horizon, h) := st in
      ed ← halfEdges h !! edge;
      twinEdge ← HalfEdge.twin ed;
      td ← halfEdges h !! twinEdge;
      let oppositeFace := HalfEdge.face td in
      opp ← faceObjs h !! oppositeFace;
      st ← (if bool_decide (Face.mark opp = Visible) then
              if gtb (Face.distanceToPoint opp eyePoint) (tolerance h)
              then recurse (Some twinEdge) oppositeFace (horizon, h)
              else Some (horizon ++ [edge], h)
            else Some (horizon, h));
      ed ← halfEdges st.2 !! edge;
      n ← HalfEdge.next ed;
      if bool_decide (n = crossEdge) then Some st
      else horizonLoop recurse eyePoint crossEdge budget n st
  end.

(** [_computeHorizon( eyePoint, crossEdge, face, horizon )]: the recursion
    and its [do ... while] share one budget. *)
Fixpoint _computeHorizon (fuel : nat) (eyePoint : Vector3)
  (crossEdge : option eref) (face : fref) (st : list eref * ConvexHull)
  : option (list eref * ConvexHull) :=
  match fuel with
  | O => None
  | S fuel =>
      let '(horizon, h) := st in
      h ← _deleteFaceVertices fuel face None h;
      fs ← modify face (Face.set_mark Deleted) (faceObjs h);
      let h := set_faceObjs fs h in
      '(edge, crossEdge) ←
        match crossEdge with
        | None => e ← Face_getEdge h face 0; Some (e, e)
        | Some ce => ced ← halfEdges h !! ce; e ← HalfEdge.next ced; Some (e, ce)
        end;
      horizonLoop (_computeHorizon fuel eyePoint) eyePoint crossEdge fuel edge
                  (horizon, h)
  end.

(** [_addAdjoiningFace( eyeVertex, horizonEdge )] *)
Definition _addAdjoiningFace (eyeVertex : vref) (horizonEdge : eref)
  (h : ConvexHull) : option (eref * ConvexHull) :=
  tl ← HalfEdge_tail (halfEdges h) horizonEdge;
  tl ← tl;
  hd ← HalfEdge_head (halfEdges h) horizonEdge;
  '(face, h) ← Face_create eyeVertex tl hd h;
  let h := set_faces (faces h ++ [face]) h in
  e ← Face_getEdge h face (-1);
  hed ← halfEdges h !! horizonEdge;
  tw ← HalfEdge.twin hed;
  es ← HalfEdge_setTwin e tw (halfEdges h);
  let h := set_halfEdges es h in
  e0 ← Face_getEdge h face 0;
  Some (e0, h).

(** The loop of [_addNewFaces]: the state is [firstSideEdge] and
    [previousSideEdge]. *)
Fixpoint addNewFacesLoop (eyeVertex : vref) (horizon : list eref)
  (firstSideEdge previousSideEdge : option eref) (h : ConvexHull)
  : option (option eref * option eref * ConvexHull) :=
  match horizon with
  | [] => Some (firstSideEdge, previousSideEdge, h)
  | horizonEdge :: horizon =>
      '(sideEdge, h) ← _addAdjoiningFace eyeVertex horizonEdge h;
      '(firstSideEdge, h) ←
        match firstSideEdge with
        | None => Some (Some sideEdge, h)
        | Some _ =>
            sd ← halfEdges h !! sideEdge;
            n ← HalfEdge.next sd;
            p ← previousSideEdge;
            es ← HalfEdge_setTwin n p (halfEdges h);
            Some (firstSideEdge, set_halfEdges es h)
        end;
      sd ← halfEdges h !! sideEdge;
      let h := set_newFaces (newFaces h ++ [HalfEdge.face sd]) h in
      addNewFacesLoop eyeVertex horizon firstSideEdge (Some sideEdge) h
  end.

(** [_addNewFaces( eyeVertex, horizon )] *)
Definition _addNewFaces (eyeVertex : vref) (horizon : list eref) (h : ConvexHull)
  : option ConvexHull :=
  let h := set_newFaces [] h in
  '(firstSideEdge, previousSideEdge, h) ←
    addNewFacesLoop eyeVertex horizon None None h;
  first ← firstSideEdge;
  fd ← halfEdges h !! first;
  n ← HalfEdge.next fd;
  p ← previousSideEdge;
  es ← HalfEdge_setTwin n p (halfEdges h);
  Some (set_halfEdges es h).

(** [_addVertexToHull( eyeVertex )] *)
Definition _addVertexToHull (fuel : nat) (eyeVertex : vref) (h : ConvexHull)
  : option ConvexHull :=
  let h := set_unassigned (VertexList.clear (unassigned h)) h in
  ev ← vertexNodes h !! eyeVertex;
  eyeFace ← VertexNode.face ev;
  h ← _removeVertexFromFace eyeVertex eyeFace h;
  ev ← vertexNodes h !! eyeVertex;
  eyeFace ← VertexNode.face ev;
  '(horizon, h) ← _computeHorizon fuel (VertexNode.point ev) None eyeFace ([], h);
  h ← _addNewFaces eyeVertex horizon h;
  _resolveUnassignedPoints fuel (newFaces h) h.

(** The [while] loop of [_compute]. *)
Fixpoint computeLoop (fuel : nat) (h : ConvexHull) : option ConvexHull :=
  match fuel with
  | O => None
  | S fuel' =>
      vertex ← _nextVertexToAdd h;
      match vertex with
      | None => Some h
      | Some v => h ← _addVertexToHull fuel v h; computeLoop fuel' h
      end
  end.

(** [_compute()] *)
Definition _compute (fuel : nat) (h : ConvexHull) : option ConvexHull :=
  h ← _computeInitialHull h;
  h ← computeLoop fuel h;
  h ← _reindexFaces h;
  Some (_cleanup h).

(** The loop of [setFromPoints]: [this.vertices.push( new VertexNode( p ) )]
    for every point; the new vertex nodes are allocated at the end of their
    arena. *)
Definition pushVertexNodes (points : list Vector3) (h : ConvexHull) : ConvexHull :=
  fold_left
    (λ h p, set_vertices (vertices h ++ [length (vertexNodes h)])
              (set_vertexNodes (vertexNodes h ++ [VertexNode.new p]) h))
    points h.

(** [setFromPoints( points )] *)
Definition setFromPoints (fuel : nat) (points : list Vector3) (h : ConvexHull)
  : option ConvexHull :=
  if (4 <=? length points)%nat
  then _compute fuel (pushVertexNodes points (makeEmpty h))
  else Some h.

End Hull.

(** ** An exact geometry

    The operations of [three] the hull is written against, over the
    rationals.  The square root is exact on the squares of rationals and
    rounds down elsewhere, so that the geometry is the one of [three]
    wherever all the lengths that occur are rational. *)

Definition sqrtQ (q : Q) : Q :=
  let r := Qred q in Z.sqrt (Qnum r) # Pos.sqrt (Qden r).

(** [Vector3.normalize()]: [divideScalar( length() || 1 )]. *)
Definition normalize (v : Vector3) : Vector3 :=
  let l := sqrtQ (lengthSq v) in
  multiplyScalar v (1 / (if Qeq_bool l 0 then 1 else l)).

Definition exact_getNormal (a b c : Vector3) : Vector3 :=
  let target := cross (subVectors c b) (subVectors a b) in
  let targetLengthSq := lengthSq target in
  if gtb targetLengthSq 0
  then multiplyScalar target (1 / sqrtQ targetLengthSq)
  else V3 0 0 0.

Definition exact_getMidpoint (a b c : Vector3) : Vector3 :=
  multiplyScalar (addVectors (addVectors a b) c) (1 / 3).

Definition exact_getArea (a b c : Vector3) : Q :=
  sqrtQ (lengthSq (cross (subVectors c b) (subVectors a b))) * (1 # 2).

Definition exact_setFromCoplanarPoints (a b c : Vector3) : Plane :=
  let normal := normalize (cross (subVectors c b) (subVectors a b)) in
  mkPlane normal (- dot a normal).

Definition exact_planeDistanceToPoint (p : Plane) (point : Vector3) : Q :=
  dot (plane_normal p) point + plane_constant p.

Definition exact_closestPointToPoint (lstart lend point : Vector3) : Vector3 :=
  let startP := subVectors point lstart in
  let startEnd := subVectors lend lstart in
  let t := dot startEnd startP / dot startEnd startEnd in
  let t := Qmax 0 (Qmin 1 t) in
  addVectors (multiplyScalar startEnd t) lstart.

Definition exactThree : Three :=
  mkThree exact_getNormal exact_getMidpoint exact_getArea
          exact_setFromCoplanarPoints exact_planeDistanceToPoint
          exact_closestPointToPoint.

(** * Properties *)

(** ** Comparisons *)

Lemma gtb_true a b : gtb a b = true ↔ b < a.
Proof.
  unfold gtb. rewrite negb_true_iff, <- not_true_iff_false, Qle_bool_iff.
  split; [apply Qnot_le_lt | apply Qlt_not_le].
Qed.

Lemma gtb_false a b : gtb a b = false ↔ a <= b.
Proof. unfold gtb. rewrite negb_false_iff. apply Qle_bool_iff. Qed.

Lemma ltb_true a b : ltb a b = true ↔ a < b.
Proof. apply gtb_true. Qed.

Lemma ltb_false a b : ltb a b = false ↔ b <= a.
Proof. apply gtb_false. Qed.

Lemma geb_true a b : geb a b = true ↔ b <= a.
Proof. apply Qle_bool_iff. Qed.

Lemma leb_true a b : leb a b = true ↔ a <= b.
Proof. apply Qle_bool_iff. Qed.

(** ** containsPoint *)

Lemma containsPoint_faces h point :
  containsPoint h point = true ↔
  Forall (λ face, Face.distanceToPoint face point <= tolerance h) (hullFaces h).
Proof.
  unfold containsPoint. generalize (hullFaces h) as fs.
  induction fs as [|face fs IH].
  - split; [constructor | reflexivity].
  - destruct (gtb (Face.distanceToPoint face point) (tolerance h)) eqn:E.
    + split; [discriminate |].
      intros HF. apply Forall_cons_1 in HF as [Hle _].
      apply gtb_false in Hle. congruence.
    + rewrite IH. apply gtb_false in E. split.
      * intros HF. by constructor.
      * intros HF. by apply Forall_cons_1 in HF as [_ HF].
Qed.

(** ** The arenas *)

Lemma modify_Some {A} (l : list A) i f a :
  l !! i = Some a → modify i f l = Some (<[i := f a]> l).
Proof. intros H. unfold modify. by rewrite H. Qed.

Lemma lookup_app_plus {A} (l r : list A) i :
  (l ++ r) !! (length l + i)%nat = r !! i.
Proof. rewrite lookup_app_r by lia. f_equal. lia. Qed.

Lemma modify_app_r {A} (l r : list A) i f :
  modify (length l + i) f (l ++ r) = (app l) <$> modify i f r.
Proof.
  unfold modify. rewrite lookup_app_plus.
  destruct (r !! i); simpl; [|done]. by rewrite insert_app_r.
Qed.

Lemma modify_app_r0 {A} (l r : list A) f :
  modify (length l) f (l ++ r) = (app l) <$> modify 0 f r.
Proof. rewrite <- modify_app_r. f_equal. lia. Qed.

Lemma modify_length {A} (l l' : list A) i f :
  modify i f l = Some l' → length l' = length l.
Proof.
  unfold modify. destruct (l !! i); simpl; [|done].
  intros [= <-]. apply length_insert.
Qed.

(** ** Face.create *)

(** The face and the half-edges that [Face.create( a, b, c )] allocates. *)
Definition createdFace (three : Three) (pa pb pc : Vector3) (e0 : eref) : Face.t :=
  let normal := getNormal three pc pa pb in
  let midpoint := getMidpoint three pc pa pb in
  Face.mk normal midpoint (getArea three pc pa pb) (dot normal midpoint)
          None Visible (Some e0).

Definition createdEdges (a b c : vref) (face : fref) (e0 : eref) : list HalfEdge.t :=
  [ HalfEdge.mk a (Some (S (S e0))) (Some (S e0)) None face;
    HalfEdge.mk b (Some e0) (Some (S (S e0))) None face;
    HalfEdge.mk c (Some (S e0)) (Some e0) None face ].

Lemma Face_create_spec three a b c h va vb vc :
  vertexNodes h !! a = Some va →
  vertexNodes h !! b = Some vb →
  vertexNodes h !! c = Some vc →
  Face_create three a b c h =
  Some (length (faceObjs h),
        set_faceObjs
          (faceObjs h ++ [createdFace three (VertexNode.point va) (VertexNode.point vb)
                            (VertexNode.point vc) (length (halfEdges h))])
          (set_halfEdges
             (halfEdges h ++ createdEdges a b c (length (faceObjs h)) (length (halfEdges h)))
             h)).
Proof.
  intros Ha Hb Hc. unfold Face_create.
  replace (S (S (length (halfEdges h)))) with (length (halfEdges h) + 2)%nat by lia.
  replace (S (length (halfEdges h))) with (length (halfEdges h) + 1)%nat by lia.
  rewrite (modify_app_r (halfEdges h)). simpl.
  rewrite (modify_app_r0 (halfEdges h)). simpl.
  rewrite (modify_app_r0 (halfEdges h)). simpl.
  rewrite (modify_app_r (halfEdges h)). simpl.
  rewrite (modify_app_r (halfEdges h)). simpl.
  rewrite (modify_app_r (halfEdges h)). simpl.
  rewrite (modify_app_r0 (faceObjs h)). simpl.
  unfold Face_compute. simpl.
  rewrite (list_lookup_middle _ _ _ (length (faceObjs h))) by done. simpl.
  unfold HalfEdge_tail, HalfEdge_head.
  rewrite (list_lookup_middle _ _ _ (length (halfEdges h))) by done. simpl.
  rewrite !lookup_app_plus. simpl.
  rewrite Ha, Hb, Hc. simpl.
  rewrite (modify_app_r0 (faceObjs h)). simpl.
  unfold createdFace, createdEdges.
  replace (length (halfEdges h) + 2)%nat with (S (S (length (halfEdges h)))) by lia.
  replace (length (halfEdges h) + 1)%nat with (S (length (halfEdges h))) by lia.
  reflexivity.
Qed.

(** C6.  [Face.create] (through [Face.compute]) stores in the face the
    normal, the midpoint and the area of the triangle of the points of the
    tail of its edge, the head of its edge and the head of the next edge,
    and as plane constant the dot product of this normal with this
    midpoint; the signed distance of a point to the face is the dot product
    of the face's normal with the point minus the plane constant, so that
    the midpoint of the face is at distance zero. *)
Theorem distanceToPoint_and_plane_constant (three : Three) (a b c : vref)
  (h : ConvexHull) :
  is_Some (vertexNodes h !! a) →
  is_Some (vertexNodes h !! b) →
  is_Some (vertexNodes h !! c) →
  ∃ face h' f pa pb pc,
    Face_create three a b c h = Some (face, h') ∧
    faceObjs h' !! face = Some f ∧
    pointOf h a = Some pa ∧ pointOf h b = Some pb ∧ pointOf h c = Some pc ∧
    HalfEdge_tail (halfEdges h') (length (halfEdges h)) = Some (Some c) ∧
    HalfEdge_head (halfEdges h') (length (halfEdges h)) = Some a ∧
    HalfEdge_head (halfEdges h') (S (length (halfEdges h))) = Some b ∧
    Face.edge f = Some (length (halfEdges h)) ∧
    Face.normal f = getNormal three pc pa pb ∧
    Face.midpoint f = getMidpoint three pc pa pb ∧
    Face.area f = getArea three pc pa pb ∧
    Face.constant f = dot (getNormal three pc pa pb) (getMidpoint three pc pa pb) ∧
    Face.constant f = dot (Face.normal f) (Face.midpoint f) ∧
    (∀ point, Face.distanceToPoint f point = dot (Face.normal f) point - Face.constant f) ∧
    Face.distanceToPoint f (Face.midpoint f) == 0.
Proof.
  intros [va Ha] [vb Hb] [vc Hc].
  exists (length (faceObjs h)). eexists.
  exists (createdFace three (VertexNode.point va) (VertexNode.point vb)
            (VertexNode.point vc) (length (halfEdges h))).
  exists (VertexNode.point va), (VertexNode.point vb), (VertexNode.point vc).
  split; [by eapply Face_create_spec|].
  assert (He0 : (halfEdges h ++ createdEdges a b c (length (faceObjs h))
                   (length (halfEdges h))) !! length (halfEdges h)
                = Some (HalfEdge.mk a (Some (S (S (length (halfEdges h)))))
                          (Some (S (length (halfEdges h)))) None (length (faceObjs h)))).
  { by rewrite <- (Nat.add_0_r (length (halfEdges h))) at 1; rewrite lookup_app_plus. }
  assert (He1 : (halfEdges h ++ createdEdges a b c (length (faceObjs h))
                   (length (halfEdges h))) !! S (length (halfEdges h))
                = Some (HalfEdge.mk b (Some (length (halfEdges h)))
                          (Some (S (S (length (halfEdges h))))) None (length (faceObjs h)))).
  { replace (S (length (halfEdges h))) with (length (halfEdges h) + 1)%nat at 1 by lia.
    by rewrite lookup_app_plus. }
  assert (He2 : (halfEdges h ++ createdEdges a b c (length (faceObjs h))
                   (length (halfEdges h))) !! S (S (length (halfEdges h)))
                = Some (HalfEdge.mk c (Some (S (length (halfEdges h))))
                          (Some (length (halfEdges h))) None (length (faceObjs h)))).
  { replace (S (S (length (halfEdges h)))) with (length (halfEdges h) + 2)%nat at 1 by lia.
    by rewrite lookup_app_plus. }
  unfold pointOf. rewrite Ha, Hb, Hc. simpl.
  split_and!; try reflexivity.
  - by apply list_lookup_middle.
  - unfold HalfEdge_tail. rewrite He0. simpl. by rewrite He2.
  - unfold HalfEdge_head. by rewrite He0.
  - unfold HalfEdge_head. by rewrite He1.
  - unfold Face.distanceToPoint. simpl. lra.
Qed.

(** ** setFromPoints with fewer than four points *)

Lemma containsPoint_no_faces h point : faces h = [] → containsPoint h point = true.
Proof. intros H. unfold containsPoint, hullFaces. by rewrite H. Qed.

(** C2, as the code has it.  [setFromPoints] with fewer than four points
    returns the hull as it was, whatever it held: no field is reset.  On an
    instance whose face list is empty (a new one, or one emptied by
    [makeEmpty]) the face list is therefore empty afterwards, and
    [containsPoint] on a hull without faces is [true] for every point. *)
Theorem setFromPoints_few_points (three : Three) (fuel : nat)
  (points : list Vector3) (h : ConvexHull) :
  (length points < 4)%nat →
  setFromPoints three fuel points h = Some h ∧
  (faces h = [] → ∀ point, containsPoint h point = true).
Proof.
  intros Hlen. split.
  - unfold setFromPoints.
    destruct (4 <=? length points)%nat eqn:E; [|done].
    apply Nat.leb_le in E. lia.
  - intros Hf point. by apply containsPoint_no_faces.
Qed.

(** The methods are unfolded by name only. *)
Arguments VertexList.insertBefore : simpl never.
Arguments VertexList.insertAfter : simpl never.
Arguments VertexList.append : simpl never.
Arguments VertexList.appendChain : simpl never.
Arguments VertexList.remove : simpl never.
Arguments VertexList.removeSubList : simpl never.
Arguments _addVertexToFace : simpl never.
Arguments _removeVertexFromFace : simpl never.
Arguments _removeAllVerticesFromFace : simpl never.
Arguments _deleteFaceVertices : simpl never.
Arguments _resolveUnassignedPoints : simpl never.
Arguments _nextVertexToAdd : simpl never.
Arguments _reindexFaces : simpl never.
Arguments Face_getEdge : simpl never.
Arguments Face_compute : simpl never.
Arguments Face_create : simpl never.
Arguments HalfEdge_setTwin : simpl never.
Arguments HalfEdge_tail : simpl never.
Arguments HalfEdge_head : simpl never.
Arguments joinEdges : simpl never.
Arguments createTetrahedron : simpl never.
Arguments _computeExtremes : simpl never.
Arguments _computeInitialHull : simpl never.
Arguments _addAdjoiningFace : simpl never.
Arguments _addNewFaces : simpl never.
Arguments _addVertexToHull : simpl never.
Arguments _compute : simpl never.
Arguments setFromPoints : simpl never.
Arguments modify : simpl never.

(** ** Frames: what the vertex bookkeeping leaves alone *)

(** Inversion of a successful run of the option monad. *)
Ltac inv_opt :=
  repeat match goal with
  | H : Some _ = Some _ |- _ => injection H as H; subst
  | H : None = Some _ |- _ => discriminate H
  | H : (_, _) = (_, _) |- _ => injection H as ? ?; subst
  | H : mbind _ _ = Some _ |- _ =>
      let E := fresh "E" in
      apply bind_Some in H as (? & E & H)
  | H : (let '(_, _) := ?p in _) = Some _ |- _ => destruct p
  | H : (match ?x with _ => _ end) = Some _ |- _ =>
      let E := fresh "E" in destruct x eqn:E
  end.

Lemma modify_view {A B} (view : A → B) i g (l l' : list A) :
  (∀ a, view (g a) = view a) →
  modify i g l = Some l' → map view l' = map view l.
Proof.
  intros Hg H. unfold modify in H. inv_opt.
  etransitivity; [apply (list_fmap_insert view)|].
  rewrite Hg. apply list_insert_id. by rewrite list_lookup_fmap, E.
Qed.

Lemma modify_lookup {A} i g (l l' : list A) j :
  modify i g l = Some l' →
  l' !! j = if decide (i = j) then g <$> l !! i else l !! j.
Proof.
  intros H. unfold modify in H. inv_opt.
  destruct (decide (i = j)) as [->|Hne].
  - rewrite E. simpl. apply list_lookup_insert_eq. by eapply lookup_lt_Some.
  - by apply list_lookup_insert_ne.
Qed.

(** The part of a face that only [Face.create] and [_computeHorizon] set. *)
Definition faceShape (f : Face.t) :=
  (Face.normal f, Face.midpoint f, Face.area f, Face.constant f, Face.mark f,
   Face.edge f).

(** Everything of a hull but the vertex lists, the links and face references
    of the vertex nodes, and the [outside] references of the faces. *)
Definition meshView (h : ConvexHull) :=
  (tolerance h, faces h, newFaces h, vertices h, halfEdges h,
   map faceShape (faceObjs h), map VertexNode.point (vertexNodes h)).

Definition samePoints (ns ns' : list VertexNode.t) : Prop :=
  map VertexNode.point ns' = map VertexNode.point ns.

Ltac same_points :=
  unfold samePoints in *;
  repeat match goal with
  | H : modify _ _ _ = Some _ |- _ =>
      apply (modify_view VertexNode.point) in H; [|by intros []]
  end; congruence.

Lemma insertBefore_points target vertex ns L ns' L' :
  VertexList.insertBefore target vertex (ns, L) = Some (ns', L') → samePoints ns ns'.
Proof. unfold VertexList.insertBefore. intros H. inv_opt; same_points. Qed.

Lemma append_points vertex ns L ns' L' :
  VertexList.append vertex (ns, L) = Some (ns', L') → samePoints ns ns'.
Proof. unfold VertexList.append. intros H. inv_opt; same_points. Qed.

Lemma appendChain_points vertex ns L ns' L' :
  VertexList.appendChain vertex (ns, L) = Some (ns', L') → samePoints ns ns'.
Proof. unfold VertexList.appendChain. intros H. inv_opt; same_points. Qed.

Lemma remove_points vertex ns L ns' L' :
  VertexList.remove vertex (ns, L) = Some (ns', L') → samePoints ns ns'.
Proof. unfold VertexList.remove. intros H. inv_opt; same_points. Qed.

Lemma removeSubList_points a b ns L ns' L' :
  VertexList.removeSubList a b (ns, L) = Some (ns', L') → samePoints ns ns'.
Proof. unfold VertexList.removeSubList. intros H. inv_opt; same_points. Qed.

Ltac mesh_view :=
  unfold meshView; simpl;
  repeat match goal with
  | H : modify _ (Face.set_outside _) _ = Some _ |- _ =>
      apply (modify_view faceShape) in H; [|by intros []]
  | H : modify _ _ (vertexNodes _) = Some _ |- _ =>
      apply (modify_view VertexNode.point) in H; [|by intros []]
  | H : modify _ _ _ = Some _ |- _ =>
      apply (modify_view VertexNode.point) in H; [|by intros []]
  | H : VertexList.insertBefore _ _ _ = Some _ |- _ => apply insertBefore_points in H
  | H : VertexList.append _ _ = Some _ |- _ => apply append_points in H
  | H : VertexList.appendChain _ _ = Some _ |- _ => apply appendChain_points in H
  | H : VertexList.remove _ _ = Some _ |- _ => apply remove_points in H
  | H : VertexList.removeSubList _ _ _ = Some _ |- _ => apply removeSubList_points in H
  end;
  unfold samePoints in *; congruence.

Lemma _addVertexToFace_mesh vertex face h h' :
  _addVertexToFace vertex face h = Some h' → meshView h' = meshView h.
Proof. unfold _addVertexToFace. intros H. inv_opt; mesh_view. Qed.

Lemma _removeVertexFromFace_mesh vertex face h h' :
  _removeVertexFromFace vertex face h = Some h' → meshView h' = meshView h.
Proof. unfold _removeVertexFromFace. intros H. inv_opt; mesh_view. Qed.

Lemma _removeAllVerticesFromFace_mesh face h r h' :
  _removeAllVerticesFromFace face h = Some (r, h') → meshView h' = meshView h.
Proof. unfold _removeAllVerticesFromFace. intros H. inv_opt; mesh_view. Qed.

Lemma absorbLoop_mesh fuel af vertex h h' :
  absorbLoop fuel af vertex h = Some h' → meshView h' = meshView h.
Proof.
  revert vertex h. induction fuel as [|fuel IH]; intros vertex h H; [done|].
  simpl in H. inv_opt.
  all: try (apply IH in H; rewrite H).
  all: try (by eapply _addVertexToFace_mesh).
  all: mesh_view.
Qed.

Lemma _deleteFaceVertices_mesh fuel face af h h' :
  _deleteFaceVertices fuel face af h = Some h' → meshView h' = meshView h.
Proof.
  unfold _deleteFaceVertices. intros H. inv_opt.
  all: apply _removeAllVerticesFromFace_mesh in E; rewrite <- E.
  - by eapply absorbLoop_mesh.
  - mesh_view.
  - done.
Qed.

Lemma resolveLoop_mesh fuel newFaces vertex h h' :
  resolveLoop fuel newFaces vertex h = Some h' → meshView h' = meshView h.
Proof.
  revert vertex h. induction fuel as [|fuel IH]; intros vertex h H; [done|].
  simpl in H. inv_opt.
  all: try (apply IH in H; rewrite H).
  all: try (by eapply _addVertexToFace_mesh).
  all: done.
Qed.

Lemma _resolveUnassignedPoints_mesh fuel newFaces h h' :
  _resolveUnassignedPoints fuel newFaces h = Some h' → meshView h' = meshView h.
Proof.
  unfold _resolveUnassignedPoints. intros H. inv_opt; [done|].
  by eapply resolveLoop_mesh.
Qed.

(** ** Frames: what the whole construction leaves alone *)

(** The tolerance, the vertex array and the points of the vertex nodes. *)
Definition inputView (h : ConvexHull) :=
  (tolerance h, vertices h, map VertexNode.point (vertexNodes h)).

Lemma meshView_inputView h h' : meshView h' = meshView h → inputView h' = inputView h.
Proof. unfold meshView, inputView. congruence. Qed.

(** Replace every successful run of a method by the fact [lem] gives. *)
Ltac facts_of lem :=
  repeat match goal with
  | H : _ = Some _ |- _ => apply lem in H
  end.

Section Frames.

Variable three : Three.

Lemma Face_compute_input face h h' :
  Face_compute three face h = Some h' → inputView h' = inputView h.
Proof. unfold Face_compute. intros H. by inv_opt. Qed.

Lemma Face_create_input a b c h face h' :
  Face_create three a b c h = Some (face, h') → inputView h' = inputView h.
Proof.
  unfold Face_create. intros H. inv_opt.
  facts_of Face_compute_input. done.
Qed.

Lemma joinEdges_input fa i fb j h h' :
  joinEdges fa i fb j h = Some h' → inputView h' = inputView h.
Proof. unfold joinEdges. intros H. by inv_opt. Qed.

Lemma joinTetrahedron_input outward fl ixs h h' :
  joinTetrahedron outward fl ixs h = Some h' → inputView h' = inputView h.
Proof.
  revert h. induction ixs as [|i ixs IH]; intros h H; simpl in H; inv_opt; [done|..].
  all: apply IH in H; rewrite H.
  all: facts_of joinEdges_input; congruence.
Qed.

Lemma createTetrahedron_input outward v0 v1 v2 v3 h fl h' :
  createTetrahedron three outward v0 v1 v2 v3 h = Some (fl, h') →
  inputView h' = inputView h.
Proof.
  unfold createTetrahedron. intros H. inv_opt.
  all: facts_of Face_create_input; congruence.
Qed.

Lemma _addVertexToFace_input vertex face h h' :
  _addVertexToFace vertex face h = Some h' → inputView h' = inputView h.
Proof. intros H. by apply _addVertexToFace_mesh, meshView_inputView in H. Qed.

Lemma initialAssign_input v0 v1 v2 v3 vs h h' :
  initialAssign v0 v1 v2 v3 vs h = Some h' → inputView h' = inputView h.
Proof.
  revert h. induction vs as [|v vs IH]; intros h H; simpl in H; inv_opt; [done|..].
  all: apply IH in H; rewrite H; try done.
  all: facts_of _addVertexToFace_input; done.
Qed.

Lemma horizonLoop_input recurse eyePoint crossEdge budget edge st st' :
  (∀ ce f s s', recurse ce f s = Some s' → inputView s'.2 = inputView s.2) →
  horizonLoop recurse eyePoint crossEdge budget edge st = Some st' →
  inputView st'.2 = inputView st.2.
Proof.
  intros Hrec. revert edge st.
  induction budget as [|budget IH]; intros edge [horizon h] H; [done|].
  simpl in H. inv_opt.
  all: try (apply IH in H; rewrite H).
  all: facts_of Hrec; done.
Qed.

Lemma _deleteFaceVertices_input fuel face af h h' :
  _deleteFaceVertices fuel face af h = Some h' → inputView h' = inputView h.
Proof. intros H. by apply _deleteFaceVertices_mesh, meshView_inputView in H. Qed.

Lemma _computeHorizon_input fuel eyePoint crossEdge face st st' :
  _computeHorizon fuel eyePoint crossEdge face st = Some st' →
  inputView st'.2 = inputView st.2.
Proof.
  revert crossEdge face st st'.
  induction fuel as [|fuel IH]; intros crossEdge face [horizon h] st' H; [done|].
  simpl in H. inv_opt.
  all: apply horizonLoop_input in H; [|by apply IH].
  all: rewrite H; simpl.
  all: facts_of _deleteFaceVertices_input; done.
Qed.

Lemma _addAdjoiningFace_input eyeVertex horizonEdge h e h' :
  _addAdjoiningFace three eyeVertex horizonEdge h = Some (e, h') →
  inputView h' = inputView h.
Proof.
  unfold _addAdjoiningFace. intros H. inv_opt.
  facts_of Face_create_input. done.
Qed.

Lemma addNewFacesLoop_input eyeVertex horizon first previous h r h' :
  addNewFacesLoop three eyeVertex horizon first previous h = Some (r, h') →
  inputView h' = inputView h.
Proof.
  revert first previous h.
  induction horizon as [|e horizon IH]; intros first previous h H;
    simpl in H; inv_opt; [done|..].
  all: apply IH in H; rewrite H.
  all: facts_of _addAdjoiningFace_input; done.
Qed.

Lemma _addNewFaces_input eyeVertex horizon h h' :
  _addNewFaces three eyeVertex horizon h = Some h' → inputView h' = inputView h.
Proof.
  unfold _addNewFaces. intros H. inv_opt.
  facts_of addNewFacesLoop_input. done.
Qed.

Lemma _removeVertexFromFace_input vertex face h h' :
  _removeVertexFromFace vertex face h = Some h' → inputView h' = inputView h.
Proof. intros H. by apply _removeVertexFromFace_mesh, meshView_inputView in H. Qed.

Lemma _resolveUnassignedPoints_input fuel newFaces h h' :
  _resolveUnassignedPoints fuel newFaces h = Some h' → inputView h' = inputView h.
Proof. intros H. by apply _resolveUnassignedPoints_mesh, meshView_inputView in H. Qed.

Lemma _addVertexToHull_input fuel eyeVertex h h' :
  _addVertexToHull three fuel eyeVertex h = Some h' → inputView h' = inputView h.
Proof.
  unfold _addVertexToHull. intros H. inv_opt.
  facts_of _resolveUnassignedPoints_input.
  facts_of _addNewFaces_input.
  facts_of _computeHorizon_input.
  facts_of _removeVertexFromFace_input.
  unfold inputView in *. simpl in *. congruence.
Qed.

Lemma computeLoop_input fuel h h' :
  computeLoop three fuel h = Some h' → inputView h' = inputView h.
Proof.
  revert h. induction fuel as [|fuel IH]; intros h H; [done|].
  simpl in H. inv_opt; [|done].
  apply IH in H. facts_of _addVertexToHull_input. congruence.
Qed.

Lemma _reindexFaces_input h h' :
  _reindexFaces h = Some h' → inputView h' = inputView h.
Proof. unfold _reindexFaces. intros H. by inv_opt. Qed.

End Frames.

(** ** The tolerance *)

Lemma pushVertexNodes_spec points h :
  pushVertexNodes points h =
  set_vertices (vertices h ++ seq (length (vertexNodes h)) (length points))
    (set_vertexNodes (vertexNodes h ++ map VertexNode.new points) h).
Proof.
  unfold pushVertexNodes. revert h.
  induction points as [|p points IH]; intros h; simpl.
  - rewrite !app_nil_r. by destruct h.
  - rewrite IH. simpl. rewrite length_app. simpl.
    rewrite <- !app_assoc. simpl.
    by replace (length (vertexNodes h) + 1)%nat with (S (length (vertexNodes h))) by lia.
Qed.

(** The [j]-th coordinates of a list of points. *)
Definition coords (j : nat) (ps : list Vector3) : list Q :=
  map (λ p, getComponent p j) ps.

Definition isMin (m : Q) (l : list Q) : Prop := m ∈ l ∧ ∀ q, q ∈ l → m <= q.
Definition isMax (m : Q) (l : list Q) : Prop := m ∈ l ∧ ∀ q, q ∈ l → q <= m.

(** [mn] and [mx] are the two corners of the bounding box of the points. *)
Definition boundingBox (mn mx : Vector3) (ps : list Vector3) : Prop :=
  ∀ j, (j < 3)%nat →
       isMin (getComponent mn j) (coords j ps) ∧
       isMax (getComponent mx j) (coords j ps).

Lemma updateMin_fold vertex p e :
  let e' := fold_left (updateMin vertex p) [0; 1; 2]%nat e in
  ext_max e' = ext_max e ∧
  ∀ j, (j < 3)%nat →
       getComponent (ext_min e') j =
       if ltb (getComponent p j) (getComponent (ext_min e) j)
       then getComponent p j else getComponent (ext_min e) j.
Proof.
  destruct e as [[mx my mz] emax mv xv]. destruct p as [px py pz].
  simpl. unfold updateMin. simpl.
  destruct (ltb px mx) eqn:E1; simpl; destruct (ltb py my) eqn:E2; simpl;
    destruct (ltb pz mz) eqn:E3; simpl; (split; [done|]);
    intros [|[|[|j]]] Hj; simpl; rewrite ?E1, ?E2, ?E3; try done; lia.
Qed.

Lemma updateMax_fold vertex p e :
  let e' := fold_left (updateMax vertex p) [0; 1; 2]%nat e in
  ext_min e' = ext_min e ∧
  ∀ j, (j < 3)%nat →
       getComponent (ext_max e') j =
       if gtb (getComponent p j) (getComponent (ext_max e) j)
       then getComponent p j else getComponent (ext_max e) j.
Proof.
  destruct e as [emin [mx my mz] mv xv]. destruct p as [px py pz].
  simpl. unfold updateMax. simpl.
  destruct (gtb px mx) eqn:E1; simpl; destruct (gtb py my) eqn:E2; simpl;
    destruct (gtb pz mz) eqn:E3; simpl; (split; [done|]);
    intros [|[|[|j]]] Hj; simpl; rewrite ?E1, ?E2, ?E3; try done; lia.
Qed.

Lemma isMin_snoc m l q :
  isMin m l → isMin (if ltb q m then q else m) (l ++ [q]).
Proof.
  intros [Hin Hle]. destruct (ltb q m) eqn:E.
  - apply ltb_true in E.
    split; [apply elem_of_app; right; by apply list_elem_of_singleton|].
    intros r Hr. apply elem_of_app in Hr as [Hr|Hr].
    + apply Hle in Hr. lra.
    + apply list_elem_of_singleton in Hr as ->. lra.
  - apply ltb_false in E. split; [apply elem_of_app; by left|].
    intros r Hr. apply elem_of_app in Hr as [Hr|Hr]; [by apply Hle|].
    by apply list_elem_of_singleton in Hr as ->.
Qed.

Lemma isMax_snoc m l q :
  isMax m l → isMax (if gtb q m then q else m) (l ++ [q]).
Proof.
  intros [Hin Hle]. destruct (gtb q m) eqn:E.
  - apply gtb_true in E.
    split; [apply elem_of_app; right; by apply list_elem_of_singleton|].
    intros r Hr. apply elem_of_app in Hr as [Hr|Hr].
    + apply Hle in Hr. lra.
    + apply list_elem_of_singleton in Hr as ->. lra.
  - apply gtb_false in E. split; [apply elem_of_app; by left|].
    intros r Hr. apply elem_of_app in Hr as [Hr|Hr]; [by apply Hle|].
    by apply list_elem_of_singleton in Hr as ->.
Qed.

Lemma extremesLoop_spec ns vs ps e seen :
  Forall2 (λ v p, VertexNode.point <$> ns !! v = Some p) vs ps →
  boundingBox (ext_min e) (ext_max e) seen →
  ∃ e', extremesLoop ns vs e = Some e' ∧
        boundingBox (ext_min e') (ext_max e') (seen ++ ps).
Proof.
  intros HF. revert e seen.
  induction HF as [|v p vs ps Hv HF IH]; intros e seen Hb; simpl.
  - exists e. by rewrite app_nil_r.
  - destruct (ns !! v) as [node|] eqn:En; [|done]. simpl in *.
    injection Hv as <-.
    destruct (updateMin_fold v (VertexNode.point node) e) as [Hmax Hmin].
    set (e1 := fold_left (updateMin v (VertexNode.point node)) [0; 1; 2]%nat e) in *.
    destruct (updateMax_fold v (VertexNode.point node) e1) as [Hmin' Hmax'].
    set (e2 := fold_left (updateMax v (VertexNode.point node)) [0; 1; 2]%nat e1) in *.
    destruct (IH e2 (seen ++ [VertexNode.point node])) as (e' & He' & Hb').
    + intros j Hj. destruct (Hb j Hj) as [H1 H2].
      unfold coords. rewrite map_app. simpl.
      rewrite Hmin', (Hmin j Hj), (Hmax' j Hj), Hmax.
      split; [by apply isMin_snoc | by apply isMax_snoc].
    + exists e'. split; [done|]. by rewrite <- app_assoc in Hb'.
Qed.

Lemma boundingBox_dup mn mx p ps :
  p ∈ ps → boundingBox mn mx (p :: ps) → boundingBox mn mx ps.
Proof.
  intros Hp Hb j Hj. destruct (Hb j Hj) as [[H1 H2] [H3 H4]].
  assert (Hin : getComponent p j ∈ coords j ps).
  { unfold coords. apply list_elem_of_fmap. by exists p. }
  simpl in *. split; split.
  - apply elem_of_cons in H1 as [->|H1]; done.
  - intros q Hq. apply H2. by right.
  - apply elem_of_cons in H3 as [->|H3]; done.
  - intros q Hq. apply H4. by right.
Qed.

Lemma pushed_points ns points :
  Forall2 (λ v p, VertexNode.point <$> (ns ++ map VertexNode.new points) !! v = Some p)
          (seq (length ns) (length points)) points.
Proof.
  revert ns. induction points as [|p points IH]; intros ns; simpl; [constructor|].
  constructor.
  - by rewrite list_lookup_middle.
  - specialize (IH (ns ++ [VertexNode.new p])).
    rewrite length_app in IH. simpl in IH.
    replace (length ns + 1)%nat with (S (length ns)) in IH by lia.
    by rewrite <- app_assoc in IH.
Qed.

Lemma _computeExtremes_pushed points h :
  points ≠ [] →
  let h0 := pushVertexNodes points (makeEmpty h) in
  ∃ e, _computeExtremes h0 =
       Some (e, set_tolerance (toleranceOf (ext_min e) (ext_max e)) h0) ∧
       boundingBox (ext_min e) (ext_max e) points.
Proof.
  intros Hne h0. unfold _computeExtremes.
  destruct points as [|p points]; [done|].
  assert (Hv : vertices h0 = seq (length (vertexNodes h)) (length (p :: points))).
  { unfold h0. by rewrite pushVertexNodes_spec. }
  assert (Hn : vertexNodes h0 = vertexNodes h ++ map VertexNode.new (p :: points)).
  { unfold h0. by rewrite pushVertexNodes_spec. }
  rewrite Hv, Hn. simpl. rewrite list_lookup_middle by done. simpl.
  set (e0 := mkExtremes p p _ _).
  destruct (extremesLoop_spec (vertexNodes h ++ map VertexNode.new (p :: points))
              (seq (length (vertexNodes h)) (length (p :: points))) (p :: points)
              e0 [p]) as (e & He & Hb).
  - apply pushed_points.
  - intros j Hj. simpl. split; split.
    + by apply list_elem_of_singleton.
    + intros q Hq. apply list_elem_of_singleton in Hq as ->. apply Qle_refl.
    + by apply list_elem_of_singleton.
    + intros q Hq. apply list_elem_of_singleton in Hq as ->. apply Qle_refl.
  - simpl in He. rewrite list_lookup_middle in He by done. simpl in He.
    rewrite He. simpl. exists e. split; [done|].
    eapply boundingBox_dup; [|exact Hb]. by left.
Qed.

Opaque widestAxis joinTetrahedron initialAssign farthestFromLine farthestFromPlane.

Lemma _computeInitialHull_tolerance three h h' e h1 :
  _computeExtremes h = Some (e, h1) →
  _computeInitialHull three h = Some h' →
  tolerance h' = tolerance h1.
Proof.
  intros He H. unfold _computeInitialHull in H. rewrite He in H. simpl in H.
  inv_opt.
  all: facts_of initialAssign_input.
  all: facts_of joinTetrahedron_input.
  all: facts_of (createTetrahedron_input three).
  all: unfold inputView in *; simpl in *; congruence.
Qed.

Transparent widestAxis joinTetrahedron initialAssign farthestFromLine farthestFromPlane.

Lemma _compute_tolerance three fuel h h' e h1 :
  _computeExtremes h = Some (e, h1) →
  _compute three fuel h = Some h' →
  tolerance h' = tolerance h1.
Proof.
  intros He H. unfold _compute in H. inv_opt.
  pose proof (_computeInitialHull_tolerance three h _ _ _ He E) as Ht.
  facts_of _reindexFaces_input. facts_of (computeLoop_input three).
  unfold inputView in *. simpl in *. congruence.
Qed.

(** ** Doubly linked vertex lists in the store *)

Definition headOr (l : list vref) (n : option vref) : option vref :=
  match l with [] => n | v :: _ => Some v end.

Definition lastOr (p : option vref) (l : list vref) : option vref :=
  match last l with Some v => Some v | None => p end.

(** The vertex nodes [l] are linked to each other in this order; the [prev]
    of the first is [p] and the [next] of the last is [n]. *)
Fixpoint seg (ns : list VertexNode.t) (p : option vref) (l : list vref)
  (n : option vref) : Prop :=
  match l with
  | [] => True
  | v :: l' =>
      ∃ node, ns !! v = Some node ∧
              VertexNode.prev node = p ∧
              VertexNode.next node = headOr l' n ∧
              seg ns (Some v) l' n
  end.

(** [L] is the doubly linked list of the vertex nodes [l]. *)
Definition isList (ns : list VertexNode.t) (L : VertexList.t) (l : list vref) : Prop :=
  NoDup l ∧
  VertexList.head L = head l ∧
  VertexList.tail L = last l ∧
  seg ns None l None.

Lemma headOr_app l1 l2 n : headOr (l1 ++ l2) n = headOr l1 (headOr l2 n).
Proof. by destruct l1. Qed.

Lemma lastOr_app p l1 l2 : lastOr p (l1 ++ l2) = lastOr (lastOr p l1) l2.
Proof.
  unfold lastOr. destruct l2 as [|v l2 _] using rev_ind.
  - rewrite app_nil_r. simpl. by destruct (last l1).
  - by rewrite app_assoc, !last_snoc.
Qed.

Lemma lastOr_cons p v l : lastOr p (v :: l) = lastOr (Some v) l.
Proof. apply (lastOr_app p [v] l). Qed.

Lemma seg_app ns p l1 l2 n :
  seg ns p (l1 ++ l2) n ↔ seg ns p l1 (headOr l2 n) ∧ seg ns (lastOr p l1) l2 n.
Proof.
  revert p. induction l1 as [|v l1 IH]; intros p; simpl.
  - unfold lastOr. simpl. tauto.
  - rewrite lastOr_cons, headOr_app. split.
    + intros (node & H1 & H2 & H3 & H4). apply IH in H4 as [H4 H5].
      split; [|done]. by exists node.
    + intros [(node & H1 & H2 & H3 & H4) H5]. exists node.
      repeat split; try done. apply IH. done.
Qed.

Lemma seg_frame ns ns' p l n :
  (∀ v, v ∈ l → ns' !! v = ns !! v) → seg ns p l n → seg ns' p l n.
Proof.
  revert p. induction l as [|v l IH]; intros p Hf; simpl; [done|].
  intros (node & H1 & H2 & H3 & H4). exists node.
  rewrite Hf by left. repeat split; try done.
  apply IH; [|done]. intros u Hu. apply Hf. by right.
Qed.

Lemma seg_is_Some ns p l n v : seg ns p l n → v ∈ l → is_Some (ns !! v).
Proof.
  revert p. induction l as [|u l IH]; intros p; simpl.
  - intros _ H. by apply elem_of_nil in H.
  - intros (node & H1 & _ & _ & H4) H. apply elem_of_cons in H as [->|H]; eauto.
Qed.

(** The [next] of the last node is the only place [n] is stored in. *)
Lemma seg_set_next ns p l e n n' node :
  NoDup (l ++ [e]) → ns !! e = Some node →
  seg ns p (l ++ [e]) n →
  seg (<[e := VertexNode.set_next n' node]> ns) p (l ++ [e]) n'.
Proof.
  intros Hnd He Hs. apply seg_app in Hs as [H1 H2]. apply seg_app. split.
  - eapply seg_frame; [|exact H1]. intros v Hv.
    apply list_lookup_insert_ne. intros ->.
    apply NoDup_app in Hnd as (_ & Hnd & _). apply (Hnd v Hv). by left.
  - simpl in *. destruct H2 as (node' & H3 & H4 & H5 & _).
    rewrite He in H3. injection H3 as <-.
    exists (VertexNode.set_next n' node). split; [|done].
    apply list_lookup_insert_eq. by eapply lookup_lt_Some.
Qed.

(** The [prev] of the first node is the only place [p] is stored in. *)
Lemma seg_set_prev ns p p' v l n node :
  NoDup (v :: l) → ns !! v = Some node →
  seg ns p (v :: l) n →
  seg (<[v := VertexNode.set_prev p' node]> ns) p' (v :: l) n.
Proof.
  intros Hnd Hv (node' & H1 & H2 & H3 & H4).
  rewrite Hv in H1. injection H1 as <-.
  exists (VertexNode.set_prev p' node). split.
  { apply list_lookup_insert_eq. by eapply lookup_lt_Some. }
  repeat split; try done.
  eapply seg_frame; [|exact H4]. intros u Hu.
  apply list_lookup_insert_ne. intros ->.
  apply NoDup_cons in Hnd as [Hnd _]. done.
Qed.

Lemma isList_nil ns L : VertexList.head L = None → VertexList.tail L = None → isList ns L [].
Proof. intros H1 H2. repeat split; try done. constructor. Qed.

Lemma NoDup_mid (l1 : list vref) v l2 :
  NoDup (l1 ++ v :: l2) →
  NoDup l1 ∧ NoDup l2 ∧ (v ∉ l1) ∧ (v ∉ l2) ∧ (∀ u, u ∈ l1 → u ∉ l2).
Proof.
  intros H. apply NoDup_app in H as (H1 & H2 & H3).
  apply NoDup_cons in H3 as [H3 H4].
  repeat split; try done.
  - intros Hv. apply (H2 v Hv). by left.
  - intros u Hu Hu'. apply (H2 u Hu). by right.
Qed.

Lemma NoDup_mid_remove (l1 : list vref) v l2 :
  NoDup (l1 ++ v :: l2) → NoDup (l1 ++ l2).
Proof.
  intros H. apply NoDup_mid in H as (H1 & H2 & _ & _ & H5).
  apply NoDup_app. done.
Qed.

Lemma head_app_cons {A} (l1 : list A) v l2 :
  head (l1 ++ v :: l2) = Some (default v (head l1)).
Proof. by destruct l1. Qed.

Lemma last_app_cons {A} (l1 : list A) v l2 :
  last (l1 ++ v :: l2) = Some (default v (last l2)).
Proof.
  destruct l2 as [|u l2 _] using rev_ind.
  - by rewrite last_snoc.
  - replace (l1 ++ v :: l2 ++ [u]) with ((l1 ++ v :: l2) ++ [u])
      by (by rewrite <- app_assoc).
    by rewrite !last_snoc.
Qed.

(** The node of a member of a list and its two links. *)
Lemma isList_node ns L l1 v l2 :
  isList ns L (l1 ++ v :: l2) →
  ∃ node, ns !! v = Some node ∧
          VertexNode.prev node = last l1 ∧ VertexNode.next node = head l2.
Proof.
  intros (_ & _ & _ & Hs). apply seg_app in Hs as [_ (node & H1 & H2 & H3 & _)].
  exists node. split; [done|]. split.
  - rewrite H2. unfold lastOr. by destruct (last l1).
  - rewrite H3. by destruct l2.
Qed.

(** What [remove( vertex )] does to a list that contains the vertex: the list
    loses the vertex; the node of the vertex is not written to; the [next]
    of its predecessor and the [prev] of its successor are redirected; no
    other node is written to. *)
Lemma remove_spec ns L l1 v l2 :
  isList ns L (l1 ++ v :: l2) →
  ∃ ns' L',
    VertexList.remove v (ns, L) = Some (ns', L') ∧
    isList ns' L' (l1 ++ l2) ∧
    ns' !! v = ns !! v ∧
    (∀ u, last l1 ≠ Some u → head l2 ≠ Some u → ns' !! u = ns !! u) ∧
    (∀ p, last l1 = Some p →
          ns' !! p = VertexNode.set_next (head l2) <$> ns !! p) ∧
    (∀ q, head l2 = Some q →
          ns' !! q = VertexNode.set_prev (last l1) <$> ns !! q).
Proof.
  intros HL. destruct (isList_node _ _ _ _ _ HL) as (node & Hv & Hp & Hn).
  destruct HL as (Hnd & Hh & Ht & Hs).
  pose proof (NoDup_mid _ _ _ Hnd) as (Hnd1 & Hnd2 & Hv1 & Hv2 & Hdisj).
  apply seg_app in Hs as [Hs1 Hs2]. simpl in Hs1.
  destruct Hs2 as (_ & _ & _ & _ & Hs2).
  destruct node as [pt pr nx fc]. simpl in Hp, Hn. subst pr nx.
  unfold VertexList.remove. rewrite Hv. simpl.
  destruct l1 as [|p l1 _] using rev_ind; [|rewrite last_snoc in *];
    (destruct l2 as [|q l2]; simpl in *).
  - (* the only vertex *)
    rewrite Hv. simpl.
    eexists _, _. split; [done|]. split; [by apply isList_nil|].
    repeat split; done.
  - (* the first vertex *)
    rewrite Hv. simpl.
    destruct Hs2 as (qn & Hq & Hqp & Hqn & Hs2).
    rewrite (modify_Some _ _ _ _ Hq). simpl.
    assert (Hqv : q ≠ v) by (intros ->; apply Hv2; by left).
    eexists _, _. split; [done|]. split; [|repeat split].
    + split; [done|]. split; [done|]. split; [by rewrite Ht|].
      apply (seg_set_prev ns (Some v) None q l2 None qn); try done.
      by exists qn.
    + by rewrite list_lookup_insert_ne.
    + intros u _ Hu. apply list_lookup_insert_ne. congruence.
    + done.
    + intros q' [= <-]. rewrite Hq. simpl.
      apply list_lookup_insert_eq. by eapply lookup_lt_Some.
  - (* the last vertex *)
    rewrite app_nil_r in *.
    destruct (seg_is_Some _ _ _ _ p Hs1) as [pn Hpn];
      [apply elem_of_app; right; by left|].
    assert (Hpv : p ≠ v) by (intros ->; apply Hv1, elem_of_app; right; by left).
    rewrite (modify_Some _ _ _ _ Hpn). simpl.
    assert (Hread : <[p:=VertexNode.set_next None pn]> ns !! v = ns !! v)
      by (by apply list_lookup_insert_ne).
    rewrite Hread, Hv. simpl.
    eexists _, _. split; [done|]. split; [|repeat split].
    + split; [done|]. split; [by rewrite Hh, !head_app_cons|].
      split; [by rewrite last_snoc|].
      by apply (seg_set_next ns None l1 p (Some v) None pn).
    + by rewrite Hread.
    + intros u Hu _. apply list_lookup_insert_ne. congruence.
    + intros p' [= <-]. rewrite Hpn. simpl.
      apply list_lookup_insert_eq. by eapply lookup_lt_Some.
    + done.
  - (* a vertex between two others *)
    destruct (seg_is_Some _ _ _ _ p Hs1) as [pn Hpn];
      [apply elem_of_app; right; by left|].
    destruct Hs2 as (qn & Hq & Hqp & Hqn & Hs2).
    assert (Hpv : p ≠ v) by (intros ->; apply Hv1, elem_of_app; right; by left).
    assert (Hqv : q ≠ v) by (intros ->; apply Hv2; by left).
    assert (Hpq : p ≠ q).
    { intros ->. apply (Hdisj q); [apply elem_of_app; right|]; by left. }
    rewrite (modify_Some _ _ _ _ Hpn). simpl.
    assert (Hread : <[p:=VertexNode.set_next (Some q) pn]> ns !! v = ns !! v)
      by (by apply list_lookup_insert_ne).
    rewrite Hread, Hv. simpl.
    assert (Hq' : <[p:=VertexNode.set_next (Some q) pn]> ns !! q = Some qn)
      by (by rewrite list_lookup_insert_ne).
    rewrite (modify_Some _ _ _ _ Hq'). simpl.
    eexists _, _. split; [done|]. split; [|repeat split].
    + split; [by apply NoDup_mid_remove in Hnd|].
      split; [by rewrite Hh, !head_app_cons|].
      split; [rewrite Ht, !last_app_cons, last_cons; by destruct (last l2)|].
      apply seg_app. split.
      * eapply seg_frame; [|by apply (seg_set_next ns None l1 p (Some v) (Some q) pn)].
        intros u Hu. apply list_lookup_insert_ne. intros <-.
        apply (Hdisj q Hu). by left.
      * unfold lastOr. rewrite last_snoc.
        apply (seg_set_prev _ (Some v) (Some p) q l2 None qn); try done.
        apply (seg_frame ns); [|exists qn; repeat split; done].
        intros u Hu. apply list_lookup_insert_ne. intros ->.
        apply (Hdisj u); [apply elem_of_app; right; by left|done].
    + by rewrite list_lookup_insert_ne, Hread.
    + intros u Hu1 Hu2. rewrite !list_lookup_insert_ne; congruence.
    + intros p' [= <-]. rewrite list_lookup_insert_ne by done.
      rewrite Hpn. simpl. apply list_lookup_insert_eq. by eapply lookup_lt_Some.
    + intros q' [= <-]. rewrite Hq. simpl.
      apply list_lookup_insert_eq. rewrite length_insert. by eapply lookup_lt_Some.
Qed.

(** C10.  [remove( vertex )] on a list that contains the vertex writes only
    to the neighbouring nodes and to the head and tail of the list: the
    node of the removed vertex is the same afterwards, its [prev] and
    [next] still being its former predecessor and successor; the [next] of
    the predecessor and the [prev] of the successor are the only links that
    change, and the list is the old one without the vertex. *)
Theorem remove_leaves_removed_vertex_links (ns : list VertexNode.t)
  (L : VertexList.t) (l1 : list vref) (v : vref) (l2 : list vref) :
  isList ns L (l1 ++ v :: l2) →
  ∃ node ns' L',
    VertexList.remove v (ns, L) = Some (ns', L') ∧
    ns !! v = Some node ∧ ns' !! v = Some node ∧
    VertexNode.prev node = last l1 ∧ VertexNode.next node = head l2 ∧
    (∀ u, last l1 ≠ Some u → head l2 ≠ Some u → ns' !! u = ns !! u) ∧
    (∀ p, last l1 = Some p →
          ns' !! p = VertexNode.set_next (head l2) <$> ns !! p) ∧
    (∀ q, head l2 = Some q →
          ns' !! q = VertexNode.set_prev (last l1) <$> ns !! q) ∧
    isList ns' L' (l1 ++ l2).
Proof.
  intros HL.
  destruct (isList_node _ _ _ _ _ HL) as (node & Hv & Hp & Hn).
  destruct (remove_spec _ _ _ _ _ HL) as (ns' & L' & H1 & H2 & H3 & H4 & H5 & H6).
  exists node, ns', L'. rewrite H3. by split_and!.
Qed.

(** ** The other methods of VertexList *)

(** The part of a vertex node that no list method writes to. *)
Definition dataView (node : VertexNode.t) := (VertexNode.point node, VertexNode.face node).

Definition sameData (ns ns' : list VertexNode.t) : Prop :=
  map dataView ns' = map dataView ns.

Lemma sameData_refl ns : sameData ns ns.
Proof. done. Qed.

Lemma sameData_trans ns1 ns2 ns3 :
  sameData ns1 ns2 → sameData ns2 ns3 → sameData ns1 ns3.
Proof. unfold sameData. congruence. Qed.

Lemma sameData_lookup ns ns' v node :
  sameData ns ns' → ns !! v = Some node →
  ∃ node', ns' !! v = Some node' ∧
           VertexNode.point node' = VertexNode.point node ∧
           VertexNode.face node' = VertexNode.face node.
Proof.
  intros Hs Hv. unfold sameData in Hs.
  assert (H : map dataView ns' !! v = Some (dataView node))
    by (by rewrite Hs, list_lookup_fmap, Hv).
  rewrite list_lookup_fmap in H.
  destruct (ns' !! v) as [node'|]; [|done].
  exists node'. injection H as H1 H2. done.
Qed.

Lemma sameData_length ns ns' : sameData ns ns' → length ns' = length ns.
Proof.
  intros H. unfold sameData in H.
  by rewrite <- (length_map dataView ns'), H, length_map.
Qed.

Lemma sameData_insert ns v node node' :
  ns !! v = Some node → dataView node' = dataView node →
  sameData ns (<[v := node']> ns).
Proof.
  intros Hv Hd. unfold sameData.
  etransitivity; [apply (list_fmap_insert dataView)|].
  rewrite Hd. apply list_insert_id. by rewrite list_lookup_fmap, Hv.
Qed.

Ltac same_data :=
  unfold sameData in *;
  repeat match goal with
  | H : modify _ _ _ = Some _ |- _ =>
      apply (modify_view dataView) in H; [|by intros []]
  end; congruence.

Lemma insertBefore_data target vertex ns L ns' L' :
  VertexList.insertBefore target vertex (ns, L) = Some (ns', L') → sameData ns ns'.
Proof. unfold VertexList.insertBefore. intros H. inv_opt; same_data. Qed.

Lemma append_data vertex ns L ns' L' :
  VertexList.append vertex (ns, L) = Some (ns', L') → sameData ns ns'.
Proof. unfold VertexList.append. intros H. inv_opt; same_data. Qed.

Lemma appendChain_data vertex ns L ns' L' :
  VertexList.appendChain vertex (ns, L) = Some (ns', L') → sameData ns ns'.
Proof. unfold VertexList.appendChain. intros H. inv_opt; same_data. Qed.

Lemma remove_data vertex ns L ns' L' :
  VertexList.remove vertex (ns, L) = Some (ns', L') → sameData ns ns'.
Proof. unfold VertexList.remove. intros H. inv_opt; same_data. Qed.

Lemma removeSubList_data a b ns L ns' L' :
  VertexList.removeSubList a b (ns, L) = Some (ns', L') → sameData ns ns'.
Proof. unfold VertexList.removeSubList. intros H. inv_opt; same_data. Qed.

Lemma isList_head_None ns L l : isList ns L l → VertexList.head L = None → l = [].
Proof. intros (_ & Hh & _) H. rewrite H in Hh. by destruct l. Qed.

Lemma isList_snoc_tail ns L l e : isList ns L (l ++ [e]) → VertexList.tail L = Some e.
Proof. intros (_ & _ & Ht & _). by rewrite Ht, last_snoc. Qed.

(** Reading a node that was just written to. *)
Ltac lookup_eq :=
  apply list_lookup_insert_eq; rewrite ?length_insert;
  eapply lookup_lt_Some; eassumption.

(** [append( vertex )] on a list that does not contain the vertex. *)
Lemma append_spec ns L l v :
  isList ns L l → v ∉ l → is_Some (ns !! v) →
  ∃ ns' L',
    VertexList.append v (ns, L) = Some (ns', L') ∧
    isList ns' L' (l ++ [v]) ∧
    (∀ u, u ≠ v → last l ≠ Some u → ns' !! u = ns !! u).
Proof.
  intros HL Hv [node Hnode]. unfold VertexList.append.
  destruct l as [|e l _] using rev_ind.
  - destruct HL as (_ & Hh & Ht & _). simpl in *. rewrite Hh. simpl. rewrite Ht.
    rewrite (modify_Some _ _ _ _ Hnode). simpl.
    erewrite modify_Some by lookup_eq. simpl.
    eexists _, _. split; [done|]. split.
    + split_and!.
      * apply NoDup_singleton.
      * done.
      * done.
      * simpl. eexists. split; [lookup_eq|]. done.
    + intros u Hu _. by rewrite !list_lookup_insert_ne.
  - pose proof (isList_snoc_tail _ _ _ _ HL) as Ht.
    destruct HL as (Hnd & Hh & _ & Hs).
    rewrite Hh, head_app_cons. simpl. rewrite Ht. simpl.
    assert (Hev : e ≠ v).
    { intros ->. apply Hv, elem_of_app. right. by left. }
    assert (Hvl : v ∉ l) by (intros H; apply Hv, elem_of_app; by left).
    assert (Hel : e ∉ l).
    { apply NoDup_app in Hnd as (_ & Hnd & _). intros H. apply (Hnd e H). by left. }
    destruct (seg_is_Some _ _ _ _ e Hs) as [en Hen];
      [apply elem_of_app; right; by left|].
    rewrite (modify_Some _ _ _ _ Hen). simpl.
    erewrite modify_Some by (by rewrite list_lookup_insert_ne). simpl.
    erewrite modify_Some by lookup_eq. simpl.
    eexists _, _. split; [done|]. split.
    + split_and!.
      * apply NoDup_app. split_and!; [done| |apply NoDup_singleton].
        intros u Hu Hu'. apply list_elem_of_singleton in Hu' as ->. done.
      * simpl. rewrite Hh. by destruct l.
      * simpl. by rewrite last_snoc.
      * apply seg_app. split.
        -- simpl. apply (seg_frame (<[e:=VertexNode.set_next (Some v) en]> ns)).
           { intros u Hu. rewrite 2!list_lookup_insert_ne; [done|..];
               intros <-; done. }
           by apply (seg_set_next ns None l e None).
        -- unfold lastOr. rewrite last_snoc. simpl.
           eexists. split; [lookup_eq|]. done.
    + intros u Hu1 Hu2. rewrite last_snoc in Hu2.
      rewrite !list_lookup_insert_ne; congruence.
Qed.

Lemma last_app_cons_cons {A} (l : list A) v t k :
  last (l ++ v :: t :: k) = last (l ++ t :: k).
Proof. rewrite !last_app_cons, last_cons. by destruct (last k). Qed.

(** [insertBefore( target, vertex )] on a list that contains the target and
    not the vertex. *)
Lemma insertBefore_spec ns L l1 t l2 v :
  isList ns L (l1 ++ t :: l2) → v ∉ l1 ++ t :: l2 → is_Some (ns !! v) →
  ∃ ns' L',
    VertexList.insertBefore t v (ns, L) = Some (ns', L') ∧
    isList ns' L' (l1 ++ v :: t :: l2) ∧
    (∀ u, u ≠ v → u ≠ t → last l1 ≠ Some u → ns' !! u = ns !! u).
Proof.
  intros HL Hv [nv Hnv].
  destruct (isList_node _ _ _ _ _ HL) as (tg & Htg & Htp & Htn).
  destruct HL as (Hnd & Hh & Ht & Hs).
  pose proof (NoDup_mid _ _ _ Hnd) as (Hnd1 & Hnd2 & Ht1 & Ht2 & Hdisj).
  apply seg_app in Hs as [Hs1 Hs2]. simpl in Hs1.
  assert (Hvt : v ≠ t) by (intros ->; apply Hv, elem_of_app; right; by left).
  assert (Hv1 : v ∉ l1) by (intros H; apply Hv, elem_of_app; by left).
  assert (Hv2 : v ∉ l2) by (intros H; apply Hv, elem_of_app; right; by right).
  unfold VertexList.insertBefore. rewrite Htg. simpl. rewrite Htp.
  rewrite (modify_Some _ _ _ _ Hnv). simpl.
  erewrite modify_Some by lookup_eq. simpl.
  set (nv' := VertexNode.set_next (Some t) (VertexNode.set_prev (last l1) nv)).
  set (ns1 := <[v:=nv']> (<[v:=VertexNode.set_prev (last l1) nv]> ns)).
  assert (Hns1 : ∀ u, u ≠ v → ns1 !! u = ns !! u).
  { intros u Hu. unfold ns1. by rewrite !list_lookup_insert_ne. }
  assert (Hns1v : ns1 !! v = Some nv') by (unfold ns1; lookup_eq).
  rewrite Hns1v. simpl.
  assert (Hst : seg ns1 (lastOr None l1) (t :: l2) None).
  { apply (seg_frame ns); [|done]. intros u Hu. apply Hns1. intros ->.
    apply Hv, elem_of_app. by right. }
  assert (Hnd' : NoDup (l1 ++ v :: t :: l2)).
  { apply NoDup_app. split_and!; [done| |].
    - intros u Hu Hu'. apply elem_of_cons in Hu' as [->|Hu']; [done|].
      apply elem_of_cons in Hu' as [->|Hu']; [done|]. by apply (Hdisj u).
    - apply NoDup_cons. split; [|by apply NoDup_cons].
      intros Hu. apply elem_of_cons in Hu as [->|Hu]; done. }
  destruct l1 as [|p l1 _] using rev_ind; [|rewrite last_snoc in *]; simpl.
  - (* the target is the first vertex *)
    erewrite modify_Some by (rewrite Hns1 by done; exact Htg). simpl.
    eexists _, _. split; [done|]. split.
    + split_and!; [done|done|by rewrite Ht|].
      simpl. exists nv'. split_and!; [by rewrite list_lookup_insert_ne|done|done|].
      apply (seg_set_prev ns1 None (Some v) t l2 None tg);
        [by apply NoDup_cons|by rewrite Hns1|done].
    + intros u Hu1 Hu2 _. rewrite list_lookup_insert_ne by done. by apply Hns1.
  - (* the target has a predecessor *)
    assert (Hpv : p ≠ v) by (intros ->; apply Hv1, elem_of_app; right; by left).
    assert (Hpt : p ≠ t) by (intros ->; apply Ht1, elem_of_app; right; by left).
    destruct (seg_is_Some _ _ _ _ p Hs1) as [pn Hpn];
      [apply elem_of_app; right; by left|].
    erewrite modify_Some by (rewrite Hns1 by done; exact Hpn). simpl.
    erewrite modify_Some
      by (rewrite list_lookup_insert_ne by done; rewrite Hns1 by done; exact Htg).
    simpl.
    eexists _, _. split; [done|]. split.
    + split_and!; [done| |by rewrite Ht, last_app_cons_cons|].
      { rewrite Hh. by destruct l1. }
      apply seg_app. split.
      * simpl. apply (seg_frame (<[p:=VertexNode.set_next (Some v) pn]> ns1)).
        { intros u Hu. apply list_lookup_insert_ne. by intros <-. }
        apply (seg_set_next ns1 None l1 p (Some t) (Some v) pn);
          [done|by rewrite Hns1|].
        apply (seg_frame ns); [|done]. intros u Hu. apply Hns1. by intros ->.
      * unfold lastOr in *. rewrite last_snoc in *.
        exists nv'. split_and!;
          [rewrite !list_lookup_insert_ne; [done|congruence..]
          |unfold nv'; simpl; by rewrite last_snoc|done|].
        apply (seg_set_prev _ (Some p) (Some v) t l2 None tg);
          [by apply NoDup_cons| |].
        { rewrite list_lookup_insert_ne by done. by rewrite Hns1. }
        apply (seg_frame ns1); [|done]. intros u Hu.
        apply list_lookup_insert_ne. intros <-.
        apply elem_of_cons in Hu as [->|Hu]; [done|].
        apply (Hdisj p); [|done]. apply elem_of_app. right. by left.
    + intros u Hu1 Hu2 Hu3. rewrite !list_lookup_insert_ne; [|congruence..].
      by apply Hns1.
Qed.

Lemma seg_last ns p l b n :
  seg ns p (l ++ [b]) n →
  ∃ node, ns !! b = Some node ∧ VertexNode.next node = n ∧
          VertexNode.prev node = lastOr p l.
Proof.
  intros H. apply seg_app in H as [_ (node & H1 & H2 & H3 & _)].
  exists node. done.
Qed.

Lemma seg_NoDup_length ns p l n :
  NoDup l → seg ns p l n → (length l <= length ns)%nat.
Proof.
  intros Hnd Hs.
  assert (Hsub : l ⊆+ seq 0 (length ns)).
  { apply NoDup_submseteq; [done|]. intros v Hv.
    destruct (seg_is_Some _ _ _ _ v Hs Hv) as [node Hnode].
    apply elem_of_seq. split; [lia|]. simpl. by eapply lookup_lt_Some. }
  apply submseteq_length in Hsub. by rewrite length_seq in Hsub.
Qed.

(** The loop of [appendChain] ends at the last vertex of the chain. *)
Lemma lastOfChain_spec fuel ns p a m :
  seg ns p (a :: m) None → (length (a :: m) <= fuel)%nat →
  VertexList.lastOfChain fuel ns a = last (a :: m).
Proof.
  revert p a fuel. induction m as [|b m IH]; intros p a fuel Hs Hf.
  - destruct fuel as [|fuel]; [simpl in Hf; lia|].
    destruct Hs as (node & H1 & H2 & H3 & _). simpl in *.
    rewrite H1. simpl. by rewrite H3.
  - destruct fuel as [|fuel]; [simpl in Hf; lia|].
    destruct Hs as (node & H1 & H2 & H3 & Hs). simpl in H3.
    simpl. rewrite H1. simpl. rewrite H3.
    rewrite (IH (Some a) b fuel Hs) by (simpl in *; lia). done.
Qed.

(** [removeSubList( a, b )] on a list that contains the vertices from [a]
    to [b] as the contiguous run [sub]: the nodes of the run are not
    written to. *)
Lemma removeSubList_spec ns L l1 a m b l2 :
  isList ns L (l1 ++ (a :: m) ++ l2) → last (a :: m) = Some b →
  ∃ ns' L',
    VertexList.removeSubList a b (ns, L) = Some (ns', L') ∧
    isList ns' L' (l1 ++ l2) ∧
    (∀ u, last l1 ≠ Some u → head l2 ≠ Some u → ns' !! u = ns !! u) ∧
    seg ns' (last l1) (a :: m) (head l2).
Proof.
  intros (Hnd & Hh & Ht & Hs) Hb.
  apply NoDup_app in Hnd as (Hnd1 & Hd1 & Hnd).
  apply NoDup_app in Hnd as (Hndm & Hd2 & Hnd2).
  apply seg_app in Hs as [Hs1 Hs]. apply seg_app in Hs as [Hsm Hs2].
  assert (Hlo : lastOr None l1 = last l1) by (unfold lastOr; by destruct (last l1)).
  assert (Hho : headOr l2 None = head l2) by (by destruct l2).
  assert (Hlb : lastOr (lastOr None l1) (a :: m) = Some b) by (unfold lastOr; by rewrite Hb).
  rewrite Hlo, Hho in Hsm. rewrite Hlb in Hs2. simpl in Hs1.
  assert (Hsm' := Hsm).
  destruct Hsm' as (va & Hva & Hvap & _).
  assert (∃ m', a :: m = m' ++ [b]) as [m' Hm'].
  { destruct (a :: m) as [|x k _] using rev_ind; [done|].
    rewrite last_snoc in Hb. injection Hb as ->. by exists k. }
  assert (Hsm' := Hsm). rewrite Hm' in Hsm'.
  destruct (seg_last _ _ _ _ _ Hsm') as (vb & Hvb & Hvbn & _).
  assert (Ha_in : a ∈ a :: m) by left.
  assert (Hb_in : b ∈ a :: m) by (rewrite Hm'; apply elem_of_app; right; by left).
  destruct va as [pta pra nxa fca]. simpl in Hvap. subst pra.
  destruct vb as [ptb prb nxb fcb]. simpl in Hvbn. subst nxb.
  unfold VertexList.removeSubList. rewrite Hva, Hvb. simpl.
  assert (Hnd' : NoDup (l1 ++ l2)).
  { apply NoDup_app. split_and!; [done| |done].
    intros u Hu Hu'. apply (Hd1 u Hu). apply elem_of_app. by right. }
  assert (Hnot1 : ∀ u, u ∈ l1 → u ∉ a :: m).
  { intros u Hu Hu'. apply (Hd1 u Hu). apply elem_of_app. by left. }
  destruct l1 as [|p l1 _] using rev_ind; [|rewrite last_snoc in *];
    (destruct l2 as [|q l2]; simpl in Hs1, Hs2, Hh, Ht, Hnd', Hho |- *).
  - (* the run is the whole list *)
    rewrite Hva, Hvb. simpl.
    eexists _, _. split; [done|]. split; [by apply isList_nil|]. done.
  - (* the run is at the front *)
    rewrite Hva, Hvb. simpl.
    destruct Hs2 as (qn & Hq & Hqp & Hqn & Hs2).
    rewrite (modify_Some _ _ _ _ Hq). simpl.
    assert (Hqm : q ∉ a :: m) by (intros H; apply (Hd2 q H); by left).
    eexists _, _. split; [done|]. split_and!.
    + split_and!; [done|done| |].
      { simpl. rewrite Ht.
        change (a :: m ++ q :: l2) with ((a :: m) ++ q :: l2).
        rewrite last_app_cons, last_cons. by destruct (last l2). }
      apply (seg_set_prev ns (Some b) None q l2 None qn); try done.
      exists qn. done.
    + intros u _ Hu. apply list_lookup_insert_ne. congruence.
    + apply (seg_frame ns _ _ (a :: m)); [|done]. intros u Hu.
      apply list_lookup_insert_ne. by intros <-.
  - (* the run is at the back *)
    rewrite app_nil_r in *.
    destruct (seg_is_Some _ _ _ _ p Hs1) as [pn Hpn];
      [apply elem_of_app; right; by left|].
    assert (Hpm : p ∉ a :: m) by (apply Hnot1, elem_of_app; right; by left).
    rewrite (modify_Some _ _ _ _ Hpn). simpl.
    rewrite !list_lookup_insert_ne by (intros <-; done).
    rewrite Hva, Hvb. simpl.
    eexists _, _. split; [done|]. split_and!.
    + split_and!; [done| |by rewrite last_snoc|].
      { simpl. rewrite Hh. by destruct l1. }
      by apply (seg_set_next ns None l1 p (Some a) None pn).
    + intros u Hu _. apply list_lookup_insert_ne. congruence.
    + apply (seg_frame ns _ _ (a :: m)); [|done]. intros u Hu.
      apply list_lookup_insert_ne. by intros <-.
  - (* the run is between two vertices *)
    destruct (seg_is_Some _ _ _ _ p Hs1) as [pn Hpn];
      [apply elem_of_app; right; by left|].
    destruct Hs2 as (qn & Hq & Hqp & Hqn & Hs2).
    assert (Hpm : p ∉ a :: m) by (apply Hnot1, elem_of_app; right; by left).
    assert (Hqm : q ∉ a :: m) by (intros H; apply (Hd2 q H); by left).
    assert (Hpq : p ≠ q).
    { intros ->. apply (Hd1 q); [apply elem_of_app; right; by left|].
      apply elem_of_app. right. by left. }
    rewrite (modify_Some _ _ _ _ Hpn). simpl.
    rewrite !list_lookup_insert_ne by (intros <-; done).
    rewrite Hva, Hvb. simpl.
    erewrite modify_Some by (rewrite list_lookup_insert_ne by done; exact Hq).
    simpl.
    eexists _, _. split; [done|]. split_and!.
    + split_and!; [done| | |].
      { simpl. rewrite Hh. by destruct l1. }
      { simpl. rewrite Ht.
        replace ((l1 ++ [p]) ++ a :: m ++ q :: l2)
          with (((l1 ++ [p]) ++ a :: m) ++ q :: l2) by (by rewrite <- !app_assoc).
        by rewrite !last_app_cons. }
      apply seg_app. split.
      * simpl. apply (seg_frame (<[p:=VertexNode.set_next (Some q) pn]> ns)).
        { intros u Hu. apply list_lookup_insert_ne. intros <-.
          apply (Hd1 q Hu). apply elem_of_app. right. by left. }
        by apply (seg_set_next ns None l1 p (Some a) (Some q) pn).
      * unfold lastOr. rewrite last_snoc.
        apply (seg_set_prev _ (Some b) (Some p) q l2 None qn);
          [done|by rewrite list_lookup_insert_ne|].
        apply (seg_frame ns); [|by exists qn].
        intros u Hu. apply list_lookup_insert_ne. intros <-.
        apply (Hd1 p); [apply elem_of_app; right; by left|].
        apply elem_of_app. by right.
    + intros u Hu1 Hu2. rewrite !list_lookup_insert_ne; congruence.
    + apply (seg_frame ns _ _ (a :: m)); [|done]. intros u Hu.
      rewrite !list_lookup_insert_ne; [done|by intros <-..].
Qed.

Opaque VertexList.lastOfChain.

(** [appendChain( vertex )] with a chain of vertex nodes that are not in the
    list. *)
Lemma appendChain_spec ns L l p a m :
  isList ns L l → seg ns p (a :: m) None → NoDup (l ++ a :: m) →
  ∃ ns' L',
    VertexList.appendChain a (ns, L) = Some (ns', L') ∧
    isList ns' L' (l ++ a :: m) ∧
    (∀ u, u ≠ a → last l ≠ Some u → ns' !! u = ns !! u).
Proof.
  intros HL Hc Hnd.
  assert (Hnd0 := Hnd). apply NoDup_app in Hnd0 as (Hndl & Hdisj & Hndc).
  assert (Hc' := Hc). destruct Hc' as (va & Hva & _).
  unfold VertexList.appendChain.
  destruct l as [|e l _] using rev_ind.
  - destruct HL as (_ & Hh & Ht & _). simpl in Hh, Ht. rewrite Hh. simpl. rewrite Ht.
    rewrite (modify_Some _ _ _ _ Hva). simpl.
    assert (Hc1 : seg (<[a:=VertexNode.set_prev None va]> ns) None (a :: m) None)
      by (by apply (seg_set_prev ns p)).
    rewrite (lastOfChain_spec _ _ None a m Hc1).
    2:{ rewrite length_insert. apply le_S. by eapply seg_NoDup_length. }
    destruct (last (a :: m)) as [b|] eqn:Hb; [|by rewrite last_cons in Hb; destruct (last m)].
    simpl. eexists _, _. split; [done|]. split.
    + split_and!; [done|done|done|done].
    + intros u Hu _. by apply list_lookup_insert_ne.
  - pose proof (isList_snoc_tail _ _ _ _ HL) as Ht.
    destruct HL as (_ & Hh & _ & Hs).
    rewrite Hh, head_app_cons. simpl. rewrite Ht. simpl.
    assert (Hea : e ∉ a :: m).
    { apply Hdisj, elem_of_app. right. by left. }
    assert (Hea' : e ≠ a) by (intros ->; apply Hea; by left).
    destruct (seg_is_Some _ _ _ _ e Hs) as [en Hen];
      [apply elem_of_app; right; by left|].
    rewrite (modify_Some _ _ _ _ Hen). simpl.
    erewrite modify_Some by (rewrite list_lookup_insert_ne by done; exact Hva).
    simpl. rewrite ?Ht.
    set (ns1 := <[a:=VertexNode.set_prev (Some e) va]>
                  (<[e:=VertexNode.set_next (Some a) en]> ns)).
    assert (Hc1 : seg ns1 (Some e) (a :: m) None).
    { apply (seg_set_prev _ p); [done|by rewrite list_lookup_insert_ne|].
      apply (seg_frame ns); [|done]. intros u Hu.
      apply list_lookup_insert_ne. by intros <-. }
    rewrite (lastOfChain_spec _ _ (Some e) a m Hc1).
    2:{ unfold ns1. rewrite !length_insert. apply le_S. by eapply seg_NoDup_length. }
    destruct (last (a :: m)) as [b|] eqn:Hb; [|by rewrite last_cons in Hb; destruct (last m)].
    simpl. eexists _, _. split; [done|]. split.
    + split_and!; [done| | |].
      * simpl. rewrite Hh. by destruct l.
      * simpl. rewrite last_app_cons. rewrite last_cons in Hb.
        destruct (last m); simpl; congruence.
      * apply seg_app. split.
        -- simpl. apply (seg_frame (<[e:=VertexNode.set_next (Some a) en]> ns)).
           { intros u Hu. apply list_lookup_insert_ne. intros <-.
             apply (Hdisj a Hu). by left. }
           by apply (seg_set_next ns None l e None (Some a) en).
        -- unfold lastOr. by rewrite last_snoc.
    + intros u Hu1 Hu2. rewrite last_snoc in Hu2. unfold ns1.
      rewrite !list_lookup_insert_ne; congruence.
Qed.

Transparent VertexList.lastOfChain.

(** ** The assigned list and the outside runs of the faces *)

(** The vertices of a list of runs, in order. *)
Definition members (rs : list (fref * list vref)) : list vref :=
  concat (map snd rs).

(** The vertex [v] is outside the face [F] (the object of [f]) and refers to
    it. *)
Definition vertexOK (h : ConvexHull) (f : fref) (F : Face.t) (v : vref) : Prop :=
  ∃ node, vertexNodes h !! v = Some node ∧
          VertexNode.face node = Some f ∧
          tolerance h < Face.distanceToPoint F (VertexNode.point node).

(** [fr.2] is the outside run of the face [fr.1]: the face is visible, its
    [outside] is the first vertex of the run, and every vertex of the run
    is outside the face. *)
Definition runOK (h : ConvexHull) (fr : fref * list vref) : Prop :=
  ∃ F, faceObjs h !! fr.1 = Some F ∧
       Face.outside F = head fr.2 ∧
       fr.2 ≠ [] ∧
       Face.mark F = Visible ∧
       ∀ v, v ∈ fr.2 → vertexOK h fr.1 F v.

(** The assigned list is the concatenation of the outside runs [rs] of
    distinct faces, and no other face has an outside vertex. *)
Definition assignedInv (h : ConvexHull) (rs : list (fref * list vref)) : Prop :=
  isList (vertexNodes h) (assigned h) (members rs) ∧
  NoDup (map fst rs) ∧
  Forall (runOK h) rs ∧
  (∀ f F, faceObjs h !! f = Some F → f ∉ map fst rs → Face.outside F = None).

Lemma members_app rs1 rs2 : members (rs1 ++ rs2) = members rs1 ++ members rs2.
Proof. unfold members. by rewrite map_app, concat_app. Qed.

Lemma members_cons f r rs : members ((f, r) :: rs) = r ++ members rs.
Proof. done. Qed.

Lemma elem_of_members v rs :
  v ∈ members rs ↔ ∃ f r, (f, r) ∈ rs ∧ v ∈ r.
Proof.
  induction rs as [|[f r] rs IH].
  - split; [by intros H%elem_of_nil|]. by intros (f & r & H%elem_of_nil & _).
  - rewrite members_cons, elem_of_app, IH. split.
    + intros [Hv|(f' & r' & Hr & Hv)].
      * exists f, r. split; [left|done].
      * exists f', r'. split; [by right|done].
    + intros (f' & r' & Hr & Hv). apply elem_of_cons in Hr as [[= -> ->]|Hr].
      * by left.
      * right. by exists f', r'.
Qed.

Lemma runOK_frame h h' f r :
  runOK h (f, r) →
  faceObjs h' !! f = faceObjs h !! f →
  (∀ v, v ∈ r → dataView <$> vertexNodes h' !! v = dataView <$> vertexNodes h !! v) →
  tolerance h' = tolerance h →
  runOK h' (f, r).
Proof.
  intros (F & HF & Ho & Hne & Hm & Hvs) Hf Hd Ht. exists F. simpl in *.
  split_and!; try done; [congruence|].
  intros v Hv. destruct (Hvs v Hv) as (node & Hn & Hnf & Hdist).
  specialize (Hd v Hv). rewrite Hn in Hd. simpl in Hd.
  destruct (vertexNodes h' !! v) as [node'|] eqn:En; [|done].
  injection Hd as Hp Hfc. exists node'. rewrite Ht, Hp, Hfc. done.
Qed.

(** The face of a run of the assigned list: the run is the only one of the
    face. *)
Lemma assignedInv_run_of h rs f F :
  assignedInv h rs → faceObjs h !! f = Some F →
  match Face.outside F with
  | None => f ∉ map fst rs
  | Some o => ∃ rs1 r rs2, rs = rs1 ++ (f, o :: r) :: rs2
  end.
Proof.
  intros (HL & Hnd & Hok & Hnone) HF.
  destruct (decide (f ∈ map fst rs)) as [Hin|Hnin].
  - apply list_elem_of_fmap in Hin as ([f' r] & -> & Hin).
    apply list_elem_of_split in Hin as (rs1 & rs2 & ->).
    apply Forall_app in Hok as [_ Hok]. apply Forall_cons in Hok as [Hok _].
    destruct Hok as (F' & HF' & Ho & Hne & _). simpl in *.
    rewrite HF in HF'. injection HF' as <-. rewrite Ho.
    destruct r as [|o r]; [done|]. simpl. by exists rs1, r, rs2.
  - by rewrite (Hnone f F HF Hnin).
Qed.

Lemma Forall_impl_in {A} (P Q : A → Prop) l :
  Forall P l → (∀ x, x ∈ l → P x → Q x) → Forall Q l.
Proof. rewrite !Forall_forall. auto. Qed.

Lemma sameData_fmap ns ns' u :
  sameData ns ns' → dataView <$> ns' !! u = dataView <$> ns !! u.
Proof.
  intros H. unfold sameData in H.
  change (dataView <$> ns' = dataView <$> ns) in H.
  by rewrite <- !list_lookup_fmap, H.
Qed.

Lemma isList_frame ns ns' L l :
  (∀ v, v ∈ l → ns' !! v = ns !! v) → isList ns L l → isList ns' L l.
Proof.
  intros Hf (H1 & H2 & H3 & H4). split_and!; try done. by eapply seg_frame.
Qed.

Lemma members_snoc rs f r : members (rs ++ [(f, r)]) = members rs ++ r.
Proof. rewrite members_app, members_cons. unfold members. simpl. by rewrite app_nil_r. Qed.

Lemma NoDup_members_run rs1 f r rs2 :
  NoDup (members (rs1 ++ (f, r) :: rs2)) →
  NoDup r ∧ (∀ u, u ∈ r → (u ∉ members rs1) ∧ (u ∉ members rs2)).
Proof.
  rewrite members_app, members_cons. intros H.
  apply NoDup_app in H as (_ & H1 & H). apply NoDup_app in H as (H2 & H3 & _).
  split; [done|]. intros u Hu. split; [|by apply H3].
  intros Hu'. apply (H1 u Hu'). apply elem_of_app. by left.
Qed.

(** [_addVertexToFace( vertex, face )] for a vertex that is not assigned and
    lies outside the visible face: the vertex becomes the first of the run
    of the face, which is a new run at the end of the list when the face
    had none. *)
Lemma _addVertexToFace_inv h rs v f F node :
  assignedInv h rs → v ∉ members rs →
  vertexNodes h !! v = Some node →
  faceObjs h !! f = Some F → Face.mark F = Visible →
  tolerance h < Face.distanceToPoint F (VertexNode.point node) →
  ∃ h' rs',
    _addVertexToFace v f h = Some h' ∧
    assignedInv h' rs' ∧
    members rs' ≡ₚ v :: members rs ∧
    (∀ u, u ≠ v → u ∉ members rs → vertexNodes h' !! u = vertexNodes h !! u) ∧
    unassigned h' = unassigned h.
Proof.
  intros Hinv Hv Hnode HF Hvis Hdist.
  pose proof (assignedInv_run_of _ _ _ _ Hinv HF) as Hrun.
  destruct Hinv as (HL & Hnd & Hok & Hnone).
  unfold _addVertexToFace. rewrite (modify_Some _ _ _ _ Hnode). simpl.
  rewrite HF. simpl.
  set (ns1 := <[v:=VertexNode.set_face (Some f) node]> (vertexNodes h)).
  assert (Hns1 : ∀ u, u ≠ v → ns1 !! u = vertexNodes h !! u).
  { intros u Hu. unfold ns1. by rewrite list_lookup_insert_ne. }
  assert (Hns1v : ns1 !! v = Some (VertexNode.set_face (Some f) node)).
  { unfold ns1. lookup_eq. }
  assert (HL1 : isList ns1 (assigned h) (members rs)).
  { eapply isList_frame; [|done]. intros u Hu. apply Hns1. by intros ->. }
  rewrite (modify_Some _ _ _ _ HF). simpl.
  set (fs' := <[f:=Face.set_outside (Some v) F]> (faceObjs h)).
  assert (Hfs' : ∀ g, g ≠ f → fs' !! g = faceObjs h !! g).
  { intros g Hg. unfold fs'. by rewrite list_lookup_insert_ne. }
  assert (Hfs'f : fs' !! f = Some (Face.set_outside (Some v) F)).
  { unfold fs'. lookup_eq. }
  (* what the list method does to the data of the nodes *)
  assert (Hdata : ∀ ns2, sameData ns1 ns2 →
            (∀ u, u ≠ v → dataView <$> ns2 !! u = dataView <$> vertexNodes h !! u) ∧
            ∃ node', ns2 !! v = Some node' ∧
                     VertexNode.face node' = Some f ∧
                     VertexNode.point node' = VertexNode.point node).
  { intros ns2 Hs. split.
    - intros u Hu. rewrite (sameData_fmap _ _ u Hs). by rewrite Hns1.
    - destruct (sameData_lookup _ _ _ _ Hs Hns1v) as (node' & H1 & H2 & H3).
      exists node'. done. }
  (* the runs other than the one of the face stay as they are *)
  assert (Hkeep : ∀ ns2 L2 g r, sameData ns1 ns2 → runOK h (g, r) → g ≠ f →
            v ∉ r →
            runOK (set_faceObjs fs' (set_assigned L2 (set_vertexNodes ns2 h))) (g, r)).
  { intros ns2 L2 g r Hs Hr Hg Hvr. eapply runOK_frame; [done|..]; simpl.
    - by apply Hfs'.
    - intros u Hu. apply (Hdata ns2 Hs). by intros ->.
    - done. }
  destruct (Face.outside F) as [o|] eqn:Ho.
  - (* the face has a run already *)
    destruct Hrun as (rs1 & r & rs2 & ->).
    assert (Hnd' := Hnd). rewrite map_app in Hnd'. simpl in Hnd'.
    apply NoDup_mid in Hnd' as (_ & _ & Hf1 & Hf2 & _).
    assert (Hmem : members (rs1 ++ (f, o :: r) :: rs2)
                   = members rs1 ++ o :: (r ++ members rs2)).
    { by rewrite members_app, members_cons. }
    rewrite Hmem in HL1, Hv.
    destruct (insertBefore_spec _ _ _ _ _ v HL1 Hv) as (ns2 & L2 & Hop & HL2 & Hfr);
      [by rewrite Hns1v|].
    rewrite Hop. simpl. eexists _, (rs1 ++ (f, v :: o :: r) :: rs2).
    split; [done|]. pose proof (insertBefore_data _ _ _ _ _ _ Hop) as Hs.
    apply Forall_app in Hok as [Hok1 Hok2]. apply Forall_cons in Hok2 as [Hokf Hok2].
    split_and!.
    + split_and!.
      * simpl. by rewrite members_app, members_cons.
      * rewrite map_app. simpl. by rewrite map_app in Hnd.
      * apply Forall_app. split; [|apply Forall_cons; split].
        -- apply (Forall_impl_in _ _ _ Hok1). intros [g r'] Hin Hr. simpl in *.
           apply Hkeep; [done|done| |].
           ++ intros ->. apply Hf1. apply list_elem_of_fmap. by exists (f, r').
           ++ intros Hvr. apply Hv, elem_of_app. left.
              apply elem_of_members. by exists g, r'.
        -- destruct Hokf as (F' & HF' & _ & _ & _ & Hvs). simpl in *.
           rewrite HF in HF'. injection HF' as <-.
           exists (Face.set_outside (Some v) F). simpl.
           split_and!; [done|done|done|done|].
           intros u Hu. destruct (Hdata ns2 Hs) as (Hd1 & node' & Hd2 & Hd3 & Hd4).
           apply elem_of_cons in Hu as [->|Hu].
           ** exists node'. simpl. by rewrite Hd4.
           ** destruct (Hvs u Hu) as (nu & Hnu & Hnuf & Hnud).
              assert (Huv : u ≠ v).
              { intros ->. apply Hv, elem_of_app. right. by rewrite app_comm_cons;
                  apply elem_of_app; left. }
              specialize (Hd1 u Huv). rewrite Hnu in Hd1. simpl in Hd1.
              destruct (ns2 !! u) as [nu'|] eqn:Enu; [|done].
              injection Hd1 as Hp Hfc. exists nu'. simpl.
              by rewrite Hp, Hfc.
        -- apply (Forall_impl_in _ _ _ Hok2). intros [g r'] Hin Hr. simpl in *.
           apply Hkeep; [done|done| |].
           ++ intros ->. apply Hf2. apply list_elem_of_fmap. by exists (f, r').
           ++ intros Hvr. apply Hv, elem_of_app. right. right.
              apply elem_of_app. right. apply elem_of_members. by exists g, r'.
      * intros g G HG Hg. simpl in *.
        assert (Hgf : g ≠ f).
        { intros ->. apply Hg. rewrite map_app. apply elem_of_app. right. by left. }
        rewrite Hfs' in HG by done. apply (Hnone g G HG).
        by rewrite map_app in *.
    + rewrite !members_app, !members_cons.
      rewrite (Permutation_middle (members rs1) _ v). done.
    + intros u Hu1 Hu2. simpl. rewrite Hfr; [by apply Hns1|done|..].
      * intros ->. apply Hu2. rewrite Hmem. apply elem_of_app. right. by left.
      * intros Hl. apply Hu2. rewrite Hmem. apply elem_of_app. left.
        by apply last_Some_elem_of.
    + done.
  - (* the face has no run: a new run at the end *)
    destruct (append_spec _ _ _ v HL1 Hv) as (ns2 & L2 & Hop & HL2 & Hfr);
      [by rewrite Hns1v|].
    rewrite Hop. simpl. eexists _, (rs ++ [(f, [v])]).
    split; [done|]. pose proof (append_data _ _ _ _ _ Hop) as Hs.
    split_and!.
    + split_and!.
      * simpl. by rewrite members_snoc.
      * rewrite map_app. simpl. apply NoDup_app. split_and!; [done| |apply NoDup_singleton].
        intros g Hg Hg'. apply list_elem_of_singleton in Hg' as ->. done.
      * apply Forall_app. split; [|apply Forall_singleton].
        -- apply (Forall_impl_in _ _ _ Hok). intros [g r'] Hin Hr. simpl in *.
           apply Hkeep; [done|done| |].
           ++ intros ->. apply Hrun. apply list_elem_of_fmap. by exists (f, r').
           ++ intros Hvr. apply Hv. apply elem_of_members. by exists g, r'.
        -- exists (Face.set_outside (Some v) F). simpl.
           split_and!; [done|done|done|done|].
           intros u Hu. apply list_elem_of_singleton in Hu as ->.
           destruct (Hdata ns2 Hs) as (Hd1 & node' & Hd2 & Hd3 & Hd4).
           exists node'. simpl. by rewrite Hd4.
      * intros g G HG Hg. simpl in *.
        assert (Hgf : g ≠ f).
        { intros ->. apply Hg. rewrite map_app. apply elem_of_app. right. by left. }
        rewrite Hfs' in HG by done. apply (Hnone g G HG).
        intros Hin. apply Hg. rewrite map_app. apply elem_of_app. by left.
    + rewrite members_snoc. by rewrite Permutation_app_comm.
    + intros u Hu1 Hu2. simpl. rewrite Hfr; [by apply Hns1|done|].
      intros Hl. apply Hu2. by apply last_Some_elem_of.
    + done.
Qed.

(** A vertex of the assigned list is in the run of the face it refers to. *)
Lemma assignedInv_vertex h rs v node f :
  assignedInv h rs → v ∈ members rs →
  vertexNodes h !! v = Some node → VertexNode.face node = Some f →
  ∃ rs1 r1 r2 rs2, rs = rs1 ++ (f, r1 ++ v :: r2) :: rs2.
Proof.
  intros (HL & Hnd & Hok & Hnone) Hv Hnode Hf.
  apply elem_of_members in Hv as (g & r & Hr & Hv).
  apply list_elem_of_split in Hr as (rs1 & rs2 & ->).
  apply list_elem_of_split in Hv as (r1 & r2 & ->).
  apply Forall_app in Hok as [_ Hok]. apply Forall_cons in Hok as [Hok _].
  destruct Hok as (F & _ & _ & _ & _ & Hvs). simpl in Hvs.
  destruct (Hvs v) as (node' & H1 & H2 & _); [apply elem_of_app; right; by left|].
  rewrite Hnode in H1. injection H1 as <-. rewrite Hf in H2. injection H2 as <-.
  by exists rs1, r1, r2, rs2.
Qed.

Lemma head_members_in rs n : head (members rs) = Some n → n ∈ members rs.
Proof. destruct (members rs); [done|]. intros [= ->]. by left. Qed.

(** [_removeVertexFromFace( vertex, face )] for a vertex of the assigned
    list and the face it refers to: the run of the face loses the vertex,
    the node of the vertex is not written to. *)
Lemma _removeVertexFromFace_inv h rs1 f r1 v r2 rs2 :
  assignedInv h (rs1 ++ (f, r1 ++ v :: r2) :: rs2) →
  ∃ h',
    _removeVertexFromFace v f h = Some h' ∧
    assignedInv h' (rs1 ++ (if decide (r1 ++ r2 = []) then [] else [(f, r1 ++ r2)]) ++ rs2) ∧
    vertexNodes h' !! v = vertexNodes h !! v ∧
    (∀ u, u ∉ members (rs1 ++ (f, r1 ++ v :: r2) :: rs2) →
          vertexNodes h' !! u = vertexNodes h !! u) ∧
    unassigned h' = unassigned h.
Proof.
  intros (HL & Hnd & Hok & Hnone).
  assert (Hmem : members (rs1 ++ (f, r1 ++ v :: r2) :: rs2)
                 = (members rs1 ++ r1) ++ v :: (r2 ++ members rs2)).
  { rewrite members_app, members_cons. by rewrite <- !app_assoc. }
  rewrite Hmem in HL.
  destruct (isList_node _ _ _ _ _ HL) as (node & Hnode & Hprev & Hnext).
  assert (Hnd' := Hnd). rewrite map_app in Hnd'. simpl in Hnd'.
  apply NoDup_mid in Hnd' as (Hndf1 & Hndf2 & Hf1 & Hf2 & Hdf).
  assert (Hok' := Hok).
  apply Forall_app in Hok' as [Hok1 Hok2]. apply Forall_cons in Hok2 as [Hokf Hok2].
  destruct Hokf as (F & HF & Ho & Hne & Hvis & Hvs). simpl in HF, Ho, Hne, Hvis, Hvs.
  assert (HndL : NoDup ((members rs1 ++ r1) ++ v :: (r2 ++ members rs2))) by apply HL.
  pose proof (NoDup_mid _ _ _ HndL) as (_ & _ & Hv1 & Hv2 & _).
  (* the new [outside] of the face *)
  assert (Hfs : ∃ fs' F',
    (if bool_decide (Face.outside F = Some v) then
       v0 ← vertexNodes h !! v;
       match VertexNode.next v0 with
       | Some n =>
           vn ← vertexNodes h !! n;
           if bool_decide (VertexNode.face vn = Some f)
           then modify f (Face.set_outside (Some n)) (faceObjs h)
           else modify f (Face.set_outside None) (faceObjs h)
       | None => modify f (Face.set_outside None) (faceObjs h)
       end
     else Some (faceObjs h)) = Some fs' ∧
    fs' !! f = Some F' ∧ faceShape F' = faceShape F ∧
    Face.outside F' = head (r1 ++ r2) ∧
    ∀ g, g ≠ f → fs' !! g = faceObjs h !! g).
  { destruct r1 as [|a r1].
    - simpl in Ho. rewrite Ho, bool_decide_eq_true_2 by done.
      rewrite Hnode. simpl. rewrite Hnext.
      assert (Hset : ∀ o, ∃ fs' F',
                modify f (Face.set_outside o) (faceObjs h) = Some fs' ∧
                fs' !! f = Some F' ∧ faceShape F' = faceShape F ∧
                Face.outside F' = o ∧ ∀ g, g ≠ f → fs' !! g = faceObjs h !! g).
      { intros o. rewrite (modify_Some _ _ _ _ HF). eexists _, _.
        split_and!; [done|lookup_eq|done|done|].
        intros g Hg. by apply list_lookup_insert_ne. }
      destruct r2 as [|n r2]; simpl.
      + destruct (head (members rs2)) as [n|] eqn:Hn; [|apply Hset].
        apply head_members_in, elem_of_members in Hn as (g & r & Hr & Hn).
        rewrite Forall_forall in Hok2.
        destruct (Hok2 _ Hr) as (G & _ & _ & _ & _ & Hgs). simpl in Hgs.
        destruct (Hgs n Hn) as (nn & Hnn & Hnf & _).
        rewrite Hnn. simpl. rewrite Hnf.
        rewrite bool_decide_eq_false_2; [apply Hset|].
        intros [= ->]. apply Hf2. apply list_elem_of_fmap. by exists (f, r).
      + destruct (Hvs n) as (nn & Hnn & Hnf & _); [right; by left|].
        rewrite Hnn. simpl. rewrite Hnf, bool_decide_eq_true_2 by done.
        apply Hset.
    - simpl in Ho. rewrite bool_decide_eq_false_2.
      + exists (faceObjs h), F. done.
      + rewrite Ho. intros [= ->]. apply Hv1. apply elem_of_app. right. by left. }
  destruct Hfs as (fs' & F' & Hfs & HF' & Hshape & Ho' & Hfs').
  injection Hshape as Hn' _ _ Hc' Hm' _.
  destruct (remove_spec _ _ _ _ _ HL) as (ns' & L' & Hop & HL' & Hvn & Hfr & _ & _).
  unfold _removeVertexFromFace. rewrite HF. simpl. rewrite Hfs. simpl.
  rewrite Hop. simpl. eexists. split; [done|].
  pose proof (remove_data _ _ _ _ _ Hop) as Hs.
  assert (Hkeep : ∀ g r, runOK h (g, r) → g ≠ f →
            runOK (set_assigned L' (set_vertexNodes ns' (set_faceObjs fs' h))) (g, r)).
  { intros g r Hr Hg. eapply runOK_frame; [done|..]; simpl.
    - by apply Hfs'.
    - intros u Hu. by apply sameData_fmap.
    - done. }
  split_and!.
  - split_and!; simpl.
    + rewrite !members_app. destruct (decide (r1 ++ r2 = [])) as [Hd|Hd].
      * apply app_eq_nil in Hd as [-> ->]. simpl in *.
        unfold members at 2. simpl. by rewrite app_nil_r in *.
      * unfold members at 2. simpl. by rewrite app_nil_r, <- !app_assoc in *.
    + rewrite !map_app. destruct (decide (r1 ++ r2 = [])) as [Hd|Hd]; simpl; [by apply NoDup_app|].
      rewrite map_app in Hnd. done.
    + apply Forall_app. split; [|apply Forall_app; split].
      * apply (Forall_impl_in _ _ _ Hok1). intros [g r] Hin Hr.
        apply Hkeep; [done|]. intros ->. apply Hf1.
        apply list_elem_of_fmap. by exists (f, r).
      * destruct (decide (r1 ++ r2 = [])) as [Hd|Hd]; [constructor|]. apply Forall_singleton.
        exists F'. simpl.
        split_and!; [done|done|done|congruence|].
        intros u Hu.
        destruct (Hvs u) as (nu & Hnu & Hnuf & Hnud).
        { apply elem_of_app in Hu as [Hu|Hu]; apply elem_of_app; [by left|].
          right. by right. }
        pose proof (sameData_fmap _ _ u Hs) as Hdu. rewrite Hnu in Hdu. simpl in Hdu.
        destruct (ns' !! u) as [nu'|] eqn:Enu; [|done].
        injection Hdu as Hp Hfc. exists nu'.
        split_and!; [done|congruence|].
        unfold Face.distanceToPoint in *. rewrite Hp, Hn', Hc'. done.
      * apply (Forall_impl_in _ _ _ Hok2). intros [g r] Hin Hr.
        apply Hkeep; [done|]. intros ->. apply Hf2.
        apply list_elem_of_fmap. by exists (f, r).
    + intros g G HG Hg.
      destruct (decide (g = f)) as [->|Hgf].
      * rewrite HF' in HG. injection HG as <-. rewrite Ho'.
        destruct (decide (r1 ++ r2 = [])) as [Hd|Hd]; [by rewrite Hd|].
        destruct Hg. rewrite !map_app. apply elem_of_app. right.
        apply elem_of_app. left. by left.
      * rewrite Hfs' in HG by done. apply (Hnone g G HG).
        intros Hin. apply Hg. rewrite !map_app in *.
        apply elem_of_app in Hin as [Hin|Hin]; apply elem_of_app; [by left|].
        right. apply elem_of_app. right.
        apply elem_of_cons in Hin as [->|Hin]; done.
  - done.
  - intros u Hu. simpl. rewrite Hmem in Hu. apply Hfr.
    + intros Hl. apply Hu. apply elem_of_app. left. by apply last_Some_elem_of.
    + intros Hh. apply Hu. apply elem_of_app. right. right.
      by apply head_Some_elem_of.
  - done.
Qed.

(** The loop of [_removeAllVerticesFromFace] ends at the last vertex of the
    run: the vertices after the first refer to the face, the vertex after
    the run (if any) does not. *)
Lemma endOfRun_spec fuel ns f p a m n :
  seg ns p (a :: m) n →
  (∀ u, u ∈ m → ∃ nu, ns !! u = Some nu ∧ VertexNode.face nu = Some f) →
  match n with
  | None => True
  | Some q => ∃ nq, ns !! q = Some nq ∧ VertexNode.face nq ≠ Some f
  end →
  (length (a :: m) <= fuel)%nat →
  endOfRun fuel ns f a = last (a :: m).
Proof.
  revert p a fuel. induction m as [|b m IH]; intros p a fuel Hs Hm Hn Hf.
  - destruct fuel as [|fuel]; [simpl in Hf; lia|].
    destruct Hs as (node & H1 & H2 & H3 & _). simpl in *.
    rewrite H1. simpl. rewrite H3. destruct n as [q|]; [|done].
    destruct Hn as (nq & Hq & Hqf). rewrite Hq. simpl.
    by rewrite bool_decide_eq_false_2.
  - destruct fuel as [|fuel]; [simpl in Hf; lia|].
    destruct Hs as (node & H1 & H2 & H3 & Hs). simpl in H3.
    simpl. rewrite H1. simpl. rewrite H3.
    destruct (Hm b) as (nb & Hb & Hbf); [by left|].
    rewrite Hb. simpl. rewrite bool_decide_eq_true_2 by done.
    rewrite (IH (Some a) b fuel Hs); [done| |done|simpl in *; lia].
    intros u Hu. apply Hm. by right.
Qed.

Lemma last_cons_Some {A} (a : A) m : ∃ b, last (a :: m) = Some b.
Proof. rewrite last_cons. destruct (last m); eauto. Qed.

Opaque endOfRun.

(** [_removeAllVerticesFromFace( face )]: the run of the face leaves the
    assigned list and becomes a chain of its own. *)
Lemma _removeAllVerticesFromFace_inv h rs f F :
  assignedInv h rs → faceObjs h !! f = Some F →
  match Face.outside F with
  | None => _removeAllVerticesFromFace f h = Some (None, h)
  | Some start =>
      ∃ rs1 r rs2 h',
        rs = rs1 ++ (f, start :: r) :: rs2 ∧
        _removeAllVerticesFromFace f h = Some (Some start, h') ∧
        assignedInv h' (rs1 ++ rs2) ∧
        seg (vertexNodes h') None (start :: r) None ∧
        (∀ u, u ∉ members rs → vertexNodes h' !! u = vertexNodes h !! u) ∧
        sameData (vertexNodes h) (vertexNodes h') ∧
        unassigned h' = unassigned h
  end.
Proof.
  intros Hinv HF.
  pose proof (assignedInv_run_of _ _ _ _ Hinv HF) as Hrun.
  unfold _removeAllVerticesFromFace. rewrite HF. simpl.
  destruct (Face.outside F) as [start|] eqn:Ho; [|done].
  destruct Hrun as (rs1 & r & rs2 & ->). exists rs1, r, rs2.
  destruct Hinv as (HL & Hnd & Hok & Hnone).
  assert (Hmem : members (rs1 ++ (f, start :: r) :: rs2)
                 = members rs1 ++ (start :: r) ++ members rs2).
  { by rewrite members_app, members_cons. }
  rewrite Hmem in HL.
  assert (Hnd' := Hnd). rewrite map_app in Hnd'. simpl in Hnd'.
  apply NoDup_mid in Hnd' as (Hndf1 & Hndf2 & Hf1 & Hf2 & Hdf).
  assert (Hok' := Hok).
  apply Forall_app in Hok' as [Hok1 Hok2]. apply Forall_cons in Hok2 as [Hokf Hok2].
  destruct Hokf as (F0 & HF0 & _ & _ & _ & Hvs). simpl in HF0, Hvs.
  rewrite HF in HF0. injection HF0 as <-.
  assert (HL0 := HL). destruct HL0 as (HndL & _ & _ & Hs).
  apply seg_app in Hs as [_ Hs]. apply seg_app in Hs as [Hsr _].
  assert (Hlo : lastOr None (members rs1) = last (members rs1))
    by (unfold lastOr; by destruct (last (members rs1))).
  assert (Hho : headOr (members rs2) None = head (members rs2))
    by (by destruct (members rs2)).
  rewrite Hlo, Hho in Hsr.
  destruct (last_cons_Some start r) as [b Hb].
  rewrite (endOfRun_spec _ _ f _ start r _ Hsr).
  2:{ intros u Hu. destruct (Hvs u) as (nu & H1 & H2 & _); [by right|]. eauto. }
  2:{ destruct (head (members rs2)) as [q|] eqn:Hq; [|done].
      apply head_members_in, elem_of_members in Hq as (g & r' & Hr' & Hq).
      rewrite Forall_forall in Hok2.
      destruct (Hok2 _ Hr') as (G & _ & _ & _ & _ & Hgs). simpl in Hgs.
      destruct (Hgs q Hq) as (nq & Hnq & Hqf & _). exists nq. split; [done|].
      rewrite Hqf. intros [= ->]. apply Hf2. apply list_elem_of_fmap. by exists (f, r'). }
  2:{ apply le_S. eapply seg_NoDup_length; [|exact Hsr].
      apply NoDup_app in HndL as (_ & _ & HndL). by apply NoDup_app in HndL as (HndL & _). }
  rewrite Hb. simpl.
  destruct (removeSubList_spec _ _ _ _ _ _ _ HL Hb) as (ns1 & L1 & Hop & HL1 & Hfr & Hsr1).
  rewrite Hop. simpl.
  pose proof (removeSubList_data _ _ _ _ _ _ Hop) as Hs1.
  (* the two ends of the run *)
  apply NoDup_app in HndL as (Hnd1 & Hd1 & HndL).
  apply NoDup_app in HndL as (Hndr & Hd2 & Hnd2).
  assert (∃ m', start :: r = m' ++ [b]) as [m' Hm'].
  { destruct (start :: r) as [|x k _] using rev_ind; [done|].
    rewrite last_snoc in Hb. injection Hb as ->. by exists k. }
  assert (Hb_in : b ∈ start :: r) by (rewrite Hm'; apply elem_of_app; right; by left).
  destruct (seg_is_Some _ _ _ _ b Hsr1 Hb_in) as [nb Hnb].
  rewrite (modify_Some _ _ _ _ Hnb). simpl.
  set (ns2 := <[b:=VertexNode.set_next None nb]> ns1).
  assert (Hsr2 : seg ns2 (last (members rs1)) (start :: r) None).
  { rewrite Hm'. rewrite Hm' in Hsr1, Hndr.
    by apply (seg_set_next ns1 _ m' b (head (members rs2)) None nb). }
  assert (Hsr2' := Hsr2). destruct Hsr2' as (na & Hna & _).
  rewrite (modify_Some _ _ _ _ Hna). simpl.
  set (ns3 := <[start:=VertexNode.set_prev None na]> ns2).
  assert (Hsr3 : seg ns3 None (start :: r) None) by (by apply (seg_set_prev ns2 (last (members rs1)))).
  rewrite (modify_Some _ _ _ _ HF). simpl.
  set (fs' := <[f:=Face.set_outside None F]> (faceObjs h)).
  assert (Hns3 : ∀ u, u ∉ start :: r → ns3 !! u = ns1 !! u).
  { intros u Hu. unfold ns3, ns2. rewrite !list_lookup_insert_ne; [done|..].
    - intros <-. done.
    - intros <-. apply Hu. by left. }
  assert (Hs3 : sameData (vertexNodes h) ns3).
  { eapply sameData_trans; [exact Hs1|]. eapply sameData_trans.
    - by apply (sameData_insert ns1 b nb (VertexNode.set_next None nb)).
    - by apply (sameData_insert ns2 start na (VertexNode.set_prev None na)). }
  eexists. split; [done|]. split; [done|]. split_and!.
  - split_and!; simpl.
    + rewrite members_app. eapply isList_frame; [|exact HL1].
      intros u Hu. apply Hns3. intros Hur.
      apply elem_of_app in Hu as [Hu|Hu].
      * apply (Hd1 u Hu). apply elem_of_app. by left.
      * by apply (Hd2 u Hur).
    + rewrite map_app. by apply NoDup_app.
    + apply Forall_app. split.
      * apply (Forall_impl_in _ _ _ Hok1). intros [g r'] Hin Hr.
        eapply runOK_frame; [done|..]; simpl.
        -- unfold fs'. apply list_lookup_insert_ne. intros <-. apply Hf1.
           apply list_elem_of_fmap. by exists (f, r').
        -- intros u Hu. by apply sameData_fmap.
        -- done.
      * apply (Forall_impl_in _ _ _ Hok2). intros [g r'] Hin Hr.
        eapply runOK_frame; [done|..]; simpl.
        -- unfold fs'. apply list_lookup_insert_ne. intros <-. apply Hf2.
           apply list_elem_of_fmap. by exists (f, r').
        -- intros u Hu. by apply sameData_fmap.
        -- done.
    + intros g G HG Hg. destruct (decide (g = f)) as [->|Hgf].
      * unfold fs' in HG. erewrite list_lookup_insert_eq in HG
          by (by eapply lookup_lt_Some). by injection HG as <-.
      * unfold fs' in HG. rewrite list_lookup_insert_ne in HG by done.
        apply (Hnone g G HG). intros Hin. apply Hg. rewrite map_app in *.
        apply elem_of_app in Hin as [Hin|Hin]; apply elem_of_app; [by left|].
        right. apply elem_of_cons in Hin as [->|Hin]; done.
  - done.
  - intros u Hu. simpl. rewrite Hmem in Hu. rewrite Hns3.
    + apply Hfr.
      * intros Hl. apply Hu. apply elem_of_app. left. by apply last_Some_elem_of.
      * intros Hh. apply Hu. apply elem_of_app. right. apply elem_of_app. right.
        by apply head_Some_elem_of.
    + intros Hur. apply Hu. apply elem_of_app. right. apply elem_of_app. by left.
  - done.
  - done.
Qed.

Transparent endOfRun.

Lemma assignedInv_frame h h' rs :
  assignedInv h rs →
  assigned h' = assigned h → tolerance h' = tolerance h →
  (∀ v, v ∈ members rs → vertexNodes h' !! v = vertexNodes h !! v) →
  (∀ f, f ∈ map fst rs → faceObjs h' !! f = faceObjs h !! f) →
  (∀ f F', faceObjs h' !! f = Some F' → f ∉ map fst rs → Face.outside F' = None) →
  assignedInv h' rs.
Proof.
  intros (HL & Hnd & Hok & Hnone) HA Ht Hv Hf Hnone'. split_and!.
  - rewrite HA. by eapply isList_frame.
  - done.
  - apply (Forall_impl_in _ _ _ Hok). intros [f r] Hin Hr.
    eapply runOK_frame; [done| | |done].
    + apply Hf. apply list_elem_of_fmap. by exists (f, r).
    + intros v Hvr. rewrite Hv; [done|]. apply elem_of_members. by exists f, r.
  - done.
Qed.

(** The unassigned list, kept apart from the assigned one. *)
Definition unassignedInv (h : ConvexHull) (rs : list (fref * list vref))
  (u : list vref) : Prop :=
  isList (vertexNodes h) (unassigned h) u ∧ NoDup (members rs ++ u).

(** [_deleteFaceVertices( face )]: the run of the face moves from the
    assigned list to the end of the unassigned list. *)
Lemma _deleteFaceVertices_inv fuel h rs u f F :
  assignedInv h rs → unassignedInv h rs u → faceObjs h !! f = Some F →
  ∃ h' rs' u',
    _deleteFaceVertices fuel f None h = Some h' ∧
    assignedInv h' rs' ∧ unassignedInv h' rs' u' ∧
    members rs' ++ u' ≡ₚ members rs ++ u ∧
    (f ∉ map fst rs') ∧
    (∀ g, g ∈ map fst rs' → g ∈ map fst rs) ∧
    (∀ v, v ∉ members rs ++ u → vertexNodes h' !! v = vertexNodes h !! v) ∧
    sameData (vertexNodes h) (vertexNodes h').
Proof.
  intros Hinv [HU HndU] HF.
  pose proof (_removeAllVerticesFromFace_inv _ _ _ _ Hinv HF) as Hrem.
  pose proof (assignedInv_run_of _ _ _ _ Hinv HF) as Hrun.
  unfold _deleteFaceVertices.
  destruct (Face.outside F) as [start|] eqn:Ho.
  - destruct Hrem as (rs1 & r & rs2 & h1 & -> & Hop & Hinv1 & Hchain & Hfr1 & Hs1 & HU1).
    rewrite Hop. simpl.
    assert (Hmem : members (rs1 ++ (f, start :: r) :: rs2)
                   = members rs1 ++ (start :: r) ++ members rs2).
    { by rewrite members_app, members_cons. }
    rewrite Hmem in HndU, Hfr1.
    assert (HndU' : NoDup ((members rs1 ++ members rs2) ++ u ++ start :: r)).
    { eapply NoDup_Permutation_proper; [|exact HndU].
      rewrite <- !app_assoc. apply Permutation_app_head.
      rewrite (Permutation_app_comm u). rewrite !app_assoc.
      apply Permutation_app_tail. apply Permutation_app_comm. }
    assert (HU1' : isList (vertexNodes h1) (unassigned h) u).
    { eapply isList_frame; [|exact HU]. intros v Hv. apply Hfr1.
      intros Hv'. apply NoDup_app in HndU as (_ & HndU & _). by apply (HndU v). }
    destruct (appendChain_spec _ _ _ _ _ _ HU1' Hchain) as (ns2 & U2 & Hop2 & HU2 & Hfr2).
    { apply NoDup_app in HndU' as (_ & _ & H). done. }
    rewrite HU1, Hop2. simpl.
    pose proof (appendChain_data _ _ _ _ _ Hop2) as Hs2.
    eexists _, (rs1 ++ rs2), (u ++ start :: r). split; [done|].
    assert (Hnd : NoDup (map fst (rs1 ++ (f, start :: r) :: rs2))) by apply Hinv.
    rewrite map_app in Hnd. simpl in Hnd.
    apply NoDup_mid in Hnd as (_ & _ & Hf1 & Hf2 & _).
    split_and!.
    + eapply assignedInv_frame; [exact Hinv1|done|done| |done|apply Hinv1]. simpl.
      intros v Hv. rewrite members_app in Hv. apply Hfr2.
      * intros ->. apply NoDup_app in HndU' as (_ & HndU' & _).
        apply (HndU' start Hv). apply elem_of_app. right. by left.
      * intros Hl. apply last_Some_elem_of in Hl.
        apply NoDup_app in HndU' as (_ & HndU' & _).
        apply (HndU' v Hv). apply elem_of_app. by left.
    + split; [done|]. by rewrite members_app.
    + rewrite members_app, Hmem. rewrite <- !app_assoc. apply Permutation_app_head.
      rewrite (Permutation_app_comm u). rewrite !app_assoc.
      apply Permutation_app_tail. apply Permutation_app_comm.
    + rewrite map_app. intros Hin. apply elem_of_app in Hin as [Hin|Hin]; [by apply Hf1|by apply Hf2].
    + intros g Hg. rewrite !map_app in *. apply elem_of_app in Hg as [Hg|Hg];
        apply elem_of_app; [by left|]. right. by right.
    + intros v Hv. rewrite Hmem in Hv. simpl. rewrite Hfr2.
      * apply Hfr1. intros Hv'. apply Hv. apply elem_of_app. by left.
      * intros ->. apply Hv. apply elem_of_app. left. apply elem_of_app. right. by left.
      * intros Hl. apply last_Some_elem_of in Hl. apply Hv. apply elem_of_app. by right.
    + simpl. by eapply sameData_trans.
  - rewrite Hrem. simpl. exists h, rs, u. split_and!; try done.
Qed.

(** ** Reassigning the unassigned vertices *)

(** The face a scan has chosen is visible and the point is outside it. *)
Definition chosenOK (h : ConvexHull) (p : Vector3) (maxFace : option fref) : Prop :=
  match maxFace with
  | None => True
  | Some f => ∃ F, faceObjs h !! f = Some F ∧ Face.mark F = Visible ∧
                   tolerance h < Face.distanceToPoint F p
  end.

Lemma resolveScan_spec h p newFaces maxDistance maxFace r :
  resolveScan h p newFaces maxDistance maxFace = Some r →
  tolerance h <= maxDistance → chosenOK h p maxFace → chosenOK h p r.
Proof.
  revert maxDistance maxFace.
  induction newFaces as [|face rest IH]; intros d mf H Hd Hmf; simpl in H.
  - by injection H as <-.
  - destruct (faceObjs h !! face) as [F|] eqn:HF; [|done]. simpl in H.
    destruct (bool_decide (Face.mark F = Visible)) eqn:Hvis; [|by eapply IH].
    apply bool_decide_eq_true in Hvis.
    destruct (gtb (Face.distanceToPoint F p) d) eqn:Hgt.
    + apply gtb_true in Hgt.
      assert (Hnew : chosenOK h p (Some face)).
      { exists F. split_and!; [done|done|]. eapply Qle_lt_trans; done. }
      destruct (gtb (Face.distanceToPoint F p) (1000 * tolerance h)).
      * by injection H as <-.
      * eapply IH; [done| |done]. apply Qlt_le_weak. eapply Qle_lt_trans; done.
    + destruct (gtb d (1000 * tolerance h)); [by injection H as <-|].
      by eapply IH.
Qed.

Lemma NoDup_app_cons_perm (l : list vref) v c :
  NoDup (l ++ v :: c) → NoDup ((v :: l) ++ c).
Proof.
  intros H. eapply NoDup_Permutation_proper; [|exact H].
  simpl. by rewrite <- Permutation_middle.
Qed.

(** The [do ... while] of [_resolveUnassignedPoints] over a chain of vertex
    nodes that are not assigned. *)
Lemma resolveLoop_inv fuel newFaces v c p h rs h' :
  assignedInv h rs →
  seg (vertexNodes h) p (v :: c) None →
  NoDup (members rs ++ v :: c) →
  resolveLoop fuel newFaces v h = Some h' →
  ∃ rs', assignedInv h' rs' ∧
         (∀ u, u ∈ members rs' → u ∈ members rs ++ v :: c) ∧
         (∀ u, u ∉ members rs ++ v :: c → vertexNodes h' !! u = vertexNodes h !! u).
Proof.
  revert v c p h rs. induction fuel as [|fuel IH]; intros v c p h rs Hinv Hc Hnd H;
    [done|].
  simpl in H. assert (Hc' := Hc). destruct Hc' as (node & Hnode & _ & Hnext & Hcs).
  rewrite Hnode in H. simpl in H. rewrite Hnext in H.
  destruct (resolveScan h (VertexNode.point node) newFaces (tolerance h) None)
    as [maxFace|] eqn:Hscan; [|done]. simpl in H.
  apply resolveScan_spec in Hscan; [|apply Qle_refl|done].
  assert (Hv : v ∉ members rs).
  { apply NoDup_app in Hnd as (_ & Hnd & _). intros Hv. apply (Hnd v Hv). by left. }
  assert (Hstep : ∃ h1 rs1,
            match maxFace with
            | Some f => _addVertexToFace v f h
            | None => Some h
            end = Some h1 ∧
            assignedInv h1 rs1 ∧
            (∀ u, u ∈ members rs1 → u ∈ v :: members rs) ∧
            (∀ u, u ≠ v → u ∉ members rs → vertexNodes h1 !! u = vertexNodes h !! u)).
  { destruct maxFace as [f|].
    - destruct Hscan as (F & HF & Hvis & Hdist).
      destruct (_addVertexToFace_inv _ _ _ _ _ _ Hinv Hv Hnode HF Hvis Hdist)
        as (h1 & rs1 & Hop & Hinv1 & Hperm & Hfr & _).
      exists h1, rs1. split_and!; try done. intros u Hu. by rewrite <- Hperm.
    - exists h, rs. split_and!; try done. intros u Hu. by right. }
  destruct Hstep as (h1 & rs1 & Hop & Hinv1 & Hsub & Hfr).
  rewrite Hop in H. simpl in H.
  destruct c as [|w c]; simpl in H.
  - injection H as <-. exists rs1. split_and!; [done| |].
    + intros u Hu. apply Hsub in Hu. apply elem_of_app.
      apply elem_of_cons in Hu as [->|Hu]; [right; by left|by left].
    + intros u Hu. apply Hfr.
      * intros ->. apply Hu, elem_of_app. right. by left.
      * intros Hu'. apply Hu, elem_of_app. by left.
  - assert (Hnd1 : NoDup (members rs1 ++ w :: c)).
    { apply NoDup_app_cons_perm in Hnd. apply NoDup_app in Hnd as (Hnd1 & Hnd2 & Hnd3).
      apply NoDup_app. split_and!; [apply Hinv1| |done].
      intros u Hu. apply Hnd2. by apply Hsub. }
    assert (Hc1 : seg (vertexNodes h1) (Some v) (w :: c) None).
    { eapply seg_frame; [|exact Hcs]. intros u Hu.
      apply NoDup_app_cons_perm in Hnd. apply NoDup_app in Hnd as (_ & Hnd & _).
      apply Hfr.
      - intros ->. apply (Hnd v); [by left|done].
      - intros Hu'. apply (Hnd u); [by right|done]. }
    destruct (IH _ _ _ _ _ Hinv1 Hc1 Hnd1 H) as (rs' & Hinv' & Hsub' & Hfr').
    exists rs'. split_and!; [done| |].
    + intros u Hu. apply Hsub' in Hu. apply elem_of_app in Hu as [Hu|Hu].
      * apply Hsub in Hu. apply elem_of_app.
        apply elem_of_cons in Hu as [->|Hu]; [right; by left|by left].
      * apply elem_of_app. right. by right.
    + intros u Hu. rewrite Hfr'.
      * apply Hfr.
        -- intros ->. apply Hu, elem_of_app. right. by left.
        -- intros Hu'. apply Hu, elem_of_app. by left.
      * intros Hu'. apply Hu. apply elem_of_app in Hu' as [Hu'|Hu'].
        -- apply Hsub in Hu'. apply elem_of_app.
           apply elem_of_cons in Hu' as [->|Hu']; [right; by left|by left].
        -- apply elem_of_app. right. by right.
Qed.

(** [_resolveUnassignedPoints( newFaces )] re-establishes the invariant of
    the assigned list alone. *)
Lemma _resolveUnassignedPoints_inv fuel newFaces h rs u h' :
  assignedInv h rs → unassignedInv h rs u →
  _resolveUnassignedPoints fuel newFaces h = Some h' →
  ∃ rs', assignedInv h' rs'.
Proof.
  intros Hinv [HU Hnd] H. unfold _resolveUnassignedPoints, VertexList.isEmpty in H.
  destruct HU as (_ & Hh & _ & Hs).
  destruct u as [|v c]; simpl in Hh.
  - rewrite Hh, bool_decide_eq_true_2 in H by done. injection H as <-. by exists rs.
  - rewrite Hh, bool_decide_eq_false_2 in H by done.
    unfold VertexList.first in H. rewrite Hh in H. simpl in H.
    destruct (resolveLoop_inv _ _ _ _ _ _ _ _ Hinv Hs Hnd H) as (rs' & Hinv' & _).
    by exists rs'.
Qed.

(** ** The half-edge mesh *)

(** The three half-edges of the face [k] are allocated together: they are
    the half-edges [3 k], [3 k + 1] and [3 k + 2], and [next] and [prev] go
    round them. *)
#[local] Arguments Nat.mul : simpl never.

Definition nxt (i : nat) : nat := match i with 0 => 1 | 1 => 2 | _ => 0 end%nat.
Definition prv (i : nat) : nat := match i with 0 => 2 | 1 => 0 | _ => 1 end%nat.

Definition shapeInv (h : ConvexHull) : Prop :=
  length (halfEdges h) = (3 * length (faceObjs h))%nat ∧
  (∀ k F, faceObjs h !! k = Some F → Face.edge F = Some (3 * k)%nat) ∧
  (∀ k i ed, (i < 3)%nat → halfEdges h !! (3 * k + i)%nat = Some ed →
             HalfEdge.face ed = k ∧
             HalfEdge.next ed = Some (3 * k + nxt i)%nat ∧
             HalfEdge.prev ed = Some (3 * k + prv i)%nat).

Definition visible (h : ConvexHull) (k : fref) : Prop :=
  ∃ F, faceObjs h !! k = Some F ∧ Face.mark F = Visible.

(** Every [twin] reference is a half-edge of the store, and the twin of
    every linked half-edge of a visible face is linked back to it. *)
Definition twinInv (h : ConvexHull) : Prop :=
  ∀ e ed t, halfEdges h !! e = Some ed → HalfEdge.twin ed = Some t →
            (t < length (halfEdges h))%nat ∧
            (visible h (HalfEdge.face ed) →
             ∃ td, halfEdges h !! t = Some td ∧ HalfEdge.twin td = Some e).

Definition meshInv (h : ConvexHull) : Prop := shapeInv h ∧ twinInv h.

(** The half-edge [e] is not linked to a twin. *)
Definition unlinked (h : ConvexHull) (e : eref) : Prop :=
  ∃ ed, halfEdges h !! e = Some ed ∧ HalfEdge.twin ed = None.

Definition edgeShape (e : HalfEdge.t) :=
  (HalfEdge.vertex e, HalfEdge.prev e, HalfEdge.next e, HalfEdge.face e).

Lemma edge_slot (e : nat) : ∃ k i, e = (3 * k + i)%nat ∧ (i < 3)%nat.
Proof.
  exists (e / 3)%nat, (e mod 3)%nat. split.
  - apply Nat.div_mod_eq.
  - by apply Nat.mod_upper_bound.
Qed.

Lemma nxt_lt i : (i < 3 → nxt i < 3)%nat.
Proof. destruct i as [|[|[|i]]]; simpl; lia. Qed.

Lemma prv_lt i : (i < 3 → prv i < 3)%nat.
Proof. destruct i as [|[|[|i]]]; simpl; lia. Qed.

Lemma shapeInv_edge_valid h k i :
  shapeInv h → (i < 3)%nat →
  is_Some (halfEdges h !! (3 * k + i)%nat) ↔ is_Some (faceObjs h !! k).
Proof.
  intros (Hlen & _) Hi. rewrite !lookup_lt_is_Some. lia.
Qed.

(** [getEdge( i )] for the indices the hull uses. *)
Lemma Face_getEdge_shape h k (i : nat) :
  shapeInv h → is_Some (faceObjs h !! k) → (i < 3)%nat →
  Face_getEdge h k (Z.of_nat i) = Some (3 * k + i)%nat.
Proof.
  intros Hsh [F HF] Hi. assert (Hsh' := Hsh). destruct Hsh' as (Hlen & Hedge & Hslots).
  assert (Hl : ∀ j, (j < 3)%nat → ∃ ed, halfEdges h !! (3 * k + j)%nat = Some ed ∧
                      HalfEdge.next ed = Some (3 * k + nxt j)%nat).
  { intros j Hj. destruct (proj2 (shapeInv_edge_valid h k j Hsh Hj)) as [ed Hed]; [eauto|].
    exists ed. split; [done|]. by apply (Hslots k j ed Hj Hed). }
  destruct (Hl 0%nat) as (e0 & He0 & Hn0); [lia|].
  destruct (Hl 1%nat) as (e1 & He1 & Hn1); [lia|].
  rewrite Nat.add_0_r in He0. cbn [nxt] in Hn0, Hn1.
  pose proof (Hedge k F HF) as HeF.
  set (b := (3 * k)%nat) in *. clearbody b.
  unfold Face_getEdge. rewrite HF.
  destruct i as [|[|[|i]]]; [| | |lia]; simpl; rewrite HeF; simpl.
  - by rewrite Nat.add_0_r.
  - rewrite He0. simpl. by rewrite Hn0.
  - rewrite He0. simpl. rewrite Hn0. simpl. rewrite He1. simpl. by rewrite Hn1.
Qed.

Lemma Face_getEdge_last h k :
  shapeInv h → is_Some (faceObjs h !! k) →
  Face_getEdge h k (-1) = Some (3 * k + 2)%nat.
Proof.
  intros Hsh [F HF]. assert (Hsh' := Hsh). destruct Hsh' as (Hlen & Hedge & Hslots).
  destruct (proj2 (shapeInv_edge_valid h k 0 Hsh ltac:(lia))) as [ed Hed]; [eauto|].
  destruct (Hslots k 0%nat ed ltac:(lia) Hed) as (_ & _ & Hp).
  rewrite Nat.add_0_r in Hed. cbn [prv] in Hp.
  pose proof (Hedge k F HF) as HeF.
  set (b := (3 * k)%nat) in *. clearbody b.
  unfold Face_getEdge. rewrite HF. simpl. rewrite HeF. simpl.
  rewrite Hed. simpl. by rewrite Hp.
Qed.

(** [setTwin] writes to the [twin] of its two half-edges and to nothing
    else. *)
Lemma HalfEdge_setTwin_spec x y es es' :
  HalfEdge_setTwin x y es = Some es' →
  is_Some (es !! x) ∧ is_Some (es !! y) ∧
  map edgeShape es' = map edgeShape es ∧
  ∀ e, HalfEdge.twin <$> es' !! e =
       if decide (e = y) then Some (Some x)
       else if decide (e = x) then Some (Some y)
       else HalfEdge.twin <$> es !! e.
Proof.
  unfold HalfEdge_setTwin. intros H. apply bind_Some in H as (es1 & H1 & H2).
  assert (Hx : is_Some (es !! x)).
  { unfold modify in H1. destruct (es !! x); [eauto|done]. }
  assert (Hy : is_Some (es !! y)).
  { unfold modify in H1, H2. destruct (es !! x) as [xd|] eqn:Ex; [|done].
    injection H1 as <-. destruct (decide (x = y)) as [->|Hne]; [eauto|].
    rewrite list_lookup_insert_ne in H2 by done. destruct (es !! y); [eauto|done]. }
  split_and!; [done|done| |].
  - assert (HV : ∀ t a, edgeShape (HalfEdge.set_twin t a) = edgeShape a) by (by intros ? []).
    pose proof (modify_view edgeShape _ _ _ _ (HV _) H1).
    pose proof (modify_view edgeShape _ _ _ _ (HV _) H2). congruence.
  - intros e. rewrite (modify_lookup _ _ _ _ e H2).
    destruct (decide (y = e)) as [->|Hye].
    + rewrite decide_True by done.
      rewrite (modify_lookup _ _ _ _ e H1).
      destruct (decide (x = e)) as [->|Hxe].
      * destruct Hx as [xd Hx]. by rewrite Hx.
      * destruct Hy as [yd Hy]. by rewrite Hy.
    + rewrite decide_False by done.
      rewrite (modify_lookup _ _ _ _ e H1).
      destruct (decide (x = e)) as [->|Hxe].
      * rewrite decide_True by done. destruct Hx as [xd Hx]. by rewrite Hx.
      * by rewrite decide_False by done.
Qed.

Lemma Face_getEdge_inv h k (i : nat) e :
  shapeInv h → (i < 3)%nat → Face_getEdge h k (Z.of_nat i) = Some e →
  e = (3 * k + i)%nat ∧ is_Some (faceObjs h !! k).
Proof.
  intros Hsh Hi H. destruct (faceObjs h !! k) as [F|] eqn:HF.
  - rewrite (Face_getEdge_shape h k i) in H by eauto. split; [congruence|eauto].
  - unfold Face_getEdge in H. by rewrite HF in H.
Qed.

Lemma Face_getEdge_last_inv h k e :
  shapeInv h → Face_getEdge h k (-1) = Some e →
  e = (3 * k + 2)%nat ∧ is_Some (faceObjs h !! k).
Proof.
  intros Hsh H. destruct (faceObjs h !! k) as [F|] eqn:HF.
  - rewrite (Face_getEdge_last h k) in H by eauto. split; [congruence|eauto].
  - unfold Face_getEdge in H. by rewrite HF in H.
Qed.

Lemma edgeShape_lookup es es' e ed :
  map edgeShape es' = map edgeShape es → es !! e = Some ed →
  ∃ ed', es' !! e = Some ed' ∧ edgeShape ed' = edgeShape ed.
Proof.
  intros Hm He.
  assert (H : map edgeShape es' !! e = Some (edgeShape ed)).
  { rewrite Hm. change (map edgeShape es) with (edgeShape <$> es).
    by rewrite list_lookup_fmap, He. }
  change (map edgeShape es') with (edgeShape <$> es') in H.
  rewrite list_lookup_fmap in H. destruct (es' !! e) as [ed'|]; [|done].
  exists ed'. split; [done|]. simpl in H. congruence.
Qed.

Lemma edgeShape_fields ed ed' :
  edgeShape ed' = edgeShape ed →
  HalfEdge.vertex ed' = HalfEdge.vertex ed ∧ HalfEdge.prev ed' = HalfEdge.prev ed ∧
  HalfEdge.next ed' = HalfEdge.next ed ∧ HalfEdge.face ed' = HalfEdge.face ed.
Proof. unfold edgeShape. intros [= -> -> -> ->]. done. Qed.

Lemma shapeInv_edges h es' :
  shapeInv h → map edgeShape es' = map edgeShape (halfEdges h) →
  shapeInv (set_halfEdges es' h).
Proof.
  intros (Hlen & Hedge & Hslots) Hm. split_and!; simpl.
  - rewrite <- Hlen. rewrite <- (length_map edgeShape es'), Hm. apply length_map.
  - done.
  - intros k i ed' Hi He'.
    destruct (edgeShape_lookup es' (halfEdges h) _ _ (eq_sym Hm) He') as (ed & He & Heq).
    apply edgeShape_fields in Heq as (_ & <- & <- & <-). by apply (Hslots k i ed).
Qed.

(** [this.setTwin( edge )] keeps the mesh well formed when no other
    half-edge of a visible face is linked to one of the two. *)
Lemma HalfEdge_setTwin_twinInv h x y es' :
  twinInv h →
  HalfEdge_setTwin x y (halfEdges h) = Some es' →
  (∀ e ed, halfEdges h !! e = Some ed → visible h (HalfEdge.face ed) →
           HalfEdge.twin ed = Some x → e = y) →
  (∀ e ed, halfEdges h !! e = Some ed → visible h (HalfEdge.face ed) →
           HalfEdge.twin ed = Some y → e = x) →
  twinInv (set_halfEdges es' h).
Proof.
  intros Htw Hset Hx Hy.
  destruct (HalfEdge_setTwin_spec _ _ _ _ Hset) as (Hxs & Hys & Hm & Hlk).
  assert (Hlen : length es' = length (halfEdges h)).
  { rewrite <- (length_map edgeShape es'), Hm. apply length_map. }
  intros e ed' t He' Ht. simpl in *. rewrite Hlen.
  assert (Hin : is_Some (halfEdges h !! e)).
  { apply lookup_lt_is_Some. rewrite <- Hlen. by eapply lookup_lt_Some. }
  destruct Hin as [ed He].
  destruct (edgeShape_lookup _ _ _ _ Hm He) as (ed1 & He1 & Hsh1).
  assert (ed1 = ed') by congruence. subst ed1.
  apply edgeShape_fields in Hsh1 as (_ & _ & _ & Hface).
  pose proof (Hlk e) as Hte. rewrite He', He in Hte. simpl in Hte. rewrite Ht in Hte.
  assert (Hlkx : ∃ td, es' !! x = Some td ∧
                       HalfEdge.twin td = Some (if decide (x = y) then x else y)).
  { pose proof (Hlk x) as H. destruct Hxs as [xd Hxd].
    destruct (edgeShape_lookup _ _ _ _ Hm Hxd) as (xd' & Hxd' & _).
    rewrite Hxd' in H. exists xd'. split; [done|]. simpl in H.
    destruct (decide (x = y)); [congruence|].
    rewrite decide_True in H by done. congruence. }
  assert (Hlky : ∃ td, es' !! y = Some td ∧ HalfEdge.twin td = Some x).
  { pose proof (Hlk y) as H. destruct Hys as [yd Hyd].
    destruct (edgeShape_lookup _ _ _ _ Hm Hyd) as (yd' & Hyd' & _).
    rewrite Hyd' in H. exists yd'. split; [done|]. simpl in H.
    rewrite decide_True in H by done. congruence. }
  destruct (decide (e = y)) as [->|Hey].
  - injection Hte as ->. split; [by apply lookup_lt_is_Some|].
    intros _. destruct Hlkx as (td & Htd & Htw'). exists td. split; [done|].
    by destruct (decide (x = y)) as [->|].
  - destruct (decide (e = x)) as [->|Hex].
    + injection Hte as ->. split; [by apply lookup_lt_is_Some|].
      intros _. destruct Hlky as (td & Htd & Htw'). by exists td.
    + injection Hte as Hte.
      destruct (Htw e ed t He (eq_sym Hte)) as (Hlt & Hrec). split; [done|].
      rewrite Hface. intros Hvis. destruct (Hrec Hvis) as (td & Htd & Htt).
      destruct (edgeShape_lookup _ _ _ _ Hm Htd) as (td' & Htd' & _).
      exists td'. split; [done|].
      pose proof (Hlk t) as H. rewrite Htd', Htd in H. simpl in H.
      destruct (decide (t = y)) as [->|Hty].
      { exfalso. apply Hex. by eapply Hy. }
      destruct (decide (t = x)) as [->|Htx].
      { exfalso. apply Hey. by eapply Hx. }
      congruence.
Qed.

(** A half-edge without twin is not the twin of a half-edge of a visible
    face. *)
Lemma unlinked_free h x y :
  twinInv h → unlinked h x →
  ∀ e ed, halfEdges h !! e = Some ed → visible h (HalfEdge.face ed) →
          HalfEdge.twin ed = Some x → e = y.
Proof.
  intros Htw (xd & Hxd & Hnone) e ed He Hvis Ht.
  destruct (Htw e ed x He Ht) as (_ & Hrec).
  destruct (Hrec Hvis) as (td & Htd & Htt). congruence.
Qed.

Lemma meshInv_view h h' : meshView h' = meshView h → meshInv h → meshInv h'.
Proof.
  unfold meshView. intros [= _ _ _ _ Hes Hfs _] ((Hlen & Hedge & Hslots) & Htw).
  assert (Hlk : ∀ k F', faceObjs h' !! k = Some F' →
                ∃ F, faceObjs h !! k = Some F ∧ faceShape F' = faceShape F).
  { intros k F' HF'.
    assert (H : map faceShape (faceObjs h') !! k = Some (faceShape F')).
    { change (map faceShape (faceObjs h')) with (faceShape <$> faceObjs h').
      by rewrite list_lookup_fmap, HF'. }
    rewrite Hfs in H. change (map faceShape (faceObjs h)) with (faceShape <$> faceObjs h) in H.
    rewrite list_lookup_fmap in H. destruct (faceObjs h !! k) as [F|]; [|done].
    exists F. split; [done|]. simpl in H. congruence. }
  split; [split_and!|].
  - rewrite Hes, Hlen. f_equal.
    rewrite <- (length_map faceShape (faceObjs h')), Hfs. by rewrite length_map.
  - intros k F' HF'. destruct (Hlk k F' HF') as (F & HF & Heq).
    unfold faceShape in Heq. injection Heq as _ _ _ _ _ ->. by eapply Hedge.
  - rewrite Hes. done.
  - intros e ed t. rewrite Hes. intros He Ht.
    destruct (Htw e ed t He Ht) as (Hlt & Hrec). split; [done|].
    intros (F' & HF' & Hmark). apply Hrec.
    destruct (Hlk _ F' HF') as (F & HF & Heq). exists F. split; [done|].
    unfold faceShape in Heq. injection Heq as _ _ _ _ <- _. done.
Qed.

(** ** Face.create and the mesh *)

(** The hull after [Face.create( a, b, c )]. *)
Definition withFace (three : Three) (a b c : vref) (pa pb pc : Vector3)
  (h : ConvexHull) : ConvexHull :=
  set_faceObjs
    (faceObjs h ++ [createdFace three pa pb pc (length (halfEdges h))])
    (set_halfEdges
       (halfEdges h ++ createdEdges a b c (length (faceObjs h)) (length (halfEdges h)))
       h).

Lemma Face_create_inv three a b c h f h' :
  Face_create three a b c h = Some (f, h') →
  ∃ va vb vc,
    vertexNodes h !! a = Some va ∧ vertexNodes h !! b = Some vb ∧
    vertexNodes h !! c = Some vc ∧
    f = length (faceObjs h) ∧
    h' = withFace three a b c (VertexNode.point va) (VertexNode.point vb)
           (VertexNode.point vc) h.
Proof.
  intros H.
  destruct (vertexNodes h !! a) as [va|] eqn:Ha;
  destruct (vertexNodes h !! b) as [vb|] eqn:Hb;
  destruct (vertexNodes h !! c) as [vc|] eqn:Hc;
  try (rewrite (Face_create_spec three a b c h va vb vc Ha Hb Hc) in H;
       injection H as <- <-; by eexists _, _, _);
  exfalso; revert H; unfold Face_create;
  replace (S (S (length (halfEdges h)))) with (length (halfEdges h) + 2)%nat by lia;
  replace (S (length (halfEdges h))) with (length (halfEdges h) + 1)%nat by lia;
  rewrite (modify_app_r (halfEdges h)); simpl;
  rewrite (modify_app_r0 (halfEdges h)); simpl;
  rewrite (modify_app_r0 (halfEdges h)); simpl;
  rewrite (modify_app_r (halfEdges h)); simpl;
  rewrite (modify_app_r (halfEdges h)); simpl;
  rewrite (modify_app_r (halfEdges h)); simpl;
  rewrite (modify_app_r0 (faceObjs h)); simpl;
  unfold Face_compute; simpl;
  rewrite (list_lookup_middle _ _ _ (length (faceObjs h))) by done; simpl;
  unfold HalfEdge_tail, HalfEdge_head;
  rewrite (list_lookup_middle _ _ _ (length (halfEdges h))) by done; simpl;
  rewrite !lookup_app_plus; simpl;
  rewrite Ha, Hb, Hc; simpl; done.
Qed.

Lemma withFace_old_edge three a b c pa pb pc h e ed :
  halfEdges h !! e = Some ed → halfEdges (withFace three a b c pa pb pc h) !! e = Some ed.
Proof. intros H. simpl. by apply lookup_app_l_Some. Qed.

Lemma withFace_old_face three a b c pa pb pc h k F :
  faceObjs h !! k = Some F → faceObjs (withFace three a b c pa pb pc h) !! k = Some F.
Proof. intros H. simpl. by apply lookup_app_l_Some. Qed.

Lemma withFace_edge three a b c pa pb pc h e ed :
  halfEdges (withFace three a b c pa pb pc h) !! e = Some ed →
  halfEdges h !! e = Some ed ∨
  ∃ i, (i < 3)%nat ∧ e = (length (halfEdges h) + i)%nat ∧
       createdEdges a b c (length (faceObjs h)) (length (halfEdges h)) !! i = Some ed.
Proof.
  simpl. intros H. apply lookup_app_Some in H as [H|[Hge H]]; [by left|right].
  exists (e - length (halfEdges h))%nat. split_and!; [|lia|done].
  apply lookup_lt_Some in H. simpl in H. lia.
Qed.

Lemma withFace_face three a b c pa pb pc h k F :
  faceObjs (withFace three a b c pa pb pc h) !! k = Some F →
  faceObjs h !! k = Some F ∨
  (k = length (faceObjs h) ∧ F = createdFace three pa pb pc (length (halfEdges h))).
Proof.
  simpl. intros H. apply lookup_app_Some in H as [H|[Hge H]]; [by left|right].
  destruct (k - length (faceObjs h))%nat as [|n] eqn:E; simpl in H; [|done].
  split; [lia|congruence].
Qed.

Lemma withFace_visible three a b c pa pb pc h k :
  visible (withFace three a b c pa pb pc h) k ↔
  visible h k ∨ k = length (faceObjs h).
Proof.
  split.
  - intros (F & HF & Hm). apply withFace_face in HF as [HF|[-> ->]]; [left|by right].
    by exists F.
  - intros [(F & HF & Hm)| ->].
    + exists F. split; [|done]. by apply withFace_old_face.
    + eexists. split; [simpl; by apply list_lookup_middle|done].
Qed.

Lemma withFace_meshInv three a b c pa pb pc h :
  meshInv h → meshInv (withFace three a b c pa pb pc h).
Proof.
  intros ((Hlen & Hedge & Hslots) & Htw). split; [split_and!|].
  - simpl. rewrite !length_app. simpl. lia.
  - intros k F HF. apply withFace_face in HF as [HF|[-> ->]]; [by eapply Hedge|].
    simpl. f_equal. lia.
  - intros k i ed Hi He. apply withFace_edge in He as [He|(j & Hj & Hej & He)].
    + by apply (Hslots k i ed).
    + assert (k = length (faceObjs h)) as -> by lia.
      assert (j = i) as -> by lia.
      rewrite Hlen in He. set (b0 := (3 * length (faceObjs h))%nat) in *.
      destruct i as [|[|[|i]]]; [| | |lia]; simpl in He; injection He as <-; simpl;
        (split_and!; [done|f_equal; lia|f_equal; lia]).
  - intros e ed t He Ht. apply withFace_edge in He as [He|(j & Hj & Hej & He)].
    + destruct (Htw e ed t He Ht) as (Hlt & Hrec). split.
      * simpl. rewrite length_app. lia.
      * intros Hvis. apply withFace_visible in Hvis as [Hvis|Hvis].
        -- destruct (Hrec Hvis) as (td & Htd & Htt). exists td. split; [|done].
           by apply withFace_old_edge.
        -- exfalso. assert (He' := He). apply lookup_lt_Some in He'.
           destruct (edge_slot e) as (k & i & -> & Hi).
           destruct (Hslots k i ed Hi He) as (Hf & _). lia.
    + exfalso. destruct j as [|[|[|j]]]; [| | |lia]; simpl in He; injection He as <-;
        simpl in Ht; done.
Qed.

Lemma withFace_unlinked three a b c pa pb pc h i :
  shapeInv h → (i < 3)%nat →
  unlinked (withFace three a b c pa pb pc h) (3 * length (faceObjs h) + i)%nat.
Proof.
  intros (Hlen & _) Hi. unfold unlinked. simpl. rewrite <- Hlen, lookup_app_plus.
  destruct i as [|[|[|i]]]; [| | |lia]; simpl; eauto.
Qed.

Lemma withFace_unlinked_old three a b c pa pb pc h e :
  unlinked h e → unlinked (withFace three a b c pa pb pc h) e.
Proof. intros (ed & He & Ht). exists ed. split; [|done]. by apply withFace_old_edge. Qed.

(** ** The twin links of the tetrahedron *)

(** [l] without [a] and [b]. *)
Definition drop2 (a b : nat) (l : list nat) : list nat :=
  List.filter (λ o, negb (o =? a)%nat && negb (o =? b)%nat) l.

Lemma Forall_drop2 (P Q : nat → Prop) a b l :
  (∀ o, o ≠ a → o ≠ b → P o → Q o) → Forall P l → Forall Q (drop2 a b l).
Proof.
  intros HPQ. induction 1 as [|o l Ho Hl IH]; simpl; [constructor|].
  destruct (Nat.eqb_spec o a); simpl; [done|].
  destruct (Nat.eqb_spec o b); simpl; [done|].
  constructor; [by apply HPQ|done].
Qed.

Lemma unlinked_setTwin h x y es' e :
  HalfEdge_setTwin x y (halfEdges h) = Some es' → e ≠ x → e ≠ y →
  unlinked h e → unlinked (set_halfEdges es' h) e.
Proof.
  intros Hset Hx Hy (ed & He & Ht).
  destruct (HalfEdge_setTwin_spec _ _ _ _ Hset) as (_ & _ & Hm & Hlk).
  destruct (edgeShape_lookup _ _ _ _ Hm He) as (ed' & He' & _).
  exists ed'. split; [done|]. specialize (Hlk e). rewrite He', He in Hlk. simpl in Hlk.
  rewrite !decide_False in Hlk by done. congruence.
Qed.

(** Joining two half-edges that have no twin yet. *)
Lemma joinEdges_unlinked h fa (i : nat) fb (j : nat) h' :
  meshInv h → (i < 3)%nat → (j < 3)%nat →
  joinEdges fa (Z.of_nat i) fb (Z.of_nat j) h = Some h' →
  unlinked h (3 * fa + i)%nat → unlinked h (3 * fb + j)%nat →
  meshInv h' ∧
  (∃ es', h' = set_halfEdges es' h) ∧
  (∀ e, e ≠ (3 * fa + i)%nat → e ≠ (3 * fb + j)%nat → unlinked h e → unlinked h' e).
Proof.
  intros (Hsh & Htw) Hi Hj H Ha Hb. unfold joinEdges in H.
  apply bind_Some in H as (a & Ea & H). apply bind_Some in H as (b & Eb & H).
  apply bind_Some in H as (es' & Eset & H). injection H as <-.
  apply Face_getEdge_inv in Ea as (-> & _); [|done..].
  apply Face_getEdge_inv in Eb as (-> & _); [|done..].
  destruct (HalfEdge_setTwin_spec _ _ _ _ Eset) as (_ & _ & Hm & _).
  split_and!.
  - split; [by apply shapeInv_edges|].
    eapply HalfEdge_setTwin_twinInv; [done..| |]; by apply unlinked_free.
  - by exists es'.
  - intros e Hea Heb. by eapply unlinked_setTwin.
Qed.

Lemma joinEdges_step n fa ka (i : nat) fb kb (j : nat) oa ob l h h' :
  meshInv h → Forall (λ o, unlinked h (3 * n + o)%nat) l →
  joinEdges fa (Z.of_nat i) fb (Z.of_nat j) h = Some h' →
  fa = (n + ka)%nat → fb = (n + kb)%nat → (i < 3)%nat → (j < 3)%nat →
  oa = (3 * ka + i)%nat → ob = (3 * kb + j)%nat → oa ∈ l → ob ∈ l →
  meshInv h' ∧ Forall (λ o, unlinked h' (3 * n + o)%nat) (drop2 oa ob l) ∧
  (∃ es', h' = set_halfEdges es' h).
Proof.
  intros Hm Hl H -> -> Hi Hj -> -> Ha Hb.
  rewrite Forall_forall in Hl.
  assert (Hua := Hl _ Ha). assert (Hub := Hl _ Hb). simpl in Hua, Hub.
  replace (3 * n + (3 * ka + i))%nat with (3 * (n + ka) + i)%nat in Hua by lia.
  replace (3 * n + (3 * kb + j))%nat with (3 * (n + kb) + j)%nat in Hub by lia.
  destruct (joinEdges_unlinked _ _ _ _ _ _ Hm Hi Hj H Hua Hub) as (Hm' & Hes & Hun).
  split_and!; [done| |done].
  apply (Forall_drop2 (λ o, unlinked h (3 * n + o)%nat)); [|by apply Forall_forall].
  intros o Hoa Hob. apply Hun; lia.
Qed.

Ltac join_step E ka i kb j :=
  lazymatch type of E with
  | joinEdges _ _ _ _ ?h = Some ?h' =>
      match goal with
      | Hm : meshInv h, Hl : Forall (λ o, unlinked h (3 * ?n + o)%nat) ?l |- _ =>
          let oa := eval vm_compute in (3 * ka + i)%nat in
          let ob := eval vm_compute in (3 * kb + j)%nat in
          let l' := eval vm_compute in (drop2 oa ob l) in
          let Hm' := fresh "Hm" in
          let Hl' := fresh "Hl" in
          let Hes := fresh "Hes" in
          destruct (joinEdges_step n _ ka i _ kb j oa ob l h h' Hm Hl E)
            as (Hm' & Hl' & [? Hes]);
          [lia|lia|lia|lia|reflexivity|reflexivity
          |apply list_elem_of_In; simpl; repeat (first [left; reflexivity | right])
          |apply list_elem_of_In; simpl; repeat (first [left; reflexivity | right])
          |];
          change (drop2 oa ob l) with l' in Hl'; clear Hm Hl E; subst h'
      end
  end.

Lemma joinTetrahedron_inv outward n h h' :
  meshInv h →
  Forall (λ o, unlinked h (3 * n + o)%nat) (seq 0 12) →
  joinTetrahedron outward [n; S n; S (S n); S (S (S n))] [0; 1; 2]%nat h = Some h' →
  meshInv h' ∧ ∃ es', h' = set_halfEdges es' h.
Proof.
  intros Hm Hl H. simpl in H.
  destruct outward; inv_opt;
    change 2%Z with (Z.of_nat 2) in *; change 1%Z with (Z.of_nat 1) in *;
    change 0%Z with (Z.of_nat 0) in *.
  - join_step E4 1%nat 2%nat 0%nat 1%nat.
    join_step E 1%nat 1%nat 2%nat 0%nat.
    join_step E3 2%nat 2%nat 0%nat 2%nat.
    join_step E0 2%nat 1%nat 3%nat 0%nat.
    join_step E2 3%nat 2%nat 0%nat 0%nat.
    join_step E1 3%nat 1%nat 1%nat 0%nat.
    split; [done|]. by eexists.
  - join_step E4 1%nat 2%nat 0%nat 0%nat.
    join_step E 1%nat 0%nat 2%nat 1%nat.
    join_step E3 2%nat 2%nat 0%nat 2%nat.
    join_step E0 2%nat 0%nat 3%nat 1%nat.
    join_step E2 3%nat 2%nat 0%nat 1%nat.
    join_step E1 3%nat 0%nat 1%nat 1%nat.
    split; [done|]. by eexists.
Qed.

(** A face that has just been created: it is visible and has no outside
    vertex yet. *)
Definition freshFace (F : Face.t) : Prop :=
  Face.outside F = None ∧ Face.mark F = Visible.

(** The vertex [v] is the head of a half-edge of the face [k]. *)
Definition faceVertex (h : ConvexHull) (k : fref) (v : vref) : Prop :=
  ∃ i ed, (i < 3)%nat ∧ halfEdges h !! (3 * k + i)%nat = Some ed ∧
          HalfEdge.vertex ed = v.

Lemma withFace_faceVertex three a b c pa pb pc h v :
  shapeInv h → v ∈ [a; b; c] →
  faceVertex (withFace three a b c pa pb pc h) (length (faceObjs h)) v.
Proof.
  intros (Hlen & _) Hv. unfold faceVertex. simpl. rewrite <- Hlen.
  apply list_elem_of_In in Hv. simpl in Hv.
  destruct Hv as [<-|[<-|[<-|[]]]].
  - exists 0%nat. rewrite lookup_app_plus. simpl. eexists. split_and!; [lia|done..].
  - exists 1%nat. rewrite lookup_app_plus. simpl. eexists. split_and!; [lia|done..].
  - exists 2%nat. rewrite lookup_app_plus. simpl. eexists. split_and!; [lia|done..].
Qed.

Lemma withFace_faceVertex_old three a b c pa pb pc h k v :
  faceVertex h k v → faceVertex (withFace three a b c pa pb pc h) k v.
Proof.
  intros (i & ed & Hi & He & Hv). exists i, ed. split_and!; [done| |done].
  by apply withFace_old_edge.
Qed.


(** Everything of a hull but the faces and the half-edges. *)
Definition vertexView (h : ConvexHull) :=
  (tolerance h, faces h, newFaces h, assigned h, unassigned h, vertices h,
   vertexNodes h).

Lemma withFace_faceObjs three a b c pa pb pc h :
  ∃ F, faceObjs (withFace three a b c pa pb pc h) = faceObjs h ++ [F] ∧ freshFace F.
Proof. eexists. split; [reflexivity|done]. Qed.

Lemma withFace_length three a b c pa pb pc h :
  length (faceObjs (withFace three a b c pa pb pc h)) = S (length (faceObjs h)).
Proof. simpl. rewrite length_app. simpl. lia. Qed.

(** Four faces created one after the other. *)
Lemma withFace4 three h
  a0 b0 c0 pa0 pb0 pc0 a1 b1 c1 pa1 pb1 pc1 a2 b2 c2 pa2 pb2 pc2 a3 b3 c3 pa3 pb3 pc3 :
  meshInv h →
  let n := length (faceObjs h) in
  let h4 := withFace three a3 b3 c3 pa3 pb3 pc3
              (withFace three a2 b2 c2 pa2 pb2 pc2
                 (withFace three a1 b1 c1 pa1 pb1 pc1
                    (withFace three a0 b0 c0 pa0 pb0 pc0 h))) in
  meshInv h4 ∧
  Forall (λ o, unlinked h4 (3 * n + o)%nat) (seq 0 12) ∧
  vertexView h4 = vertexView h ∧
  (∃ F0 F1 F2 F3,
     faceObjs h4 = faceObjs h ++ [F0; F1; F2; F3] ∧
     Forall freshFace [F0; F1; F2; F3]) ∧
  (∀ v, v ∈ [a0; b0; c0] → faceVertex h4 n v) ∧
  (∀ v, v ∈ [a1; b1; c1] → faceVertex h4 (S n) v).
Proof.
  intros Hm n.
  set (h1 := withFace three a0 b0 c0 pa0 pb0 pc0 h).
  set (h2 := withFace three a1 b1 c1 pa1 pb1 pc1 h1).
  set (h3 := withFace three a2 b2 c2 pa2 pb2 pc2 h2).
  intros h4.
  assert (Hm1 : meshInv h1) by (by apply withFace_meshInv).
  assert (Hm2 : meshInv h2) by (by apply withFace_meshInv).
  assert (Hm3 : meshInv h3) by (by apply withFace_meshInv).
  assert (Hm4 : meshInv h4) by (by apply withFace_meshInv).
  assert (Hn1 : length (faceObjs h1) = S n) by apply withFace_length.
  assert (Hn2 : length (faceObjs h2) = S (S n)).
  { unfold h2. by rewrite withFace_length, Hn1. }
  assert (Hn3 : length (faceObjs h3) = S (S (S n))).
  { unfold h3. by rewrite withFace_length, Hn2. }
  destruct Hm as (Hs & _), Hm1 as (Hs1 & _), Hm2 as (Hs2 & _), Hm3 as (Hs3 & _).
  split_and!.
  - done.
  - assert (HU : ∀ k i, (k < 4)%nat → (i < 3)%nat → unlinked h4 (3 * (n + k) + i)%nat).
    { intros k i Hk Hi. destruct k as [|[|[|[|k]]]]; [| | | |lia].
      - do 3 apply withFace_unlinked_old.
        replace (n + 0)%nat with (length (faceObjs h)) by (unfold n; lia).
        by apply withFace_unlinked.
      - do 2 apply withFace_unlinked_old.
        replace (n + 1)%nat with (length (faceObjs h1)) by lia.
        by apply withFace_unlinked.
      - do 1 apply withFace_unlinked_old.
        replace (n + 2)%nat with (length (faceObjs h2)) by lia.
        by apply withFace_unlinked.
      - replace (n + 3)%nat with (length (faceObjs h3)) by lia.
        by apply withFace_unlinked. }
    apply Forall_forall. intros o Ho. apply elem_of_seq in Ho.
    destruct (edge_slot o) as (k & i & -> & Hi).
    replace (3 * n + (3 * k + i))%nat with (3 * (n + k) + i)%nat by lia.
    apply HU; lia.
  - reflexivity.
  - destruct (withFace_faceObjs three a0 b0 c0 pa0 pb0 pc0 h) as (F0 & E0 & HF0).
    destruct (withFace_faceObjs three a1 b1 c1 pa1 pb1 pc1 h1) as (F1 & E1 & HF1).
    destruct (withFace_faceObjs three a2 b2 c2 pa2 pb2 pc2 h2) as (F2 & E2 & HF2).
    destruct (withFace_faceObjs three a3 b3 c3 pa3 pb3 pc3 h3) as (F3 & E3 & HF3).
    exists F0, F1, F2, F3. split; [|by repeat apply Forall_cons_2].
    fold h1 in E0. fold h2 in E1. fold h3 in E2. fold h4 in E3.
    rewrite E3, E2, E1, E0, <- !app_assoc. reflexivity.
  - intros v Hv. do 3 apply withFace_faceVertex_old. by apply withFace_faceVertex.
  - intros v Hv. do 2 apply withFace_faceVertex_old. rewrite <- Hn1.
    by apply withFace_faceVertex.
Qed.

Lemma createTetrahedron_inv three outward v0 v1 v2 v3 h fl h' :
  meshInv h →
  createTetrahedron three outward v0 v1 v2 v3 h = Some (fl, h') →
  let n := length (faceObjs h) in
  fl = [n; S n; S (S n); S (S (S n))] ∧
  meshInv h' ∧
  Forall (λ o, unlinked h' (3 * n + o)%nat) (seq 0 12) ∧
  vertexView h' = vertexView h ∧
  (∃ F0 F1 F2 F3,
     faceObjs h' = faceObjs h ++ [F0; F1; F2; F3] ∧
     Forall freshFace [F0; F1; F2; F3]) ∧
  (∀ v, v ∈ [v0; v1; v2; v3] → ∃ k, k ∈ fl ∧ faceVertex h' k v).
Proof.
  intros Hm H n. unfold createTetrahedron in H.
  destruct outward; inv_opt;
    repeat match goal with
    | E : Face_create _ _ _ _ _ = Some _ |- _ =>
        apply Face_create_inv in E as (? & ? & ? & _ & _ & _ & ? & ?); subst
    end.
  all: rewrite !withFace_length.
  all: match goal with
       | |- context [withFace ?t ?a3 ?b3 ?c3 ?pa3 ?pb3 ?pc3
                       (withFace ?t ?a2 ?b2 ?c2 ?pa2 ?pb2 ?pc2
                          (withFace ?t ?a1 ?b1 ?c1 ?pa1 ?pb1 ?pc1
                             (withFace ?t ?a0 ?b0 ?c0 ?pa0 ?pb0 ?pc0 ?g)))] =>
           destruct (withFace4 t g a0 b0 c0 pa0 pb0 pc0 a1 b1 c1 pa1 pb1 pc1
                       a2 b2 c2 pa2 pb2 pc2 a3 b3 c3 pa3 pb3 pc3 Hm)
             as (Hm4 & HU & Hview & HF & Hv0 & Hv1)
       end.
  all: split_and!; [done..|].
  all: intros v Hv; apply list_elem_of_In in Hv; simpl in Hv.
  all: destruct Hv as [<-|[<-|[<-|[<-|[]]]]];
       [ exists n | exists n | exists n | exists (S n) ];
       (split; [apply list_elem_of_In; simpl; tauto|]);
       first [apply Hv0 | apply Hv1]; apply list_elem_of_In; simpl; tauto.
Qed.

(** ** The initial hull *)

Lemma toleranceOf_nonneg mn mx : 0 <= toleranceOf mn mx.
Proof.
  unfold toleranceOf.
  assert (H : ∀ a b, 0 <= Qmax (Qabs a) (Qabs b)).
  { intros a b. eapply Qle_trans; [apply (Qabs_nonneg a)|apply Q.le_max_l]. }
  apply Qmult_le_0_compat; [done|].
  pose proof (H (x mn) (x mx)). pose proof (H (y mn) (y mx)).
  pose proof (H (z mn) (z mx)). lra.
Qed.

Lemma visible_view h h' k : meshView h' = meshView h → visible h k → visible h' k.
Proof.
  unfold meshView. intros [= _ _ _ _ _ Hfs _] (F & HF & Hm).
  assert (H : map faceShape (faceObjs h') !! k = Some (faceShape F)).
  { rewrite Hfs. change (map faceShape (faceObjs h)) with (faceShape <$> faceObjs h).
    by rewrite list_lookup_fmap, HF. }
  change (map faceShape (faceObjs h')) with (faceShape <$> faceObjs h') in H.
  rewrite list_lookup_fmap in H. destruct (faceObjs h' !! k) as [F'|] eqn:EF'; [|done].
  exists F'. split; [done|]. simpl in H. unfold faceShape in H. congruence.
Qed.

Lemma assignedInv_nil h :
  assignedInv h [] ↔
  isList (vertexNodes h) (assigned h) [] ∧
  ∀ f F, faceObjs h !! f = Some F → Face.outside F = None.
Proof.
  unfold assignedInv. simpl. split.
  - intros (HL & _ & _ & Hn). split; [done|]. intros f F HF. eapply Hn; [done|].
    apply not_elem_of_nil.
  - intros (HL & Hn). split_and!; [done|constructor|constructor|]. intros f F HF _.
    by eapply Hn.
Qed.

Lemma isList_nil_iff ns L :
  isList ns L [] ↔ VertexList.head L = None ∧ VertexList.tail L = None.
Proof.
  split.
  - by intros (_ & Hh & Ht & _).
  - intros [Hh Ht]. by apply isList_nil.
Qed.

Lemma initialScan_spec h p js maxDistance maxFace r :
  initialScan h p js maxDistance maxFace = Some r →
  (∀ f, f ∈ faces h → visible h f) →
  tolerance h <= maxDistance → chosenOK h p maxFace → chosenOK h p r.
Proof.
  intros H Hvis. revert maxDistance maxFace H.
  induction js as [|j js IH]; intros maxDistance maxFace H Hle Hok; simpl in H.
  - by injection H as <-.
  - apply bind_Some in H as (face & Eface & H). apply bind_Some in H as (F & EF & H).
    destruct (gtb _ _) eqn:Eg.
    + apply gtb_true in Eg. apply IH in H; [done|lra|].
      destruct (Hvis face) as (F' & HF' & Hm).
      { apply list_elem_of_lookup. eauto. }
      exists F. split; [done|]. split; [congruence|lra].
    + by apply IH in H.
Qed.

Lemma initialAssign_inv v0 v1 v2 v3 vs h h' rs :
  assignedInv h rs → NoDup vs → (∀ v, v ∈ vs → v ∉ members rs) →
  (∀ f, f ∈ faces h → visible h f) →
  initialAssign v0 v1 v2 v3 vs h = Some h' →
  (∃ rs', assignedInv h' rs') ∧ meshView h' = meshView h.
Proof.
  revert h rs. induction vs as [|v vs IH]; intros h rs Hinv Hnd Hfree Hvis H;
    cbn [initialAssign] in H.
  - injection H as <-. eauto.
  - apply bind_Some in H as (h1 & E1 & H).
    apply NoDup_cons in Hnd as [Hv Hnd].
    assert (Hstep : ∃ rs1, assignedInv h1 rs1 ∧ meshView h1 = meshView h ∧
                           (∀ u, u ∈ members rs1 → u = v ∨ u ∈ members rs)).
    { destruct (_ && _) eqn:Eskip;
        [|injection E1 as <-; exists rs; split_and!; [done|done|by right]].
      apply bind_Some in E1 as (p & Ep & E1).
      apply bind_Some in E1 as (maxFace & Escan & E1).
      destruct maxFace as [f|];
        [|injection E1 as <-; exists rs; split_and!; [done|done|by right]].
      apply initialScan_spec in Escan; [|done|apply Qle_refl|done].
      destruct Escan as (F & HF & Hmark & Hdist).
      unfold pointOf in Ep. destruct (vertexNodes h !! v) as [node|] eqn:En; [|done].
      injection Ep as <-.
      destruct (_addVertexToFace_inv h rs v f F node) as (h1' & rs1 & Hadd & Hinv1 & Hperm & _);
        [done|apply Hfree; by left|done..|].
      assert (h1' = h1) as -> by congruence.
      exists rs1. split_and!; [done|by eapply _addVertexToFace_mesh|].
      intros u Hu. rewrite Hperm in Hu. by apply elem_of_cons in Hu. }
    destruct Hstep as (rs1 & Hinv1 & Hmesh1 & Hmem1).
    destruct (IH h1 rs1) as (Hrs' & Hmesh'); [done|done| | |done|].
    + intros u Hu Hin. apply Hmem1 in Hin as [->|Hin]; [done|].
      eapply Hfree; [|done]. by right.
    + intros f Hf. apply (visible_view h); [done|]. apply Hvis.
      unfold meshView in Hmesh1. congruence.
    + split; [done|]. congruence.
Qed.

Lemma _computeExtremes_inv h e h' :
  _computeExtremes h = Some (e, h') →
  h' = set_tolerance (toleranceOf (ext_min e) (ext_max e)) h.
Proof. unfold _computeExtremes. intros H. by inv_opt. Qed.

Opaque widestAxis farthestFromLine farthestFromPlane.

(** [_computeInitialHull] on a hull without faces and without assigned
    vertices: the mesh of the tetrahedron is well formed, and the assigned
    list consists of the outside runs of its faces. *)
Lemma _computeInitialHull_inv three h h' :
  meshInv h → assignedInv h [] → NoDup (vertices h) → faces h = [] →
  _computeInitialHull three h = Some h' →
  meshInv h' ∧ (∃ rs, assignedInv h' rs) ∧ 0 <= tolerance h'.
Proof.
  intros Hm Hinv Hnd Hfaces H. unfold _computeInitialHull in H.
  apply bind_Some in H as ([e h1] & Eext & H).
  apply _computeExtremes_inv in Eext as ->.
  set (h1 := set_tolerance _ h) in *.
  assert (Hm1 : meshInv h1) by exact Hm.
  assert (Ht1 : 0 <= tolerance h1) by apply toleranceOf_nonneg.
  inv_opt.
  match goal with
  | E : createTetrahedron _ _ _ _ _ _ _ = Some _ |- _ =>
      destruct (createTetrahedron_inv _ _ _ _ _ _ _ _ _ Hm1 E)
        as (-> & Hm2 & Hun & Hview2 & (F0 & F1 & F2 & F3 & Hfs2 & Hfresh) & _)
  end.
  match goal with
  | E : joinTetrahedron _ _ _ _ = Some _ |- _ =>
      destruct (joinTetrahedron_inv _ _ _ _ Hm2 Hun E) as (Hm3 & es3 & ->)
  end.
  match type of H with
  | initialAssign _ _ _ _ _ ?g = Some _ => set (g0 := g) in *
  end.
  unfold vertexView in Hview2. injection Hview2 as Hvt Hvf Hvn Hva Hvu Hvv Hvns.
  assert (Hi : assignedInv g0 []).
  { apply assignedInv_nil. apply assignedInv_nil in Hinv as (HL & Hnone).
    split.
    - unfold g0. simpl. rewrite Hvns, Hva. exact HL.
    - unfold g0. simpl. rewrite Hfs2. intros f F HF.
      apply lookup_app_Some in HF as [HF|[_ HF]]; [by eapply Hnone|].
      apply list_elem_of_lookup_2 in HF. rewrite Forall_forall in Hfresh.
      by apply Hfresh. }
  assert (Hvg : ∀ f, f ∈ faces g0 → visible g0 f).
  { unfold g0. simpl. rewrite Hvf. simpl. rewrite Hfaces. simpl.
    intros f Hf. apply list_elem_of_In in Hf. simpl in Hf.
    assert (Hk : ∃ k, (k < 4)%nat ∧ f = (length (faceObjs h) + k)%nat).
    { destruct Hf as [<-|[<-|[<-|[<-|[]]]]];
        [exists 0%nat|exists 1%nat|exists 2%nat|exists 3%nat]; simpl; lia. }
    destruct Hk as (k & Hk & ->).
    destruct ([F0; F1; F2; F3] !! k) as [F|] eqn:EF;
      [|apply lookup_ge_None in EF; simpl in EF; lia].
    exists F. unfold visible. simpl. rewrite Hfs2. split; [by rewrite lookup_app_plus|].
    apply list_elem_of_lookup_2 in EF. rewrite Forall_forall in Hfresh.
    by apply Hfresh. }
  assert (Hndg : NoDup (vertices g0)).
  { unfold g0. simpl. by rewrite Hvv. }
  destruct (initialAssign_inv _ _ _ _ _ _ _ [] Hi Hndg
              ltac:(intros; apply not_elem_of_nil) Hvg H) as (Hrs & Hmesh).
  split_and!; [eapply meshInv_view; [done|exact Hm3]|done|].
  replace (tolerance h') with (tolerance h1); [done|].
  unfold meshView in Hmesh. injection Hmesh as -> _. unfold g0. simpl. by rewrite Hvt.
Qed.

Transparent widestAxis farthestFromLine farthestFromPlane.

(** ** The next vertex to add *)

(** The loop of [_nextVertexToAdd] over the vertices of a run. *)
Fixpoint farthest (dist : vref → Q) (l : list vref) (maxDistance : Q)
  (eyeVertex : option vref) : option vref :=
  match l with
  | [] => eyeVertex
  | v :: l =>
      if gtb (dist v) maxDistance then farthest dist l (dist v) (Some v)
      else farthest dist l maxDistance eyeVertex
  end.

Lemma farthest_spec dist l maxDistance eyeVertex :
  (∃ w, farthest dist l maxDistance eyeVertex = Some w ∧ w ∈ l ∧
        maxDistance < dist w ∧ ∀ u, u ∈ l → dist u <= dist w) ∨
  (farthest dist l maxDistance eyeVertex = eyeVertex ∧
   ∀ u, u ∈ l → dist u <= maxDistance).
Proof.
  revert maxDistance eyeVertex.
  induction l as [|v l IH]; intros maxDistance eyeVertex; simpl.
  - right. split; [done|]. intros u Hu. by apply elem_of_nil in Hu.
  - destruct (gtb (dist v) maxDistance) eqn:Eg.
    + apply gtb_true in Eg. left.
      destruct (IH (dist v) (Some v)) as [(w & Hw & Hin & Hlt & Hmax)|[Hw Hmax]].
      * exists w. split_and!; [done|by right|lra|].
        intros u Hu. apply elem_of_cons in Hu as [->|Hu]; [lra|by apply Hmax].
      * exists v. split_and!; [done|by left|done|].
        intros u Hu. apply elem_of_cons in Hu as [->|Hu]; [apply Qle_refl|by apply Hmax].
    + apply gtb_false in Eg.
      destruct (IH maxDistance eyeVertex) as [(w & Hw & Hin & Hlt & Hmax)|[Hw Hmax]].
      * left. exists w. split_and!; [done|by right|done|].
        intros u Hu. apply elem_of_cons in Hu as [->|Hu]; [lra|by apply Hmax].
      * right. split; [done|].
        intros u Hu. apply elem_of_cons in Hu as [->|Hu]; [done|by apply Hmax].
Qed.

(** The distance of the vertex [v] to the face [F]. *)
Definition distanceOf (h : ConvexHull) (F : Face.t) (v : vref) : Q :=
  match vertexNodes h !! v with
  | Some node => Face.distanceToPoint F (VertexNode.point node)
  | None => 0
  end.

Lemma distanceOf_lookup h F v node :
  vertexNodes h !! v = Some node →
  distanceOf h F v = Face.distanceToPoint F (VertexNode.point node).
Proof. intros H. unfold distanceOf. by rewrite H. Qed.

Lemma farthestOfRun_spec fuel h f F p a m n maxDistance eyeVertex :
  faceObjs h !! f = Some F →
  seg (vertexNodes h) p (a :: m) n →
  (∀ u, u ∈ m → ∃ nu, vertexNodes h !! u = Some nu ∧ VertexNode.face nu = Some f) →
  match n with
  | None => True
  | Some q => ∃ nq, vertexNodes h !! q = Some nq ∧ VertexNode.face nq ≠ Some f
  end →
  (length (a :: m) <= fuel)%nat →
  farthestOfRun fuel h f a maxDistance eyeVertex =
  Some (farthest (distanceOf h F) (a :: m) maxDistance eyeVertex).
Proof.
  intros HF. revert p a fuel maxDistance eyeVertex.
  induction m as [|b m IH]; intros p a fuel maxDistance eyeVertex Hs Hm Hn Hf.
  - destruct fuel as [|fuel]; [simpl in Hf; lia|].
    destruct Hs as (node & H1 & H2 & H3 & _). simpl in H3.
    simpl. rewrite HF. simpl. rewrite H1. simpl.
    rewrite (distanceOf_lookup h F a node H1), H3.
    destruct n as [q|].
    + destruct Hn as (nq & Hq & Hqf). rewrite Hq. simpl.
      rewrite bool_decide_eq_false_2 by done. by destruct (gtb _ _).
    + by destruct (gtb _ _).
  - destruct fuel as [|fuel]; [simpl in Hf; lia|].
    destruct Hs as (node & H1 & H2 & H3 & Hs). simpl in H3.
    cbn [farthestOfRun farthest]. rewrite HF. simpl. rewrite H1. simpl.
    rewrite (distanceOf_lookup h F a node H1), H3.
    destruct (Hm b) as (nb & Hb & Hbf); [by left|].
    rewrite Hb. simpl. rewrite bool_decide_eq_true_2 by done.
    assert (Hm' : ∀ u, u ∈ m → ∃ nu, vertexNodes h !! u = Some nu ∧ VertexNode.face nu = Some f).
    { intros u Hu. apply Hm. by right. }
    destruct (gtb _ _).
    + by rewrite (IH (Some a) b fuel _ _ Hs Hm' Hn ltac:(simpl in *; lia)).
    + by rewrite (IH (Some a) b fuel _ _ Hs Hm' Hn ltac:(simpl in *; lia)).
Qed.

(** The head of the part of the assigned list after the first run is not
    assigned to the face of the first run. *)
Lemma assignedInv_next_run h f r rs :
  assignedInv h ((f, r) :: rs) →
  match headOr (members rs) None with
  | None => True
  | Some q => ∃ nq, vertexNodes h !! q = Some nq ∧ VertexNode.face nq ≠ Some f
  end.
Proof.
  intros (HL & Hnd & Hok & _).
  destruct rs as [|[g r'] rs]; [done|].
  apply Forall_cons in Hok as [_ Hok]. apply Forall_cons in Hok as [Hg _].
  destruct Hg as (G & HG & Ho & Hne & _ & Hvs). simpl in *.
  destruct r' as [|q r']; [done|]. simpl.
  destruct (Hvs q) as (nq & Hq & Hqf & _); [by left|].
  exists nq. split; [done|]. rewrite Hqf. intros [= ->].
  apply NoDup_cons in Hnd as [Hnd _]. apply Hnd. by left.
Qed.

Opaque farthestOfRun.

(** [_nextVertexToAdd] when the assigned list is the run [r] of the face
    [f] followed by the runs of other faces: the result is a vertex of [r]
    of greatest distance to [f]. *)
Lemma _nextVertexToAdd_spec h f r rs :
  assignedInv h ((f, r) :: rs) → 0 <= tolerance h →
  ∃ F v,
    faceObjs h !! f = Some F ∧
    _nextVertexToAdd h = Some (Some v) ∧
    v ∈ r ∧
    ∀ u, u ∈ r → distanceOf h F u <= distanceOf h F v.
Proof.
  intros Hinv Htol. pose proof (assignedInv_next_run _ _ _ _ Hinv) as Hnext.
  destruct Hinv as (HL & Hnd & Hok & _).
  apply Forall_cons in Hok as [Hf _].
  destruct Hf as (F & HF & Ho & Hne & Hmark & Hvs). simpl in *.
  destruct r as [|a m]; [done|]. clear Hne.
  destruct HL as (HndL & Hhead & Htail & Hseg).
  rewrite members_cons in Hhead, Hseg. simpl in Hhead.
  apply seg_app in Hseg as (Hseg & _).
  exists F. unfold _nextVertexToAdd, VertexList.isEmpty, VertexList.first.
  rewrite Hhead. rewrite bool_decide_eq_false_2 by done. simpl.
  destruct (Hvs a) as (na & Ha & Haf & Hda); [by left|].
  rewrite Ha. simpl. rewrite Haf. simpl. rewrite HF. simpl. rewrite Ho. simpl.
  rewrite (farthestOfRun_spec _ h f F None a m (headOr (members rs) None)); [|done|done| |done|].
  - destruct (farthest_spec (distanceOf h F) (a :: m) 0 None)
      as [(w & Hw & Hin & _ & Hmax)|[_ Hmax]].
    + exists w. by rewrite Hw.
    + exfalso. specialize (Hmax a ltac:(by left)). unfold distanceOf in Hmax.
      rewrite Ha in Hmax. lra.
  - intros u Hu. destruct (Hvs u) as (nu & Hu1 & Hu2 & _); [by right|]. eauto.
  - rewrite members_cons in HndL. apply NoDup_app in HndL as (Hndr & _).
    pose proof (seg_NoDup_length _ _ _ _ Hndr Hseg). lia.
Qed.

Transparent farthestOfRun.

Lemma _nextVertexToAdd_nil h :
  assignedInv h [] → _nextVertexToAdd h = Some None.
Proof.
  intros ((_ & Hhead & _) & _). unfold _nextVertexToAdd, VertexList.isEmpty.
  simpl in Hhead. by rewrite Hhead.
Qed.

(** ** The horizon *)

Lemma view_lookup {A B} (view : A → B) (l l' : list A) k a :
  map view l' = map view l → l !! k = Some a →
  ∃ a', l' !! k = Some a' ∧ view a' = view a.
Proof.
  intros Hm Ha.
  assert (H : map view l' !! k = Some (view a)).
  { rewrite Hm. change (map view l) with (view <$> l). by rewrite list_lookup_fmap, Ha. }
  change (map view l') with (view <$> l') in H. rewrite list_lookup_fmap in H.
  destruct (l' !! k) as [a'|]; [|done]. exists a'. split; [done|]. simpl in H. congruence.
Qed.

(** The plane of a face and its first half-edge: what the computation of
    the horizon leaves alone in a face. *)
Definition planeView (f : Face.t) :=
  (Face.normal f, Face.midpoint f, Face.area f, Face.constant f, Face.edge f).

Definition geomView (h : ConvexHull) :=
  (tolerance h, faces h, newFaces h, vertices h, halfEdges h,
   map planeView (faceObjs h), map VertexNode.point (vertexNodes h)).

Lemma meshView_geomView h h' : meshView h' = meshView h → geomView h' = geomView h.
Proof.
  unfold meshView, geomView. intros [= -> -> -> -> -> Hfs ->].
  assert (Hg : ∀ l, map planeView l =
                    map (λ s : Vector3 * Vector3 * Q * Q * Mark * option eref,
                           let '(n, m, a, c, _, e) := s in (n, m, a, c, e))
                        (map faceShape l)).
  { intros l. rewrite map_map. apply map_ext. by intros []. }
  by rewrite (Hg (faceObjs h')), (Hg (faceObjs h)), Hfs.
Qed.

(** The face [k] sees the point [p]: the point is outside of its plane by
    more than the tolerance. *)
Definition sees (h : ConvexHull) (p : Vector3) (k : fref) : Prop :=
  ∃ F, faceObjs h !! k = Some F ∧ tolerance h < Face.distanceToPoint F p.

Lemma sees_view h h' p k : geomView h' = geomView h → sees h p k → sees h' p k.
Proof.
  unfold geomView. intros [= Ht _ _ _ _ Hfs _] (F & HF & Hd).
  destruct (view_lookup planeView _ _ _ _ Hfs HF) as (F' & HF' & Heq).
  exists F'. split; [done|]. rewrite Ht. unfold planeView in Heq.
  injection Heq as Hn _ _ Hc _. unfold Face.distanceToPoint. by rewrite Hn, Hc.
Qed.

Lemma visible_dec h k : visible h k ∨ ¬ visible h k.
Proof.
  unfold visible. destruct (faceObjs h !! k) as [F|] eqn:HF.
  - destruct (Face.mark F) eqn:Hm.
    + left. by exists F.
    + right. intros (F' & [= <-] & Hm'). congruence.
  - right. by intros (F' & [=] & _).
Qed.

(** The mesh stays well formed when faces are deleted. *)
Lemma meshInv_delete h h' :
  meshInv h → geomView h' = geomView h → (∀ k, visible h' k → visible h k) →
  meshInv h'.
Proof.
  unfold geomView. intros ((Hlen & Hedge & Hslots) & Htw) [= _ _ _ _ Hes Hfs _] Hvis.
  split; [split_and!|].
  - rewrite Hes, Hlen. f_equal.
    rewrite <- (length_map planeView (faceObjs h')), Hfs. by rewrite length_map.
  - intros k F' HF'.
    destruct (view_lookup planeView _ _ _ _ (eq_sym Hfs) HF') as (F & HF & Heq).
    unfold planeView in Heq. injection Heq as _ _ _ _ Heq. rewrite <- Heq. by eapply Hedge.
  - by rewrite Hes.
  - intros e ed t. rewrite Hes. intros He Ht.
    destruct (Htw e ed t He Ht) as (Hlt & Hrec). split; [done|].
    intros Hv. by apply Hrec, Hvis.
Qed.

(** Marking a face without outside vertices as deleted. *)
Lemma assignedInv_mark h rs f fs :
  assignedInv h rs → f ∉ map fst rs →
  modify f (Face.set_mark Deleted) (faceObjs h) = Some fs →
  assignedInv (set_faceObjs fs h) rs.
Proof.
  intros Hinv Hf Hmod. assert (Hinv' := Hinv). destruct Hinv' as (_ & _ & _ & Hnone).
  apply (assignedInv_frame h); [done..| | |].
  - done.
  - intros g Hg. simpl. rewrite (modify_lookup _ _ _ _ g Hmod).
    destruct (decide (f = g)) as [->|]; [done|done].
  - intros g F' HF' Hg. simpl in HF'. rewrite (modify_lookup _ _ _ _ g Hmod) in HF'.
    destruct (decide (f = g)) as [->|].
    + destruct (faceObjs h !! g) as [F|] eqn:HF; [|done]. simpl in HF'.
      injection HF' as <-. simpl. by apply (Hnone g F).
    + by apply (Hnone g F').
Qed.

Lemma visible_mark h f fs k :
  modify f (Face.set_mark Deleted) (faceObjs h) = Some fs →
  visible (set_faceObjs fs h) k ↔ visible h k ∧ k ≠ f.
Proof.
  intros Hmod. unfold visible. simpl. rewrite (modify_lookup _ _ _ _ k Hmod).
  destruct (decide (f = k)) as [->|Hne].
  - split.
    + intros (F' & HF' & Hm). destruct (faceObjs h !! k) as [F|]; [|done].
      simpl in HF'. injection HF' as <-. done.
    + by intros [_ ?].
  - split.
    + intros (F' & HF' & Hm). split; [by exists F'|done].
    + by intros [? _].
Qed.

Lemma geomView_mark h f fs :
  modify f (Face.set_mark Deleted) (faceObjs h) = Some fs →
  geomView (set_faceObjs fs h) = geomView h.
Proof.
  intros Hmod. unfold geomView. simpl.
  assert (HV : ∀ a, planeView (Face.set_mark Deleted a) = planeView a) by (by intros []).
  by rewrite (modify_view planeView _ _ _ _ HV Hmod).
Qed.

(** The slots an edge loop of [_computeHorizon] still has to visit, up to
    the slot [c] of the edge it was entered through. *)
Fixpoint chain (c i : nat) (rest : list nat) : Prop :=
  match rest with
  | [] => nxt i = c
  | i' :: rest' => nxt i = i' ∧ i' ≠ c ∧ chain c i' rest'
  end.

Section Horizon.

(** The hull when [_addVertexToHull] calls [_computeHorizon], the eye
    point, and the vertices of the two vertex lists. *)
Variable h0 : ConvexHull.
Variable p : Vector3.
Variable M : list vref.
Hypothesis Hmesh0 : meshInv h0.

Definition faceOf (e : eref) : option fref := HalfEdge.face <$> halfEdges h0 !! e.

(** An edge of the horizon: its face has been deleted, the face of its twin
    does not see the eye point. *)
Definition horizonEdge (h : ConvexHull) (he : eref) : Prop :=
  ∃ hed tw twd,
    halfEdges h0 !! he = Some hed ∧ HalfEdge.twin hed = Some tw ∧
    halfEdges h0 !! tw = Some twd ∧
    visible h0 (HalfEdge.face hed) ∧ ¬ visible h (HalfEdge.face hed) ∧
    visible h0 (HalfEdge.face twd) ∧ ¬ sees h0 p (HalfEdge.face twd).

Definition horizonInv (st : list eref * ConvexHull) : Prop :=
  geomView st.2 = geomView h0 ∧
  (∀ k, visible st.2 k → visible h0 k) ∧
  (∀ k, visible h0 k → ¬ visible st.2 k → sees h0 p k) ∧
  NoDup st.1 ∧
  (∀ he, he ∈ st.1 → horizonEdge st.2 he) ∧
  (∃ rs u, assignedInv st.2 rs ∧ unassignedInv st.2 rs u ∧ members rs ++ u ≡ₚ M).

Definition horizonSpec
  (call : option eref → fref → list eref * ConvexHull → option (list eref * ConvexHull))
  : Prop :=
  ∀ crossEdge f hz h hz' h',
    horizonInv (hz, h) → visible h f → sees h0 p f →
    match crossEdge with
    | Some ce => ∃ c, (c < 3)%nat ∧ ce = (3 * f + c)%nat
    | None => True
    end →
    call crossEdge f (hz, h) = Some (hz', h') →
    horizonInv (hz', h') ∧
    (∀ k, visible h' k → visible h k) ∧
    (∀ he, he ∈ hz' → he ∈ hz ∨ ∃ k, faceOf he = Some k ∧ visible h k).

Lemma faceOf_slot f i : (i < 3)%nat → is_Some (halfEdges h0 !! (3 * f + i)%nat) →
  faceOf (3 * f + i) = Some f.
Proof.
  intros Hi [ed He]. unfold faceOf. rewrite He. simpl.
  destruct Hmesh0 as ((_ & _ & Hslots) & _).
  by destruct (Hslots f i ed Hi He) as (-> & _).
Qed.

Lemma horizonInv_edges hz h : horizonInv (hz, h) → halfEdges h = halfEdges h0.
Proof. intros (Hg & _). unfold geomView in Hg. simpl in Hg. congruence. Qed.

(** One edge of the loop of [_computeHorizon]. *)
Lemma horizonLoop_step recurse f i hz h ed twinEdge td opp hz1 h1 :
  horizonSpec recurse → visible h0 f → (i < 3)%nat →
  horizonInv (hz, h) → ¬ visible h f → (3 * f + i)%nat ∉ hz →
  halfEdges h0 !! (3 * f + i)%nat = Some ed →
  HalfEdge.twin ed = Some twinEdge →
  halfEdges h0 !! twinEdge = Some td →
  faceObjs h !! HalfEdge.face td = Some opp →
  (if bool_decide (Face.mark opp = Visible) then
     if gtb (Face.distanceToPoint opp p) (tolerance h)
     then recurse (Some twinEdge) (HalfEdge.face td) (hz, h)
     else Some (hz ++ [(3 * f + i)%nat], h)
   else Some (hz, h)) = Some (hz1, h1) →
  horizonInv (hz1, h1) ∧
  (∀ k, visible h1 k → visible h k) ∧
  (∀ he, he ∈ hz1 → he ∈ hz ∨ he = (3 * f + i)%nat ∨
                    ∃ k, faceOf he = Some k ∧ visible h k).
Proof.
  intros Hspec Hf0 Hi HJ Hnf Hfresh Eed Etw Etd Eopp Est.
  assert (Hm0 := Hmesh0). destruct Hm0 as ((_ & _ & Hslots) & _).
  destruct (Hslots f i ed Hi Eed) as (Hfed & _).
  destruct (bool_decide (Face.mark opp = Visible)) eqn:Emark.
  - apply bool_decide_eq_true in Emark.
    destruct (gtb _ _) eqn:Eg.
    + apply gtb_true in Eg.
      destruct (Hspec (Some twinEdge) (HalfEdge.face td) hz h hz1 h1)
        as (HJ1 & Hmono & Hmem); [done|by exists opp| | |done|].
      * apply (sees_view h); [|by exists opp].
        destruct HJ as (Hg & _). simpl in Hg. by rewrite Hg.
      * destruct (edge_slot twinEdge) as (k & j & -> & Hj).
        destruct (Hslots k j td Hj Etd) as (-> & _). by exists j.
      * split_and!; [done|done|].
        intros he Hhe. destruct (Hmem he Hhe) as [?|?]; [by left|by right; right].
    + apply gtb_false in Eg. injection Est as <- <-.
      destruct HJ as (Hg & Hv0 & Hdel & Hndz & Hhz & HV). simpl in *.
      split_and!.
      * split_and!; simpl; [done|done|done| | |done].
        -- apply NoDup_app. split_and!; [done| |apply NoDup_singleton].
           intros he Hhe Hin. apply list_elem_of_singleton in Hin as ->. done.
        -- intros he Hhe. apply elem_of_app in Hhe as [Hhe|Hhe]; [by apply Hhz|].
           apply list_elem_of_singleton in Hhe as ->.
           exists ed, twinEdge, td. rewrite Hfed. split_and!; [done..| |].
           ++ apply Hv0. by exists opp.
           ++ intros Hs. apply (sees_view h0 h) in Hs; [|done].
              destruct Hs as (F & HF & Hd). rewrite Eopp in HF. injection HF as <-. lra.
      * done.
      * intros he Hhe. apply elem_of_app in Hhe as [Hhe|Hhe]; [by left|].
        apply list_elem_of_singleton in Hhe as ->. right. by left.
  - injection Est as <- <-. split_and!; [done|done|by left].
Qed.

Lemma chain_lt c i rest j : (i < 3)%nat → chain c i rest → j ∈ rest → (j < 3)%nat.
Proof.
  revert i. induction rest as [|i' rest IH]; intros i Hi Hch Hj;
    [by apply elem_of_nil in Hj|].
  destruct Hch as (Hn & _ & Hch).
  assert (Hi' : (i' < 3)%nat) by (rewrite <- Hn; by apply nxt_lt).
  apply elem_of_cons in Hj as [->|Hj]; [done|]. by eapply IH.
Qed.

Lemma horizonLoop_inv recurse f c :
  horizonSpec recurse → visible h0 f → (c < 3)%nat →
  ∀ rest i budget hz h hz' h',
    chain c i rest → NoDup (i :: rest) → (i < 3)%nat →
    horizonInv (hz, h) → ¬ visible h f →
    (∀ he j, he ∈ hz → j ∈ i :: rest → he ≠ (3 * f + j)%nat) →
    horizonLoop recurse p (3 * f + c) budget (3 * f + i) (hz, h) = Some (hz', h') →
    horizonInv (hz', h') ∧
    (∀ k, visible h' k → visible h k) ∧
    (∀ he, he ∈ hz' → he ∈ hz ∨ ∃ k, faceOf he = Some k ∧ (k = f ∨ visible h k)).
Proof.
  intros Hspec Hf0 Hc. assert (Hm0 := Hmesh0). destruct Hm0 as ((_ & _ & Hslots) & _).
  intros rest i budget. revert rest i.
  induction budget as [|budget IH]; intros rest i hz h hz' h' Hch Hnd Hi HJ Hnf Hfree H;
    [done|].
  cbn [horizonLoop] in H.
  pose proof (horizonInv_edges _ _ HJ) as Hes.
  apply bind_Some in H as (ed & Eed & H).
  apply bind_Some in H as (twinEdge & Etw & H).
  apply bind_Some in H as (td & Etd & H).
  apply bind_Some in H as (opp & Eopp & H).
  apply bind_Some in H as ([hz1 h1] & Est & H).
  rewrite Hes in Eed, Etd.
  destruct (Hslots f i ed Hi Eed) as (Hfed & Hnext & _).
  destruct (horizonLoop_step recurse f i hz h ed twinEdge td opp hz1 h1)
    as (HJ1 & Hmono1 & Hmem1); [done..| |done|done|done|done|done|].
  { intros Hin. by eapply (Hfree _ i Hin); [left|]. }
  pose proof (horizonInv_edges _ _ HJ1) as Hes1.
  apply bind_Some in H as (ed1 & Eed1 & H). simpl in Eed1. rewrite Hes1, Eed in Eed1.
  injection Eed1 as <-. rewrite Hnext in H. simpl in H.
  assert (Hfin : ∀ he, he ∈ hz1 →
            he ∈ hz ∨ ∃ k, faceOf he = Some k ∧ (k = f ∨ visible h k)).
  { intros he Hhe. destruct (Hmem1 he Hhe) as [?|[->|(k & Hk & Hvk)]].
    - by left.
    - right. exists f. split; [apply faceOf_slot; [done|by exists ed]|by left].
    - right. exists k. split; [done|by right]. }
  destruct rest as [|i' rest].
  - simpl in Hch. rewrite bool_decide_eq_true_2 in H by (f_equal; lia).
    injection H as <- <-. done.
  - assert (Hlt : ∀ j, j ∈ i' :: rest → (j < 3)%nat) by (intros j; by eapply chain_lt).
    destruct Hch as (Hn & Hne & Hch).
    rewrite bool_decide_eq_false_2 in H by lia. rewrite Hn in H.
    apply NoDup_cons in Hnd as [Hi'' Hnd].
    destruct (IH rest i' hz1 h1 hz' h') as (HJ' & Hmono' & Hmem'); [done|done| |done| | |done|].
    + apply Hlt. by left.
    + intros Hv. by apply Hnf, Hmono1.
    + intros he j Hhe Hj. destruct (Hmem1 he Hhe) as [Hin|[->|(k & Hk & Hvk)]].
      * apply Hfree; [done|by right].
      * intros Heq. assert (i = j) as -> by lia. done.
      * intros ->. rewrite faceOf_slot in Hk.
        -- injection Hk as <-. by apply Hnf.
        -- by apply Hlt.
        -- destruct (HJ1) as (_ & _ & _ & _ & Hhz1 & _).
           destruct (Hhz1 _ Hhe) as (hed & tw & twd & Hhed & _). by exists hed.
    + split_and!; [done|intros k Hk; by apply Hmono1, Hmono'|].
      intros he Hhe. destruct (Hmem' he Hhe) as [Hin|(k & Hk & [->|Hvk])].
      * by apply Hfin.
      * right. exists f. split; [done|by left].
      * right. exists k. split; [done|right; by apply Hmono1].
Qed.

(** The start of [_computeHorizon]: the outside vertices of the face go to
    the unassigned list and the face is marked as deleted. *)
Lemma horizonInv_delete fuel f hz h h1 fs :
  horizonInv (hz, h) → visible h f → sees h0 p f →
  _deleteFaceVertices fuel f None h = Some h1 →
  modify f (Face.set_mark Deleted) (faceObjs h1) = Some fs →
  horizonInv (hz, set_faceObjs fs h1) ∧
  ¬ visible (set_faceObjs fs h1) f ∧
  (∀ k, visible (set_faceObjs fs h1) k → visible h k).
Proof.
  intros (Hg & Hv0 & Hdel & Hndz & Hhz & (rs & u & Hinv & Hun & Hperm)) Hvf Hsf Edel Emark.
  simpl in *.
  pose proof (_deleteFaceVertices_mesh _ _ _ _ _ Edel) as Hmv.
  destruct Hvf as (F & HF & HFm).
  destruct (_deleteFaceVertices_inv fuel h rs u f F Hinv Hun HF)
    as (h1' & rs' & u' & Edel' & Hinv1 & Hun1 & Hperm1 & Hfrs & _).
  assert (h1' = h1) as -> by congruence.
  assert (Hmono : ∀ k, visible (set_faceObjs fs h1) k → visible h k).
  { intros k Hk. apply (visible_mark h1 f fs k Emark) in Hk as [Hk _].
    by apply (visible_view h1 h). }
  split_and!; [split_and!; simpl|..].
  - rewrite (geomView_mark h1 f fs Emark), <- Hg. by apply meshView_geomView.
  - intros k Hk. by apply Hv0, Hmono.
  - intros k Hk0 Hnk. destruct (decide (k = f)) as [->|Hne]; [done|].
    apply Hdel; [done|]. intros Hk. apply Hnk.
    apply (visible_mark h1 f fs k Emark). split; [|done]. by apply (visible_view h).
  - done.
  - intros he Hhe. destruct (Hhz he Hhe) as (hed & tw & twd & H1 & H2 & H3 & H4 & H5 & H6).
    exists hed, tw, twd. split_and!; [done..| |apply H6|apply H6].
    intros Hk. by apply H5, Hmono.
  - exists rs', u'. split_and!.
    + by apply (assignedInv_mark h1 rs' f).
    + exact Hun1.
    + by rewrite Hperm1.
  - intros Hk. by apply (visible_mark h1 f fs f Emark) in Hk as [_ ?].
  - done.
Qed.

Lemma _computeHorizon_inv fuel : horizonSpec (_computeHorizon fuel p).
Proof.
  assert (Hm0 := Hmesh0). destruct Hm0 as ((_ & _ & Hslots) & _).
  induction fuel as [|fuel IH]; intros crossEdge f hz h hz' h' HJ Hvf Hsf Hce H; [done|].
  cbn [_computeHorizon] in H.
  apply bind_Some in H as (h1 & Edel & H).
  apply bind_Some in H as (fs & Emark & H).
  apply bind_Some in H as ([edge ce] & Eedge & H).
  destruct (horizonInv_delete fuel f hz h h1 fs HJ Hvf Hsf Edel Emark)
    as (HJ2 & Hnf2 & Hmono2).
  set (h2 := set_faceObjs fs h1) in *.
  pose proof (horizonInv_edges _ _ HJ2) as Hes2.
  assert (Hm2 : meshInv h2).
  { destruct HJ2 as (Hg2 & Hv2 & _). by apply (meshInv_delete h0). }
  assert (Hf0 : visible h0 f).
  { destruct HJ as (_ & Hv0 & _). by apply Hv0. }
  assert (Hfree : ∀ he j, he ∈ hz → (j < 3)%nat → he ≠ (3 * f + j)%nat).
  { intros he j Hhe Hj ->. destruct HJ as (_ & _ & _ & _ & Hhz & _).
    destruct (Hhz _ Hhe) as (hed & tw & twd & Hhed & _ & _ & _ & Hnv & _).
    destruct (Hslots f j hed Hj Hhed) as (Hface & _). simpl in Hnv.
    rewrite Hface in Hnv. done. }
  assert (Hpost : ∀ hz' h',
    horizonInv (hz', h') ∧ (∀ k, visible h' k → visible h2 k) ∧
    (∀ he, he ∈ hz' → he ∈ hz ∨ ∃ k, faceOf he = Some k ∧ (k = f ∨ visible h2 k)) →
    horizonInv (hz', h') ∧ (∀ k, visible h' k → visible h k) ∧
    (∀ he, he ∈ hz' → he ∈ hz ∨ ∃ k, faceOf he = Some k ∧ visible h k)).
  { intros hz'' h'' (HJ' & Hmono' & Hmem'). split_and!; [done| |].
    - intros k Hk. by apply Hmono2, Hmono'.
    - intros he Hhe. destruct (Hmem' he Hhe) as [?|(k & Hk & [->|Hvk])]; [by left|..].
      + right. by exists f.
      + right. exists k. split; [done|by apply Hmono2]. }
  apply Hpost.
  destruct crossEdge as [ce0|].
  - destruct Hce as (c & Hc & ->).
    apply bind_Some in Eedge as (ced & Eced & Eedge).
    apply bind_Some in Eedge as (e & Ee & Eedge). injection Eedge as <- <-.
    rewrite Hes2 in Eced. destruct (Hslots f c ced Hc Eced) as (_ & Hnext & _).
    rewrite Hnext in Ee. injection Ee as <-.
    apply (horizonLoop_inv (_computeHorizon fuel p) f c IH Hf0 Hc [nxt (nxt c)] (nxt c)
             fuel hz h2 hz' h'); [| |by apply nxt_lt|done|done| |done].
    + destruct c as [|[|[|c]]]; [| | |lia]; simpl; split_and!; done.
    + destruct c as [|[|[|c]]]; [| | |lia]; simpl;
        (apply NoDup_cons; split; [|apply NoDup_singleton]);
        intros Hin; by apply list_elem_of_singleton in Hin.
    + intros he j Hhe Hj. apply Hfree; [done|].
      apply elem_of_cons in Hj as [->|Hj]; [by apply nxt_lt|].
      apply list_elem_of_singleton in Hj as ->. by do 2 apply nxt_lt.
  - apply bind_Some in Eedge as (e & Ee & Eedge). injection Eedge as <- <-.
    change 0%Z with (Z.of_nat 0) in Ee.
    apply Face_getEdge_inv in Ee as (-> & _); [|apply Hm2|lia].
    apply (horizonLoop_inv (_computeHorizon fuel p) f 0 IH Hf0 ltac:(lia) [1; 2]%nat 0%nat
             fuel hz h2 hz' h'); [| |lia|done|done| |done].
    + simpl. split_and!; done.
    + apply NoDup_cons. split.
      * intros Hin. apply elem_of_cons in Hin as [?|Hin]; [done|].
        by apply list_elem_of_singleton in Hin.
      * apply NoDup_cons. split; [|apply NoDup_singleton].
        intros Hin. by apply list_elem_of_singleton in Hin.
    + intros he j Hhe Hj. apply Hfree; [done|].
      apply elem_of_cons in Hj as [->|Hj]; [lia|].
      apply elem_of_cons in Hj as [->|Hj]; [lia|].
      apply list_elem_of_singleton in Hj as ->. lia.
Qed.

End Horizon.

(** A half-edge of the horizon that [_addNewFaces] has not come to yet: a
    half-edge of a deleted face whose twin is a half-edge of a visible
    face, linked one to the other. *)
Definition pending (h : ConvexHull) (he : eref) : Prop :=
  ∃ hed tw twd,
    halfEdges h !! he = Some hed ∧ HalfEdge.twin hed = Some tw ∧
    halfEdges h !! tw = Some twd ∧ HalfEdge.twin twd = Some he ∧
    ¬ visible h (HalfEdge.face hed) ∧ visible h (HalfEdge.face twd).

(** The horizon that [_computeHorizon] hands to [_addNewFaces]. *)
Definition horizonOK (h : ConvexHull) (hz : list eref) : Prop :=
  NoDup hz ∧ ∀ he, he ∈ hz → pending h he.

Lemma _computeHorizon_top fuel h p f rs u hz h' :
  meshInv h → assignedInv h rs → unassignedInv h rs u →
  visible h f → sees h p f →
  _computeHorizon fuel p None f ([], h) = Some (hz, h') →
  meshInv h' ∧ geomView h' = geomView h ∧
  (∃ rs' u', assignedInv h' rs' ∧ unassignedInv h' rs' u' ∧
             members rs' ++ u' ≡ₚ members rs ++ u) ∧
  horizonOK h' hz.
Proof.
  intros Hm Hinv Hun Hvf Hsf H.
  destruct (_computeHorizon_inv h p (members rs ++ u) Hm fuel None f [] h hz h')
    as ((Hg & Hv0 & Hdel & Hnd & Hhz & HV) & _ & _); [|done|done|done|done|].
  { split_and!; simpl; [done|done|done|constructor| |by exists rs, u].
    intros he Hhe. by apply elem_of_nil in Hhe. }
  simpl in *. split_and!; [by apply (meshInv_delete h)|done|done|].
  split; [done|]. intros he Hhe.
  destruct (Hhz he Hhe) as (hed & tw & twd & H1 & H2 & H3 & H4 & H5 & H6 & H7).
  assert (Hes : halfEdges h' = halfEdges h).
  { unfold geomView in Hg. congruence. }
  destruct Hm as (_ & Htw). destruct (Htw he hed tw H1 H2) as (_ & Hrec).
  destruct (Hrec H4) as (twd' & H3' & Hback).
  assert (twd' = twd) as -> by congruence.
  exists hed, tw, twd. rewrite Hes. split_and!; [done..|].
  destruct (visible_dec h' (HalfEdge.face twd)) as [?|Hn]; [done|].
  exfalso. by apply H7, Hdel.
Qed.

(** ** The new faces *)

Lemma HalfEdge_setTwin_other x y es es' e :
  HalfEdge_setTwin x y es = Some es' → e ≠ x → e ≠ y → es' !! e = es !! e.
Proof.
  unfold HalfEdge_setTwin. intros H Hx Hy. apply bind_Some in H as (es1 & H1 & H2).
  rewrite (modify_lookup _ _ _ _ e H2), decide_False by done.
  by rewrite (modify_lookup _ _ _ _ e H1), decide_False.
Qed.

Lemma pending_setTwin h x y es' he :
  HalfEdge_setTwin x y (halfEdges h) = Some es' →
  pending h he → he ≠ x → he ≠ y →
  (∀ hed, halfEdges h !! he = Some hed →
          HalfEdge.twin hed ≠ Some x ∧ HalfEdge.twin hed ≠ Some y) →
  pending (set_halfEdges es' h) he.
Proof.
  intros Hset (hed & tw & twd & H1 & H2 & H3 & H4 & H5 & H6) Hx Hy Htw.
  destruct (Htw hed H1) as [Htx Hty].
  exists hed, tw, twd. simpl.
  rewrite !(HalfEdge_setTwin_other x y _ es' _ Hset) by congruence. done.
Qed.

Lemma pending_linked h he : pending h he → ¬ unlinked h he.
Proof. intros (hed & tw & twd & H1 & H2 & _) (ed & He & Hn). congruence. Qed.

Lemma pending_twin_linked h he hed tw :
  pending h he → halfEdges h !! he = Some hed → HalfEdge.twin hed = Some tw →
  ¬ unlinked h tw.
Proof.
  intros (hed' & tw' & twd & H1 & H2 & H3 & H4 & _) He Ht (ed & Hed & Hn). congruence.
Qed.

(** Linking two half-edges that have no twin yet. *)
Lemma setTwin_unlinked_inv h x y es' :
  meshInv h → unlinked h x → unlinked h y →
  HalfEdge_setTwin x y (halfEdges h) = Some es' →
  meshInv (set_halfEdges es' h) ∧
  (∀ e, e ≠ x → e ≠ y → unlinked h e → unlinked (set_halfEdges es' h) e) ∧
  (∀ he, pending h he → pending (set_halfEdges es' h) he).
Proof.
  intros (Hsh & Htw) Hx Hy Hset.
  destruct (HalfEdge_setTwin_spec _ _ _ _ Hset) as (_ & _ & Hm & _).
  split_and!.
  - split; [by apply shapeInv_edges|].
    eapply HalfEdge_setTwin_twinInv; [done..| |]; by apply unlinked_free.
  - intros e Hex Hey. by eapply unlinked_setTwin.
  - intros he Hp. apply (pending_setTwin h x y); [done|done| | |].
    + intros ->. by apply (pending_linked h x).
    + intros ->. by apply (pending_linked h y).
    + intros hed Hhed. split; intros Ht.
      * by apply (pending_twin_linked h he hed x).
      * by apply (pending_twin_linked h he hed y).
Qed.

Lemma pending_withFace three a b c pa pb pc h he :
  shapeInv h → pending h he → pending (withFace three a b c pa pb pc h) he.
Proof.
  intros (Hlen & _ & Hslots) (hed & tw & twd & H1 & H2 & H3 & H4 & H5 & H6).
  exists hed, tw, twd. split_and!; [by apply withFace_old_edge|done|
    by apply withFace_old_edge|done| |].
  - intros Hv. apply withFace_visible in Hv as [Hv|Hv]; [done|].
    destruct (edge_slot he) as (k & i & -> & Hi).
    destruct (Hslots k i hed Hi H1) as (Hf & _). apply lookup_lt_Some in H1. lia.
  - apply withFace_visible. by left.
Qed.

Lemma assignedInv_withFace three a b c pa pb pc h rs :
  assignedInv h rs → assignedInv (withFace three a b c pa pb pc h) rs.
Proof.
  intros Hinv. assert (Hinv' := Hinv). destruct Hinv' as (_ & _ & Hok & Hnone).
  apply (assignedInv_frame h); [done..| | |].
  - done.
  - intros f Hf. apply list_elem_of_fmap in Hf as ([f' r] & -> & Hin).
    rewrite Forall_forall in Hok. destruct (Hok _ Hin) as (F & HF & _). simpl in *.
    rewrite HF. by apply lookup_app_l_Some.
  - intros f F' HF' Hf. apply withFace_face in HF' as [HF'|[_ ->]]; [|done].
    by apply (Hnone f F').
Qed.

(** [_addAdjoiningFace( eyeVertex, horizonEdge )] for a half-edge of the
    horizon: the new face [k] takes the place of the deleted face at the
    twin of the horizon edge; its half-edges [3 k] and [3 k + 1] are left
    without twin. *)
Lemma _addAdjoiningFace_inv three v he h e h' :
  meshInv h → pending h he →
  _addAdjoiningFace three v he h = Some (e, h') →
  let k := length (faceObjs h) in
  e = (3 * k)%nat ∧ meshInv h' ∧
  unlinked h' (3 * k) ∧ unlinked h' (3 * k + 1) ∧ is_Some (faceObjs h' !! k) ∧
  (∀ e', unlinked h e' → unlinked h' e') ∧
  (∀ he', he' ≠ he → pending h he' → pending h' he') ∧
  (∀ rs, assignedInv h rs → assignedInv h' rs) ∧
  (∀ rs u, unassignedInv h rs u → unassignedInv h' rs u).
Proof.
  intros Hm Hp H k. unfold _addAdjoiningFace in H.
  apply bind_Some in H as (otl & _ & H). apply bind_Some in H as (tl & _ & H).
  apply bind_Some in H as (hd & _ & H).
  apply bind_Some in H as ([face h1] & Ecreate & H).
  apply Face_create_inv in Ecreate as (va & vb & vc & _ & _ & _ & -> & ->).
  set (h1 := withFace _ _ _ _ _ _ _ h) in *.
  assert (Hm1 : meshInv h1) by (by apply withFace_meshInv).
  set (h1' := set_faces _ h1) in *.
  assert (Hm1' : meshInv h1') by exact Hm1.
  assert (Hk1 : is_Some (faceObjs h1' !! k)).
  { simpl. rewrite list_lookup_middle; [eauto|done]. }
  apply bind_Some in H as (e2 & Ee2 & H).
  apply Face_getEdge_last_inv in Ee2 as (-> & _); [|apply Hm1'].
  apply bind_Some in H as (hed & Ehed & H). apply bind_Some in H as (tw & Etw & H).
  apply bind_Some in H as (es & Eset & H).
  set (h2 := set_halfEdges es h1') in *.
  apply bind_Some in H as (e0 & Ee0 & H). injection H as <- <-.
  assert (Hp1 : pending h1' he) by (apply pending_withFace; [apply Hm|done]).
  destruct Hp1 as (hed' & tw' & twd & H1 & H2 & H3 & H4 & H5 & H6).
  assert (hed' = hed) as -> by congruence. assert (tw' = tw) as -> by congruence.
  assert (Hlen : length (halfEdges h) = (3 * k)%nat) by apply Hm.
  assert (Hold : ∀ e' ed', halfEdges h1' !! e' = Some ed' →
                           e' ≠ (3 * k + 2)%nat → HalfEdge.twin ed' ≠ Some (3 * k + 2)%nat).
  { intros e' ed' He' Hne Ht. destruct Hm1' as (_ & Htw1).
    destruct (Htw1 e' ed' _ He' Ht) as (_ & _).
    apply (withFace_edge three v tl hd (VertexNode.point va) (VertexNode.point vb)
             (VertexNode.point vc) h) in He' as [He'|(j & Hj & -> & He')].
    - destruct Hm as (_ & Htw0). destruct (Htw0 e' ed' _ He' Ht) as (Hlt & _). lia.
    - destruct j as [|[|[|j]]]; [| | |lia]; simpl in He'; injection He' as <-;
        simpl in Ht; done. }
  assert (Hlt_he : (he < 3 * k)%nat).
  { destruct Hp as (? & ? & ? & Hhe & _). apply lookup_lt_Some in Hhe. lia. }
  assert (Hlt_tw : (tw < 3 * k)%nat).
  { destruct Hp as (hed0 & tw0 & twd0 & Hhe & Htw0 & Htwd0 & _).
    apply lookup_lt_Some in Htwd0.
    assert (halfEdges h1' !! he = Some hed0) by (by apply withFace_old_edge).
    assert (tw0 = tw) as -> by congruence. lia. }
  assert (Hu2 : unlinked h1' (3 * k + 2)%nat).
  { apply (withFace_unlinked _ _ _ _ _ _ _ h 2); [apply Hm|lia]. }
  assert (Hm2 : meshInv h2).
  { split; [apply shapeInv_edges; [apply Hm1'|]|].
    - by destruct (HalfEdge_setTwin_spec _ _ _ _ Eset) as (_ & _ & ? & _).
    - eapply (HalfEdge_setTwin_twinInv h1'); [apply Hm1'|done| |].
      + apply (unlinked_free h1'); [apply Hm1'|exact Hu2].
      + intros e' ed' He' Hv' Ht'. exfalso.
        destruct Hm1' as (_ & Htw1). destruct (Htw1 e' ed' tw He' Ht') as (_ & Hrec).
        destruct (Hrec Hv') as (td & Htd & Hback).
        assert (e' = he) as -> by congruence.
        assert (ed' = hed) as -> by congruence. done. }
  split_and!.
  - change 0%Z with (Z.of_nat 0) in Ee0.
    apply Face_getEdge_inv in Ee0 as (-> & _); [lia|apply Hm2|lia].
  - done.
  - apply (unlinked_setTwin h1' (3 * k + 2) tw es); [done|lia|lia|].
    replace (3 * k)%nat with (3 * k + 0)%nat by lia.
    apply (withFace_unlinked _ _ _ _ _ _ _ h 0); [apply Hm|lia].
  - apply (unlinked_setTwin h1' (3 * k + 2) tw es); [done|lia|lia|].
    apply (withFace_unlinked _ _ _ _ _ _ _ h 1); [apply Hm|lia].
  - done.
  - intros e' Hu. assert (He' : (e' < 3 * k)%nat).
    { destruct Hu as (? & Hu & _). apply lookup_lt_Some in Hu. lia. }
    apply (unlinked_setTwin h1' (3 * k + 2) tw es); [done|lia| |].
    + intros ->. destruct Hu as (ed & Hed & Hnone).
      assert (halfEdges h1' !! tw = Some ed) by (by apply withFace_old_edge). congruence.
    + by apply withFace_unlinked_old.
  - intros he' Hne Hp'. assert (Hlt' : (he' < 3 * k)%nat).
    { destruct Hp' as (? & ? & ? & Hhe & _). apply lookup_lt_Some in Hhe. lia. }
    assert (Hp1 : pending h1' he') by (apply pending_withFace; [apply Hm|done]).
    apply (pending_setTwin h1' (3 * k + 2) tw es); [done|done|lia| |].
    + intros ->. destruct Hp1 as (hed1 & tw1 & twd1 & G1 & G2 & G3 & G4 & G5 & G6).
      assert (hed1 = twd) as -> by congruence. done.
    + intros hed1 Hhed1. split.
      * apply (Hold he' hed1 Hhed1). lia.
      * intros Ht. destruct Hp1 as (hed1' & tw1 & twd1 & G1 & G2 & G3 & G4 & G5 & G6).
        assert (hed1' = hed1) as -> by congruence.
        assert (tw1 = tw) as -> by congruence. congruence.
  - intros rs Hinv.
    exact (assignedInv_withFace three v tl hd (VertexNode.point va) (VertexNode.point vb)
             (VertexNode.point vc) h rs Hinv).
  - intros rs u Hun. exact Hun.
Qed.

(** The side edges that the loop of [_addNewFaces] still has to link: the
    first side edge is the half-edge [3 kf] of the first new face, whose
    next half-edge [3 kf + 1] has no twin yet, and the previous side edge
    has no twin yet. *)
Definition sideInv (h : ConvexHull) (first prev : option eref) : Prop :=
  match prev with
  | None => first = None
  | Some pe =>
      unlinked h pe ∧
      ∃ kf, first = Some (3 * kf)%nat ∧ unlinked h (3 * kf + 1)%nat ∧
            (3 * kf + 1)%nat ≠ pe
  end.

Lemma addNewFacesLoop_inv three v hz :
  ∀ first prev h first' prev' h',
    meshInv h → NoDup hz → (∀ he, he ∈ hz → pending h he) → sideInv h first prev →
    addNewFacesLoop three v hz first prev h = Some (first', prev', h') →
    meshInv h' ∧ sideInv h' first' prev' ∧
    (∀ rs, assignedInv h rs → assignedInv h' rs) ∧
    (∀ rs u, unassignedInv h rs u → unassignedInv h' rs u).
Proof.
  induction hz as [|he hz IH]; intros first prev h first' prev' h' Hm Hnd Hp Hside H.
  - simpl in H. injection H as <- <- <-. done.
  - cbn [addNewFacesLoop] in H.
    apply bind_Some in H as ([sideEdge h1] & Eadj & H).
    apply bind_Some in H as ([first1 h2] & Elink & H).
    apply bind_Some in H as (sd & Esd & H).
    apply NoDup_cons in Hnd as [Hhe Hnd].
    destruct (_addAdjoiningFace_inv three v he h sideEdge h1 Hm (Hp he ltac:(by left)) Eadj)
      as (-> & Hm1 & Hu0 & Hu1 & _ & Hun1 & Hp1 & Hinv1 & Hunas1).
    set (k := length (faceObjs h)) in *.
    assert (Hlen : length (halfEdges h) = (3 * k)%nat) by apply Hm.
    assert (Hstep : meshInv h2 ∧ sideInv h2 first1 (Some (3 * k)%nat) ∧
                    (∀ he', he' ∈ hz → pending h2 he') ∧
                    (∀ rs, assignedInv h1 rs → assignedInv h2 rs) ∧
                    (∀ rs u, unassignedInv h1 rs u → unassignedInv h2 rs u)).
    { assert (Hpz : ∀ he', he' ∈ hz → pending h1 he').
      { intros he' Hin. apply Hp1; [by intros ->|]. apply Hp. by right. }
      destruct first as [fe|].
      - apply bind_Some in Elink as (sd1 & Esd1 & Elink).
        apply bind_Some in Elink as (n & En & Elink).
        apply bind_Some in Elink as (pe & Epe & Elink).
        apply bind_Some in Elink as (es & Eset & Elink). injection Elink as <- <-.
        subst prev. destruct Hside as (Hupe & kf & [= ->] & Hufn & Hne).
        assert (n = (3 * k + 1)%nat) as ->.
        { destruct Hm1 as ((_ & _ & Hslots) & _).
          replace (3 * k)%nat with (3 * k + 0)%nat in Esd1 by lia.
          destruct (Hslots k 0%nat sd1 ltac:(lia) Esd1) as (_ & Hn & _).
          simpl in Hn. congruence. }
        assert (Hpe_lt : (pe < 3 * k)%nat).
        { destruct Hupe as (? & Hl & _). apply lookup_lt_Some in Hl. lia. }
        assert (Hfn_lt : (3 * kf + 1 < 3 * k)%nat).
        { destruct Hufn as (? & Hl & _). apply lookup_lt_Some in Hl. lia. }
        destruct (setTwin_unlinked_inv h1 (3 * k + 1) pe es Hm1 Hu1 (Hun1 _ Hupe) Eset)
          as (Hm2 & Hun2 & Hp2).
        split_and!; [done| |by intros; apply Hp2, Hpz|done|done].
        split; [apply Hun2; [lia|lia|done]|].
        exists kf. split_and!; [done| |lia].
        apply Hun2; [lia|done|]. by apply Hun1.
      - injection Elink as <- <-. split_and!; [done| |done|done|done].
        split; [done|]. exists k. split_and!; [done|done|lia]. }
    destruct Hstep as (Hm2 & Hside2 & Hpz2 & Hinv2 & Hunas2).
    destruct (IH first1 (Some (3 * k)%nat)
                (set_newFaces (newFaces h2 ++ [HalfEdge.face sd]) h2) first' prev' h')
      as (Hm' & Hside' & Hinv' & Hunas');
      [exact Hm2|done|exact Hpz2|exact Hside2|exact H|].
    split_and!; [done|done| |].
    + intros rs Hinv. by apply Hinv', Hinv2, Hinv1.
    + intros rs u Hun. by apply Hunas', Hunas2, Hunas1.
Qed.

(** [_addNewFaces( eyeVertex, horizon )] closes the hole that the deleted
    faces have left. *)
Lemma _addNewFaces_inv three v hz h h' :
  meshInv h → horizonOK h hz →
  _addNewFaces three v hz h = Some h' →
  meshInv h' ∧
  (∀ rs, assignedInv h rs → assignedInv h' rs) ∧
  (∀ rs u, unassignedInv h rs u → unassignedInv h' rs u).
Proof.
  intros Hm [Hnd Hp] H. unfold _addNewFaces in H.
  apply bind_Some in H as ([[first prev] h1] & Eloop & H).
  apply bind_Some in H as (fe & -> & H). apply bind_Some in H as (fd & Efd & H).
  apply bind_Some in H as (n & En & H). apply bind_Some in H as (pe & -> & H).
  apply bind_Some in H as (es & Eset & H). injection H as <-.
  destruct (addNewFacesLoop_inv three v hz None None (set_newFaces [] h) (Some fe) (Some pe) h1)
    as (Hm1 & Hside1 & Hinv1 & Hunas1); [exact Hm|done|exact Hp|done|exact Eloop|].
  destruct Hside1 as (Hupe & kf & [= ->] & Hufn & Hne).
  assert (n = (3 * kf + 1)%nat) as ->.
  { destruct Hm1 as ((_ & _ & Hslots) & _).
    replace (3 * kf)%nat with (3 * kf + 0)%nat in Efd by lia.
    destruct (Hslots kf 0%nat fd ltac:(lia) Efd) as (_ & Hn & _).
    simpl in Hn. congruence. }
  destruct (setTwin_unlinked_inv h1 (3 * kf + 1) pe es Hm1 Hufn Hupe Eset) as (Hm2 & _ & _).
  split_and!; [done| |].
  - intros rs Hinv. exact (Hinv1 rs Hinv).
  - intros rs u Hun. exact (Hunas1 rs u Hun).
Qed.

(** * The states of the construction *)

(** The points of the construction at which the hull is observed: no
    construction is under way ([Idle]: a new hull, or the hull
    [setFromPoints] has returned); at the head of the loop of [_compute];
    and in [_addVertexToHull], after the eye vertex has been removed from
    its face, after the horizon has been computed, and after the new faces
    have been added. *)
Inductive Point :=
| Idle
| LoopHead
| EyeRemoved (eyeVertex : vref)
| HorizonDone (eyeVertex : vref) (horizon : list eref)
| FacesAdded (eyeVertex : vref).

(** [reach three pt h]: the hull is [h] when a construction comes to the
    point [pt]. *)
Inductive reach (three : Three) : Point → ConvexHull → Prop :=
| reach_new :
    reach three Idle newConvexHull
| reach_initial points h0 h :
    reach three Idle h0 → (4 <= length points)%nat →
    _computeInitialHull three (pushVertexNodes points (makeEmpty h0)) = Some h →
    reach three LoopHead h
| reach_eye h v ev f h' :
    reach three LoopHead h →
    _nextVertexToAdd h = Some (Some v) →
    vertexNodes h !! v = Some ev → VertexNode.face ev = Some f →
    _removeVertexFromFace v f (set_unassigned (VertexList.clear (unassigned h)) h)
      = Some h' →
    reach three (EyeRemoved v) h'
| reach_horizon fuel h v ev f hz h' :
    reach three (EyeRemoved v) h →
    vertexNodes h !! v = Some ev → VertexNode.face ev = Some f →
    _computeHorizon fuel (VertexNode.point ev) None f ([], h) = Some (hz, h') →
    reach three (HorizonDone v hz) h'
| reach_faces h v hz h' :
    reach three (HorizonDone v hz) h →
    _addNewFaces three v hz h = Some h' →
    reach three (FacesAdded v) h'
| reach_resolve fuel h v h' :
    reach three (FacesAdded v) h →
    _resolveUnassignedPoints fuel (newFaces h) h = Some h' →
    reach three LoopHead h'
| reach_finish h h' :
    reach three LoopHead h →
    _nextVertexToAdd h = Some None →
    _reindexFaces h = Some h' →
    reach three Idle (_cleanup h').

(** ** The construction goes through these states *)

Lemma _addVertexToHull_reach three fuel v h h' :
  reach three LoopHead h → _nextVertexToAdd h = Some (Some v) →
  _addVertexToHull three fuel v h = Some h' →
  reach three LoopHead h'.
Proof.
  intros Hr Hnext H. unfold _addVertexToHull in H.
  apply bind_Some in H as (ev & Eev & H). apply bind_Some in H as (f & Ef & H).
  apply bind_Some in H as (h1 & Erem & H).
  apply bind_Some in H as (ev1 & Eev1 & H). apply bind_Some in H as (f1 & Ef1 & H).
  apply bind_Some in H as ([hz h2] & Ehz & H).
  apply bind_Some in H as (h3 & Efaces & H).
  eapply reach_resolve; [|exact H].
  eapply reach_faces; [|exact Efaces].
  eapply reach_horizon; [|exact Eev1|exact Ef1|exact Ehz].
  eapply reach_eye; [exact Hr|exact Hnext|exact Eev|exact Ef|exact Erem].
Qed.

Lemma computeLoop_reach three fuel h h' :
  reach three LoopHead h → computeLoop three fuel h = Some h' →
  reach three LoopHead h' ∧ _nextVertexToAdd h' = Some None.
Proof.
  revert h. induction fuel as [|fuel IH]; intros h Hr H; [done|].
  cbn [computeLoop] in H. apply bind_Some in H as (vertex & Enext & H).
  destruct vertex as [v|].
  - apply bind_Some in H as (h1 & Eadd & H). apply (IH h1); [|done].
    by eapply _addVertexToHull_reach.
  - injection H as <-. done.
Qed.

(** Every hull that [setFromPoints] returns, on a new hull or on a hull an
    earlier [setFromPoints] has returned, is reached at [Idle]. *)
Lemma setFromPoints_reach three fuel points h0 h :
  reach three Idle h0 → setFromPoints three fuel points h0 = Some h →
  reach three Idle h.
Proof.
  intros Hr H. unfold setFromPoints in H.
  destruct (4 <=? length points)%nat eqn:E; [|by injection H as <-].
  apply Nat.leb_le in E. unfold _compute in H.
  apply bind_Some in H as (h1 & Einit & H). apply bind_Some in H as (h2 & Eloop & H).
  apply bind_Some in H as (h3 & Ere & H). injection H as <-.
  destruct (computeLoop_reach three fuel h1 h2) as [Hr2 Hnone]; [|done|].
  { by eapply reach_initial. }
  by eapply reach_finish.
Qed.

(** ** The invariant of the construction *)

Definition listsInv (h : ConvexHull) : Prop :=
  ∃ rs u, assignedInv h rs ∧ unassignedInv h rs u.

(** What holds of the hull at each point of the construction. *)
Definition pointInv (pt : Point) (h : ConvexHull) : Prop :=
  meshInv h ∧
  match pt with
  | Idle =>
      assignedInv h [] ∧ ∀ f, f ∈ faces h → visible h f
  | LoopHead =>
      (∃ rs, assignedInv h rs) ∧ 0 <= tolerance h
  | EyeRemoved v =>
      listsInv h ∧ 0 <= tolerance h ∧
      ∃ ev f, vertexNodes h !! v = Some ev ∧ VertexNode.face ev = Some f ∧
              visible h f ∧ sees h (VertexNode.point ev) f
  | HorizonDone v hz =>
      listsInv h ∧ 0 <= tolerance h ∧ horizonOK h hz
  | FacesAdded v =>
      listsInv h ∧ 0 <= tolerance h
  end.

Lemma meshInv_new : meshInv newConvexHull.
Proof.
  split; [split_and!|].
  - done.
  - intros k F HF. by simpl in HF.
  - intros k i ed _ He. by simpl in He.
  - intros e ed t He. by simpl in He.
Qed.

Lemma assignedInv_new : assignedInv newConvexHull [].
Proof.
  apply assignedInv_nil. split; [by apply isList_nil|].
  intros f F HF. by simpl in HF.
Qed.

Lemma _reindexFaces_inv h h' :
  _reindexFaces h = Some h' →
  ∃ fs, h' = set_faces fs h ∧ ∀ f, f ∈ fs → f ∈ faces h ∧ visible h f.
Proof.
  unfold _reindexFaces. intros H. apply bind_Some in H as (fs & Efs & H).
  injection H as <-. exists fs. split; [done|].
  revert fs Efs. induction (faces h) as [|face l IH]; intros fs Efs.
  - injection Efs as <-. intros f Hf. by apply elem_of_nil in Hf.
  - apply bind_Some in Efs as (F & EF & Efs). apply bind_Some in Efs as (rest & Erest & Efs).
    injection Efs as <-. specialize (IH rest Erest).
    intros f Hf. destruct (bool_decide (Face.mark F = Visible)) eqn:Em.
    + apply bool_decide_eq_true in Em. apply elem_of_cons in Hf as [->|Hf].
      * split; [by left|by exists F].
      * destruct (IH f Hf). split; [by right|done].
    + destruct (IH f Hf). split; [by right|done].
Qed.

Lemma tolerance_meshView h h' : meshView h' = meshView h → tolerance h' = tolerance h.
Proof. unfold meshView. congruence. Qed.

Lemma tolerance_geomView h h' : geomView h' = geomView h → tolerance h' = tolerance h.
Proof. unfold geomView. congruence. Qed.

Lemma tolerance_inputView h h' : inputView h' = inputView h → tolerance h' = tolerance h.
Proof. unfold inputView. congruence. Qed.

(** The invariant holds at every point the construction comes to. *)
Lemma reach_pointInv three pt h : reach three pt h → pointInv pt h.
Proof.
  induction 1 as
    [ | points h0 h Hr IH Hlen Hinit
      | h v ev f h' Hr IH Hnext Hev Hf Hrem
      | fuel h v ev f hz h' Hr IH Hev Hf Hhz
      | h v hz h' Hr IH Hfaces
      | fuel h v h' Hr IH Hres
      | h h' Hr IH Hnext Hre ].
  - split; [apply meshInv_new|]. split; [apply assignedInv_new|].
    intros f Hf. by apply elem_of_nil in Hf.
  - destruct IH as (Hm & Hinv & _).
    destruct (_computeInitialHull_inv three (pushVertexNodes points (makeEmpty h0)) h)
      as (Hm' & Hrs & Htol); [| | | |done|done].
    + rewrite pushVertexNodes_spec. exact Hm.
    + rewrite pushVertexNodes_spec. apply assignedInv_nil.
      apply assignedInv_nil in Hinv as (HL & Hnone). split; [|exact Hnone].
      apply isList_nil_iff. by apply isList_nil_iff in HL.
    + rewrite pushVertexNodes_spec. simpl. apply NoDup_seq.
    + by rewrite pushVertexNodes_spec.
  - destruct IH as (Hm & (rs & Hinv) & Htol).
    destruct rs as [|[g r] rs].
    { rewrite (_nextVertexToAdd_nil h Hinv) in Hnext. done. }
    destruct (_nextVertexToAdd_spec h g r rs Hinv Htol) as (G & v' & HG & Hnext' & Hv & _).
    assert (v' = v) as -> by congruence.
    assert (Hinv' := Hinv). destruct Hinv' as (HL & _ & Hok & _).
    apply Forall_cons in Hok as [(G' & HG' & _ & _ & Hmark & Hvs) _]. simpl in *.
    assert (G' = G) as -> by congruence.
    destruct (Hvs v Hv) as (ev' & Hev' & Hf' & Hdist).
    assert (ev' = ev) as -> by congruence. assert (f = g) as -> by congruence.
    apply list_elem_of_split in Hv as (r1 & r2 & ->).
    set (hc := set_unassigned (VertexList.clear (unassigned h)) h) in *.
    destruct (_removeVertexFromFace_inv hc [] g r1 v r2 rs Hinv)
      as (h'' & Hrem' & Hinv1 & Hv1 & _ & Hu1).
    assert (h'' = h') as -> by congruence.
    pose proof (_removeVertexFromFace_mesh _ _ _ _ Hrem) as Hmv.
    split; [by apply (meshInv_view hc)|]. split_and!.
    + eexists _, []. split; [exact Hinv1|]. split.
      * rewrite Hu1. by apply isList_nil.
      * rewrite app_nil_r. by destruct Hinv1 as ((Hnd & _) & _).
    + by rewrite (tolerance_meshView _ _ Hmv).
    + exists ev, g. split_and!; [by rewrite Hv1|done| |].
      * apply (visible_view hc); [done|]. by exists G.
      * apply (sees_view hc); [by apply meshView_geomView|]. by exists G.
  - destruct IH as (Hm & (rs & u & Hinv & Hun) & Htol & ev' & f' & Hev' & Hf' & Hvis & Hsees).
    assert (ev' = ev) as -> by congruence. assert (f' = f) as -> by congruence.
    destruct (_computeHorizon_top fuel h _ f rs u hz h' Hm Hinv Hun Hvis Hsees Hhz)
      as (Hm' & Hg & (rs' & u' & Hinv' & Hun' & _) & Hok).
    split; [done|]. split_and!; [by exists rs', u'| |done].
    by rewrite (tolerance_geomView _ _ Hg).
  - destruct IH as (Hm & (rs & u & Hinv & Hun) & Htol & Hok).
    destruct (_addNewFaces_inv three v hz h h' Hm Hok Hfaces) as (Hm' & Hinv' & Hun').
    split; [done|]. split; [exists rs, u; split; [by apply Hinv'|by apply Hun']|].
    by rewrite (tolerance_inputView _ _ (_addNewFaces_input three _ _ _ _ Hfaces)).
  - destruct IH as (Hm & (rs & u & Hinv & Hun) & Htol).
    pose proof (_resolveUnassignedPoints_mesh _ _ _ _ Hres) as Hmv.
    split; [by apply (meshInv_view h)|]. split.
    + by eapply _resolveUnassignedPoints_inv.
    + by rewrite (tolerance_meshView _ _ Hmv).
  - destruct IH as (Hm & (rs & Hinv) & Htol).
    destruct rs as [|[g r] rs].
    2: { destruct (_nextVertexToAdd_spec h g r rs Hinv Htol) as (G & v' & _ & Hnext' & _).
         congruence. }
    apply _reindexFaces_inv in Hre as (fs & -> & Hfs).
    split; [exact Hm|]. split.
    + apply assignedInv_nil. apply assignedInv_nil in Hinv as (_ & Hnone).
      split; [by apply isList_nil|exact Hnone].
    + intros f Hf. by apply Hfs.
Qed.

(** * The invariants of the vertex lists and of the mesh *)

(** The vertices of a vertex list, from its head along [next]. *)
Fixpoint walk (fuel : nat) (ns : list VertexNode.t) (v : option vref) : list vref :=
  match fuel, v with
  | S fuel, Some v =>
      v :: match ns !! v with
           | Some node => walk fuel ns (VertexNode.next node)
           | None => []
           end
  | _, _ => []
  end.

Definition listVertices (ns : list VertexNode.t) (L : VertexList.t) : list vref :=
  walk (length ns) ns (VertexList.head L).

Lemma seg_walk ns p l fuel :
  seg ns p l None → (length l <= fuel)%nat → walk fuel ns (head l) = l.
Proof.
  revert p fuel. induction l as [|v l IH]; intros p fuel Hs Hf.
  - by destruct fuel.
  - destruct fuel as [|fuel]; [simpl in Hf; lia|].
    destruct Hs as (node & Hn & _ & Hnext & Hs). simpl. rewrite Hn, Hnext.
    f_equal. destruct l as [|w l]; [by destruct fuel|].
    apply (IH (Some v)); [done|simpl in *; lia].
Qed.

Lemma isList_walk ns L l : isList ns L l → listVertices ns L = l.
Proof.
  intros (Hnd & Hh & _ & Hs). unfold listVertices. rewrite Hh.
  apply (seg_walk ns None); [done|]. by eapply seg_NoDup_length.
Qed.



(** The three half-edges of a face, from [face.edge] along [next], come
    back to [face.edge]. *)
Definition closedCycle (h : ConvexHull) (k : fref) : Prop :=
  ∃ F e0 e1 e2 d0 d1 d2,
    faceObjs h !! k = Some F ∧ Face.edge F = Some e0 ∧
    halfEdges h !! e0 = Some d0 ∧ HalfEdge.next d0 = Some e1 ∧
    halfEdges h !! e1 = Some d1 ∧ HalfEdge.next d1 = Some e2 ∧
    halfEdges h !! e2 = Some d2 ∧ HalfEdge.next d2 = Some e0 ∧
    HalfEdge.face d0 = k ∧ HalfEdge.face d1 = k ∧ HalfEdge.face d2 = k ∧
    e0 ≠ e1 ∧ e1 ≠ e2 ∧ e2 ≠ e0.

Lemma shapeInv_closedCycle h k :
  shapeInv h → is_Some (faceObjs h !! k) → closedCycle h k.
Proof.
  intros Hsh [F HF]. assert (Hsh' := Hsh). destruct Hsh' as (Hlen & Hedge & Hslots).
  assert (Hl : ∀ j, (j < 3)%nat → ∃ ed, halfEdges h !! (3 * k + j)%nat = Some ed).
  { intros j Hj. by apply (shapeInv_edge_valid h k j Hsh Hj). }
  destruct (Hl 0%nat) as (d0 & H0); [lia|].
  destruct (Hl 1%nat) as (d1 & H1); [lia|].
  destruct (Hl 2%nat) as (d2 & H2); [lia|].
  destruct (Hslots k 0%nat d0 ltac:(lia) H0) as (F0 & N0 & _).
  destruct (Hslots k 1%nat d1 ltac:(lia) H1) as (F1 & N1 & _).
  destruct (Hslots k 2%nat d2 ltac:(lia) H2) as (F2 & N2 & _).
  cbn [nxt] in N0, N1, N2.
  exists F, (3 * k + 0)%nat, (3 * k + 1)%nat, (3 * k + 2)%nat, d0, d1, d2.
  split_and!; try done; try lia.
  rewrite (Hedge k F HF). f_equal. lia.
Qed.

(** C8, as the code has it.  [Face.create] allocates exactly three
    half-edges, wired into a cycle by [next] and [prev] and without twin
    (the list [createdEdges]), and makes the first of them the edge of the
    new face; [setTwin] sets the twin of both half-edges.  In every state
    the construction comes to, the twin of every linked half-edge of a
    face marked visible is linked back to it, and the three half-edges of
    every face form a closed cycle along [next].  (A half-edge of a
    deleted face that was on the horizon keeps its twin, which
    [_addAdjoiningFace] links to the new face.) *)
Theorem twin_links_and_edge_cycles (three : Three) (pt : Point) (h : ConvexHull) :
  reach three pt h →
  (∀ g a b c face g',
     Face_create three a b c g = Some (face, g') →
     ∃ F, face = length (faceObjs g) ∧
          faceObjs g' = faceObjs g ++ [F] ∧
          Face.edge F = Some (length (halfEdges g)) ∧
          halfEdges g' = halfEdges g ++ createdEdges a b c face (length (halfEdges g))) ∧
  (∀ x y es es',
     HalfEdge_setTwin x y es = Some es' →
     ∀ e, HalfEdge.twin <$> es' !! e =
          if decide (e = y) then Some (Some x)
          else if decide (e = x) then Some (Some y)
          else HalfEdge.twin <$> es !! e) ∧
  (∀ e ed t,
     halfEdges h !! e = Some ed → HalfEdge.twin ed = Some t →
     visible h (HalfEdge.face ed) →
     ∃ td, halfEdges h !! t = Some td ∧ HalfEdge.twin td = Some e) ∧
  (∀ k, is_Some (faceObjs h !! k) → closedCycle h k).
Proof.
  intros Hr. apply reach_pointInv in Hr as ((Hsh & Htw) & _). split_and!.
  - intros g a b c face g' H.
    apply Face_create_inv in H as (va & vb & vc & _ & _ & _ & -> & ->).
    eexists. split_and!; reflexivity.
  - intros x y es es' H. by apply HalfEdge_setTwin_spec in H as (_ & _ & _ & H).
  - intros e ed t He Ht Hv. by apply (Htw e ed t He Ht).
  - intros k Hk. by apply shapeInv_closedCycle.
Qed.


(** * Four points *)

(** ** The extreme vertices *)










(** ** The vertices of the tetrahedron *)





(** The vertices of a face: the heads of its three half-edges, from
    [getEdge( 0 )], [getEdge( 1 )] and [getEdge( 2 )]. *)
Definition faceVertices (h : ConvexHull) (face : fref) : list vref :=
  omap (λ i, e ← Face_getEdge h face i; HalfEdge_head (halfEdges h) e) [0; 1; 2]%Z.


Lemma joinEdges_edgeShape fa i fb j h h' :
  joinEdges fa i fb j h = Some h' →
  map edgeShape (halfEdges h') = map edgeShape (halfEdges h).
Proof.
  unfold joinEdges. intros H.
  apply bind_Some in H as (a & _ & H). apply bind_Some in H as (b & _ & H).
  apply bind_Some in H as (es & Eset & H). injection H as <-.
  by destruct (HalfEdge_setTwin_spec _ _ _ _ Eset) as (_ & _ & ? & _).
Qed.

Lemma joinTetrahedron_edgeShape outward fl ixs h h' :
  joinTetrahedron outward fl ixs h = Some h' →
  map edgeShape (halfEdges h') = map edgeShape (halfEdges h).
Proof.
  revert h. induction ixs as [|i ixs IH]; intros h H; cbn [joinTetrahedron] in H.
  - by injection H as <-.
  - apply bind_Some in H as (f0 & _ & H). apply bind_Some in H as (fi & _ & H).
    apply bind_Some in H as (fj & _ & H). apply bind_Some in H as (h1 & Ejoin & H).
    rewrite (IH _ H). destruct outward.
    + apply bind_Some in Ejoin as (h0 & E1 & E2).
      rewrite (joinEdges_edgeShape _ _ _ _ _ _ E2). by eapply joinEdges_edgeShape.
    + apply bind_Some in Ejoin as (h0 & E1 & E2).
      rewrite (joinEdges_edgeShape _ _ _ _ _ _ E2). by eapply joinEdges_edgeShape.
Qed.

Opaque widestAxis farthestFromLine farthestFromPlane joinTetrahedron initialAssign.


Transparent widestAxis farthestFromLine farthestFromPlane joinTetrahedron initialAssign.

(** ** Four points of positive volume *)





Lemma setFromPoints_compute three fuel points h0 h :
  (4 <= length points)%nat →
  setFromPoints three fuel points h0 = Some h →
  _compute three fuel (pushVertexNodes points (makeEmpty h0)) = Some h.
Proof.
  intros Hlen H. unfold setFromPoints in H.
  apply Nat.leb_le in Hlen. by rewrite Hlen in H.
Qed.



(** * The methods of the classes, one by one *)

(** ** VertexList *)

(** [insertAfter( target, vertex )] on a list that contains the target and
    not the vertex. *)
Lemma insertAfter_spec ns L l1 t l2 v :
  isList ns L (l1 ++ t :: l2) → v ∉ l1 ++ t :: l2 → is_Some (ns !! v) →
  ∃ ns' L',
    VertexList.insertAfter t v (ns, L) = Some (ns', L') ∧
    isList ns' L' (l1 ++ t :: v :: l2) ∧
    (∀ u, u ≠ v → u ≠ t → head l2 ≠ Some u → ns' !! u = ns !! u).
Proof.
  intros HL Hv [nv Hnv].
  destruct (isList_node _ _ _ _ _ HL) as (tg & Htg & Htp & Htn).
  destruct HL as (Hnd & Hh & Ht & Hs).
  pose proof (NoDup_mid _ _ _ Hnd) as (Hnd1 & Hnd2 & Ht1 & Ht2 & Hdisj).
  assert (Hvt : v ≠ t) by (intros ->; apply Hv, elem_of_app; right; by left).
  assert (Hv1 : v ∉ l1) by (intros H; apply Hv, elem_of_app; by left).
  assert (Hv2 : v ∉ l2) by (intros H; apply Hv, elem_of_app; right; by right).
  assert (Hs' : seg ns None ((l1 ++ [t]) ++ l2) None) by (by rewrite <- app_assoc).
  apply seg_app in Hs' as [Hs1 Hs2].
  unfold VertexList.insertAfter.
  rewrite (modify_Some _ _ _ _ Hnv). simpl.
  rewrite list_lookup_insert_ne by done. rewrite Htg. simpl. rewrite Htn.
  erewrite modify_Some by lookup_eq. simpl.
  set (nv' := VertexNode.set_next (head l2) (VertexNode.set_prev (Some t) nv)).
  set (ns1 := <[v:=nv']> (<[v:=VertexNode.set_prev (Some t) nv]> ns)).
  assert (Hns1 : ∀ u, u ≠ v → ns1 !! u = ns !! u).
  { intros u Hu. unfold ns1. by rewrite !list_lookup_insert_ne. }
  assert (Hns1v : ns1 !! v = Some nv') by (unfold ns1; lookup_eq).
  rewrite Hns1v. simpl.
  assert (Hnd' : NoDup (l1 ++ t :: v :: l2)).
  { apply NoDup_app. split_and!; [done| |].
    - intros u Hu Hu'. apply elem_of_cons in Hu' as [->|Hu']; [done|].
      apply elem_of_cons in Hu' as [->|Hu']; [done|]. by apply (Hdisj u).
    - apply NoDup_cons. split; [|by apply NoDup_cons].
      intros Hu. apply elem_of_cons in Hu as [->|Hu]; done. }
  assert (Hndt : NoDup (l1 ++ [t])).
  { apply NoDup_app. split_and!; [done| |apply NoDup_singleton].
    intros u Hu Hu'. apply list_elem_of_singleton in Hu' as ->. done. }
  assert (Hfront : ∀ ns2, (∀ u, u ∈ l1 ++ [t] → u ≠ t → ns2 !! u = ns !! u) →
            ns2 !! t = Some (VertexNode.set_next (Some v) tg) →
            seg ns2 None (l1 ++ [t]) (Some v)).
  { intros ns2 Hot Hnt.
    apply (seg_frame (<[t:=VertexNode.set_next (Some v) tg]> ns)).
    - intros u Hu. destruct (decide (u = t)) as [->|Hut].
      + rewrite Hnt. symmetry. lookup_eq.
      + rewrite list_lookup_insert_ne by done. by apply Hot.
    - by apply (seg_set_next ns None l1 t (headOr l2 None) (Some v) tg). }
  destruct l2 as [|q l2]; simpl.
  - (* the target is the last vertex *)
    erewrite modify_Some by (rewrite Hns1 by done; exact Htg). simpl.
    eexists _, _. split; [done|]. split.
    + split_and!; [done| |simpl; by rewrite last_app_cons|].
      { simpl. rewrite Hh. by rewrite !head_app_cons. }
      change (l1 ++ [t; v]) with (l1 ++ [t] ++ [v]). rewrite app_assoc.
      apply seg_app. split.
      * simpl. apply Hfront.
        -- intros u Hu Hut. rewrite list_lookup_insert_ne by done. apply Hns1.
           intros ->. apply elem_of_app in Hu as [Hu|Hu]; [done|].
           by apply list_elem_of_singleton in Hu.
        -- apply list_lookup_insert_eq. rewrite <- (lookup_lt_is_Some ns1).
           rewrite Hns1 by done. by eexists.
      * unfold lastOr. rewrite last_snoc. simpl.
        exists nv'. split_and!; [by rewrite list_lookup_insert_ne|done|done|done].
    + intros u Hu1 Hu2 _. rewrite list_lookup_insert_ne by done. by apply Hns1.
  - (* the target has a successor *)
    assert (Hqv : q ≠ v) by (intros ->; apply Hv2; by left).
    assert (Hqt : q ≠ t) by (intros ->; apply Ht2; by left).
    simpl in Hs2. unfold lastOr in Hs2. rewrite last_snoc in Hs2.
    destruct Hs2 as (qn & Hq & Hqp & Hqn & Hs2).
    erewrite modify_Some by (rewrite Hns1 by done; exact Hq). simpl.
    erewrite modify_Some
      by (rewrite list_lookup_insert_ne by done; rewrite Hns1 by done; exact Htg).
    simpl.
    eexists _, _. split; [done|]. split.
    + split_and!; [done| | |].
      { simpl. rewrite Hh. by rewrite !head_app_cons. }
      { simpl. rewrite Ht. by rewrite !last_app_cons_cons. }
      change (l1 ++ t :: v :: q :: l2) with (l1 ++ [t] ++ v :: q :: l2).
      rewrite app_assoc. apply seg_app. split.
      * simpl. apply Hfront.
        -- intros u Hu Hut. rewrite list_lookup_insert_ne by done.
           rewrite list_lookup_insert_ne.
           ++ apply Hns1. intros ->. apply elem_of_app in Hu as [Hu|Hu]; [done|].
              by apply list_elem_of_singleton in Hu.
           ++ intros <-. apply elem_of_app in Hu as [Hu|Hu].
              ** apply (Hdisj q Hu). by left.
              ** by apply list_elem_of_singleton in Hu.
        -- apply list_lookup_insert_eq. rewrite length_insert.
           rewrite <- (lookup_lt_is_Some ns1). rewrite Hns1 by done. by eexists.
      * unfold lastOr. rewrite last_snoc.
        exists nv'. split_and!;
          [rewrite !list_lookup_insert_ne; [done|congruence..]|done|done|].
        apply (seg_frame (<[q:=VertexNode.set_prev (Some v) qn]> ns1)).
        { intros u Hu. apply list_lookup_insert_ne. intros <-.
          apply elem_of_cons in Hu as [->|Hu]; [done|]. apply Ht2. by right. }
        apply (seg_set_prev ns1 (Some t) (Some v) q l2 None qn);
          [done|by rewrite Hns1|].
        apply (seg_frame ns); [|by exists qn].
        intros u Hu. apply Hns1. intros ->. done.
    + intros u Hu1 Hu2 Hu3. rewrite !list_lookup_insert_ne; [|congruence..].
      by apply Hns1.
Qed.

Lemma insertAfter_data target vertex ns L ns' L' :
  VertexList.insertAfter target vertex (ns, L) = Some (ns', L') → sameData ns ns'.
Proof. unfold VertexList.insertAfter. intros H. inv_opt; same_data. Qed.

(** A vertex list is determined by its vertices. *)
Lemma isList_inj ns ns' L L' l : isList ns L l → isList ns' L' l → L' = L.
Proof.
  intros (_ & Hh & Ht & _) (_ & Hh' & Ht' & _).
  destruct L, L'. simpl in *. congruence.
Qed.

(** X1.  [append( vertex )], on a list that does not hold the vertex, makes
    it the last vertex of the list: the list, read from its head along
    [next], is the old one followed by the vertex, and is linked both
    ways.  No point and no [face] reference of a node changes, and only
    the node of the vertex and the one of the former last vertex are
    written to. *)
Theorem append_adds_last_vertex (ns : list VertexNode.t) (L : VertexList.t)
  (l : list vref) (v : vref) :
  isList ns L l → v ∉ l → is_Some (ns !! v) →
  ∃ ns' L',
    VertexList.append v (ns, L) = Some (ns', L') ∧
    isList ns' L' (l ++ [v]) ∧
    listVertices ns' L' = l ++ [v] ∧
    VertexList.last L' = Some v ∧
    sameData ns ns' ∧
    (∀ u, u ≠ v → last l ≠ Some u → ns' !! u = ns !! u).
Proof.
  intros HL Hv Hn.
  destruct (append_spec ns L l v HL Hv Hn) as (ns' & L' & Hop & HL' & Hfr).
  exists ns', L'. split_and!; [done..|by apply isList_walk| |by eapply append_data|done].
  destruct HL' as (_ & _ & Ht & _). unfold VertexList.last. by rewrite Ht, last_snoc.
Qed.

(** X2.  [insertBefore( target, vertex )], on a list that holds the target
    and not the vertex, puts the vertex just before the target, and makes
    it the head of the list when the target was the head. *)
Theorem insertBefore_puts_before_target (ns : list VertexNode.t) (L : VertexList.t)
  (l1 : list vref) (t : vref) (l2 : list vref) (v : vref) :
  isList ns L (l1 ++ t :: l2) → v ∉ l1 ++ t :: l2 → is_Some (ns !! v) →
  ∃ ns' L',
    VertexList.insertBefore t v (ns, L) = Some (ns', L') ∧
    isList ns' L' (l1 ++ v :: t :: l2) ∧
    listVertices ns' L' = l1 ++ v :: t :: l2 ∧
    (l1 = [] → VertexList.first L' = Some v) ∧
    sameData ns ns' ∧
    (∀ u, u ≠ v → u ≠ t → last l1 ≠ Some u → ns' !! u = ns !! u).
Proof.
  intros HL Hv Hn.
  destruct (insertBefore_spec ns L l1 t l2 v HL Hv Hn) as (ns' & L' & Hop & HL' & Hfr).
  exists ns', L'.
  split_and!; [done..|by apply isList_walk| |by eapply insertBefore_data|done].
  intros ->. by destruct HL' as (_ & Hh & _).
Qed.

(** X3.  [insertAfter( target, vertex )], on a list that holds the target
    and not the vertex, puts the vertex just after the target, and makes
    it the tail of the list when the target was the tail. *)
Theorem insertAfter_puts_after_target (ns : list VertexNode.t) (L : VertexList.t)
  (l1 : list vref) (t : vref) (l2 : list vref) (v : vref) :
  isList ns L (l1 ++ t :: l2) → v ∉ l1 ++ t :: l2 → is_Some (ns !! v) →
  ∃ ns' L',
    VertexList.insertAfter t v (ns, L) = Some (ns', L') ∧
    isList ns' L' (l1 ++ t :: v :: l2) ∧
    listVertices ns' L' = l1 ++ t :: v :: l2 ∧
    (l2 = [] → VertexList.last L' = Some v) ∧
    sameData ns ns' ∧
    (∀ u, u ≠ v → u ≠ t → head l2 ≠ Some u → ns' !! u = ns !! u).
Proof.
  intros HL Hv Hn.
  destruct (insertAfter_spec ns L l1 t l2 v HL Hv Hn) as (ns' & L' & Hop & HL' & Hfr).
  exists ns', L'.
  split_and!; [done..|by apply isList_walk| |by eapply insertAfter_data|done].
  intros ->. destruct HL' as (_ & _ & Ht & _). unfold VertexList.last.
  rewrite Ht. change (l1 ++ [t; v]) with (l1 ++ [t] ++ [v]). by rewrite app_assoc, last_snoc.
Qed.

(** X4.  [removeSubList( a, b )], for the first and the last vertex of a run
    of consecutive vertices of the list, takes the whole run out of the
    list.  The vertices of the run stay linked to each other, and the run
    still refers to its former neighbours from its two ends. *)
Theorem removeSubList_takes_run_out (ns : list VertexNode.t) (L : VertexList.t)
  (l1 : list vref) (a : vref) (m : list vref) (b : vref) (l2 : list vref) :
  isList ns L (l1 ++ (a :: m) ++ l2) → last (a :: m) = Some b →
  ∃ ns' L',
    VertexList.removeSubList a b (ns, L) = Some (ns', L') ∧
    isList ns' L' (l1 ++ l2) ∧
    listVertices ns' L' = l1 ++ l2 ∧
    seg ns' (last l1) (a :: m) (head l2) ∧
    sameData ns ns' ∧
    (∀ u, last l1 ≠ Some u → head l2 ≠ Some u → ns' !! u = ns !! u).
Proof.
  intros HL Hb.
  destruct (removeSubList_spec ns L l1 a m b l2 HL Hb) as (ns' & L' & Hop & HL' & Hfr & Hs).
  exists ns', L'.
  split_and!; [done..|by apply isList_walk|done|by eapply removeSubList_data|done].
Qed.

(** X5.  [appendChain( vertex )], for the first vertex of a chain of vertices
    that are linked to each other and are not in the list, appends the
    whole chain: the tail of the list becomes the last vertex of the
    chain. *)
Theorem appendChain_appends_whole_chain (ns : list VertexNode.t) (L : VertexList.t)
  (l : list vref) (p : option vref) (a : vref) (m : list vref) :
  isList ns L l → seg ns p (a :: m) None → NoDup (l ++ a :: m) →
  ∃ ns' L',
    VertexList.appendChain a (ns, L) = Some (ns', L') ∧
    isList ns' L' (l ++ a :: m) ∧
    listVertices ns' L' = l ++ a :: m ∧
    VertexList.last L' = last (a :: m) ∧
    sameData ns ns' ∧
    (∀ u, u ≠ a → last l ≠ Some u → ns' !! u = ns !! u).
Proof.
  intros HL Hs Hnd.
  destruct (appendChain_spec ns L l p a m HL Hs Hnd) as (ns' & L' & Hop & HL' & Hfr).
  exists ns', L'.
  split_and!; [done..|by apply isList_walk| |by eapply appendChain_data|done].
  destruct HL' as (_ & _ & Ht & _). unfold VertexList.last. rewrite Ht.
  rewrite last_app_cons. symmetry. apply (last_app_cons [] a m).
Qed.

(** X6.  [remove( vertex )] undoes [append( vertex )],
    [insertBefore( target, vertex )] and [insertAfter( target, vertex )]:
    after the two calls the list holds the same vertices in the same order
    and has the same head and tail as before, and no point and no [face]
    reference of a node has changed. *)
Theorem remove_undoes_insertion (ns : list VertexNode.t) (L : VertexList.t)
  (l : list vref) (v : vref) :
  isList ns L l → v ∉ l → is_Some (ns !! v) →
  let restored (s : option (list VertexNode.t * VertexList.t)) :=
    ∃ ns' L', s = Some (ns', L') ∧ L' = L ∧ isList ns' L' l ∧ sameData ns ns' in
  restored (VertexList.append v (ns, L) ≫= VertexList.remove v) ∧
  ∀ t, t ∈ l →
       restored (VertexList.insertBefore t v (ns, L) ≫= VertexList.remove v) ∧
       restored (VertexList.insertAfter t v (ns, L) ≫= VertexList.remove v).
Proof.
  intros HL Hv Hn restored. split.
  - destruct (append_spec ns L _ v HL Hv Hn) as (ns1 & L1 & Hop & HL1 & _).
    destruct (remove_spec ns1 L1 l v [] HL1) as (ns2 & L2 & Hrm & HL2 & _).
    rewrite app_nil_r in HL2.
    exists ns2, L2. rewrite Hop. simpl. split_and!; [done| |done|].
    + by eapply isList_inj.
    + eapply sameData_trans; [by eapply append_data|by eapply remove_data].
  - intros t Ht. apply list_elem_of_split in Ht as (l1 & l2 & ->). split.
    + destruct (insertBefore_spec ns L l1 t l2 v HL Hv Hn) as (ns1 & L1 & Hop & HL1 & _).
      destruct (remove_spec ns1 L1 l1 v (t :: l2) HL1) as (ns2 & L2 & Hrm & HL2 & _).
      exists ns2, L2. rewrite Hop. simpl. split_and!; [done| |done|].
      * by eapply isList_inj.
      * eapply sameData_trans; [by eapply insertBefore_data|by eapply remove_data].
    + destruct (insertAfter_spec ns L l1 t l2 v HL Hv Hn) as (ns1 & L1 & Hop & HL1 & _).
      assert (HL1' : isList ns1 L1 ((l1 ++ [t]) ++ v :: l2)) by (by rewrite <- app_assoc).
      destruct (remove_spec ns1 L1 (l1 ++ [t]) v l2 HL1') as (ns2 & L2 & Hrm & HL2 & _).
      rewrite <- app_assoc in HL2.
      exists ns2, L2. rewrite Hop. simpl. split_and!; [done| |done|].
      * by eapply isList_inj.
      * eapply sameData_trans; [by eapply insertAfter_data|by eapply remove_data].
Qed.

(** ** Face.getEdge *)

Lemma followLink_next h k j n :
  shapeInv h → is_Some (faceObjs h !! k) → (j < 3)%nat →
  followLink HalfEdge.next n (halfEdges h) (Some (3 * k + j)%nat)
  = Some (Some (3 * k + (j + n) mod 3)%nat).
Proof.
  intros Hsh Hk. revert j. induction n as [|n IH]; intros j Hj.
  - cbn [followLink]. rewrite ?Nat.mul_0_r, Nat.add_0_r, Nat.mod_small by done. done.
  - cbn [followLink mbind option_bind].
    destruct (proj2 (shapeInv_edge_valid h k j Hsh Hj) Hk) as [ed Hed].
    rewrite Hed. cbn [mbind option_bind].
    destruct Hsh as (_ & _ & Hslots).
    destruct (Hslots k j ed Hj Hed) as (_ & Hn & _). rewrite Hn.
    rewrite IH by (by apply nxt_lt). do 3 f_equal.
    destruct j as [|[|[|j]]]; [| | |lia]; cbn [nxt].
    + done.
    + by replace (1 + S n)%nat with (2 + n)%nat by lia.
    + replace (2 + S n)%nat with (n + 1 * 3)%nat by lia.
      by rewrite Nat.Div0.mod_add.
Qed.

Lemma followLink_prev h k j n :
  shapeInv h → is_Some (faceObjs h !! k) → (j < 3)%nat →
  followLink HalfEdge.prev n (halfEdges h) (Some (3 * k + j)%nat)
  = Some (Some (3 * k + (j + 2 * n) mod 3)%nat).
Proof.
  intros Hsh Hk. revert j. induction n as [|n IH]; intros j Hj.
  - cbn [followLink]. rewrite ?Nat.mul_0_r, Nat.add_0_r, Nat.mod_small by done. done.
  - cbn [followLink mbind option_bind].
    destruct (proj2 (shapeInv_edge_valid h k j Hsh Hj) Hk) as [ed Hed].
    rewrite Hed. cbn [mbind option_bind].
    destruct Hsh as (_ & _ & Hslots).
    destruct (Hslots k j ed Hj Hed) as (_ & _ & Hp). rewrite Hp.
    rewrite IH by (by apply prv_lt). do 3 f_equal.
    destruct j as [|[|[|j]]]; [| | |lia]; cbn [prv].
    + f_equal. lia.
    + replace (1 + 2 * S n)%nat with (2 * n + 1 * 3)%nat by lia.
      by rewrite Nat.Div0.mod_add.
    + replace (2 + 2 * S n)%nat with (1 + 2 * n + 1 * 3)%nat by lia.
      by rewrite Nat.Div0.mod_add.
Qed.

(** X7.  At every point of a construction and for every face of the store,
    [getEdge( i )] is defined for every integer [i], negative ones
    included, and goes round the three half-edges of the face: it is the
    half-edge number [i mod 3] of the face, so that [getEdge( -1 )] is
    [getEdge( 2 )] and [getEdge( 3 )] is [getEdge( 0 )]. *)
Theorem Face_getEdge_periodic (three : Three) (pt : Point) (h : ConvexHull)
  (k : fref) (i : Z) :
  reach three pt h → is_Some (faceObjs h !! k) →
  Face_getEdge h k i = Some (3 * k + Z.to_nat (i mod 3))%nat ∧
  Face_getEdge h k i = Face_getEdge h k (i mod 3) ∧
  Face_getEdge h k (i + 3) = Face_getEdge h k i.
Proof.
  intros Hr Hk. apply reach_pointInv in Hr as ((Hsh & _) & _).
  assert (Hget : ∀ i, Face_getEdge h k i = Some (3 * k + Z.to_nat (i mod 3))%nat).
  { clear i. intros i. unfold Face_getEdge. destruct Hk as [F HF]. rewrite HF. simpl.
    destruct Hsh as (Hlen & Hedge & Hslots).
    rewrite (Hedge k F HF).
    assert (Hsh : shapeInv h) by done.
    destruct (0 <? i)%Z eqn:Ei.
    - pose proof (followLink_next h k 0 (Z.to_nat i) Hsh ltac:(eauto) ltac:(lia)) as Hn.
      rewrite Nat.add_0_r in Hn. rewrite Hn. cbn [mbind option_bind]. do 2 f_equal.
      apply Z.ltb_lt in Ei. apply Nat2Z.inj. rewrite Nat2Z.inj_mod.
      rewrite Z2Nat.id by (apply Z.mod_pos_bound; lia).
      rewrite Nat2Z.inj_add, Z2Nat.id by lia. done.
    - pose proof (followLink_prev h k 0 (Z.to_nat (- i)) Hsh ltac:(eauto) ltac:(lia)) as Hp.
      rewrite Nat.add_0_r in Hp. rewrite Hp. cbn [mbind option_bind]. do 2 f_equal.
      apply Z.ltb_ge in Ei. apply Nat2Z.inj. rewrite Nat2Z.inj_mod.
      rewrite Z2Nat.id by (apply Z.mod_pos_bound; lia).
      rewrite Nat2Z.inj_add, Nat2Z.inj_mul, Z2Nat.id by lia.
      change (Z.of_nat 0) with 0%Z. change (Z.of_nat 2) with 2%Z. change (Z.of_nat 3) with 3%Z.
      Z.to_euclidean_division_equations. lia. }
  split_and!.
  - apply Hget.
  - rewrite !Hget. by rewrite Z.mod_mod by lia.
  - rewrite !Hget. do 3 f_equal. rewrite <- (Z.mod_add i 1 3) by lia. done.
Qed.

(** ** HalfEdge.setTwin *)

(** X8.  [a.setTwin( b )] and [b.setTwin( a )] have the same effect; the
    call completes exactly when both are half-edges of the store, and it
    writes to these two half-edges only: a half-edge that was the twin of
    one of them before is left as it is. *)
Theorem HalfEdge_setTwin_symmetric (x y : eref) (es : list HalfEdge.t) :
  HalfEdge_setTwin x y es = HalfEdge_setTwin y x es ∧
  (is_Some (HalfEdge_setTwin x y es) ↔ is_Some (es !! x) ∧ is_Some (es !! y)) ∧
  (∀ es', HalfEdge_setTwin x y es = Some es' →
          length es' = length es ∧
          ∀ e, e ≠ x → e ≠ y → es' !! e = es !! e).
Proof.
  assert (Hrun : ∀ a b, HalfEdge_setTwin a b es =
            match es !! a, es !! b with
            | Some da, Some db =>
                Some (<[b := HalfEdge.set_twin (Some a)
                               (if decide (a = b) then HalfEdge.set_twin (Some b) da
                                else db)]>
                        (<[a := HalfEdge.set_twin (Some b) da]> es))
            | _, _ => None
            end).
  { intros a b. unfold HalfEdge_setTwin, modify.
    destruct (es !! a) as [da|] eqn:Ea; [|done]. simpl.
    destruct (decide (a = b)) as [->|Hab].
    - rewrite Ea. rewrite list_lookup_insert_eq by (by eapply lookup_lt_Some). done.
    - rewrite list_lookup_insert_ne by done. by destruct (es !! b). }
  split_and!.
  - rewrite !Hrun. destruct (es !! x) as [dx|] eqn:Ex, (es !! y) as [dy|] eqn:Ey; try done.
    destruct (decide (x = y)) as [->|Hxy].
    + rewrite decide_True by done. assert (dx = dy) as -> by congruence. done.
    + rewrite (decide_False (P := y = x)) by done.
      by rewrite list_insert_insert_ne.
  - rewrite Hrun. destruct (es !! x), (es !! y); split;
      (intros [[? ?] [? ?]] || intros [? ?] || idtac); try done; by eauto.
  - intros es' H. rewrite Hrun in H.
    destruct (es !! x) as [dx|], (es !! y) as [dy|]; try done.
    injection H as <-. split.
    + by rewrite !length_insert.
    + intros e Hx Hy. by rewrite !list_lookup_insert_ne.
Qed.

(** ** Face.create *)

(** X9.  [Face.create( a, b, c )] completes exactly when [a], [b] and [c]
    are vertex nodes.  The face is then the last one of the store, with
    three new half-edges: [getEdge( 0 )], [getEdge( 1 )] and [getEdge( 2 )]
    have the heads [a], [b], [c] and the tails [c], [a], [b], and
    [getEdge( -1 )] is [getEdge( 2 )]; the face is visible, has no outside
    vertex, and its normal is the one of the triangle of the points of [c],
    [a] and [b], in this order. *)
Theorem Face_create_vertices (three : Three) (a b c : vref) (h : ConvexHull) :
  (is_Some (Face_create three a b c h) ↔
   is_Some (vertexNodes h !! a) ∧ is_Some (vertexNodes h !! b) ∧
   is_Some (vertexNodes h !! c)) ∧
  (∀ face h', Face_create three a b c h = Some (face, h') →
     let e0 := length (halfEdges h) in
     face = length (faceObjs h) ∧
     Face_getEdge h' face 0 = Some e0 ∧
     Face_getEdge h' face 1 = Some (S e0) ∧
     Face_getEdge h' face 2 = Some (S (S e0)) ∧
     Face_getEdge h' face (-1) = Some (S (S e0)) ∧
     faceVertices h' face = [a; b; c] ∧
     map (HalfEdge_tail (halfEdges h')) [e0; S e0; S (S e0)]
       = [Some (Some c); Some (Some a); Some (Some b)] ∧
     ∃ pa pb pc F,
       pointOf h a = Some pa ∧ pointOf h b = Some pb ∧ pointOf h c = Some pc ∧
       faceObjs h' !! face = Some F ∧
       Face.normal F = getNormal three pc pa pb ∧
       Face.mark F = Visible ∧ Face.outside F = None).
Proof.
  split.
  - split.
    + intros [[face h'] H].
      apply Face_create_inv in H as (va & vb & vc & Ha & Hb & Hc & _). eauto.
    + intros ([va Ha] & [vb Hb] & [vc Hc]).
      rewrite (Face_create_spec three a b c h va vb vc) by done. by eexists.
  - intros face h' H e0.
    apply Face_create_inv in H as (va & vb & vc & Ha & Hb & Hc & -> & ->).
    set (n := length (faceObjs h)).
    set (pa := VertexNode.point va). set (pb := VertexNode.point vb).
    set (pc := VertexNode.point vc).
    set (h' := withFace three a b c pa pb pc h).
    assert (HF : faceObjs h' !! n = Some (createdFace three pa pb pc e0)).
    { unfold h', withFace. simpl. rewrite lookup_app_r by done.
      by replace (n - length (faceObjs h))%nat with 0%nat by (unfold n; lia). }
    assert (He : ∀ i, halfEdges h' !! (e0 + i)%nat = createdEdges a b c n e0 !! i).
    { intros i. unfold h', withFace. simpl. apply lookup_app_plus. }
    pose proof (He 0%nat) as He0. pose proof (He 1%nat) as He1.
    pose proof (He 2%nat) as He2.
    rewrite Nat.add_0_r in He0.
    replace (e0 + 1)%nat with (S e0) in He1 by lia.
    replace (e0 + 2)%nat with (S (S e0)) in He2 by lia.
    simpl in He0, He1, He2.
    assert (G0 : Face_getEdge h' n 0 = Some e0).
    { unfold Face_getEdge. rewrite HF. done. }
    assert (G1 : Face_getEdge h' n 1 = Some (S e0)).
    { unfold Face_getEdge. rewrite HF. simpl. by rewrite He0. }
    assert (G2 : Face_getEdge h' n 2 = Some (S (S e0))).
    { unfold Face_getEdge. rewrite HF. simpl. rewrite He0. simpl. by rewrite He1. }
    assert (G3 : Face_getEdge h' n (-1) = Some (S (S e0))).
    { unfold Face_getEdge. rewrite HF. simpl. by rewrite He0. }
    split_and!; try done.
    + unfold faceVertices. cbn [omap list_omap]. rewrite G0, G1, G2.
      unfold HalfEdge_head. simpl. by rewrite He0, He1, He2.
    + unfold HalfEdge_tail. simpl. rewrite He0, He1, He2. simpl.
      by rewrite He0, He1, He2.
    + exists pa, pb, pc, (createdFace three pa pb pc e0). unfold pointOf.
      rewrite Ha, Hb, Hc. done.
Qed.

(** ** The loop of _compute *)

(** X10.  The loop of [_compute] ends only when no vertex is assigned to a
    face any more: when it returns, the assigned list is empty and no face
    of the store has an outside vertex, so that [_cleanup] discards no
    vertex that is still outside of the hull. *)
Theorem computeLoop_leaves_nothing_assigned (three : Three) (fuel : nat)
  (h h' : ConvexHull) :
  reach three LoopHead h → computeLoop three fuel h = Some h' →
  VertexList.isEmpty (assigned h') = true ∧
  listVertices (vertexNodes h') (assigned h') = [] ∧
  ∀ f F, faceObjs h' !! f = Some F → Face.outside F = None.
Proof.
  intros Hr H. destruct (computeLoop_reach three fuel h h' Hr H) as (Hr' & Hnext).
  apply reach_pointInv in Hr' as (_ & (rs & Hinv) & Htol).
  destruct rs as [|[f r] rs].
  - pose proof Hinv as (HL & _ & _ & Hnone).
    split_and!.
    + destruct HL as (_ & Hh & _). simpl in Hh. unfold VertexList.isEmpty.
      by rewrite Hh, bool_decide_eq_true_2.
    + by rewrite (isList_walk _ _ _ HL).
    + intros f F HF. apply (Hnone f F HF). intros Hin. by apply elem_of_nil in Hin.
  - destruct (_nextVertexToAdd_spec h' f r rs Hinv Htol) as (F & v & _ & Hv & _).
    congruence.
Qed.

(** ** _computeExtremes *)


(** ** _addVertexToFace and _removeVertexFromFace *)

(** The runs after the vertex [v] has been put in front of the run of the
    face [f]; a face without a run gets a new one, after the others. *)
Fixpoint pushRun (f : fref) (v : vref) (rs : list (fref * list vref))
  : list (fref * list vref) :=
  match rs with
  | [] => [(f, [v])]
  | (g, r) :: rs =>
      if decide (g = f) then (g, v :: r) :: rs else (g, r) :: pushRun f v rs
  end.

Lemma pushRun_run f v rs1 r rs2 :
  f ∉ map fst rs1 → pushRun f v (rs1 ++ (f, r) :: rs2) = rs1 ++ (f, v :: r) :: rs2.
Proof.
  induction rs1 as [|[g r'] rs1 IH]; intros Hf; simpl.
  - by rewrite decide_True.
  - rewrite decide_False by (intros ->; apply Hf; by left).
    rewrite IH; [done|]. intros Hin. apply Hf. by right.
Qed.

Lemma pushRun_new f v rs : f ∉ map fst rs → pushRun f v rs = rs ++ [(f, [v])].
Proof.
  induction rs as [|[g r'] rs IH]; intros Hf; simpl; [done|].
  rewrite decide_False by (intros ->; apply Hf; by left).
  rewrite IH; [done|]. intros Hin. apply Hf. by right.
Qed.


Lemma _addVertexToFace_runs h rs v f F node :
  assignedInv h rs → v ∉ members rs →
  vertexNodes h !! v = Some node →
  faceObjs h !! f = Some F → Face.mark F = Visible →
  tolerance h < Face.distanceToPoint F (VertexNode.point node) →
  ∃ h',
    _addVertexToFace v f h = Some h' ∧
    assignedInv h' (pushRun f v rs) ∧
    (∀ u, u ≠ v → u ∉ members rs → vertexNodes h' !! u = vertexNodes h !! u) ∧
    unassigned h' = unassigned h.
Proof.
  intros Hinv Hv Hnode HF Hvis Hdist.
  pose proof (assignedInv_run_of _ _ _ _ Hinv HF) as Hrun.
  destruct Hinv as (HL & Hnd & Hok & Hnone).
  unfold _addVertexToFace. rewrite (modify_Some _ _ _ _ Hnode). simpl.
  rewrite HF. simpl.
  set (ns1 := <[v:=VertexNode.set_face (Some f) node]> (vertexNodes h)).
  assert (Hns1 : ∀ u, u ≠ v → ns1 !! u = vertexNodes h !! u).
  { intros u Hu. unfold ns1. by rewrite list_lookup_insert_ne. }
  assert (Hns1v : ns1 !! v = Some (VertexNode.set_face (Some f) node)).
  { unfold ns1. lookup_eq. }
  assert (HL1 : isList ns1 (assigned h) (members rs)).
  { eapply isList_frame; [|done]. intros u Hu. apply Hns1. by intros ->. }
  rewrite (modify_Some _ _ _ _ HF). simpl.
  set (fs' := <[f:=Face.set_outside (Some v) F]> (faceObjs h)).
  assert (Hfs' : ∀ g, g ≠ f → fs' !! g = faceObjs h !! g).
  { intros g Hg. unfold fs'. by rewrite list_lookup_insert_ne. }
  assert (Hfs'f : fs' !! f = Some (Face.set_outside (Some v) F)).
  { unfold fs'. lookup_eq. }
  (* what the list method does to the data of the nodes *)
  assert (Hdata : ∀ ns2, sameData ns1 ns2 →
            (∀ u, u ≠ v → dataView <$> ns2 !! u = dataView <$> vertexNodes h !! u) ∧
            ∃ node', ns2 !! v = Some node' ∧
                     VertexNode.face node' = Some f ∧
                     VertexNode.point node' = VertexNode.point node).
  { intros ns2 Hs. split.
    - intros u Hu. rewrite (sameData_fmap _ _ u Hs). by rewrite Hns1.
    - destruct (sameData_lookup _ _ _ _ Hs Hns1v) as (node' & H1 & H2 & H3).
      exists node'. done. }
  (* the runs other than the one of the face stay as they are *)
  assert (Hkeep : ∀ ns2 L2 g r, sameData ns1 ns2 → runOK h (g, r) → g ≠ f →
            v ∉ r →
            runOK (set_faceObjs fs' (set_assigned L2 (set_vertexNodes ns2 h))) (g, r)).
  { intros ns2 L2 g r Hs Hr Hg Hvr. eapply runOK_frame; [done|..]; simpl.
    - by apply Hfs'.
    - intros u Hu. apply (Hdata ns2 Hs). by intros ->.
    - done. }
  destruct (Face.outside F) as [o|] eqn:Ho.
  - (* the face has a run already *)
    destruct Hrun as (rs1 & r & rs2 & ->).
    assert (Hnd' := Hnd). rewrite map_app in Hnd'. simpl in Hnd'.
    apply NoDup_mid in Hnd' as (_ & _ & Hf1 & Hf2 & _).
    assert (Hmem : members (rs1 ++ (f, o :: r) :: rs2)
                   = members rs1 ++ o :: (r ++ members rs2)).
    { by rewrite members_app, members_cons. }
    rewrite Hmem in HL1, Hv.
    destruct (insertBefore_spec _ _ _ _ _ v HL1 Hv) as (ns2 & L2 & Hop & HL2 & Hfr);
      [by rewrite Hns1v|].
    rewrite Hop. simpl. eexists _. rewrite (pushRun_run f v rs1 (o :: r) rs2 Hf1).
    split; [done|]. pose proof (insertBefore_data _ _ _ _ _ _ Hop) as Hs.
    apply Forall_app in Hok as [Hok1 Hok2]. apply Forall_cons in Hok2 as [Hokf Hok2].
    split_and!.
    + split_and!.
      * simpl. by rewrite members_app, members_cons.
      * rewrite map_app. simpl. by rewrite map_app in Hnd.
      * apply Forall_app. split; [|apply Forall_cons; split].
        -- apply (Forall_impl_in _ _ _ Hok1). intros [g r'] Hin Hr. simpl in *.
           apply Hkeep; [done|done| |].
           ++ intros ->. apply Hf1. apply list_elem_of_fmap. by exists (f, r').
           ++ intros Hvr. apply Hv, elem_of_app. left.
              apply elem_of_members. by exists g, r'.
        -- destruct Hokf as (F' & HF' & _ & _ & _ & Hvs). simpl in *.
           rewrite HF in HF'. injection HF' as <-.
           exists (Face.set_outside (Some v) F). simpl.
           split_and!; [done|done|done|done|].
           intros u Hu. destruct (Hdata ns2 Hs) as (Hd1 & node' & Hd2 & Hd3 & Hd4).
           apply elem_of_cons in Hu as [->|Hu].
           ** exists node'. simpl. by rewrite Hd4.
           ** destruct (Hvs u Hu) as (nu & Hnu & Hnuf & Hnud).
              assert (Huv : u ≠ v).
              { intros ->. apply Hv, elem_of_app. right. by rewrite app_comm_cons;
                  apply elem_of_app; left. }
              specialize (Hd1 u Huv). rewrite Hnu in Hd1. simpl in Hd1.
              destruct (ns2 !! u) as [nu'|] eqn:Enu; [|done].
              injection Hd1 as Hp Hfc. exists nu'. simpl.
              by rewrite Hp, Hfc.
        -- apply (Forall_impl_in _ _ _ Hok2). intros [g r'] Hin Hr. simpl in *.
           apply Hkeep; [done|done| |].
           ++ intros ->. apply Hf2. apply list_elem_of_fmap. by exists (f, r').
           ++ intros Hvr. apply Hv, elem_of_app. right. right.
              apply elem_of_app. right. apply elem_of_members. by exists g, r'.
      * intros g G HG Hg. simpl in *.
        assert (Hgf : g ≠ f).
        { intros ->. apply Hg. rewrite map_app. apply elem_of_app. right. by left. }
        rewrite Hfs' in HG by done. apply (Hnone g G HG).
        by rewrite map_app in *.
    + intros u Hu1 Hu2. simpl. rewrite Hfr; [by apply Hns1|done|..].
      * intros ->. apply Hu2. rewrite Hmem. apply elem_of_app. right. by left.
      * intros Hl. apply Hu2. rewrite Hmem. apply elem_of_app. left.
        by apply last_Some_elem_of.
    + done.
  - (* the face has no run: a new run at the end *)
    destruct (append_spec _ _ _ v HL1 Hv) as (ns2 & L2 & Hop & HL2 & Hfr);
      [by rewrite Hns1v|].
    rewrite Hop. simpl. eexists _. rewrite (pushRun_new f v rs Hrun).
    split; [done|]. pose proof (append_data _ _ _ _ _ Hop) as Hs.
    split_and!.
    + split_and!.
      * simpl. by rewrite members_snoc.
      * rewrite map_app. simpl. apply NoDup_app. split_and!; [done| |apply NoDup_singleton].
        intros g Hg Hg'. apply list_elem_of_singleton in Hg' as ->. done.
      * apply Forall_app. split; [|apply Forall_singleton].
        -- apply (Forall_impl_in _ _ _ Hok). intros [g r'] Hin Hr. simpl in *.
           apply Hkeep; [done|done| |].
           ++ intros ->. apply Hrun. apply list_elem_of_fmap. by exists (f, r').
           ++ intros Hvr. apply Hv. apply elem_of_members. by exists g, r'.
        -- exists (Face.set_outside (Some v) F). simpl.
           split_and!; [done|done|done|done|].
           intros u Hu. apply list_elem_of_singleton in Hu as ->.
           destruct (Hdata ns2 Hs) as (Hd1 & node' & Hd2 & Hd3 & Hd4).
           exists node'. simpl. by rewrite Hd4.
      * intros g G HG Hg. simpl in *.
        assert (Hgf : g ≠ f).
        { intros ->. apply Hg. rewrite map_app. apply elem_of_app. right. by left. }
        rewrite Hfs' in HG by done. apply (Hnone g G HG).
        intros Hin. apply Hg. rewrite map_app. apply elem_of_app. by left.
    + intros u Hu1 Hu2. simpl. rewrite Hfr; [by apply Hns1|done|].
      intros Hl. apply Hu2. by apply last_Some_elem_of.
    + done.
Qed.

(** The run of a face is found at one place of the list of runs. *)
Lemma run_split_inj (rs1 : list (fref * list vref)) f r rs2 rs1' r' rs2' :
  NoDup (map fst (rs1 ++ (f, r) :: rs2)) →
  rs1 ++ (f, r) :: rs2 = rs1' ++ (f, r') :: rs2' →
  rs1 = rs1' ∧ r = r' ∧ rs2 = rs2'.
Proof.
  revert rs1'. induction rs1 as [|[g q] rs1 IH]; intros rs1' Hnd Heq.
  - destruct rs1' as [|[g' q'] rs1']; simpl in *.
    + by injection Heq as -> ->.
    + injection Heq as <- <- ->. apply NoDup_cons in Hnd as [Hf _].
      exfalso. apply Hf. rewrite map_app. apply elem_of_app. right. by left.
  - destruct rs1' as [|[g' q'] rs1']; simpl in *.
    + injection Heq as -> -> <-. apply NoDup_cons in Hnd as [Hf _].
      exfalso. apply Hf. rewrite map_app. apply elem_of_app. right. by left.
    + injection Heq as <- <- Heq. apply NoDup_cons in Hnd as [_ Hnd].
      destruct (IH rs1' Hnd Heq) as (-> & -> & ->). done.
Qed.

Lemma assignedInv_face h rs1 f r rs2 :
  assignedInv h (rs1 ++ (f, r) :: rs2) →
  ∃ F o r', faceObjs h !! f = Some F ∧ Face.outside F = Some o ∧ r = o :: r' ∧
            (f ∉ map fst rs1) ∧ (f ∉ map fst rs2).
Proof.
  intros (_ & Hnd & Hok & _).
  apply Forall_app in Hok as [_ Hok]. apply Forall_cons in Hok as [(F & HF & Ho & Hne & _) _].
  simpl in *. rewrite map_app in Hnd. simpl in Hnd.
  apply NoDup_mid in Hnd as (_ & _ & Hf1 & Hf2 & _).
  destruct r as [|o r']; [done|]. by exists F, o, r'.
Qed.

Lemma meshView_face h h' f F :
  meshView h' = meshView h → faceObjs h !! f = Some F →
  ∃ F', faceObjs h' !! f = Some F' ∧ faceShape F' = faceShape F.
Proof.
  intros Hm HF. unfold meshView in Hm. injection Hm as _ _ _ _ _ Hfs _.
  by apply (view_lookup faceShape _ _ _ _ Hfs HF).
Qed.


(** X14.  [_addVertexToFace( vertex, face )], for a vertex that is not
    assigned and a visible face that the point of the vertex is outside
    of, puts the vertex in front of the outside run of the face, or, when
    the face has no outside vertex yet, at the end of the assigned list as
    a new run.  The vertex becomes [face.outside] and refers to the face.
    The mesh is as before, the head and the tail references of the
    unassigned list are not written to, and the only vertex nodes written
    to are the one of the vertex and those of the assigned list (when the
    vertex is taken from the unassigned list, as
    [_resolveUnassignedPoints] does, its links to its neighbours there are
    overwritten). *)
Theorem _addVertexToFace_front_of_run (h : ConvexHull)
  (rs : list (fref * list vref)) (v : vref) (f : fref) (F : Face.t)
  (node : VertexNode.t) :
  assignedInv h rs → v ∉ members rs →
  vertexNodes h !! v = Some node →
  faceObjs h !! f = Some F → Face.mark F = Visible →
  tolerance h < Face.distanceToPoint F (VertexNode.point node) →
  ∃ h',
    _addVertexToFace v f h = Some h' ∧
    assignedInv h' (pushRun f v rs) ∧
    listVertices (vertexNodes h') (assigned h') = members (pushRun f v rs) ∧
    Face.outside <$> faceObjs h' !! f = Some (Some v) ∧
    VertexNode.face <$> vertexNodes h' !! v = Some (Some f) ∧
    meshView h' = meshView h ∧ unassigned h' = unassigned h ∧
    (∀ u, u ≠ v → u ∉ members rs → vertexNodes h' !! u = vertexNodes h !! u).
Proof.
  intros Hinv Hv Hnode HF Hvis Hdist.
  destruct (_addVertexToFace_runs h rs v f F node) as (h' & Hop & Hinv' & Hfr & Hun);
    try done.
  exists h'. split_and!; try done.
  - apply isList_walk, Hinv'.
  - pose proof Hop as Hop'. unfold _addVertexToFace in Hop'. inv_opt; simpl;
      (erewrite modify_lookup by eassumption); rewrite decide_True by done;
      by rewrite HF.
  - pose proof (assignedInv_run_of h rs f F Hinv HF) as Hrun.
    destruct Hinv' as (_ & _ & Hok & _). rewrite Forall_forall in Hok.
    assert (Hin : ∃ r, (f, v :: r) ∈ pushRun f v rs).
    { destruct (Face.outside F) as [o|].
      - destruct Hrun as (rs1 & r & rs2 & ->).
        assert (Hnd : NoDup (map fst (rs1 ++ (f, o :: r) :: rs2))) by apply Hinv.
        rewrite map_app in Hnd. simpl in Hnd. apply NoDup_mid in Hnd as (_ & _ & Hf1 & _).
        rewrite pushRun_run by done. exists (o :: r). apply elem_of_app. right. by left.
      - rewrite pushRun_new by done. exists []. apply elem_of_app. right. by left. }
    destruct Hin as (r & Hin). destruct (Hok _ Hin) as (F' & _ & _ & _ & _ & Hvs).
    destruct (Hvs v ltac:(by left)) as (node' & Hn' & Hf' & _). simpl in *.
    by rewrite Hn'; simpl; rewrite Hf'.
  - by eapply _addVertexToFace_mesh.
Qed.

(** X15.  [_removeVertexFromFace( vertex, face )] undoes
    [_addVertexToFace( vertex, face )] but for one thing: the outside
    runs of the faces, the assigned list and the mesh are as before, and
    the vertex, which is in no list any more, still refers to the face. *)
Theorem _removeVertexFromFace_undoes_add (h : ConvexHull)
  (rs : list (fref * list vref)) (v : vref) (f : fref) (F : Face.t)
  (node : VertexNode.t) :
  assignedInv h rs → v ∉ members rs →
  vertexNodes h !! v = Some node →
  faceObjs h !! f = Some F → Face.mark F = Visible →
  tolerance h < Face.distanceToPoint F (VertexNode.point node) →
  ∃ h1 h2,
    _addVertexToFace v f h = Some h1 ∧
    _removeVertexFromFace v f h1 = Some h2 ∧
    assignedInv h2 rs ∧
    assigned h2 = assigned h ∧ unassigned h2 = unassigned h ∧
    meshView h2 = meshView h ∧
    listVertices (vertexNodes h2) (assigned h2) = members rs ∧
    VertexNode.face <$> vertexNodes h2 !! v = Some (Some f).
Proof.
  intros Hinv Hv Hnode HF Hvis Hdist.
  destruct (_addVertexToFace_runs h rs v f F node) as (h1 & Hop & Hinv1 & Hfr & Hun);
    try done.
  pose proof (assignedInv_run_of h rs f F Hinv HF) as Hrun.
  assert (Hshape : ∃ rs1 r2 rs2,
            pushRun f v rs = rs1 ++ (f, [] ++ v :: r2) :: rs2 ∧
            rs = rs1 ++ (if decide ([] ++ r2 = []) then [] else [(f, [] ++ r2)]) ++ rs2).
  { destruct (Face.outside F) as [o|].
    - destruct Hrun as (rs1 & r & rs2 & ->).
      assert (Hnd : NoDup (map fst (rs1 ++ (f, o :: r) :: rs2))) by apply Hinv.
      rewrite map_app in Hnd. simpl in Hnd. apply NoDup_mid in Hnd as (_ & _ & Hf1 & _).
      exists rs1, (o :: r), rs2. by rewrite pushRun_run.
    - exists rs, [], []. rewrite pushRun_new by done. simpl. by rewrite app_nil_r. }
  destruct Hshape as (rs1 & r2 & rs2 & Hpush & Hrs).
  rewrite Hpush in Hinv1.
  destruct (_removeVertexFromFace_inv h1 rs1 f [] v r2 rs2 Hinv1)
    as (h2 & Hrm & Hinv2 & Hv2 & _ & Hun2).
  rewrite <- Hrs in Hinv2.
  exists h1, h2. split_and!; try done.
  - destruct Hinv as (HL & _). destruct Hinv2 as (HL2 & _). by eapply isList_inj.
  - congruence.
  - rewrite (_removeVertexFromFace_mesh _ _ _ _ Hrm). by eapply _addVertexToFace_mesh.
  - apply isList_walk, Hinv2.
  - rewrite Hv2. destruct Hinv1 as (_ & _ & Hok & _).
    apply Forall_app in Hok as [_ Hok]. apply Forall_cons in Hok as [(F' & _ & _ & _ & _ & Hvs) _].
    destruct (Hvs v ltac:(by left)) as (node' & Hn' & Hf' & _). simpl in *.
    by rewrite Hn'; simpl; rewrite Hf'.
Qed.

(** X16.  [_removeVertexFromFace( vertex, face )], for a vertex of the outside
    run of the face, takes the vertex out of the run: [face.outside]
    becomes the first vertex that is left of the run, and [null] when the
    vertex was the only one; the node of the vertex is not written to. *)
Theorem _removeVertexFromFace_moves_outside (h : ConvexHull)
  (rs1 : list (fref * list vref)) (f : fref) (r1 : list vref) (v : vref)
  (r2 : list vref) (rs2 : list (fref * list vref)) :
  assignedInv h (rs1 ++ (f, r1 ++ v :: r2) :: rs2) →
  ∃ h',
    _removeVertexFromFace v f h = Some h' ∧
    assignedInv h'
      (rs1 ++ (if decide (r1 ++ r2 = []) then [] else [(f, r1 ++ r2)]) ++ rs2) ∧
    listVertices (vertexNodes h') (assigned h')
      = members rs1 ++ (r1 ++ r2) ++ members rs2 ∧
    Face.outside <$> faceObjs h' !! f = Some (head (r1 ++ r2)) ∧
    vertexNodes h' !! v = vertexNodes h !! v ∧
    meshView h' = meshView h ∧ unassigned h' = unassigned h.
Proof.
  intros Hinv.
  destruct (assignedInv_face _ _ _ _ _ Hinv) as (F & o & r' & HF & _ & _ & Hf1 & Hf2).
  destruct (_removeVertexFromFace_inv h rs1 f r1 v r2 rs2 Hinv)
    as (h' & Hrm & Hinv' & Hv & _ & Hun).
  pose proof (_removeVertexFromFace_mesh _ _ _ _ Hrm) as Hmesh.
  destruct (meshView_face h h' f F Hmesh HF) as (F' & HF' & _).
  exists h'. split_and!; try done.
  - rewrite (isList_walk _ _ _ (proj1 Hinv')). rewrite !members_app.
    destruct (decide (r1 ++ r2 = [])) as [->|Hne]; [done|].
    by rewrite members_cons, app_nil_r.
  - rewrite HF'. simpl. do 2 f_equal.
    destruct Hinv' as (_ & _ & Hok & Hnone).
    destruct (decide (r1 ++ r2 = [])) as [->|Hne].
    + apply (Hnone f F' HF'). simpl. rewrite map_app.
      intros Hin. apply elem_of_app in Hin as [?|?]; done.
    + apply Forall_app in Hok as [_ Hok]. apply Forall_app in Hok as [Hok _].
      apply Forall_singleton in Hok as (F'' & HF'' & Ho & _). simpl in *. congruence.
Qed.

(** ** _removeAllVerticesFromFace and _deleteFaceVertices *)

(** X17.  [_removeAllVerticesFromFace( face )] returns [undefined] and changes
    nothing for a face without outside vertices.  For a face with an
    outside run it returns the first vertex of the run and takes the run
    out of the assigned list as a chain of its own: the vertices of the run
    are linked to each other, in the same order, nothing comes before the
    first or after the last, and [face.outside] is [null]. *)
Theorem _removeAllVerticesFromFace_detaches_run (h : ConvexHull)
  (rs : list (fref * list vref)) (f : fref) (F : Face.t) :
  assignedInv h rs → faceObjs h !! f = Some F →
  (f ∉ map fst rs → _removeAllVerticesFromFace f h = Some (None, h)) ∧
  (∀ rs1 r rs2, rs = rs1 ++ (f, r) :: rs2 →
     ∃ start h',
       head r = Some start ∧
       _removeAllVerticesFromFace f h = Some (Some start, h') ∧
       assignedInv h' (rs1 ++ rs2) ∧
       listVertices (vertexNodes h') (assigned h') = members rs1 ++ members rs2 ∧
       seg (vertexNodes h') None r None ∧
       walk (length (vertexNodes h')) (vertexNodes h') (Some start) = r ∧
       Face.outside <$> faceObjs h' !! f = Some None ∧
       sameData (vertexNodes h) (vertexNodes h') ∧
       meshView h' = meshView h ∧ unassigned h' = unassigned h).
Proof.
  intros Hinv HF.
  pose proof (_removeAllVerticesFromFace_inv _ _ _ _ Hinv HF) as Hrem.
  split.
  - intros Hf. destruct Hinv as (_ & _ & _ & Hnone). by rewrite (Hnone f F HF Hf) in Hrem.
  - intros rs1 r rs2 ->.
    destruct (assignedInv_face _ _ _ _ _ Hinv) as (F0 & o & r' & HF0 & Ho & -> & Hf1 & Hf2).
    assert (F0 = F) as -> by congruence. rewrite Ho in Hrem.
    destruct Hrem as (rs1' & r'' & rs2' & h' & Heq & Hop & Hinv' & Hchain & Hfr & Hs & Hun).
    apply run_split_inj in Heq as (<- & [= <-] & <-); [|apply Hinv].
    pose proof (_removeAllVerticesFromFace_mesh _ _ _ _ Hop) as Hmesh.
    destruct (meshView_face h h' f F Hmesh HF) as (F' & HF' & _).
    exists o, h'. split_and!; try done.
    + rewrite (isList_walk _ _ _ (proj1 Hinv')). by rewrite members_app.
    + apply (seg_walk _ None (o :: r')); [done|].
      apply (seg_NoDup_length _ None _ None); [|done].
      destruct Hinv as ((Hnd & _) & _). rewrite members_app, members_cons in Hnd.
      apply NoDup_app in Hnd as (_ & _ & Hnd). by apply NoDup_app in Hnd as (Hnd & _).
    + rewrite HF'. simpl. do 2 f_equal. destruct Hinv' as (_ & _ & _ & Hnone).
      apply (Hnone f F' HF'). rewrite map_app. intros Hin.
      apply elem_of_app in Hin as [?|?]; done.
Qed.

(** X18.  [_deleteFaceVertices( face )] changes nothing for a face without
    outside vertices, and moves the outside run of the face, as a whole
    and in the same order, from the assigned list to the end of the
    unassigned list otherwise.  No vertex is lost or duplicated, and the
    vertices of the run still refer to the face. *)
Theorem _deleteFaceVertices_moves_run_to_unassigned (fuel : nat) (h : ConvexHull)
  (rs : list (fref * list vref)) (u : list vref) (f : fref) (F : Face.t) :
  assignedInv h rs → unassignedInv h rs u → faceObjs h !! f = Some F →
  (f ∉ map fst rs → _deleteFaceVertices fuel f None h = Some h) ∧
  (∀ rs1 r rs2, rs = rs1 ++ (f, r) :: rs2 →
     ∃ h',
       _deleteFaceVertices fuel f None h = Some h' ∧
       assignedInv h' (rs1 ++ rs2) ∧
       unassignedInv h' (rs1 ++ rs2) (u ++ r) ∧
       listVertices (vertexNodes h') (assigned h') = members rs1 ++ members rs2 ∧
       listVertices (vertexNodes h') (unassigned h') = u ++ r ∧
       sameData (vertexNodes h) (vertexNodes h') ∧
       meshView h' = meshView h).
Proof.
  intros Hinv [HU HndU] HF.
  pose proof (_removeAllVerticesFromFace_inv _ _ _ _ Hinv HF) as Hrem.
  split.
  - intros Hf. destruct Hinv as (_ & _ & _ & Hnone). rewrite (Hnone f F HF Hf) in Hrem.
    unfold _deleteFaceVertices. by rewrite Hrem.
  - intros rs1 r rs2 ->.
    destruct (assignedInv_face _ _ _ _ _ Hinv) as (F0 & o & r' & HF0 & Ho & -> & Hf1 & Hf2).
    assert (F0 = F) as -> by congruence. rewrite Ho in Hrem.
    destruct Hrem as (rs1' & r'' & rs2' & h1 & Heq & Hop & Hinv1 & Hchain & Hfr1 & Hs1 & HU1).
    apply run_split_inj in Heq as (<- & [= <-] & <-); [|apply Hinv].
    unfold _deleteFaceVertices. rewrite Hop. simpl.
    assert (Hmem : members (rs1 ++ (f, o :: r') :: rs2)
                   = members rs1 ++ (o :: r') ++ members rs2).
    { by rewrite members_app, members_cons. }
    rewrite Hmem in HndU, Hfr1.
    assert (HndU' : NoDup ((members rs1 ++ members rs2) ++ u ++ o :: r')).
    { eapply NoDup_Permutation_proper; [|exact HndU].
      rewrite <- !app_assoc. apply Permutation_app_head.
      rewrite (Permutation_app_comm u). rewrite !app_assoc.
      apply Permutation_app_tail. apply Permutation_app_comm. }
    assert (HU1' : isList (vertexNodes h1) (unassigned h) u).
    { eapply isList_frame; [|exact HU]. intros v Hv. apply Hfr1.
      intros Hv'. apply NoDup_app in HndU as (_ & HndU & _). by apply (HndU v). }
    destruct (appendChain_spec _ _ _ _ _ _ HU1' Hchain) as (ns2 & U2 & Hop2 & HU2 & Hfr2).
    { apply NoDup_app in HndU' as (_ & _ & H). done. }
    rewrite HU1, Hop2. simpl.
    pose proof (appendChain_data _ _ _ _ _ Hop2) as Hs2.
    pose proof (appendChain_points _ _ _ _ _ Hop2) as Hp2.
    pose proof (_removeAllVerticesFromFace_mesh _ _ _ _ Hop) as Hmesh1.
    eexists. split; [done|].
    assert (Hinv2 : assignedInv
              (set_unassigned U2 (set_vertexNodes ns2 h1)) (rs1 ++ rs2)).
    { eapply assignedInv_frame; [exact Hinv1|done|done| |done|apply Hinv1]. simpl.
      intros v Hv. rewrite members_app in Hv. apply Hfr2.
      - intros ->. apply NoDup_app in HndU' as (_ & HndU' & _).
        apply (HndU' o Hv). apply elem_of_app. right. by left.
      - intros Hl. apply last_Some_elem_of in Hl.
        apply NoDup_app in HndU' as (_ & HndU' & _).
        apply (HndU' v Hv). apply elem_of_app. by left. }
    split_and!.
    + done.
    + split; [done|]. by rewrite members_app.
    + rewrite (isList_walk _ _ _ (proj1 Hinv2)). by rewrite members_app.
    + simpl. by apply isList_walk.
    + simpl. by eapply sameData_trans.
    + rewrite <- Hmesh1. unfold meshView, samePoints in *. simpl. congruence.
Qed.

(** ** _resolveUnassignedPoints *)








(** ** _addNewFaces: what is allocated *)

(** [tail()] and [head()] read the shape of the half-edges only, and read
    the same in a longer array of half-edges of the same shapes. *)
Lemma shape_lookup es es' Es i ed :
  map edgeShape es' = map edgeShape es ++ Es → es !! i = Some ed →
  ∃ ed', es' !! i = Some ed' ∧ edgeShape ed' = edgeShape ed.
Proof.
  intros Hsh Hi.
  assert (H : (map edgeShape es ++ Es) !! i = Some (edgeShape ed)).
  { apply lookup_app_l_Some. change (map edgeShape es) with (edgeShape <$> es).
    by rewrite list_lookup_fmap, Hi. }
  rewrite <- Hsh in H. change (map edgeShape es') with (edgeShape <$> es') in H.
  rewrite list_lookup_fmap in H. destruct (es' !! i) as [ed'|]; [|done].
  exists ed'. split; [done|]. exact (inj Some _ _ H).
Qed.

Lemma HalfEdge_head_shape es es' Es e hd :
  map edgeShape es' = map edgeShape es ++ Es →
  HalfEdge_head es e = Some hd → HalfEdge_head es' e = Some hd.
Proof.
  intros Hsh. unfold HalfEdge_head. intros H.
  destruct (es !! e) as [ed|] eqn:He; [|done]. injection H as <-.
  destruct (shape_lookup _ _ _ _ _ Hsh He) as (ed' & -> & Heq). simpl.
  by apply edgeShape_fields in Heq as (-> & _).
Qed.

Lemma HalfEdge_tail_shape es es' Es e tl :
  map edgeShape es' = map edgeShape es ++ Es →
  HalfEdge_tail es e = Some (Some tl) → HalfEdge_tail es' e = Some (Some tl).
Proof.
  intros Hsh. unfold HalfEdge_tail. intros H.
  destruct (es !! e) as [ed|] eqn:He; [|done]. simpl in H.
  destruct (shape_lookup _ _ _ _ _ Hsh He) as (ed' & -> & Heq). simpl.
  apply edgeShape_fields in Heq as (_ & -> & _).
  destruct (HalfEdge.prev ed) as [p|]; [|done].
  destruct (es !! p) as [pe|] eqn:Hp; [|done]. simpl in H. injection H as <-.
  destruct (shape_lookup _ _ _ _ _ Hsh Hp) as (pe' & -> & Heq). simpl.
  by apply edgeShape_fields in Heq as (-> & _).
Qed.

(** What [_addAdjoiningFace] allocates: one face and its three half-edges,
    for the eye vertex and the tail and the head of the horizon edge. *)
Lemma _addAdjoiningFace_alloc three v he h e h' :
  _addAdjoiningFace three v he h = Some (e, h') →
  let k := length (faceObjs h) in
  let e0 := length (halfEdges h) in
  ∃ tl hd nv ntl nhd,
    HalfEdge_tail (halfEdges h) he = Some (Some tl) ∧
    HalfEdge_head (halfEdges h) he = Some hd ∧
    vertexNodes h !! v = Some nv ∧ vertexNodes h !! tl = Some ntl ∧
    vertexNodes h !! hd = Some nhd ∧
    e = e0 ∧
    vertexView h' = vertexView (set_faces (faces h ++ [k]) h) ∧
    faceObjs h' = faceObjs h ++ [createdFace three (VertexNode.point nv)
                                   (VertexNode.point ntl) (VertexNode.point nhd) e0] ∧
    map edgeShape (halfEdges h')
      = map edgeShape (halfEdges h) ++ map edgeShape (createdEdges v tl hd k e0).
Proof.
  intros H k e0. unfold _addAdjoiningFace in H.
  apply bind_Some in H as (otl & Etl & H). apply bind_Some in H as (tl & -> & H).
  apply bind_Some in H as (hd & Ehd & H).
  apply bind_Some in H as ([face h1] & Ecreate & H).
  apply Face_create_inv in Ecreate as (nv & ntl & nhd & Hv & Htl & Hhd & -> & ->).
  apply bind_Some in H as (e2 & Ee2 & H).
  apply bind_Some in H as (hed & Ehed & H). apply bind_Some in H as (tw & Etw & H).
  apply bind_Some in H as (es & Eset & H).
  apply bind_Some in H as (e0' & Ee0 & H). injection H as <- <-.
  exists tl, hd, nv, ntl, nhd. split_and!; try done.
  - unfold Face_getEdge in Ee0. simpl in Ee0.
    rewrite list_lookup_middle in Ee0 by done. simpl in Ee0. by injection Ee0.
  - destruct (HalfEdge_setTwin_spec _ _ _ _ Eset) as (_ & _ & Hsh & _).
    simpl in *. rewrite Hsh. by rewrite map_app.
Qed.

(** The hull has grown by [n] faces and their half-edges; nothing else has
    changed but [twin] references. *)
Definition grown (h h' : ConvexHull) (n : nat) (Fs : list Face.t)
  (Es : list (vref * option eref * option eref * fref)) : Prop :=
  faces h' = faces h ++ seq (length (faceObjs h)) n ∧
  (tolerance h', assigned h', unassigned h', vertices h', vertexNodes h')
  = (tolerance h, assigned h, unassigned h, vertices h, vertexNodes h) ∧
  faceObjs h' = faceObjs h ++ Fs ∧ length Fs = n ∧ Forall freshFace Fs ∧
  map edgeShape (halfEdges h') = map edgeShape (halfEdges h) ++ Es ∧
  length Es = (3 * n)%nat.

(** The half-edges of the face that is made for the horizon edge number
    [i]: the eye vertex, then the tail and the head of the horizon edge. *)
Definition adjoined (h h' : ConvexHull) (v : vref) (i : nat) (he : eref)
  (Es : list (vref * option eref * option eref * fref)) : Prop :=
  ∃ tl hd,
    HalfEdge_tail (halfEdges h') he = Some (Some tl) ∧
    HalfEdge_head (halfEdges h') he = Some hd ∧
    is_Some (vertexNodes h !! v) ∧ is_Some (vertexNodes h !! tl) ∧
    is_Some (vertexNodes h !! hd) ∧
    ∀ j, (j < 3)%nat →
      Es !! (3 * i + j)%nat
      = map edgeShape (createdEdges v tl hd (length (faceObjs h) + i)
                         (length (halfEdges h) + 3 * i)) !! j.

Lemma addNewFacesLoop_alloc three v hz :
  ∀ first prev h first' prev' h',
    addNewFacesLoop three v hz first prev h = Some (first', prev', h') →
    newFaces h' = newFaces h ++ seq (length (faceObjs h)) (length hz) ∧
    (hz ≠ [] → first' ≠ None ∧ prev' ≠ None) ∧
    ∃ Fs Es, grown h h' (length hz) Fs Es ∧
             ∀ i he, hz !! i = Some he → adjoined h h' v i he Es.
Proof.
  induction hz as [|he hz IH]; intros first prev h first' prev' h' H.
  - simpl in H. injection H as <- <- <-. simpl. rewrite app_nil_r.
    split_and!; [done|done|]. exists [], []. split.
    + unfold grown. simpl. rewrite !app_nil_r. split_and!; done.
    + intros i he Hi. done.
  - cbn [addNewFacesLoop] in H.
    apply bind_Some in H as ([sideEdge h1] & Eadj & H).
    apply bind_Some in H as ([first1 h2] & Elink & H).
    apply bind_Some in H as (sd & Esd & H).
    destruct (_addAdjoiningFace_alloc _ _ _ _ _ _ Eadj)
      as (tl & hd & nv & ntl & nhd & Htl & Hhd & Hnv & Hntl & Hnhd & -> & Hview1 & Hfs1 & Hes1).
    set (k := length (faceObjs h)) in *. set (e0 := length (halfEdges h)) in *.
    (* the link to the previous side edge changes [twin] references only *)
    assert (Hh2 : vertexView h2 = vertexView h1 ∧ faceObjs h2 = faceObjs h1 ∧
                  map edgeShape (halfEdges h2) = map edgeShape (halfEdges h1) ∧
                  first1 ≠ None).
    { destruct first as [fe|].
      - apply bind_Some in Elink as (sd1 & Esd1 & Elink).
        apply bind_Some in Elink as (n & En & Elink).
        apply bind_Some in Elink as (pe & Epe & Elink).
        apply bind_Some in Elink as (es & Eset & Elink). injection Elink as <- <-.
        destruct (HalfEdge_setTwin_spec _ _ _ _ Eset) as (_ & _ & Hsh & _). done.
      - by injection Elink as <- <-. }
    destruct Hh2 as (Hview2 & Hfs2 & Hes2 & Hfirst1).
    assert (Hface : HalfEdge.face sd = k).
    { assert (Hl : map edgeShape (halfEdges h2) !! e0
                   = Some (edgeShape (HalfEdge.mk v (Some (S (S e0))) (Some (S e0)) None k))).
      { rewrite Hes2, Hes1. rewrite lookup_app_r by (by rewrite length_map).
        rewrite length_map. by replace (e0 - length (halfEdges h))%nat with 0%nat by (unfold e0; lia). }
      change (map edgeShape (halfEdges h2)) with (edgeShape <$> halfEdges h2) in Hl.
      rewrite list_lookup_fmap, Esd in Hl. apply (inj Some) in Hl.
      by apply edgeShape_fields in Hl as (_ & _ & _ & ->). }
    rewrite Hface in H.
    destruct (IH _ _ _ _ _ _ H) as (Hnew & Hne & Fs & Es & Hgrown & Hadj).
    simpl in Hnew, Hgrown, Hadj.
    assert (Hk2 : length (faceObjs h2) = S k).
    { rewrite Hfs2, Hfs1, length_app. simpl. unfold k. lia. }
    assert (He2 : length (halfEdges h2) = (e0 + 3)%nat).
    { rewrite <- (length_map edgeShape), Hes2, Hes1, length_app, !length_map. done. }
    rewrite Hk2 in Hnew.
    destruct Hgrown as (Hfaces & Hview & Hfs & HlenF & Hfresh & Hes & HlenE).
    simpl in Hfaces, Hview, Hfs, Hes. rewrite Hk2 in Hfaces.
    unfold vertexView in Hview1, Hview2. simpl in Hview1, Hview2.
    injection Hview2 as Ht2 Hf2 Hn2 Ha2 Hu2 Hv2 Hns2.
    injection Hview1 as Ht1 Hf1 Hn1 Ha1 Hu1 Hv1 Hns1.
    split_and!.
    + rewrite Hnew, Hn2, Hn1. simpl. by rewrite <- app_assoc.
    + intros _. destruct hz as [|he' hz].
      * simpl in H. injection H as <- <- <-. done.
      * by apply Hne.
    + eexists (_ :: Fs), (map edgeShape (createdEdges v tl hd k e0) ++ Es). split.
      * unfold grown. split_and!.
        -- rewrite Hfaces, Hf2, Hf1. simpl. by rewrite <- app_assoc.
        -- rewrite Hview. congruence.
        -- rewrite Hfs, Hfs2, Hfs1. by rewrite <- app_assoc.
        -- simpl. by rewrite HlenF.
        -- apply Forall_cons. split; [done|exact Hfresh].
        -- rewrite Hes, Hes2, Hes1. by rewrite <- app_assoc.
        -- rewrite length_app, HlenE. simpl. lia.
      * assert (Hshapes : map edgeShape (halfEdges h')
                  = map edgeShape (halfEdges h)
                    ++ (map edgeShape (createdEdges v tl hd k e0) ++ Es)).
        { rewrite Hes, Hes2, Hes1. by rewrite <- app_assoc. }
        assert (Hns : vertexNodes h2 = vertexNodes h) by congruence.
        intros [|i] he' Hi; simpl in Hi.
        -- injection Hi as <-. exists tl, hd. split_and!; try by eexists.
           ++ by eapply HalfEdge_tail_shape.
           ++ by eapply HalfEdge_head_shape.
           ++ intros j Hj. rewrite Nat.mul_0_r, !Nat.add_0_r. cbn [Nat.add].
              destruct j as [|[|[|j]]]; [done..|lia].
        -- destruct (Hadj i he' Hi) as (tl' & hd' & H1 & H2 & H3 & H4 & H5 & H6).
           simpl in H3, H4, H5, H6. rewrite Hns in H3, H4, H5.
           exists tl', hd'. split_and!; try done.
           intros j Hj. rewrite lookup_app_r by (rewrite length_map; simpl; lia).
           rewrite length_map. cbn [createdEdges length].
           replace (3 * S i + j - 3)%nat with (3 * i + j)%nat by lia.
           rewrite (H6 j Hj). rewrite Hk2, He2. f_equal.
           replace (length (faceObjs h) + S i)%nat with (S k + i)%nat by (unfold k; lia).
           replace (length (halfEdges h) + 3 * S i)%nat with (e0 + 3 + 3 * i)%nat
             by (unfold e0; lia).
           done.
Qed.

Lemma grown_newFaces h h' nf n Fs Es :
  grown (set_newFaces nf h) h' n Fs Es ↔ grown h h' n Fs Es.
Proof. done. Qed.

Lemma _addNewFaces_alloc three v hz h h' :
  _addNewFaces three v hz h = Some h' →
  hz ≠ [] ∧
  newFaces h' = seq (length (faceObjs h)) (length hz) ∧
  ∃ Fs Es, grown h h' (length hz) Fs Es ∧
           ∀ i he, hz !! i = Some he → adjoined h h' v i he Es.
Proof.
  intros H. unfold _addNewFaces in H.
  apply bind_Some in H as ([[first prev] h1] & Eloop & H).
  apply bind_Some in H as (fe & -> & H). apply bind_Some in H as (fd & Efd & H).
  apply bind_Some in H as (n & En & H). apply bind_Some in H as (pe & -> & H).
  apply bind_Some in H as (es & Eset & H). injection H as <-.
  destruct (HalfEdge_setTwin_spec _ _ _ _ Eset) as (_ & _ & Hsh & _).
  destruct (addNewFacesLoop_alloc _ _ _ _ _ _ _ _ _ Eloop)
    as (Hnew & _ & Fs & Es & Hgrown & Hadj).
  simpl in Hnew. split_and!.
  - intros ->. simpl in Eloop. done.
  - done.
  - exists Fs, Es. split.
    + destruct Hgrown as (H1 & H2 & H3 & H4 & H5 & H6 & H7).
      unfold grown. simpl in *. split_and!; try done. by rewrite Hsh.
    + intros i he Hi. destruct (Hadj i he Hi) as (tl & hd & H1 & H2 & H3 & H4 & H5 & H6).
      assert (Hsh' : map edgeShape es = map edgeShape (halfEdges h1) ++ []).
      { by rewrite app_nil_r. }
      exists tl, hd. split_and!; try done.
      * by eapply HalfEdge_tail_shape.
      * by eapply HalfEdge_head_shape.
Qed.

Lemma shape_lookup_new es es' Es n s :
  map edgeShape es' = map edgeShape es ++ Es → Es !! n = Some s →
  ∃ ed', es' !! (length es + n)%nat = Some ed' ∧ edgeShape ed' = s.
Proof.
  intros Hsh Hn.
  assert (H : (map edgeShape es ++ Es) !! (length es + n)%nat = Some s).
  { rewrite lookup_app_r by (rewrite length_map; lia). rewrite length_map.
    by replace (length es + n - length es)%nat with n by lia. }
  rewrite <- Hsh in H. change (map edgeShape es') with (edgeShape <$> es') in H.
  rewrite list_lookup_fmap in H. destruct (es' !! (length es + n)%nat) as [ed'|]; [|done].
  exists ed'. split; [done|]. exact (inj Some _ _ H).
Qed.

(** A half-edge of a face of the store has a tail. *)
Lemma HalfEdge_tail_valid h e :
  shapeInv h → is_Some (halfEdges h !! e) →
  ∃ tl, HalfEdge_tail (halfEdges h) e = Some (Some tl).
Proof.
  intros Hsh [ed He]. destruct (edge_slot e) as (f & i & -> & Hi).
  assert (Hf : is_Some (faceObjs h !! f)).
  { apply (shapeInv_edge_valid h f i Hsh Hi). by eexists. }
  destruct (proj2 (shapeInv_edge_valid h f (prv i) Hsh (prv_lt i Hi)) Hf) as [pd Hpd].
  destruct Hsh as (_ & _ & Hslots). destruct (Hslots f i ed Hi He) as (_ & _ & Hp).
  exists (HalfEdge.vertex pd). unfold HalfEdge_tail. rewrite He. simpl. rewrite Hp.
  by rewrite Hpd.
Qed.

(** The face that [_addNewFaces] makes for the horizon edge number [i]. *)
Lemma _addNewFaces_new_face three v hz h h' :
  meshInv h → horizonOK h hz →
  _addNewFaces three v hz h = Some h' →
  ∀ i he, hz !! i = Some he →
    ∃ tl hd,
      HalfEdge_tail (halfEdges h) he = Some (Some tl) ∧
      HalfEdge_head (halfEdges h) he = Some hd ∧
      visible h' (length (faceObjs h) + i) ∧
      faceVertices h' (length (faceObjs h) + i) = [v; tl; hd].
Proof.
  intros Hm Hhz H. set (k := length (faceObjs h)).
  destruct (_addNewFaces_inv three v hz h h' Hm Hhz H) as (Hm' & _).
  destruct (_addNewFaces_alloc three v hz h h' H) as (Hne & Hnew & Fs & Es & Hgrown & Hadj).
  destruct Hgrown as (Hfaces & Hview & Hfs & HlenF & Hfresh & Hes & HlenE).
  injection Hview as _ _ _ _ Hns.
  intros i he Hi. destruct (Hadj i he Hi) as (tl & hd & Htl & Hhd & _ & _ & _ & Hedges).
  assert (Hk : length (halfEdges h) = (3 * k)%nat) by apply Hm.
  assert (Hhe : is_Some (halfEdges h !! he)).
  { destruct Hhz as (_ & Hp). destruct (Hp he) as (hed & _ & _ & Hhed & _); [|by eexists].
    by eapply list_elem_of_lookup_2. }
  destruct (HalfEdge_tail_valid h he (proj1 Hm) Hhe) as (tl0 & Htl0).
  pose proof (HalfEdge_tail_shape _ _ _ _ _ Hes Htl0) as Htl0'.
  assert (tl0 = tl) as -> by congruence.
  assert (Hhd0 : HalfEdge_head (halfEdges h) he = Some hd).
  { destruct Hhe as [hed Hhed]. unfold HalfEdge_head in *. rewrite Hhed. simpl.
    destruct (shape_lookup _ _ _ _ _ Hes Hhed) as (hed' & Hhed' & Heq).
    rewrite Hhed' in Hhd. simpl in Hhd. apply edgeShape_fields in Heq as (Hv & _).
    congruence. }
  assert (Hi' : (i < length hz)%nat) by (by eapply lookup_lt_Some).
  assert (HF : ∃ F, faceObjs h' !! (k + i)%nat = Some F ∧ freshFace F).
  { destruct (lookup_lt_is_Some_2 Fs i) as [F HF]; [lia|].
    exists F. split.
    - rewrite Hfs. rewrite lookup_app_r by (unfold k; lia).
      by replace (k + i - length (faceObjs h))%nat with i by (unfold k; lia).
    - rewrite Forall_forall in Hfresh. apply Hfresh. by eapply list_elem_of_lookup_2. }
  destruct HF as (F & HF & _ & Hmark).
  exists tl, hd. split_and!; [done|done|by exists F|].
  assert (Hedge : ∀ j w, (j < 3)%nat → [v; tl; hd] !! j = Some w →
            (e ← Face_getEdge h' (k + i) (Z.of_nat j); HalfEdge_head (halfEdges h') e)
            = Some w).
  { intros j w Hj Hw.
    rewrite (Face_getEdge_shape h' (k + i) j) by (try apply Hm'; eauto). simpl.
    assert (Hs : Es !! (3 * i + j)%nat
                 = Some (w, Some (3 * (k + i) + prv j)%nat,
                         Some (3 * (k + i) + nxt j)%nat, (k + i)%nat)).
    { rewrite (Hedges j Hj). fold k. rewrite Hk.
      destruct j as [|[|[|j]]]; [| | |lia]; simpl in Hw |- *; injection Hw as <-;
        unfold edgeShape; simpl; rewrite ?Nat.add_0_r;
        replace (3 * (k + i))%nat with (3 * k + 3 * i)%nat by lia;
        replace (3 * k + 3 * i + 2)%nat with (S (S (3 * k + 3 * i))) by lia;
        replace (3 * k + 3 * i + 1)%nat with (S (3 * k + 3 * i)) by lia; done. }
    destruct (shape_lookup_new _ _ _ _ _ Hes Hs) as (ed' & Hed' & Heq).
    rewrite Hk in Hed'.
    replace (3 * k + (3 * i + j))%nat with (3 * (k + i) + j)%nat in Hed' by lia.
    unfold HalfEdge_head. rewrite Hed'. simpl. f_equal.
    unfold edgeShape in Heq. congruence. }
  unfold faceVertices. cbn [omap list_omap].
  change 0%Z with (Z.of_nat 0). change 1%Z with (Z.of_nat 1). change 2%Z with (Z.of_nat 2).
  rewrite (Hedge 0%nat v), (Hedge 1%nat tl), (Hedge 2%nat hd) by (done || lia). done.
Qed.

(** X20.  [_addNewFaces( eyeVertex, horizon )], called with the horizon that
    [_computeHorizon] has found, throws on an empty horizon (the first side
    edge is [null] then); when it completes, it has made one face for
    each half-edge of the horizon, in the order of the horizon: the new
    faces are the last ones of the store, they are appended to the face
    array and are the contents of [newFaces]; the face of a horizon edge is
    visible and its vertices are the eye vertex, the tail and the head of
    the horizon edge; the faces that were there and the vertex nodes are
    not touched, and the mesh is well formed. *)
Theorem _addNewFaces_one_face_per_horizon_edge (three : Three) (v : vref)
  (hz : list eref) (h h' : ConvexHull) :
  meshInv h → horizonOK h hz →
  _addNewFaces three v hz h = Some h' →
  let k := length (faceObjs h) in
  hz ≠ [] ∧
  newFaces h' = seq k (length hz) ∧
  faces h' = faces h ++ seq k (length hz) ∧
  length (faceObjs h') = (k + length hz)%nat ∧
  (∀ j F, faceObjs h !! j = Some F → faceObjs h' !! j = Some F) ∧
  vertexNodes h' = vertexNodes h ∧
  meshInv h' ∧
  ∀ i he, hz !! i = Some he →
    ∃ tl hd,
      HalfEdge_tail (halfEdges h) he = Some (Some tl) ∧
      HalfEdge_head (halfEdges h) he = Some hd ∧
      visible h' (k + i) ∧
      faceVertices h' (k + i) = [v; tl; hd].
Proof.
  intros Hm Hhz H k.
  destruct (_addNewFaces_inv three v hz h h' Hm Hhz H) as (Hm' & _).
  destruct (_addNewFaces_alloc three v hz h h' H) as (Hne & Hnew & Fs & Es & Hgrown & Hadj).
  destruct Hgrown as (Hfaces & Hview & Hfs & HlenF & Hfresh & Hes & HlenE).
  injection Hview as _ _ _ _ Hns.
  split_and!; try done.
  - rewrite Hfs, length_app. unfold k. lia.
  - intros j F HF. rewrite Hfs. by apply lookup_app_l_Some.
  - by apply (_addNewFaces_new_face three v hz h h').
Qed.

(** ** _computeHorizon *)

(** [_computeHorizon] deletes faces and never makes one visible again. *)
Lemma horizonLoop_mono recurse p ce budget edge st st' :
  (∀ c f s s', recurse c f s = Some s' → ∀ k, visible s'.2 k → visible s.2 k) →
  horizonLoop recurse p ce budget edge st = Some st' →
  ∀ k, visible st'.2 k → visible st.2 k.
Proof.
  intros Hrec. revert edge st.
  induction budget as [|budget IH]; intros edge [hz h] H k Hk; [done|].
  cbn [horizonLoop] in H.
  apply bind_Some in H as (ed & _ & H). apply bind_Some in H as (tw & _ & H).
  apply bind_Some in H as (td & _ & H). apply bind_Some in H as (opp & _ & H).
  apply bind_Some in H as (st1 & E1 & H).
  apply bind_Some in H as (ed1 & _ & H). apply bind_Some in H as (n & _ & H).
  assert (H1 : ∀ k, visible st1.2 k → visible h k).
  { intros k' Hk'. destruct (bool_decide (Face.mark opp = Visible)).
    - destruct (gtb (Face.distanceToPoint opp p) (tolerance h)).
      + by apply (Hrec _ _ _ _ E1).
      + by injection E1 as <-.
    - by injection E1 as <-. }
  destruct (bool_decide (n = ce)).
  - injection H as <-. by apply H1.
  - apply H1. by apply (IH _ _ H).
Qed.

Lemma _computeHorizon_mono fuel p ce f st st' :
  _computeHorizon fuel p ce f st = Some st' →
  ∀ k, visible st'.2 k → visible st.2 k ∧ k ≠ f.
Proof.
  revert ce f st st'. induction fuel as [|fuel IH]; intros ce f [hz h] st' H k Hk; [done|].
  cbn [_computeHorizon] in H.
  apply bind_Some in H as (h1 & Edel & H).
  apply bind_Some in H as (fs & Emark & H).
  apply bind_Some in H as ([edge ce'] & _ & H).
  apply (horizonLoop_mono (_computeHorizon fuel p)) with (k := k) in H; [|by intros; eapply IH|done].
  simpl in H. apply (visible_mark h1 f fs k Emark) in H as [H Hne].
  split; [|done]. simpl. apply (visible_view h1 h); [|done].
  symmetry. by eapply _deleteFaceVertices_mesh.
Qed.


(** * The references of the store *)

(** The head of every half-edge of the store is a vertex node. *)
Definition edgesValid (h : ConvexHull) : Prop :=
  ∀ e ed, halfEdges h !! e = Some ed →
          (HalfEdge.vertex ed < length (vertexNodes h))%nat.

(** The face array holds faces of the store, each of them once, and the
    head of every half-edge is a vertex node. *)
Definition storeInv (h : ConvexHull) : Prop :=
  NoDup (faces h) ∧
  (∀ f, f ∈ faces h → (f < length (faceObjs h))%nat) ∧
  edgesValid h.

Lemma edgesValid_shape h h' :
  map edgeShape (halfEdges h') = map edgeShape (halfEdges h) →
  length (vertexNodes h') = length (vertexNodes h) →
  edgesValid h → edgesValid h'.
Proof.
  intros Hsh Hlen Hv e ed' He'. symmetry in Hsh.
  destruct (edgeShape_lookup _ _ _ _ Hsh He') as (ed & He & Heq).
  apply edgeShape_fields in Heq as (Hvx & _). rewrite Hlen, <- Hvx. by eapply Hv.
Qed.

Lemma storeInv_meshView h h' : meshView h' = meshView h → storeInv h → storeInv h'.
Proof.
  unfold meshView. intros [= _ Hf _ _ Hes Hfs Hns] (Hnd & Hval & Hev).
  assert (Hlf : length (faceObjs h') = length (faceObjs h)).
  { by rewrite <- (length_map faceShape), Hfs, length_map. }
  assert (Hln : length (vertexNodes h') = length (vertexNodes h)).
  { by rewrite <- (length_map VertexNode.point), Hns, length_map. }
  split_and!.
  - by rewrite Hf.
  - rewrite Hf, Hlf. done.
  - apply (edgesValid_shape h); [by rewrite Hes|done|done].
Qed.

Lemma storeInv_geomView h h' : geomView h' = geomView h → storeInv h → storeInv h'.
Proof.
  unfold geomView. intros [= _ Hf _ _ Hes Hfs Hns] (Hnd & Hval & Hev).
  assert (Hlf : length (faceObjs h') = length (faceObjs h)).
  { by rewrite <- (length_map planeView), Hfs, length_map. }
  assert (Hln : length (vertexNodes h') = length (vertexNodes h)).
  { by rewrite <- (length_map VertexNode.point), Hns, length_map. }
  split_and!.
  - by rewrite Hf.
  - rewrite Hf, Hlf. done.
  - apply (edgesValid_shape h); [by rewrite Hes|done|done].
Qed.

Lemma Face_create_alloc three a b c h f h' :
  Face_create three a b c h = Some (f, h') →
  f = length (faceObjs h) ∧
  length (faceObjs h') = S (length (faceObjs h)) ∧
  vertexView h' = vertexView h ∧
  (edgesValid h → edgesValid h').
Proof.
  intros H. apply Face_create_inv in H as (va & vb & vc & Ha & Hb & Hc & -> & ->).
  split_and!; [done|apply withFace_length|done|].
  intros Hv e ed He. apply withFace_edge in He as [He|(i & Hi & _ & He)].
  - by apply (Hv e ed).
  - apply lookup_lt_Some in Ha, Hb, Hc.
    destruct i as [|[|[|i]]]; [| | |lia]; simpl in He; injection He as <-; done.
Qed.

Lemma createTetrahedron_alloc three outward v0 v1 v2 v3 h fl h' :
  createTetrahedron three outward v0 v1 v2 v3 h = Some (fl, h') →
  let n := length (faceObjs h) in
  fl = [n; S n; S (S n); S (S (S n))] ∧
  length (faceObjs h') = (n + 4)%nat ∧
  vertexView h' = vertexView h ∧
  (edgesValid h → edgesValid h').
Proof.
  intros H n. unfold createTetrahedron in H.
  destruct outward; inv_opt;
    repeat match goal with
    | E : Face_create _ _ _ _ _ = Some _ |- _ =>
        apply Face_create_alloc in E as (? & ? & ? & ?)
    end; subst; subst n;
    (split_and!; [repeat f_equal; lia|lia|congruence|eauto]).
Qed.

Lemma joinEdges_edges fa i fb j h h' :
  joinEdges fa i fb j h = Some h' → ∃ es, h' = set_halfEdges es h.
Proof. unfold joinEdges. intros H. inv_opt. by eexists. Qed.

Lemma joinTetrahedron_edges outward fl ixs h h' :
  joinTetrahedron outward fl ixs h = Some h' → ∃ es, h' = set_halfEdges es h.
Proof.
  revert h. induction ixs as [|i ixs IH]; intros h H; cbn [joinTetrahedron] in H.
  - injection H as <-. exists (halfEdges h). by destruct h.
  - apply bind_Some in H as (f0 & _ & H). apply bind_Some in H as (fi & _ & H).
    apply bind_Some in H as (fj & _ & H). apply bind_Some in H as (h1 & Ejoin & H).
    destruct (IH _ H) as (es & ->).
    assert (∃ es1, h1 = set_halfEdges es1 h) as (es1 & ->).
    { destruct outward; apply bind_Some in Ejoin as (h0 & E1 & E2);
        apply joinEdges_edges in E1 as (es1 & ->);
        apply joinEdges_edges in E2 as (es2 & ->); by exists es2. }
    by exists es.
Qed.

Lemma initialAssign_mesh v0 v1 v2 v3 vs h h' :
  initialAssign v0 v1 v2 v3 vs h = Some h' → meshView h' = meshView h.
Proof.
  revert h. induction vs as [|vertex vs IH]; intros h H; cbn [initialAssign] in H.
  - by injection H as <-.
  - apply bind_Some in H as (h1 & E1 & H). rewrite (IH _ H).
    destruct (_ && _); [|by injection E1 as <-].
    apply bind_Some in E1 as (p & _ & E1). apply bind_Some in E1 as ([f|] & _ & E1).
    + by eapply _addVertexToFace_mesh.
    + by injection E1 as <-.
Qed.

Lemma _computeInitialHull_alloc three h h' :
  _computeInitialHull three h = Some h' →
  let n := length (faceObjs h) in
  faces h' = faces h ++ [n; S n; S (S n); S (S (S n))] ∧
  length (faceObjs h') = (n + 4)%nat ∧
  length (vertexNodes h') = length (vertexNodes h) ∧
  (edgesValid h → edgesValid h').
Proof.
  intros H n. unfold _computeInitialHull in H.
  apply bind_Some in H as ([e h1] & Eext & H).
  apply _computeExtremes_inv in Eext as ->.
  cbv zeta in H.
  apply bind_Some in H as (index & _ & H).
  apply bind_Some in H as (v0 & _ & H). apply bind_Some in H as (v1 & _ & H).
  apply bind_Some in H as (p0 & _ & H). apply bind_Some in H as (p1 & _ & H).
  apply bind_Some in H as (ov2 & _ & H). apply bind_Some in H as (v2 & _ & H).
  apply bind_Some in H as (p2 & _ & H).
  apply bind_Some in H as (ov3 & _ & H). apply bind_Some in H as (v3 & _ & H).
  apply bind_Some in H as (p3 & _ & H).
  apply bind_Some in H as ([fl h2] & Etetra & H).
  apply bind_Some in H as (h3 & Ejoin & H).
  apply createTetrahedron_alloc in Etetra as (-> & Hlen2 & Hview2 & Hev2).
  pose proof (joinTetrahedron_input _ _ _ _ _ Ejoin) as Hin3.
  pose proof (joinTetrahedron_edgeShape _ _ _ _ _ Ejoin) as Hes3.
  apply initialAssign_mesh in H. unfold meshView in H. simpl in H.
  injection H as _ Hf _ _ Hes Hfs Hns.
  unfold vertexView in Hview2. simpl in Hview2.
  injection Hview2 as _ Hf2 _ _ _ _ Hns2.
  assert (Hj : faces h3 = faces h2 ∧ faceObjs h3 = faceObjs h2 ∧
               vertexNodes h3 = vertexNodes h2).
  { by apply joinTetrahedron_edges in Ejoin as (es & ->). }
  destruct Hj as (Hf3 & Hfs3 & Hns3).
  assert (Hln : length (vertexNodes h') = length (vertexNodes h)).
  { rewrite <- (length_map VertexNode.point), Hns, length_map. congruence. }
  split_and!.
  - rewrite Hf, Hf3, Hf2. done.
  - rewrite <- (length_map faceShape), Hfs, length_map, Hfs3. exact Hlen2.
  - done.
  - intros Hv. apply (edgesValid_shape h2); [by rewrite Hes, Hes3|congruence|].
    by apply Hev2.
Qed.

(** ** _reindexFaces *)

Lemma _reindexFaces_filter (h : ConvexHull) :
  (∀ f, f ∈ faces h → is_Some (faceObjs h !! f)) →
  _reindexFaces h =
  Some (set_faces (filter (λ f, Face.mark <$> faceObjs h !! f = Some Visible) (faces h)) h).
Proof.
  unfold _reindexFaces. intros Hval.
  set (loop := fix loop (fs : list fref) : option (list fref) :=
                 match fs with
                 | [] => Some []
                 | face :: fs =>
                     f ← faceObjs h !! face;
                     rest ← loop fs;
                     Some (if bool_decide (Face.mark f = Visible)
                           then face :: rest else rest)
                 end).
  assert (Hloop : ∀ fs, (∀ f, f ∈ fs → is_Some (faceObjs h !! f)) →
            loop fs = Some (filter (λ f, Face.mark <$> faceObjs h !! f = Some Visible) fs)).
  { induction fs as [|face fs IH]; intros Hfs; [done|].
    cbn [loop]. fold loop. destruct (Hfs face ltac:(by left)) as [F HF].
    rewrite HF. simpl. rewrite IH by (intros; apply Hfs; by right). simpl.
    rewrite filter_cons. f_equal.
    destruct (decide (Face.mark F = Visible)) as [Hm|Hm].
    - rewrite bool_decide_eq_true_2 by done. rewrite decide_True; [done|].
      by rewrite HF; simpl; rewrite Hm.
    - rewrite bool_decide_eq_false_2 by done. rewrite decide_False; [done|].
      rewrite HF. simpl. congruence. }
  by rewrite Hloop.
Qed.

Lemma storeInv_new : storeInv newConvexHull.
Proof.
  split_and!; [constructor| |].
  - intros f Hf. by apply elem_of_nil in Hf.
  - intros e ed He. done.
Qed.

Lemma _addNewFaces_storeInv three v hz h h' :
  _addNewFaces three v hz h = Some h' → storeInv h → storeInv h'.
Proof.
  intros H (Hnd & Hval & Hev).
  destruct (_addNewFaces_alloc three v hz h h' H) as (_ & _ & Fs & Es & Hgrown & Hadj).
  destruct Hgrown as (Hfaces & Hview & Hfs & HlenF & _ & Hes & HlenE).
  injection Hview as _ _ _ _ Hns.
  split_and!.
  - rewrite Hfaces. apply NoDup_app. split_and!; [done| |apply NoDup_seq].
    intros f Hf Hf'. apply elem_of_seq in Hf'. specialize (Hval f Hf). lia.
  - intros f Hf. rewrite Hfaces in Hf. rewrite Hfs, length_app, HlenF.
    apply elem_of_app in Hf as [Hf|Hf]; [specialize (Hval f Hf); lia|].
    apply elem_of_seq in Hf. lia.
  - intros e ed' He'. rewrite Hns.
    destruct (decide (e < length (halfEdges h))%nat) as [Hlt|Hge].
    + destruct (lookup_lt_is_Some_2 _ _ Hlt) as [ed He].
      destruct (shape_lookup _ _ _ _ _ Hes He) as (ed'' & He'' & Heq).
      assert (ed'' = ed') as -> by congruence.
      apply edgeShape_fields in Heq as (-> & _). by eapply Hev.
    + assert (Hs : Es !! (e - length (halfEdges h))%nat = Some (edgeShape ed')).
      { assert (Hl : map edgeShape (halfEdges h') !! e = Some (edgeShape ed')).
        { change (map edgeShape (halfEdges h')) with (edgeShape <$> halfEdges h').
          by rewrite list_lookup_fmap, He'. }
        rewrite Hes in Hl. rewrite lookup_app_r in Hl by (rewrite length_map; lia).
        by rewrite length_map in Hl. }
      destruct (edge_slot (e - length (halfEdges h))) as (i & j & Heq & Hj).
      rewrite Heq in Hs.
      assert (Hi : (i < length hz)%nat).
      { apply lookup_lt_Some in Hs. lia. }
      destruct (lookup_lt_is_Some_2 hz i Hi) as [he Hhe].
      destruct (Hadj i he Hhe) as (tl & hd & _ & _ & Hv & Htl & Hhd & Hedges).
      rewrite (Hedges j Hj) in Hs.
      apply lookup_lt_is_Some in Hv, Htl, Hhd.
      destruct j as [|[|[|j]]]; [| | |lia]; simpl in Hs; injection Hs as Hs _ _ _;
        by rewrite <- Hs.
Qed.

(** The invariant holds at every point of a construction. *)
Lemma reach_storeInv three pt h : reach three pt h → storeInv h.
Proof.
  intros Hreach. induction Hreach as
    [ | points h0 h Hr IH Hlen Hinit
      | h v ev f h' Hr IH Hnext Hev Hf Hrem
      | fuel h v ev f hz h' Hr IH Hev Hf Hhz
      | h v hz h' Hr IH Hfaces
      | fuel h v h' Hr IH Hres
      | h h' Hr IH Hnext Hre ].
  - apply storeInv_new.
  - destruct IH as (_ & _ & Hv0).
    destruct (_computeInitialHull_alloc _ _ _ Hinit) as (Hf & Hlf & Hln & Hv).
    rewrite pushVertexNodes_spec in Hf, Hlf, Hln, Hv. simpl in Hf, Hlf, Hln.
    split_and!.
    + rewrite Hf.
      repeat (apply NoDup_cons; split; [rewrite ?elem_of_cons, elem_of_nil; lia|]).
      constructor.
    + intros f. rewrite Hf, Hlf. rewrite !elem_of_cons, elem_of_nil. lia.
    + apply Hv. intros e ed He. simpl in *. rewrite length_app.
      specialize (Hv0 e ed He). lia.
  - apply (storeInv_meshView (set_unassigned (VertexList.clear (unassigned h)) h)).
    + by eapply _removeVertexFromFace_mesh.
    + exact IH.
  - apply reach_pointInv in Hr as (Hm & (rs & u & Hinv & Hun) & _ & ev' & f' & Hev' & Hf' & Hvis & Hsees).
    assert (ev' = ev) as -> by congruence. assert (f' = f) as -> by congruence.
    destruct (_computeHorizon_top fuel h _ f rs u hz h' Hm Hinv Hun Hvis Hsees Hhz)
      as (_ & Hg & _).
    by apply (storeInv_geomView h).
  - by eapply _addNewFaces_storeInv.
  - apply (storeInv_meshView h); [by eapply _resolveUnassignedPoints_mesh|done].
  - destruct IH as (Hnd & Hval & Hv).
    rewrite _reindexFaces_filter in Hre.
    2: { intros f Hf. apply lookup_lt_is_Some. by apply Hval. }
    injection Hre as <-. split_and!; simpl.
    + by apply NoDup_filter.
    + intros f Hf. apply list_elem_of_filter in Hf as [_ Hf]. by apply Hval.
    + exact Hv.
Qed.

(** X22.  [_reindexFaces()] completes when every face of the face array is in
    the store; the face array is then made of its visible faces, in the
    same order, and nothing else of the hull changes; a second call changes
    nothing. *)
Theorem _reindexFaces_keeps_visible_faces (h : ConvexHull) :
  (∀ f, f ∈ faces h → is_Some (faceObjs h !! f)) →
  ∃ h',
    _reindexFaces h = Some h' ∧
    h' = set_faces (filter (λ f, Face.mark <$> faceObjs h !! f = Some Visible)
                     (faces h)) h ∧
    (∀ f, f ∈ faces h' ↔ f ∈ faces h ∧ visible h f) ∧
    faces h' `sublist_of` faces h ∧
    _reindexFaces h' = Some h'.
Proof.
  intros Hval. rewrite (_reindexFaces_filter h Hval).
  set (keep := filter (λ f, Face.mark <$> faceObjs h !! f = Some Visible) (faces h)).
  assert (Hvis : ∀ f, visible h f ↔ Face.mark <$> faceObjs h !! f = Some Visible).
  { intros f. unfold visible. split.
    - intros (F & -> & HF). simpl. by rewrite HF.
    - destruct (faceObjs h !! f) as [F|]; [|done]. simpl. intros [= HF]. by exists F. }
  eexists. split; [done|]. split_and!.
  - done.
  - intros f. simpl. unfold keep. rewrite list_elem_of_filter, Hvis. tauto.
  - simpl. apply sublist_filter.
  - rewrite _reindexFaces_filter; simpl.
    + f_equal. unfold set_faces. simpl. f_equal.
      apply list_filter_filter_l. done.
    + intros f Hf. apply Hval. unfold keep in Hf. by apply list_elem_of_filter in Hf as [_ ?].
Qed.

(** * The finished hull *)

Lemma _computeInitialHull_vertices three h h' :
  _computeInitialHull three h = Some h' →
  vertices h' = vertices h ∧
  map VertexNode.point (vertexNodes h') = map VertexNode.point (vertexNodes h).
Proof.
  intros H. unfold _computeInitialHull in H.
  apply bind_Some in H as ([e h1] & Eext & H).
  apply _computeExtremes_inv in Eext as ->. cbv zeta in H.
  inv_opt.
  all: facts_of initialAssign_input.
  all: facts_of joinTetrahedron_input.
  all: facts_of (createTetrahedron_input three).
  all: unfold inputView in *; simpl in *; split; congruence.
Qed.

Lemma _compute_vertices three fuel h h' :
  _compute three fuel h = Some h' →
  vertices h' = vertices h ∧
  map VertexNode.point (vertexNodes h') = map VertexNode.point (vertexNodes h).
Proof.
  intros H. unfold _compute in H. inv_opt.
  apply _computeInitialHull_vertices in E as (Hv & Hp).
  facts_of _reindexFaces_input. facts_of (computeLoop_input three).
  unfold inputView in *. simpl in *. split; congruence.
Qed.

(** The vertices of a face of a well-formed store. *)
Lemma faceVertices_store h f :
  meshInv h → edgesValid h → is_Some (faceObjs h !! f) →
  ∃ a b c na nb nc,
    faceVertices h f = [a; b; c] ∧
    HalfEdge_head (halfEdges h) (3 * f)%nat = Some a ∧
    HalfEdge_head (halfEdges h) (3 * f + 1)%nat = Some b ∧
    HalfEdge_head (halfEdges h) (3 * f + 2)%nat = Some c ∧
    vertexNodes h !! a = Some na ∧ vertexNodes h !! b = Some nb ∧
    vertexNodes h !! c = Some nc.
Proof.
  intros (Hsh & _) Hev Hf.
  assert (Hg : ∀ j, (j < 3)%nat → ∃ d n,
            halfEdges h !! (3 * f + j)%nat = Some d ∧
            vertexNodes h !! HalfEdge.vertex d = Some n ∧
            (e ← Face_getEdge h f (Z.of_nat j); HalfEdge_head (halfEdges h) e)
            = Some (HalfEdge.vertex d)).
  { intros j Hj. rewrite (Face_getEdge_shape h f j) by done. simpl.
    destruct (proj2 (shapeInv_edge_valid h f j Hsh Hj) Hf) as [d Hd].
    destruct (lookup_lt_is_Some_2 _ _ (Hev _ _ Hd)) as [n Hn].
    exists d, n. split_and!; [done|done|]. unfold HalfEdge_head. by rewrite Hd. }
  destruct (Hg 0%nat) as (d0 & n0 & G0 & N0 & E0); [lia|].
  destruct (Hg 1%nat) as (d1 & n1 & G1 & N1 & E1); [lia|].
  destruct (Hg 2%nat) as (d2 & n2 & G2 & N2 & E2); [lia|].
  exists (HalfEdge.vertex d0), (HalfEdge.vertex d1), (HalfEdge.vertex d2), n0, n1, n2.
  rewrite Nat.add_0_r in G0. unfold HalfEdge_head. rewrite G0, G1, G2.
  split_and!; try done.
  unfold faceVertices.
  change [0; 1; 2]%Z with [Z.of_nat 0; Z.of_nat 1; Z.of_nat 2].
  cbn [omap list_omap]. by rewrite E0, E1, E2.
Qed.

(** X23.  When [setFromPoints], on a new hull or on a hull that an earlier
    call has returned, completes for four points or more, the vertex array
    holds one vertex node for each input point, in the order of the
    input; the tolerance is not negative; [newFaces] and the assigned and
    unassigned lists are empty; and the face array holds each of its faces
    once, every one of them visible, with three vertices that are vertex
    nodes. *)
Theorem setFromPoints_finished_hull (three : Three) (fuel : nat)
  (points : list Vector3) (h0 h : ConvexHull) :
  reach three Idle h0 → (4 <= length points)%nat →
  setFromPoints three fuel points h0 = Some h →
  Forall2 (λ v p, pointOf h v = Some p) (vertices h) points ∧
  NoDup (vertices h) ∧
  0 <= tolerance h ∧
  newFaces h = [] ∧
  VertexList.isEmpty (assigned h) = true ∧
  VertexList.isEmpty (unassigned h) = true ∧
  NoDup (faces h) ∧
  ∀ f, f ∈ faces h →
    visible h f ∧
    ∃ a b c, faceVertices h f = [a; b; c] ∧
             is_Some (pointOf h a) ∧ is_Some (pointOf h b) ∧ is_Some (pointOf h c).
Proof.
  intros Hr Hlen H.
  pose proof (setFromPoints_reach three fuel points h0 h Hr H) as Hr'.
  pose proof (reach_pointInv _ _ _ Hr') as (Hm & _ & Hvis).
  pose proof (reach_storeInv _ _ _ Hr') as (Hnd & Hval & Hev).
  apply setFromPoints_compute in H; [|done].
  destruct (_compute_vertices _ _ _ _ H) as (Hvs & Hps).
  rewrite pushVertexNodes_spec in Hvs, Hps. simpl in Hvs, Hps.
  split_and!.
  - rewrite Hvs. pose proof (pushed_points (vertexNodes h0) points) as Hpp.
    eapply Forall2_impl; [exact Hpp|]. intros v p Hp. simpl in Hp.
    unfold pointOf. rewrite <- list_lookup_fmap in Hp |- *.
    change (VertexNode.point <$> vertexNodes h) with (map VertexNode.point (vertexNodes h)).
    by rewrite Hps.
  - rewrite Hvs. apply NoDup_seq.
  - destruct (_computeExtremes_pushed points h0) as (e & He & _).
    { intros ->. simpl in Hlen. lia. }
    rewrite (_compute_tolerance _ _ _ _ _ _ He H). simpl. apply toleranceOf_nonneg.
  - unfold _compute in H. inv_opt. done.
  - unfold _compute in H. inv_opt. done.
  - unfold _compute in H. inv_opt. done.
  - done.
  - intros f Hf. split; [by apply Hvis|].
    destruct (faceVertices_store h f Hm Hev) as (a & b & c & na & nb & nc & Hfv & _ & _ & _ & Ha & Hb & Hc).
    { apply lookup_lt_is_Some. by apply Hval. }
    exists a, b, c. unfold pointOf. rewrite Ha, Hb, Hc. split_and!; by eauto.
Qed.

(** X24.  When [setFromPoints] on a new hull completes for four points or
    more, every vertex of every face of the hull is one of the vertex
    nodes of the vertex array, and its point is the input point of the
    same index: the hull has no vertex that is not an input point. *)
Theorem hull_vertices_are_input_points (three : Three) (fuel : nat)
  (points : list Vector3) (h : ConvexHull) :
  (4 <= length points)%nat →
  setFromPoints three fuel points newConvexHull = Some h →
  vertices h = seq 0 (length points) ∧
  ∀ f v, f ∈ faces h → v ∈ faceVertices h f →
    v ∈ vertices h ∧ ∃ p, points !! v = Some p ∧ pointOf h v = Some p.
Proof.
  intros Hlen H.
  pose proof (setFromPoints_reach three fuel points _ h (reach_new three) H) as Hr'.
  pose proof (reach_pointInv _ _ _ Hr') as (Hm & _ & Hvis).
  pose proof (reach_storeInv _ _ _ Hr') as (Hnd & Hval & Hev).
  apply setFromPoints_compute in H; [|done].
  destruct (_compute_vertices _ _ _ _ H) as (Hvs & Hps).
  rewrite pushVertexNodes_spec in Hvs, Hps. simpl in Hvs, Hps.
  split; [done|]. intros f v Hf Hv.
  destruct (faceVertices_store h f Hm Hev) as (a & b & c & na & nb & nc & Hfv & _ & _ & _ & Ha & Hb & Hc).
  { apply lookup_lt_is_Some. by apply Hval. }
  assert (Hn : ∃ n, vertexNodes h !! v = Some n).
  { rewrite Hfv in Hv. apply list_elem_of_In in Hv. simpl in Hv.
    destruct Hv as [<-|[<-|[<-|[]]]]; eauto. }
  destruct Hn as (n & Hn).
  assert (Hp : points !! v = Some (VertexNode.point n)).
  { assert (Hid : map VertexNode.point (map VertexNode.new points) = points).
    { rewrite map_map. apply map_id. }
    rewrite Hid in Hps. rewrite <- Hps.
    change (map VertexNode.point (vertexNodes h))
      with (VertexNode.point <$> vertexNodes h). by rewrite list_lookup_fmap, Hn. }
  split.
  - rewrite Hvs. apply elem_of_seq. apply lookup_lt_Some in Hp. lia.
  - exists (VertexNode.point n). split; [done|]. unfold pointOf. by rewrite Hn.
Qed.

(** ** HalfEdge.lengthSquared *)

(** [lengthSquared()] *)
Definition HalfEdge_lengthSquared (h : ConvexHull) (e : eref) : option Q :=
  head ← HalfEdge_head (halfEdges h) e;
  tail ← HalfEdge_tail (halfEdges h) e;
  match tail with
  | Some tail =>
      vt ← vertexNodes h !! tail;
      vh ← vertexNodes h !! head;
      Some (distanceToSquared (VertexNode.point vt) (VertexNode.point vh))
  | None => Some (-1)
  end.

Lemma distanceToSquared_nonneg a b : 0 <= distanceToSquared a b.
Proof.
  unfold distanceToSquared, lengthSq, dot, subVectors. simpl.
  generalize (x a - x b), (y a - y b), (z a - z b). intros u v w. nra.
Qed.

(** X25.  At every point of a construction, every half-edge of the store has
    a tail, which is the head of its [prev] half-edge in the same face, so
    that [lengthSquared()] never returns -1: it is the squared distance
    between the points of the tail and of the head, and is not negative. *)
Theorem HalfEdge_lengthSquared_of_hull_edge (three : Three) (pt : Point)
  (h : ConvexHull) (e : eref) :
  reach three pt h → is_Some (halfEdges h !! e) →
  ∃ tl hd ptl phd,
    HalfEdge_tail (halfEdges h) e = Some (Some tl) ∧
    HalfEdge_head (halfEdges h) e = Some hd ∧
    pointOf h tl = Some ptl ∧ pointOf h hd = Some phd ∧
    HalfEdge_lengthSquared h e = Some (distanceToSquared ptl phd) ∧
    0 <= distanceToSquared ptl phd.
Proof.
  intros Hr [ed He].
  pose proof (reach_pointInv _ _ _ Hr) as ((Hsh & _) & _).
  pose proof (reach_storeInv _ _ _ Hr) as (_ & _ & Hev).
  destruct (HalfEdge_tail_valid h e Hsh ltac:(by eexists)) as (tl & Htl).
  assert (Htl' := Htl). unfold HalfEdge_tail in Htl'. rewrite He in Htl'. simpl in Htl'.
  destruct (HalfEdge.prev ed) as [p|]; [|done].
  destruct (halfEdges h !! p) as [pd|] eqn:Hp; [|done]. simpl in Htl'.
  injection Htl' as <-.
  destruct (lookup_lt_is_Some_2 _ _ (Hev _ _ Hp)) as [nt Hnt].
  destruct (lookup_lt_is_Some_2 _ _ (Hev _ _ He)) as [nh Hnh].
  exists (HalfEdge.vertex pd), (HalfEdge.vertex ed), (VertexNode.point nt), (VertexNode.point nh).
  unfold HalfEdge_lengthSquared, pointOf, HalfEdge_head. rewrite Htl, He, Hnt, Hnh. simpl.
  rewrite Hnt, Hnh. split_and!; try done. apply distanceToSquared_nonneg.
Qed.

(** * One step of the loop: _addVertexToHull *)

Lemma faceVertices_heads h h' Es f :
  meshInv h → edgesValid h → meshInv h' → edgesValid h' →
  map edgeShape (halfEdges h') = map edgeShape (halfEdges h) ++ Es →
  is_Some (faceObjs h !! f) → is_Some (faceObjs h' !! f) →
  faceVertices h' f = faceVertices h f.
Proof.
  intros Hm Hv Hm' Hv' Hsh Hf Hf'.
  destruct (faceVertices_store h f Hm Hv Hf)
    as (a & b & c & _ & _ & _ & -> & Ha & Hb & Hc & _).
  destruct (faceVertices_store h' f Hm' Hv' Hf')
    as (a' & b' & c' & _ & _ & _ & -> & Ha' & Hb' & Hc' & _).
  rewrite (HalfEdge_head_shape _ _ _ _ _ Hsh Ha) in Ha'.
  rewrite (HalfEdge_head_shape _ _ _ _ _ Hsh Hb) in Hb'.
  rewrite (HalfEdge_head_shape _ _ _ _ _ Hsh Hc) in Hc'.
  congruence.
Qed.

Lemma visible_meshView h h' k : meshView h' = meshView h → visible h' k ↔ visible h k.
Proof. intros Hv. split; apply visible_view; done. Qed.

Lemma faceObjs_length_meshView h h' :
  meshView h' = meshView h → length (faceObjs h') = length (faceObjs h).
Proof.
  unfold meshView. intros [= _ _ _ _ _ Hfs _].
  apply (f_equal length) in Hfs. by rewrite !length_map in Hfs.
Qed.

Lemma faceObjs_length_geomView h h' :
  geomView h' = geomView h → length (faceObjs h') = length (faceObjs h).
Proof.
  unfold geomView. intros [= _ _ _ _ _ Hfs _].
  apply (f_equal length) in Hfs. by rewrite !length_map in Hfs.
Qed.

Lemma _resolveUnassignedPoints_members fuel newFaces h rs u h' :
  assignedInv h rs → unassignedInv h rs u →
  _resolveUnassignedPoints fuel newFaces h = Some h' →
  ∃ rs', assignedInv h' rs' ∧ ∀ v, v ∈ members rs' → v ∈ members rs ++ u.
Proof.
  intros Hinv [HU Hnd] H. unfold _resolveUnassignedPoints, VertexList.isEmpty in H.
  destruct HU as (_ & Hh & _ & Hs).
  destruct u as [|v c]; simpl in Hh.
  - rewrite Hh, bool_decide_eq_true_2 in H by done. injection H as <-. exists rs.
    split; [done|]. intros v Hv. by rewrite app_nil_r.
  - rewrite Hh, bool_decide_eq_false_2 in H by done.
    unfold VertexList.first in H. rewrite Hh in H. simpl in H.
    destruct (resolveLoop_inv _ _ _ _ _ _ _ _ Hinv Hs Hnd H) as (rs' & Hinv' & Hsub & _).
    by exists rs'.
Qed.

(** X29.  One round of the loop of [_compute].  When
    [_addVertexToHull( eyeVertex )], for the vertex that [_nextVertexToAdd]
    has chosen, returns, it has deleted the face the vertex was assigned to
    and has added at least one new face; the new faces are the last ones of
    the store, are the contents of [newFaces], are appended to the face
    array, are visible, and each of them has the eye vertex as its first
    vertex.  A face that was there keeps its three vertices and is not made
    visible again.  The eye vertex has left the assigned list and no vertex
    has entered it, so that the assigned list is shorter after every round
    that returns. *)
Theorem _addVertexToHull_adds_faces_of_eye_vertex (three : Three) (fuel : nat)
  (v : vref) (h h' : ConvexHull) :
  reach three LoopHead h → _nextVertexToAdd h = Some (Some v) →
  _addVertexToHull three fuel v h = Some h' →
  let k := length (faceObjs h) in
  let outside h := listVertices (vertexNodes h) (assigned h) in
  ∃ f n,
    VertexNode.face <$> vertexNodes h !! v = Some (Some f) ∧
    visible h f ∧ ¬ visible h' f ∧
    (0 < n)%nat ∧
    newFaces h' = seq k n ∧
    faces h' = faces h ++ seq k n ∧
    length (faceObjs h') = (k + n)%nat ∧
    (∀ g, g ∈ newFaces h' → visible h' g ∧ ∃ a b, faceVertices h' g = [v; a; b]) ∧
    (∀ g, (g < k)%nat → visible h' g → visible h g) ∧
    (∀ g, (g < k)%nat → faceVertices h' g = faceVertices h g) ∧
    v ∈ outside h ∧ (v ∉ outside h') ∧
    (∀ u, u ∈ outside h' → u ∈ outside h) ∧
    (length (outside h') < length (outside h))%nat.
Proof.
  intros Hr Hnext H k outside.
  assert (Hr' : reach three LoopHead h') by (by eapply _addVertexToHull_reach).
  unfold _addVertexToHull in H.
  apply bind_Some in H as (ev & Eev & H). apply bind_Some in H as (f & Ef & H).
  apply bind_Some in H as (h1 & Erem & H).
  apply bind_Some in H as (ev1 & Eev1 & H). apply bind_Some in H as (f1 & Ef1 & H).
  apply bind_Some in H as ([hz h2] & Ehz & H).
  apply bind_Some in H as (h3 & Efaces & Hres).
  set (hc := set_unassigned (VertexList.clear (unassigned h)) h) in *.
  assert (Hr1 : reach three (EyeRemoved v) h1).
  { eapply reach_eye; [exact Hr|exact Hnext|exact Eev|exact Ef|exact Erem]. }
  assert (Hr2 : reach three (HorizonDone v hz) h2).
  { eapply reach_horizon; [exact Hr1|exact Eev1|exact Ef1|exact Ehz]. }
  assert (Hr3 : reach three (FacesAdded v) h3).
  { eapply reach_faces; [exact Hr2|exact Efaces]. }
  (* the eye vertex and its face *)
  destruct (reach_pointInv _ _ _ Hr) as (Hm & (rs & Hinv) & Htol).
  destruct rs as [|[g r] rs].
  { rewrite (_nextVertexToAdd_nil h Hinv) in Hnext. done. }
  destruct (_nextVertexToAdd_spec h g r rs Hinv Htol) as (G & v' & HG & Hnext' & Hv & _).
  assert (v' = v) as -> by congruence.
  assert (Hinv0 := Hinv). destruct Hinv0 as (HL & _ & Hok & _).
  apply Forall_cons in Hok as [(G' & HG' & _ & _ & Hmark & Hvs) _]. simpl in HG', Hvs.
  assert (G' = G) as -> by congruence.
  destruct (Hvs v Hv) as (ev' & Hev' & Hf' & Hdist).
  assert (ev' = ev) as -> by (simpl in Eev; congruence).
  assert (f = g) as -> by congruence.
  apply list_elem_of_split in Hv as (r1 & r2 & ->).
  destruct (_removeVertexFromFace_inv hc [] g r1 v r2 rs Hinv)
    as (h1' & Hrem' & Hinv1 & Hv1 & _ & Hu1).
  assert (h1' = h1) as -> by congruence.
  set (rs1 := [] ++ (if decide (r1 ++ r2 = []) then [] else [(g, r1 ++ r2)]) ++ rs) in *.
  assert (Hmem1 : members rs1 = (r1 ++ r2) ++ members rs).
  { unfold rs1. simpl. destruct (decide (r1 ++ r2 = [])) as [->|_]; [done|].
    simpl. by rewrite members_cons. }
  assert (Hout : outside h = (r1 ++ v :: r2) ++ members rs).
  { unfold outside. by rewrite (isList_walk _ _ _ HL), members_cons. }
  assert (Hnd : NoDup ((r1 ++ v :: r2) ++ members rs)).
  { change (NoDup (members ((g, r1 ++ v :: r2) :: rs))). apply HL. }
  assert (Hvn : v ∉ members rs1).
  { rewrite Hmem1. rewrite <- app_assoc in Hnd |- *. apply NoDup_app in Hnd as (_ & Hd & Hnd).
    apply NoDup_cons in Hnd as [Hn _]. simpl in Hd.
    rewrite elem_of_app. intros [Hin|Hin]; [|done].
    apply (Hd v Hin). by left. }
  pose proof (_removeVertexFromFace_mesh _ _ _ _ Erem) as Hmv1.
  assert (Hun1 : unassignedInv h1 rs1 []).
  { split.
    - rewrite Hu1. by apply isList_nil.
    - rewrite app_nil_r. by destruct Hinv1 as ((Hnd1 & _) & _). }
  (* the horizon *)
  destruct (reach_pointInv _ _ _ Hr1)
    as (Hm1 & _ & _ & ev'' & f'' & Hev'' & Hf'' & Hvis1 & Hsees1).
  assert (ev'' = ev1) as -> by congruence. assert (f'' = f1) as -> by congruence.
  assert (ev1 = ev) as -> by (rewrite Hv1 in Eev1; simpl in Eev, Eev1; congruence).
  assert (f1 = g) as -> by congruence.
  destruct (_computeHorizon_top fuel h1 _ g rs1 [] hz h2 Hm1 Hinv1 Hun1 Hvis1 Hsees1 Ehz)
    as (Hm2 & Hg2 & (rs2 & u2 & Hinv2 & Hun2 & Hperm) & Hok2).
  pose proof (_computeHorizon_mono _ _ _ _ _ _ Ehz) as Hmono. simpl in Hmono.
  (* the new faces *)
  destruct (_addNewFaces_inv three v hz h2 h3 Hm2 Hok2 Efaces) as (Hm3 & Hinv3 & Hun3).
  destruct (_addNewFaces_alloc three v hz h2 h3 Efaces)
    as (Hne & Hnew3 & Fs & Es & Hgrown & _).
  destruct Hgrown as (Hfaces3 & _ & Hfs3 & HlenF & _ & Hes3 & _).
  pose proof (_addNewFaces_new_face three v hz h2 h3 Hm2 Hok2 Efaces) as Hface3.
  (* the unassigned vertices *)
  pose proof (_resolveUnassignedPoints_mesh _ _ _ _ Hres) as Hmv'.
  destruct (_resolveUnassignedPoints_members _ _ _ rs2 u2 _ (Hinv3 _ Hinv2)
              (Hun3 _ _ Hun2) Hres) as (rs' & Hinv' & Hsub).
  assert (Hk2 : length (faceObjs h2) = k).
  { rewrite (faceObjs_length_geomView _ _ Hg2), (faceObjs_length_meshView _ _ Hmv1). done. }
  rewrite Hk2 in *.
  assert (Hlen' : length (faceObjs h') = (k + length hz)%nat).
  { rewrite (faceObjs_length_meshView _ _ Hmv'), Hfs3, length_app. lia. }
  assert (Hold : ∀ j, (j < k)%nat → visible h' j → visible h2 j).
  { intros j Hj Hvis. apply (visible_meshView _ _ _ Hmv') in Hvis.
    destruct Hvis as (F & HF & HFm). exists F. split; [|done].
    rewrite Hfs3, lookup_app_l in HF by lia. done. }
  assert (Hgk : (g < k)%nat).
  { unfold k. by eapply lookup_lt_Some. }
  assert (Hfaces' : faces h' = faces h ++ seq k (length hz)).
  { unfold meshView in Hmv', Hmv1. unfold geomView in Hg2.
    injection Hmv' as _ -> _ _ _ _ _. rewrite Hfaces3.
    injection Hg2 as _ -> _ _ _ _ _. injection Hmv1 as _ -> _ _ _ _ _. done. }
  assert (Hnew' : newFaces h' = seq k (length hz)).
  { unfold meshView in Hmv'. injection Hmv' as _ _ -> _ _ _ _. done. }
  assert (Hes' : map edgeShape (halfEdges h') = map edgeShape (halfEdges h) ++ Es).
  { unfold meshView in Hmv', Hmv1. unfold geomView in Hg2.
    injection Hmv' as _ _ _ _ -> _ _. rewrite Hes3.
    injection Hg2 as _ _ _ _ -> _ _. injection Hmv1 as _ _ _ _ -> _ _. done. }
  assert (Hout' : outside h' = members rs').
  { unfold outside. apply isList_walk. apply Hinv'. }
  assert (Hsub' : ∀ u, u ∈ outside h' → u ∈ members rs1).
  { intros u Hu. rewrite Hout' in Hu. apply Hsub in Hu.
    rewrite Hperm, app_nil_r in Hu. done. }
  exists g, (length hz). split_and!.
  - simpl in Eev. rewrite Eev. simpl. by rewrite Ef.
  - by exists G.
  - intros Hvis. apply (Hold _ Hgk), Hmono in Hvis as [_ ?]. done.
  - destruct hz; [done|simpl; lia].
  - done.
  - done.
  - done.
  - intros j Hj. rewrite Hnew' in Hj. apply elem_of_seq in Hj as [Hj1 Hj2].
    destruct (lookup_lt_is_Some_2 hz (j - k)) as [he Hhe]; [lia|].
    destruct (Hface3 _ _ Hhe) as (tl & hd & _ & _ & Hvis & Hfv).
    replace (k + (j - k))%nat with j in Hvis, Hfv by lia. split.
    + by apply (visible_meshView _ _ _ Hmv').
    + exists tl, hd. rewrite <- Hfv.
      destruct (reach_storeInv _ _ _ Hr') as (_ & _ & Hsv').
      destruct (reach_storeInv _ _ _ Hr3) as (_ & _ & Hsv3).
      apply (faceVertices_heads h3 h' []); try done.
      * by apply (reach_pointInv _ _ _ Hr').
      * rewrite app_nil_r. unfold meshView in Hmv'. by injection Hmv' as _ _ _ _ -> _ _.
      * by destruct Hvis as (F & -> & _).
      * apply lookup_lt_is_Some. lia.
  - intros j Hj Hvis. apply (Hold _ Hj), Hmono in Hvis as [Hvis _].
    apply (visible_meshView _ _ _ Hmv1) in Hvis. done.
  - intros j Hj.
    destruct (reach_storeInv _ _ _ Hr') as (_ & _ & Hsv').
    destruct (reach_storeInv _ _ _ Hr) as (_ & _ & Hsv0).
    apply (faceVertices_heads h h' Es); try done.
    + by apply (reach_pointInv _ _ _ Hr').
    + by apply lookup_lt_is_Some.
    + apply lookup_lt_is_Some. lia.
  - rewrite Hout, <- app_assoc. apply elem_of_app. right. by left.
  - intros Hin. by apply Hsub' in Hin.
  - intros u Hu. apply Hsub' in Hu. rewrite Hmem1 in Hu. rewrite Hout.
    rewrite !elem_of_app in Hu |- *. rewrite elem_of_cons. tauto.
  - assert (Hle : (length (outside h') <= length (members rs1))%nat).
    { apply submseteq_length, NoDup_submseteq; [|done].
      rewrite Hout'. apply Hinv'. }
    rewrite Hmem1 in Hle. rewrite Hout. rewrite !length_app in *. simpl. lia.
Qed.

(** * Concrete hulls *)

(** A tetrahedron all of whose face normals are rational, and the same
    tetrahedron with two more points: one in front of the face in the plane
    [y = 0], and one at two to the power -48 below the edge that this face
    shares with the face in the plane [z = 0]. *)
Definition tetraPoints : list Vector3 :=
  [V3 (-3) 0 0; V3 3 0 0; V3 0 2 0; V3 0 0 1].

Definition nearEdgePoint : Vector3 := V3 0 (- (1 # 2 ^ 48)) (- (1 # 2 ^ 48)).

Definition sixPoints : list Vector3 :=
  tetraPoints ++ [V3 0 (-1) (3 # 4); nearEdgePoint].

Definition tetraHull : ConvexHull :=
  default newConvexHull (setFromPoints exactThree 8 tetraPoints newConvexHull).

Definition threeNodes : list VertexNode.t :=
  [VertexNode.new (V3 0 0 0); VertexNode.new (V3 1 0 0); VertexNode.new (V3 0 1 0)].

(** The list 0, 1, 2 built by three calls of [append]. *)
Definition threeList : list VertexNode.t * VertexList.t :=
  default ([], VertexList.new)
    (s ← VertexList.append 0 (threeNodes, VertexList.new);
     s ← VertexList.append 1 s;
     VertexList.append 2 s).

Lemma threeList_isList : isList threeList.1 threeList.2 [0; 1; 2]%nat.
Proof.
  split_and!.
  - by apply (bool_decide_unpack _).
  - reflexivity.
  - reflexivity.
  - simpl. repeat (eexists; split_and!; try reflexivity).
Qed.

Lemma distanceToPoint_and_plane_constant_witness :
  ∃ face h' f,
    Face_create exactThree 0 1 2 (pushVertexNodes tetraPoints newConvexHull)
    = Some (face, h') ∧
    faceObjs h' !! face = Some f ∧
    Face.normal f = exact_getNormal (V3 0 2 0) (V3 (-3) 0 0) (V3 3 0 0) ∧
    z (Face.normal f) == 1 ∧
    Face.midpoint f = exact_getMidpoint (V3 0 2 0) (V3 (-3) 0 0) (V3 3 0 0) ∧
    Face.constant f = dot (Face.normal f) (Face.midpoint f) ∧
    Face.distanceToPoint f (Face.midpoint f) == 0.
Proof.
  destruct (distanceToPoint_and_plane_constant exactThree 0 1 2
              (pushVertexNodes tetraPoints newConvexHull))
    as (face & h' & f & pa & pb & pc & Hc & Hf & Ha & Hb & Hpc & _ & _ & _ & _
        & Hn & Hm & _ & _ & Hk & _ & Hz); [by eexists..|].
  exists face, h', f. injection Ha as <-. injection Hb as <-. injection Hpc as <-.
  split_and!; try done. rewrite Hn. reflexivity.
Defined.

Lemma setFromPoints_few_points_witness :
  setFromPoints exactThree 0 [V3 1 2 3] newConvexHull = Some newConvexHull ∧
  (faces newConvexHull = [] → ∀ point, containsPoint newConvexHull point = true).
Proof.
  apply (setFromPoints_few_points exactThree 0 [V3 1 2 3] newConvexHull).
  simpl. lia.
Defined.

(** C2, as stated, fails twice: on a new instance the face list is empty
    after [setFromPoints] with one point, but [containsPoint] is then [true];
    and on an instance that holds the tetrahedron, [setFromPoints] with no
    point leaves its four faces in place. *)
Lemma setFromPoints_few_points_counterexample :
  (∃ h', setFromPoints exactThree 0 [V3 1 2 3] newConvexHull = Some h' ∧
         faces h' = [] ∧ containsPoint h' (V3 5 5 5) = true) ∧
  (∃ h', setFromPoints exactThree 0 [] tetraHull = Some h' ∧
         length (faces h') = 4%nat ∧
         containsPoint h' (V3 5 5 5) = false ∧
         containsPoint h' (V3 0 (1 # 2) (1 # 4)) = true).
Proof.
  split.
  - exists newConvexHull. by vm_compute.
  - exists tetraHull. by vm_compute.
Qed.

Lemma remove_leaves_removed_vertex_links_witness :
  ∃ node ns' L',
    VertexList.remove 1 threeList = Some (ns', L') ∧
    threeList.1 !! 1%nat = Some node ∧ ns' !! 1%nat = Some node ∧
    VertexNode.prev node = Some 0%nat ∧ VertexNode.next node = Some 2%nat ∧
    (∀ u, Some 0%nat ≠ Some u → Some 2%nat ≠ Some u → ns' !! u = threeList.1 !! u) ∧
    (∀ p, Some 0%nat = Some p →
          ns' !! p = VertexNode.set_next (Some 2%nat) <$> threeList.1 !! p) ∧
    (∀ q, Some 2%nat = Some q →
          ns' !! q = VertexNode.set_prev (Some 0%nat) <$> threeList.1 !! q) ∧
    isList ns' L' [0; 2]%nat.
Proof.
  apply (remove_leaves_removed_vertex_links threeList.1 threeList.2 [0%nat] 1 [2%nat]).
  apply threeList_isList.
Defined.

(** The construction on [sixPoints], point by point: the initial
    tetrahedron, to whose face 1 the vertex 4 is assigned; the removal of
    the eye vertex 4 from its face; the horizon, which is made of the
    three half-edges of the face 1; the three new faces; and the
    resolution of the unassigned vertices. *)
Definition sixStart : ConvexHull := pushVertexNodes sixPoints (makeEmpty newConvexHull).

Definition sixInitial : ConvexHull :=
  default newConvexHull (_computeInitialHull exactThree sixStart).

Definition sixEyeRemoved : ConvexHull :=
  default newConvexHull
    (_removeVertexFromFace 4 1
       (set_unassigned (VertexList.clear (unassigned sixInitial)) sixInitial)).

Definition sixHorizon : list eref * ConvexHull :=
  default ([], newConvexHull)
    (_computeHorizon 8 (V3 0 (-1) (3 # 4)) None 1 ([], sixEyeRemoved)).

Definition sixFacesAdded : ConvexHull :=
  default newConvexHull (_addNewFaces exactThree 4 sixHorizon.1 sixHorizon.2).

Definition sixHull : ConvexHull :=
  default newConvexHull (setFromPoints exactThree 8 sixPoints newConvexHull).

Lemma sixInitial_reach : reach exactThree LoopHead sixInitial.
Proof.
  apply (reach_initial exactThree sixPoints newConvexHull).
  - apply reach_new.
  - simpl. lia.
  - by vm_compute.
Qed.

Lemma sixEyeRemoved_reach : reach exactThree (EyeRemoved 4) sixEyeRemoved.
Proof.
  eapply (reach_eye exactThree sixInitial 4 _ 1).
  - apply sixInitial_reach.
  - by vm_compute.
  - by vm_compute.
  - reflexivity.
  - by vm_compute.
Qed.

Lemma sixHorizon_reach : reach exactThree (HorizonDone 4 sixHorizon.1) sixHorizon.2.
Proof.
  eapply (reach_horizon exactThree 8 sixEyeRemoved 4 _ 1).
  - apply sixEyeRemoved_reach.
  - by vm_compute.
  - reflexivity.
  - by vm_compute.
Qed.

Lemma sixFacesAdded_reach : reach exactThree (FacesAdded 4) sixFacesAdded.
Proof.
  eapply (reach_faces exactThree sixHorizon.2 4 sixHorizon.1).
  - apply sixHorizon_reach.
  - by vm_compute.
Qed.

Lemma sixHull_reach : reach exactThree Idle sixHull.
Proof.
  apply (setFromPoints_reach exactThree 8 sixPoints newConvexHull).
  - apply reach_new.
  - by vm_compute.
Qed.



Lemma twin_links_and_edge_cycles_witness :
  (∀ e ed t,
     halfEdges sixFacesAdded !! e = Some ed → HalfEdge.twin ed = Some t →
     visible sixFacesAdded (HalfEdge.face ed) →
     ∃ td, halfEdges sixFacesAdded !! t = Some td ∧ HalfEdge.twin td = Some e) ∧
  (∀ k, is_Some (faceObjs sixFacesAdded !! k) → closedCycle sixFacesAdded k).
Proof.
  destruct (twin_links_and_edge_cycles exactThree (FacesAdded 4) sixFacesAdded)
    as (_ & _ & Htwin & Hcycle).
  - apply sixFacesAdded_reach.
  - split; [exact Htwin|exact Hcycle].
Defined.

(** C8, as stated, fails for the half-edges of a deleted face: after the
    new faces have been added, the face 1 is deleted and still in the face
    list; the twin of its half-edge 3 is the half-edge 7, and the twin of
    the half-edge 7 is the half-edge 14 of the new face 4.  In the
    finished hull the face 1 is not in the face list any more, but the
    vertex 4 still refers to it, and the half-edge 3 is its edge
    [getEdge( 0 )]. *)
Lemma twin_links_and_edge_cycles_counterexample :
  (reach exactThree (FacesAdded 4) sixFacesAdded ∧
   1%nat ∈ faces sixFacesAdded ∧
   Face.mark <$> faceObjs sixFacesAdded !! 1%nat = Some Deleted ∧
   (λ ed, (HalfEdge.face ed, HalfEdge.twin ed)) <$> halfEdges sixFacesAdded !! 3%nat
     = Some (1%nat, Some 7%nat) ∧
   HalfEdge.twin <$> halfEdges sixFacesAdded !! 7%nat = Some (Some 14%nat)) ∧
  (reach exactThree Idle sixHull ∧
   VertexNode.face <$> vertexNodes sixHull !! 4%nat = Some (Some 1%nat) ∧
   Face_getEdge sixHull 1 0 = Some 3%nat ∧
   HalfEdge.twin <$> halfEdges sixHull !! 3%nat = Some (Some 7%nat) ∧
   HalfEdge.twin <$> halfEdges sixHull !! 7%nat = Some (Some 14%nat)).
Proof.
  split.
  - split; [apply sixFacesAdded_reach|]. split; [|by vm_compute].
    vm_compute. right. by left.
  - split; [apply sixHull_reach|]. by vm_compute.
Qed.



(** ** Lists, runs and hulls for the methods *)

(** ** Lists, runs and hulls for the methods *)

(** The list 0, 1 in the store [threeNodes]: the node 2 is in no list. *)
Definition twoList : list VertexNode.t * VertexList.t :=
  default ([], VertexList.new)
    (s ← VertexList.append 0 (threeNodes, VertexList.new);
     VertexList.append 1 s).

Lemma twoList_isList : isList twoList.1 twoList.2 [0; 1]%nat.
Proof.
  split_and!.
  - by apply (bool_decide_unpack _).
  - reflexivity.
  - reflexivity.
  - simpl. repeat (eexists; split_and!; try reflexivity).
Qed.

(** The list 0 and the chain 1, 2 that [removeSubList( 1, 2 )] has taken
    out of [threeList]. *)
Definition chainList : list VertexNode.t * VertexList.t :=
  default ([], VertexList.new) (VertexList.removeSubList 1 2 threeList).

Lemma chainList_isList : isList chainList.1 chainList.2 [0%nat].
Proof.
  split_and!.
  - by apply (bool_decide_unpack _).
  - reflexivity.
  - reflexivity.
  - simpl. repeat (eexists; split_and!; try reflexivity).
Qed.

Lemma chainList_seg : seg chainList.1 (Some 0%nat) [1; 2]%nat None.
Proof. simpl. repeat (eexists; split_and!; try reflexivity). Qed.

Lemma append_adds_last_vertex_witness :
  ∃ ns' L',
    VertexList.append 2 (twoList.1, twoList.2) = Some (ns', L') ∧
    isList ns' L' ([0; 1] ++ [2])%nat ∧
    listVertices ns' L' = ([0; 1] ++ [2])%nat ∧
    VertexList.last L' = Some 2%nat ∧
    sameData twoList.1 ns' ∧
    (∀ u, u ≠ 2%nat → last [0; 1]%nat ≠ Some u → ns' !! u = twoList.1 !! u).
Proof.
  apply (append_adds_last_vertex twoList.1 twoList.2 [0; 1]%nat 2).
  - apply twoList_isList.
  - by apply (bool_decide_unpack _).
  - by eexists.
Defined.

Lemma insertBefore_puts_before_target_witness :
  ∃ ns' L',
    VertexList.insertBefore 0 2 (twoList.1, twoList.2) = Some (ns', L') ∧
    isList ns' L' (@nil vref ++ 2 :: 0 :: [1])%nat ∧
    listVertices ns' L' = (@nil vref ++ 2 :: 0 :: [1])%nat ∧
    (@nil vref = [] → VertexList.first L' = Some 2%nat) ∧
    sameData twoList.1 ns' ∧
    (∀ u, u ≠ 2%nat → u ≠ 0%nat → last (@nil vref) ≠ Some u → ns' !! u = twoList.1 !! u).
Proof.
  apply (insertBefore_puts_before_target twoList.1 twoList.2 [] 0 [1%nat] 2).
  - apply twoList_isList.
  - by apply (bool_decide_unpack _).
  - by eexists.
Defined.

Lemma insertAfter_puts_after_target_witness :
  ∃ ns' L',
    VertexList.insertAfter 0 2 (twoList.1, twoList.2) = Some (ns', L') ∧
    isList ns' L' (@nil vref ++ 0 :: 2 :: [1])%nat ∧
    listVertices ns' L' = (@nil vref ++ 0 :: 2 :: [1])%nat ∧
    ([1%nat] = [] → VertexList.last L' = Some 2%nat) ∧
    sameData twoList.1 ns' ∧
    (∀ u, u ≠ 2%nat → u ≠ 0%nat → head [1%nat] ≠ Some u → ns' !! u = twoList.1 !! u).
Proof.
  apply (insertAfter_puts_after_target twoList.1 twoList.2 [] 0 [1%nat] 2).
  - apply twoList_isList.
  - by apply (bool_decide_unpack _).
  - by eexists.
Defined.

Lemma removeSubList_takes_run_out_witness :
  ∃ ns' L',
    VertexList.removeSubList 1 2 (threeList.1, threeList.2) = Some (ns', L') ∧
    isList ns' L' ([0%nat] ++ []) ∧
    listVertices ns' L' = [0%nat] ++ [] ∧
    seg ns' (last [0%nat]) [1; 2]%nat (head (@nil vref)) ∧
    sameData threeList.1 ns' ∧
    (∀ u, last [0%nat] ≠ Some u → head (@nil vref) ≠ Some u → ns' !! u = threeList.1 !! u).
Proof.
  apply (removeSubList_takes_run_out threeList.1 threeList.2 [0%nat] 1 [2%nat] 2 []).
  - apply threeList_isList.
  - reflexivity.
Defined.

Lemma appendChain_appends_whole_chain_witness :
  ∃ ns' L',
    VertexList.appendChain 1 (chainList.1, chainList.2) = Some (ns', L') ∧
    isList ns' L' ([0] ++ 1 :: [2])%nat ∧
    listVertices ns' L' = ([0] ++ 1 :: [2])%nat ∧
    VertexList.last L' = last [1; 2]%nat ∧
    sameData chainList.1 ns' ∧
    (∀ u, u ≠ 1%nat → last [0%nat] ≠ Some u → ns' !! u = chainList.1 !! u).
Proof.
  apply (appendChain_appends_whole_chain chainList.1 chainList.2 [0%nat] (Some 0%nat)
           1 [2%nat]).
  - apply chainList_isList.
  - apply chainList_seg.
  - by apply (bool_decide_unpack _).
Defined.

Lemma remove_undoes_insertion_witness :
  let restored (s : option (list VertexNode.t * VertexList.t)) :=
    ∃ ns' L', s = Some (ns', L') ∧ L' = twoList.2 ∧ isList ns' L' [0; 1]%nat ∧
              sameData twoList.1 ns' in
  restored (VertexList.append 2 (twoList.1, twoList.2) ≫= VertexList.remove 2) ∧
  ∀ t, t ∈ [0; 1]%nat →
       restored (VertexList.insertBefore t 2 (twoList.1, twoList.2)
                   ≫= VertexList.remove 2) ∧
       restored (VertexList.insertAfter t 2 (twoList.1, twoList.2)
                   ≫= VertexList.remove 2).
Proof.
  apply (remove_undoes_insertion twoList.1 twoList.2 [0; 1]%nat 2).
  - apply twoList_isList.
  - by apply (bool_decide_unpack _).
  - by eexists.
Defined.

(** The outside runs of the constructions, proved by evaluating the
    concrete hulls. *)
Ltac concrete := vm_compute; first [reflexivity | discriminate | done].

Ltac concrete_seg :=
  cbn [members map snd concat app seg];
  repeat (eexists;
          split; [vm_compute; reflexivity|];
          split; [vm_compute; reflexivity|];
          split; [vm_compute; reflexivity|]);
  exact I.

Ltac concrete_isList :=
  split; [by apply (bool_decide_unpack _)|];
  split; [vm_compute; reflexivity|];
  split; [vm_compute; reflexivity|];
  concrete_seg.

Ltac concrete_run :=
  eexists;
  split; [vm_compute; reflexivity|];
  split; [vm_compute; reflexivity|];
  split; [discriminate|];
  split; [vm_compute; reflexivity|];
  let v := fresh "v" in let Hv := fresh "Hv" in
  intros v Hv; cbn [snd fst] in Hv;
  repeat (apply elem_of_cons in Hv as [-> | Hv];
          [eexists; split; [vm_compute; reflexivity|];
           split; [vm_compute; reflexivity|]; vm_compute; reflexivity|]);
  by apply elem_of_nil in Hv.

Ltac concrete_no_outside_from HF Hf f :=
  first
    [ vm_compute in HF; discriminate HF
    | destruct f as [|f];
      [ first [ vm_compute in HF; injection HF as <-; vm_compute; reflexivity
              | exfalso; apply Hf; apply list_elem_of_In; cbn; tauto ]
      | concrete_no_outside_from HF Hf f ] ].

Ltac concrete_assigned :=
  split; [concrete_isList|];
  split; [by apply (bool_decide_unpack _)|];
  split; [repeat (constructor; [concrete_run|]); constructor|];
  let f := fresh "f" in let F := fresh "F" in
  let HF := fresh "HF" in let Hf := fresh "Hf" in
  intros f F HF Hf; concrete_no_outside_from HF Hf f.

Lemma sixInitial_assigned : assignedInv sixInitial [(1%nat, [4%nat])].
Proof. concrete_assigned. Qed.

Lemma sixInitial_unassigned : unassignedInv sixInitial [(1%nat, [4%nat])] [].
Proof.
  split.
  - apply isList_nil; vm_compute; reflexivity.
  - by apply (bool_decide_unpack _).
Qed.

Lemma sixEyeRemoved_assigned : assignedInv sixEyeRemoved [].
Proof. concrete_assigned. Qed.

Lemma sixEyeRemoved_unassigned : unassignedInv sixEyeRemoved [] [].
Proof. split; [apply isList_nil; vm_compute; reflexivity|constructor]. Qed.

(** A construction with two more vertices in the outside run of the face
    1, the vertices 5 and 6, and one with a further vertex, 7, which is
    outside of the face 2 and farther from it, 89/70, than any vertex of
    the run of the face 1 is from the face 1. *)
Definition sevenPoints : list Vector3 :=
  tetraPoints ++ [V3 0 (-1) (3 # 4); V3 2 (- (1 # 2)) 0; V3 0 (- (1 # 2)) (1 # 2)].

Definition eightPoints : list Vector3 := sevenPoints ++ [V3 (5 # 2) (3 # 2) (9 # 10)].

Definition sevenInitial : ConvexHull :=
  default newConvexHull
    (_computeInitialHull exactThree
       (pushVertexNodes sevenPoints (makeEmpty newConvexHull))).

Definition eightInitial : ConvexHull :=
  default newConvexHull
    (_computeInitialHull exactThree
       (pushVertexNodes eightPoints (makeEmpty newConvexHull))).

Definition sevenEyeRemoved : ConvexHull :=
  default newConvexHull
    (_removeVertexFromFace 4 1
       (set_unassigned (VertexList.clear (unassigned sevenInitial)) sevenInitial)).




Lemma sevenInitial_assigned : assignedInv sevenInitial [(1%nat, [6; 5; 4]%nat)].
Proof. concrete_assigned. Qed.

Lemma eightInitial_assigned :
  assignedInv eightInitial [(1%nat, [6; 5; 4]%nat); (2%nat, [7%nat])].
Proof. concrete_assigned. Qed.

Lemma eightInitial_unassigned :
  unassignedInv eightInitial [(1%nat, [6; 5; 4]%nat); (2%nat, [7%nat])] [].
Proof.
  split.
  - apply isList_nil; vm_compute; reflexivity.
  - by apply (bool_decide_unpack _).
Qed.

Lemma sevenEyeRemoved_assigned : assignedInv sevenEyeRemoved [(1%nat, [6; 5]%nat)].
Proof. concrete_assigned. Qed.



(** The hull when the loop of [_compute] is left, before the faces are
    reindexed. *)
Definition sixLoopDone : ConvexHull :=
  default newConvexHull (computeLoop exactThree 8 sixInitial).

Lemma Face_getEdge_periodic_witness :
  Face_getEdge sixHull 4 (-1) = Some (3 * 4 + Z.to_nat (-1 mod 3))%nat ∧
  Face_getEdge sixHull 4 (-1) = Face_getEdge sixHull 4 (-1 mod 3) ∧
  Face_getEdge sixHull 4 (-1 + 3) = Face_getEdge sixHull 4 (-1).
Proof.
  apply (Face_getEdge_periodic exactThree Idle sixHull 4 (-1)).
  - apply sixHull_reach.
  - vm_compute. eexists. reflexivity.
Defined.

Lemma _reindexFaces_keeps_visible_faces_witness :
  ∃ h',
    _reindexFaces sixFacesAdded = Some h' ∧
    h' = set_faces (filter (λ f, Face.mark <$> faceObjs sixFacesAdded !! f = Some Visible)
                     (faces sixFacesAdded)) sixFacesAdded ∧
    (∀ f, f ∈ faces h' ↔ f ∈ faces sixFacesAdded ∧ visible sixFacesAdded f) ∧
    faces h' `sublist_of` faces sixFacesAdded ∧
    _reindexFaces h' = Some h'.
Proof.
  apply (_reindexFaces_keeps_visible_faces sixFacesAdded).
  intros f Hf. apply lookup_lt_is_Some.
  by apply (reach_storeInv exactThree (FacesAdded 4) sixFacesAdded sixFacesAdded_reach).
Defined.

Lemma computeLoop_leaves_nothing_assigned_witness :
  VertexList.isEmpty (assigned sixLoopDone) = true ∧
  listVertices (vertexNodes sixLoopDone) (assigned sixLoopDone) = [] ∧
  ∀ f F, faceObjs sixLoopDone !! f = Some F → Face.outside F = None.
Proof.
  apply (computeLoop_leaves_nothing_assigned exactThree 8 sixInitial sixLoopDone).
  - apply sixInitial_reach.
  - vm_compute. reflexivity.
Defined.


Lemma _addVertexToFace_front_of_run_witness :
  ∃ h',
    _addVertexToFace 4 1 sevenEyeRemoved = Some h' ∧
    assignedInv h' (pushRun 1 4 [(1%nat, [6; 5]%nat)]) ∧
    listVertices (vertexNodes h') (assigned h') = members (pushRun 1 4 [(1%nat, [6; 5]%nat)]) ∧
    Face.outside <$> faceObjs h' !! 1%nat = Some (Some 4%nat) ∧
    VertexNode.face <$> vertexNodes h' !! 4%nat = Some (Some 1%nat) ∧
    meshView h' = meshView sevenEyeRemoved ∧ unassigned h' = unassigned sevenEyeRemoved ∧
    (∀ u, u ≠ 4%nat → u ∉ members [(1%nat, [6; 5]%nat)] →
          vertexNodes h' !! u = vertexNodes sevenEyeRemoved !! u).
Proof.
  eapply (_addVertexToFace_front_of_run sevenEyeRemoved [(1%nat, [6; 5]%nat)] 4 1).
  - apply sevenEyeRemoved_assigned.
  - by apply (bool_decide_unpack _).
  - vm_compute. reflexivity.
  - vm_compute. reflexivity.
  - vm_compute. reflexivity.
  - vm_compute. reflexivity.
Defined.

Lemma _removeVertexFromFace_undoes_add_witness :
  ∃ h1 h2,
    _addVertexToFace 4 1 sevenEyeRemoved = Some h1 ∧
    _removeVertexFromFace 4 1 h1 = Some h2 ∧
    assignedInv h2 [(1%nat, [6; 5]%nat)] ∧
    assigned h2 = assigned sevenEyeRemoved ∧ unassigned h2 = unassigned sevenEyeRemoved ∧
    meshView h2 = meshView sevenEyeRemoved ∧
    listVertices (vertexNodes h2) (assigned h2) = members [(1%nat, [6; 5]%nat)] ∧
    VertexNode.face <$> vertexNodes h2 !! 4%nat = Some (Some 1%nat).
Proof.
  eapply (_removeVertexFromFace_undoes_add sevenEyeRemoved [(1%nat, [6; 5]%nat)] 4 1).
  - apply sevenEyeRemoved_assigned.
  - by apply (bool_decide_unpack _).
  - vm_compute. reflexivity.
  - vm_compute. reflexivity.
  - vm_compute. reflexivity.
  - vm_compute. reflexivity.
Defined.

Lemma _removeVertexFromFace_moves_outside_witness :
  (∃ h',
     _removeVertexFromFace 6 1 eightInitial = Some h' ∧
     listVertices (vertexNodes h') (assigned h') = [5; 4; 7]%nat ∧
     Face.outside <$> faceObjs h' !! 1%nat = Some (Some 5%nat) ∧
     vertexNodes h' !! 6%nat = vertexNodes eightInitial !! 6%nat) ∧
  (∃ h',
     _removeVertexFromFace 5 1 eightInitial = Some h' ∧
     listVertices (vertexNodes h') (assigned h') = [6; 4; 7]%nat ∧
     Face.outside <$> faceObjs h' !! 1%nat = Some (Some 6%nat)) ∧
  (∃ h',
     _removeVertexFromFace 7 2 eightInitial = Some h' ∧
     listVertices (vertexNodes h') (assigned h') = [6; 5; 4]%nat ∧
     Face.outside <$> faceObjs h' !! 2%nat = Some None).
Proof.
  split_and!.
  - destruct (_removeVertexFromFace_moves_outside eightInitial [] 1 [] 6 [5; 4]%nat
                [(2%nat, [7%nat])] eightInitial_assigned)
      as (h' & E & _ & Hl & Ho & Hv & _).
    exists h'. split; [exact E|]. split; [exact Hl|]. split; [exact Ho|exact Hv].
  - destruct (_removeVertexFromFace_moves_outside eightInitial [] 1 [6%nat] 5 [4%nat]
                [(2%nat, [7%nat])] eightInitial_assigned)
      as (h' & E & _ & Hl & Ho & Hv & _).
    exists h'. split; [exact E|]. split; [exact Hl|exact Ho].
  - destruct (_removeVertexFromFace_moves_outside eightInitial [(1%nat, [6; 5; 4]%nat)]
                2 [] 7 [] [] eightInitial_assigned)
      as (h' & E & _ & Hl & Ho & Hv & _).
    exists h'. split; [exact E|]. split; [exact Hl|exact Ho].
Defined.

Lemma _removeAllVerticesFromFace_detaches_run_witness :
  ∃ start h',
    head [6; 5; 4]%nat = Some start ∧
    _removeAllVerticesFromFace 1 eightInitial = Some (Some start, h') ∧
    assignedInv h' ([] ++ [(2%nat, [7%nat])]) ∧
    listVertices (vertexNodes h') (assigned h') = members [] ++ members [(2%nat, [7%nat])] ∧
    seg (vertexNodes h') None [6; 5; 4]%nat None ∧
    walk (length (vertexNodes h')) (vertexNodes h') (Some start) = [6; 5; 4]%nat ∧
    Face.outside <$> faceObjs h' !! 1%nat = Some None ∧
    sameData (vertexNodes eightInitial) (vertexNodes h') ∧
    meshView h' = meshView eightInitial ∧ unassigned h' = unassigned eightInitial.
Proof.
  eapply (_removeAllVerticesFromFace_detaches_run eightInitial
            [(1%nat, [6; 5; 4]%nat); (2%nat, [7%nat])] 1).
  - apply eightInitial_assigned.
  - vm_compute. reflexivity.
  - reflexivity.
Defined.

Lemma _deleteFaceVertices_moves_run_to_unassigned_witness :
  ∃ h1 h2,
    _deleteFaceVertices 8 2 None eightInitial = Some h1 ∧
    listVertices (vertexNodes h1) (assigned h1) = [6; 5; 4]%nat ∧
    listVertices (vertexNodes h1) (unassigned h1) = [7%nat] ∧
    _deleteFaceVertices 8 1 None h1 = Some h2 ∧
    listVertices (vertexNodes h2) (assigned h2) = [] ∧
    listVertices (vertexNodes h2) (unassigned h2) = [7; 6; 5; 4]%nat ∧
    sameData (vertexNodes eightInitial) (vertexNodes h2) ∧
    meshView h2 = meshView eightInitial.
Proof.
  destruct (_deleteFaceVertices_moves_run_to_unassigned 8 eightInitial
              [(1%nat, [6; 5; 4]%nat); (2%nat, [7%nat])] [] 2
              (default Face.new (faceObjs eightInitial !! 2%nat))
              eightInitial_assigned eightInitial_unassigned) as [_ H1];
    [vm_compute; reflexivity|].
  destruct (H1 [(1%nat, [6; 5; 4]%nat)] [7%nat] [] eq_refl)
    as (h1 & E1 & Hinv1 & Hun1 & Ha1 & Hu1 & Hd1 & Hm1).
  destruct (lookup_lt_is_Some_2 (faceObjs h1) 1) as [F1 HF1].
  { rewrite (faceObjs_length_meshView _ _ Hm1). vm_compute. lia. }
  destruct (_deleteFaceVertices_moves_run_to_unassigned 8 h1 _ _ 1 F1 Hinv1 Hun1 HF1)
    as [_ H2].
  destruct (H2 [] [6; 5; 4]%nat [] eq_refl)
    as (h2 & E2 & Hinv2 & Hun2 & Ha2 & Hu2 & Hd2 & Hm2).
  exists h1, h2.
  split; [exact E1|]. split; [exact Ha1|]. split; [exact Hu1|].
  split; [exact E2|]. split; [exact Ha2|]. split; [exact Hu2|].
  split; [exact (sameData_trans _ _ _ Hd1 Hd2)|].
  exact (eq_trans Hm2 Hm1).
Defined.



Lemma _addNewFaces_one_face_per_horizon_edge_witness :
  let k := length (faceObjs sixHorizon.2) in
  sixHorizon.1 ≠ [] ∧
  newFaces sixFacesAdded = seq k (length sixHorizon.1) ∧
  faces sixFacesAdded = faces sixHorizon.2 ++ seq k (length sixHorizon.1) ∧
  length (faceObjs sixFacesAdded) = (k + length sixHorizon.1)%nat ∧
  (∀ j F, faceObjs sixHorizon.2 !! j = Some F → faceObjs sixFacesAdded !! j = Some F) ∧
  vertexNodes sixFacesAdded = vertexNodes sixHorizon.2 ∧
  meshInv sixFacesAdded ∧
  ∀ i he, sixHorizon.1 !! i = Some he →
    ∃ tl hd,
      HalfEdge_tail (halfEdges sixHorizon.2) he = Some (Some tl) ∧
      HalfEdge_head (halfEdges sixHorizon.2) he = Some hd ∧
      visible sixFacesAdded (k + i) ∧
      faceVertices sixFacesAdded (k + i) = [4%nat; tl; hd].
Proof.
  apply (_addNewFaces_one_face_per_horizon_edge exactThree 4 sixHorizon.1 sixHorizon.2
           sixFacesAdded).
  - apply (reach_pointInv exactThree _ _ sixHorizon_reach).
  - apply (reach_pointInv exactThree _ _ sixHorizon_reach).
  - vm_compute. reflexivity.
Defined.





(** The hull of [sixPoints], built in the instance that holds the hull of
    [tetraPoints]. *)
Definition sixAfterTetra : ConvexHull :=
  default newConvexHull (setFromPoints exactThree 8 sixPoints tetraHull).

Lemma setFromPoints_finished_hull_witness :
  Forall2 (λ v p, pointOf sixAfterTetra v = Some p) (vertices sixAfterTetra) sixPoints ∧
  NoDup (vertices sixAfterTetra) ∧
  0 <= tolerance sixAfterTetra ∧
  newFaces sixAfterTetra = [] ∧
  VertexList.isEmpty (assigned sixAfterTetra) = true ∧
  VertexList.isEmpty (unassigned sixAfterTetra) = true ∧
  NoDup (faces sixAfterTetra) ∧
  ∀ f, f ∈ faces sixAfterTetra →
    visible sixAfterTetra f ∧
    ∃ a b c, faceVertices sixAfterTetra f = [a; b; c] ∧
             is_Some (pointOf sixAfterTetra a) ∧ is_Some (pointOf sixAfterTetra b) ∧
             is_Some (pointOf sixAfterTetra c).
Proof.
  apply (setFromPoints_finished_hull exactThree 8 sixPoints tetraHull sixAfterTetra).
  - apply (setFromPoints_reach exactThree 8 tetraPoints newConvexHull).
    + apply reach_new.
    + vm_compute. reflexivity.
  - simpl. lia.
  - vm_compute. reflexivity.
Defined.

Lemma hull_vertices_are_input_points_witness :
  vertices sixHull = seq 0 (length sixPoints) ∧
  ∀ f v, f ∈ faces sixHull → v ∈ faceVertices sixHull f →
    v ∈ vertices sixHull ∧ ∃ p, sixPoints !! v = Some p ∧ pointOf sixHull v = Some p.
Proof.
  apply (hull_vertices_are_input_points exactThree 8 sixPoints sixHull).
  - simpl. lia.
  - vm_compute. reflexivity.
Defined.

Lemma HalfEdge_lengthSquared_of_hull_edge_witness :
  ∃ tl hd ptl phd,
    HalfEdge_tail (halfEdges sixHull) 14 = Some (Some tl) ∧
    HalfEdge_head (halfEdges sixHull) 14 = Some hd ∧
    pointOf sixHull tl = Some ptl ∧ pointOf sixHull hd = Some phd ∧
    HalfEdge_lengthSquared sixHull 14 = Some (distanceToSquared ptl phd) ∧
    0 <= distanceToSquared ptl phd.
Proof.
  apply (HalfEdge_lengthSquared_of_hull_edge exactThree Idle sixHull 14).
  - apply sixHull_reach.
  - vm_compute. eexists. reflexivity.
Defined.

(** The hull after the only round of the loop on [sixPoints]. *)
Definition sixVertexAdded : ConvexHull :=
  default newConvexHull (_addVertexToHull exactThree 8 4 sixInitial).

Lemma _addVertexToHull_adds_faces_of_eye_vertex_witness :
  let k := length (faceObjs sixInitial) in
  let outside h := listVertices (vertexNodes h) (assigned h) in
  ∃ f n,
    VertexNode.face <$> vertexNodes sixInitial !! 4%nat = Some (Some f) ∧
    visible sixInitial f ∧ ¬ visible sixVertexAdded f ∧
    (0 < n)%nat ∧
    newFaces sixVertexAdded = seq k n ∧
    faces sixVertexAdded = faces sixInitial ++ seq k n ∧
    length (faceObjs sixVertexAdded) = (k + n)%nat ∧
    (∀ g, g ∈ newFaces sixVertexAdded →
          visible sixVertexAdded g ∧ ∃ a b, faceVertices sixVertexAdded g = [4%nat; a; b]) ∧
    (∀ g, (g < k)%nat → visible sixVertexAdded g → visible sixInitial g) ∧
    (∀ g, (g < k)%nat → faceVertices sixVertexAdded g = faceVertices sixInitial g) ∧
    4%nat ∈ outside sixInitial ∧ (4%nat ∉ outside sixVertexAdded) ∧
    (∀ u, u ∈ outside sixVertexAdded → u ∈ outside sixInitial) ∧
    (length (outside sixVertexAdded) < length (outside sixInitial))%nat.
Proof.
  apply (_addVertexToHull_adds_faces_of_eye_vertex exactThree 8 4 sixInitial
           sixVertexAdded).
  - apply sixInitial_reach.
  - vm_compute. reflexivity.
  - vm_compute. reflexivity.
Defined.

Lemma HalfEdge_setTwin_symmetric_witness :
  ∃ es', HalfEdge_setTwin 3 7 (halfEdges tetraHull) = Some es' ∧
         HalfEdge_setTwin 7 3 (halfEdges tetraHull) = Some es' ∧
         length es' = length (halfEdges tetraHull) ∧
         ∀ e, e ≠ 3%nat → e ≠ 7%nat → es' !! e = halfEdges tetraHull !! e.
Proof.
  destruct (HalfEdge_setTwin_symmetric 3 7 (halfEdges tetraHull)) as (Hsym & Hsome & Hes).
  destruct (proj2 Hsome) as [es' Hes'].
  - split; vm_compute; eexists; reflexivity.
  - exists es'. split; [done|]. split; [by rewrite <- Hsym|]. by apply Hes.
Defined.

Lemma Face_create_vertices_witness :
  ∃ face h',
    Face_create exactThree 0 1 2 (pushVertexNodes tetraPoints newConvexHull)
    = Some (face, h') ∧
    faceVertices h' face = [0; 1; 2]%nat ∧
    Face_getEdge h' face (-1) = Face_getEdge h' face 2.
Proof.
  destruct (Face_create_vertices exactThree 0 1 2
              (pushVertexNodes tetraPoints newConvexHull)) as (Hsome & Hface).
  destruct (proj2 Hsome) as [[face h'] Hc].
  - split_and!; vm_compute; eexists; reflexivity.
  - destruct (Hface face h' Hc) as (_ & _ & _ & H2 & H3 & Hv & _).
    exists face, h'. split; [done|]. split; [done|]. by rewrite H2, H3.
Defined.

(** * Binary64: the numeric methods over IEEE 754 double precision

    JavaScript numbers are binary64 floating-point numbers.  The methods
    whose result depends on rounding, on the infinities or on NaN are
    embedded here a second time, over the primitive floats of Rocq, whose
    operations are the ones of IEEE 754 binary64 with rounding to nearest,
    ties to even. *)

Module Binary64.

Local Open Scope float_scope.

(** ** The order of the numbers that are not NaN *)

(** A number that is not NaN, as a triple that is ordered
    lexicographically as the number is: the class and sign, then the
    exponent, then the mantissa. *)
Definition key (f : spec_float) : option (Z * Z * Z) :=
  match f with
  | S754_nan => None
  | S754_infinity true => Some (-2, 0, 0)%Z
  | S754_infinity false => Some (2, 0, 0)%Z
  | S754_zero _ => Some (0, 0, 0)%Z
  | S754_finite true m e => Some (-1, - e, Z.neg m)%Z
  | S754_finite false m e => Some (1, e, Z.pos m)%Z
  end.

Definition rank (a : float) : option (Z * Z * Z) := key (Prim2SF a).

Definition lexcompare (k l : Z * Z * Z) : comparison :=
  match (k.1.1 ?= l.1.1)%Z with
  | Eq => match (k.1.2 ?= l.1.2)%Z with
          | Eq => (k.2 ?= l.2)%Z
          | c => c
          end
  | c => c
  end.

Definition lexlt (k l : Z * Z * Z) : Prop :=
  (k.1.1 < l.1.1 ∨ (k.1.1 = l.1.1 ∧ (k.1.2 < l.1.2 ∨ (k.1.2 = l.1.2 ∧ k.2 < l.2))))%Z.

Definition lexle (k l : Z * Z * Z) : Prop := lexlt k l ∨ k = l.

Lemma lexcompare_Lt k l : lexcompare k l = Lt ↔ lexlt k l.
Proof.
  destruct k as [[k1 k2] k3], l as [[l1 l2] l3]. unfold lexcompare, lexlt. simpl.
  destruct (Z.compare_spec k1 l1), (Z.compare_spec k2 l2), (Z.compare_spec k3 l3);
    split; intros Hx; try done; try lia.
Qed.

Lemma lexcompare_Eq k l : lexcompare k l = Eq ↔ k = l.
Proof.
  destruct k as [[k1 k2] k3], l as [[l1 l2] l3]. unfold lexcompare. simpl.
  destruct (Z.compare_spec k1 l1), (Z.compare_spec k2 l2), (Z.compare_spec k3 l3);
    split; intros Hx; try done; try (injection Hx; lia); try (f_equal; [f_equal|]; lia).
Qed.

Lemma lexcompare_Gt k l : lexcompare k l = Gt ↔ lexlt l k.
Proof.
  destruct k as [[k1 k2] k3], l as [[l1 l2] l3]. unfold lexcompare, lexlt. simpl.
  destruct (Z.compare_spec k1 l1), (Z.compare_spec k2 l2), (Z.compare_spec k3 l3);
    split; intros Hx; try done; try lia.
Qed.

Lemma SFcompare_key f g k l :
  key f = Some k → key g = Some l → SFcompare f g = Some (lexcompare k l).
Proof.
  destruct f as [sf| sf| |sf mf ef], g as [sg| sg| |sg mg eg];
    try destruct sf; try destruct sg; simpl; intros [= <-] [= <-]; try reflexivity;
    unfold lexcompare; simpl.
  - rewrite Z.compare_opp.
    destruct (Z.compare_spec eg ef) as [->|H|H].
    + rewrite Z.compare_refl. rewrite Pos.compare_cont_spec. simpl.
      by destruct (mf ?= mg)%positive.
    + assert (Hc : (ef ?= eg)%Z = Gt) by (apply Z.compare_gt_iff; lia). by rewrite Hc.
    + assert (Hc : (ef ?= eg)%Z = Lt) by (apply Z.compare_lt_iff; lia). by rewrite Hc.
Qed.

Lemma SFcompare_nan f g :
  key f = None ∨ key g = None → SFcompare f g = None.
Proof.
  destruct f as [sf| sf| |sf mf ef], g as [sg| sg| |sg mg eg];
    try destruct sf; try destruct sg; simpl; intros [H|H]; done.
Qed.

(** The comparisons of two numbers, read off their ranks; a comparison with
    NaN is [false]. *)
Lemma ltb_rank a b k l :
  rank a = Some k → rank b = Some l → ((a <? b) = true ↔ lexlt k l).
Proof.
  intros Ha Hb. rewrite FloatAxioms.ltb_spec. unfold SFltb.
  rewrite (SFcompare_key _ _ _ _ Ha Hb), <- lexcompare_Lt.
  destruct (lexcompare k l); split; done.
Qed.

Lemma leb_rank a b k l :
  rank a = Some k → rank b = Some l → ((a <=? b) = true ↔ lexle k l).
Proof.
  intros Ha Hb. rewrite FloatAxioms.leb_spec. unfold SFleb, lexle.
  rewrite (SFcompare_key _ _ _ _ Ha Hb).
  destruct (lexcompare k l) eqn:E.
  - split; [|done]. intros _. right. by apply lexcompare_Eq.
  - split; [|done]. intros _. left. by apply lexcompare_Lt.
  - split; [done|]. intros [H%lexcompare_Lt|H%lexcompare_Eq]; congruence.
Qed.

Lemma eqb_rank a b k l :
  rank a = Some k → rank b = Some l → ((a =? b) = true ↔ k = l).
Proof.
  intros Ha Hb. rewrite FloatAxioms.eqb_spec. unfold SFeqb.
  rewrite (SFcompare_key _ _ _ _ Ha Hb).
  destruct (lexcompare k l) eqn:E.
  - split; [|done]. intros _. by apply lexcompare_Eq.
  - split; [done|]. intros H%lexcompare_Eq. congruence.
  - split; [done|]. intros H%lexcompare_Eq. congruence.
Qed.

Lemma is_nan_rank a : is_nan a = true ↔ rank a = None.
Proof.
  unfold is_nan, rank. rewrite negb_true_iff, FloatAxioms.eqb_spec. unfold SFeqb.
  destruct (key (Prim2SF a)) as [k|] eqn:E.
  - rewrite (SFcompare_key _ _ _ _ E E).
    assert (H : lexcompare k k = Eq) by (by apply lexcompare_Eq). rewrite H. split; done.
  - rewrite SFcompare_nan by (by left). done.
Qed.

Lemma not_nan_rank a : is_nan a = false ↔ ∃ k, rank a = Some k.
Proof.
  rewrite <- not_true_iff_false, is_nan_rank.
  destruct (rank a) as [k|]; split; try done.
  - intros _. by exists k.
  - by intros [k Hk].
Qed.

Lemma ltb_nan a b : is_nan a = true ∨ is_nan b = true → (a <? b) = false.
Proof.
  rewrite !is_nan_rank, FloatAxioms.ltb_spec. unfold SFltb, rank. intros H.
  by rewrite SFcompare_nan.
Qed.

Lemma leb_nan a b : is_nan a = true ∨ is_nan b = true → (a <=? b) = false.
Proof.
  rewrite !is_nan_rank, FloatAxioms.leb_spec. unfold SFleb, rank. intros H.
  by rewrite SFcompare_nan.
Qed.

Lemma eqb_nan a b : is_nan a = true ∨ is_nan b = true → (a =? b) = false.
Proof.
  rewrite !is_nan_rank, FloatAxioms.eqb_spec. unfold SFeqb, rank. intros H.
  by rewrite SFcompare_nan.
Qed.

(** A comparison that holds is between numbers. *)
Lemma ltb_true_not_nan a b : (a <? b) = true → is_nan a = false ∧ is_nan b = false.
Proof.
  intros H. destruct (is_nan a) eqn:Ea; [by rewrite ltb_nan in H by (by left)|].
  destruct (is_nan b) eqn:Eb; [by rewrite ltb_nan in H by (by right)|]. done.
Qed.

Lemma leb_true_not_nan a b : (a <=? b) = true → is_nan a = false ∧ is_nan b = false.
Proof.
  intros H. destruct (is_nan a) eqn:Ea; [by rewrite leb_nan in H by (by left)|].
  destruct (is_nan b) eqn:Eb; [by rewrite leb_nan in H by (by right)|]. done.
Qed.

(** Among numbers, [a > b] is false exactly when [a <= b]. *)
Lemma ltb_false_leb a b :
  is_nan a = false → is_nan b = false → ((b <? a) = false ↔ (a <=? b) = true).
Proof.
  intros [k Hk]%not_nan_rank [l Hl]%not_nan_rank.
  rewrite <- not_true_iff_false, (ltb_rank _ _ _ _ Hl Hk), (leb_rank _ _ _ _ Hk Hl).
  destruct k as [[k1 k2] k3], l as [[l1 l2] l3]. unfold lexle, lexlt. simpl. split.
  - intros H.
    destruct (decide (k1 = l1)) as [->|]; [|lia].
    destruct (decide (k2 = l2)) as [->|]; [|lia].
    destruct (decide (k3 = l3)) as [->|]; [by right|lia].
  - intros [H|[= -> -> ->]]; lia.
Qed.

(** ** Numbers of JavaScript *)

(** [a > b], [a >= b], [a <= b], [a < b] and [a !== b]. *)
Definition gtb (a b : float) : bool := b <? a.
Definition geb (a b : float) : bool := b <=? a.
Definition leb (a b : float) : bool := a <=? b.
Definition ltb (a b : float) : bool := a <? b.
Definition neqb (a b : float) : bool := negb (a =? b).

(** [Number.EPSILON], two to the power -52. *)
Definition Number_EPSILON : float := 0x1p-52.

(** [Math.abs], [Math.max] and [Math.min] of two arguments: NaN when an
    argument is NaN; of the two zeros the positive one is the greater. *)
Definition Math_abs (a : float) : float := abs a.

Definition Math_max (a b : float) : float :=
  if is_nan a || is_nan b then nan
  else if a <? b then b
  else if b <? a then a
  else if get_sign a then b else a.

Definition Math_min (a b : float) : float :=
  if is_nan a || is_nan b then nan
  else if a <? b then a
  else if b <? a then b
  else if get_sign a then a else b.

(** ** three.Vector3, three.Ray and three.Triangle (external) *)

Record Vector3 := V3 { x : float; y : float; z : float }.

(** [a.dot( b )] *)
Definition dot (a b : Vector3) : float := x a * x b + y a * y b + z a * z b.

Definition subVectors (a b : Vector3) : Vector3 :=
  V3 (x a - x b) (y a - y b) (z a - z b).

Definition addVectors (a b : Vector3) : Vector3 :=
  V3 (x a + x b) (y a + y b) (z a + z b).

Definition multiplyScalar (a : Vector3) (s : float) : Vector3 :=
  V3 (x a * s) (y a * s) (z a * s).

Definition cross (a b : Vector3) : Vector3 :=
  V3 (y a * z b - z a * y b) (z a * x b - x a * z b) (x a * y b - y a * x b).

Definition lengthSq (a : Vector3) : float := dot a a.

Definition getComponent (v : Vector3) (j : nat) : float :=
  match j with O => x v | S O => y v | _ => z v end.

Definition setComponent (v : Vector3) (j : nat) (q : float) : Vector3 :=
  match j with
  | O => V3 q (y v) (z v)
  | S O => V3 (x v) q (z v)
  | _ => V3 (x v) (y v) q
  end.

Record Ray := mkRay { origin : Vector3; direction : Vector3 }.

(** [_triangle.set( a, b, c ); _triangle.getNormal( target )] and
    [_triangle.getMidpoint( target )], as [three] computes them. *)
Definition Triangle_getNormal (a b c : Vector3) : Vector3 :=
  let target := cross (subVectors c b) (subVectors a b) in
  let targetLengthSq := lengthSq target in
  if gtb targetLengthSq 0
  then multiplyScalar target (1 / sqrt targetLengthSq)
  else V3 0 0 0.

Definition Triangle_getMidpoint (a b c : Vector3) : Vector3 :=
  multiplyScalar (addVectors (addVectors a b) c) (1 / 3).

(** ** Face: the plane of a face *)

Module Face.
Record t := mk { normal : Vector3; midpoint : Vector3; constant : float }.

(** The fields that [compute()] stores for the triangle of the points
    [a], [b], [c] of the tail of the edge of the face, of its head and of
    the head of the next edge. *)
Definition compute (a b c : Vector3) : t :=
  let normal := Triangle_getNormal a b c in
  let midpoint := Triangle_getMidpoint a b c in
  mk normal midpoint (dot normal midpoint).

(** [distanceToPoint( point )] *)
Definition distanceToPoint (f : t) (p : Vector3) : float :=
  dot (normal f) p - constant f.
End Face.

(** ** ConvexHull: what the queries read *)

Record ConvexHull := mkHull { tolerance : float; faces : list Face.t }.

(** [containsPoint( point )] *)
Definition containsPoint (h : ConvexHull) (point : Vector3) : bool :=
  (fix loop (fs : list Face.t) : bool :=
     match fs with
     | [] => true
     | face :: fs =>
         if gtb (Face.distanceToPoint face point) (tolerance h) then false
         else loop fs
     end) (faces h).

(** One turn of the loop of [intersectRay] over the faces: [None] is
    [return null], otherwise the new [tNear] and [tFar]. *)
Definition intersectRay_body (ray : Ray) (face : Face.t) (tNear tFar : float)
  : option (float * float) :=
  let vN := Face.distanceToPoint face (origin ray) in
  let vD := dot (Face.normal face) (direction ray) in
  if gtb vN 0 && geb vD 0 then None
  else
    let t := if neqb vD 0 then - vN / vD else 0 in
    if leb t 0 then Some (tNear, tFar)
    else
      let '(tNear, tFar) :=
        if gtb vD 0 then (tNear, Math_min t tFar) else (Math_max t tNear, tFar) in
      if gtb tNear tFar then None else Some (tNear, tFar).

Fixpoint intersectRay_loop (ray : Ray) (fs : list Face.t) (tNear tFar : float)
  : option (float * float) :=
  match fs with
  | [] => Some (tNear, tFar)
  | face :: fs =>
      '(tNear, tFar) ← intersectRay_body ray face tNear tFar;
      intersectRay_loop ray fs tNear tFar
  end.

(** [intersectRay( ray, target )]: [None] is [null]; [Some t] is the point
    [ray.at( t, target )], given by its parameter. *)
Definition intersectRay (h : ConvexHull) (ray : Ray) : option float :=
  '(tNear, tFar) ← intersectRay_loop ray (faces h) neg_infinity infinity;
  Some (if neqb tNear neg_infinity then tNear else tFar).

(** [intersectsRay( ray )] *)
Definition intersectsRay (h : ConvexHull) (ray : Ray) : bool :=
  bool_decide (intersectRay h ray ≠ None).

(** ** _computeExtremes *)

(** The state of the loops of [_computeExtremes]; a vertex is the index of
    its point in the vertex array. *)
Record Extremes := mkExtremes {
  ext_min : Vector3;
  ext_max : Vector3;
  minVertices : list nat;
  maxVertices : list nat
}.

Definition updateMin (vertex : nat) (point : Vector3) (e : Extremes) (j : nat)
  : Extremes :=
  if ltb (getComponent point j) (getComponent (ext_min e) j)
  then mkExtremes (setComponent (ext_min e) j (getComponent point j)) (ext_max e)
                  (<[j := vertex]> (minVertices e)) (maxVertices e)
  else e.

Definition updateMax (vertex : nat) (point : Vector3) (e : Extremes) (j : nat)
  : Extremes :=
  if gtb (getComponent point j) (getComponent (ext_max e) j)
  then mkExtremes (ext_min e) (setComponent (ext_max e) j (getComponent point j))
                  (minVertices e) (<[j := vertex]> (maxVertices e))
  else e.

(** The loop over the vertices, from the vertex number [i]. *)
Fixpoint extremesLoop (i : nat) (points : list Vector3) (e : Extremes) : Extremes :=
  match points with
  | [] => e
  | point :: points =>
      let e := fold_left (updateMin i point) [0; 1; 2]%nat e in
      let e := fold_left (updateMax i point) [0; 1; 2]%nat e in
      extremesLoop (S i) points e
  end.

(** The value that is stored in [this.tolerance]. *)
Definition toleranceOf (min max : Vector3) : float :=
  3 * Number_EPSILON * (Math_max (Math_abs (x min)) (Math_abs (x max)) +
                        Math_max (Math_abs (y min)) (Math_abs (y max)) +
                        Math_max (Math_abs (z min)) (Math_abs (z max))).

(** [_computeExtremes()], on the points of the vertex array: the two
    corner vectors with the extreme vertices, and the tolerance; [None] is
    the [TypeError] on an empty vertex array. *)
Definition _computeExtremes (points : list Vector3) : option (Extremes * float) :=
  first ← points !! 0%nat;
  let e := extremesLoop 0 points (mkExtremes first first [0; 0; 0]%nat [0; 0; 0]%nat) in
  Some (e, toleranceOf (ext_min e) (ext_max e)).

(** ** Properties of the order *)

Lemma key_bounds f k :
  key f = Some k →
  (-2 <= k.1.1 <= 2)%Z ∧ (k.1.1 = 2%Z → k = (2, 0, 0)%Z) ∧
  (k.1.1 = (-2)%Z → k = (-2, 0, 0)%Z).
Proof.
  destruct f as [s|s| |s m e]; try destruct s; simpl; intros [= <-]; simpl;
    split_and!; (lia || done).
Qed.

Lemma rank_infinity : rank infinity = Some (2, 0, 0)%Z.
Proof. reflexivity. Qed.

Lemma rank_neg_infinity : rank neg_infinity = Some (-2, 0, 0)%Z.
Proof. reflexivity. Qed.

Lemma rank_zero : rank 0 = Some (0, 0, 0)%Z.
Proof. reflexivity. Qed.

Lemma is_nan_nan : is_nan nan = true.
Proof. reflexivity. Qed.

(** [number a]: [a] is not NaN. *)
Definition number (a : float) : Prop := is_nan a = false.

Lemma number_infinity : number infinity.
Proof. reflexivity. Qed.

Lemma number_neg_infinity : number neg_infinity.
Proof. reflexivity. Qed.

Lemma number_zero : number 0.
Proof. reflexivity. Qed.

Ltac ranks :=
  repeat match goal with
  | H : number ?a |- _ =>
      let k := fresh "k" in let Hk := fresh "Hk" in
      apply not_nan_rank in H as [k Hk]
  end.

Lemma leb_refl a : number a → (a <=? a) = true.
Proof. intros Ha. ranks. apply (leb_rank _ _ _ _ Hk Hk). by right. Qed.

Lemma leb_trans a b c : (a <=? b) = true → (b <=? c) = true → (a <=? c) = true.
Proof.
  intros H1 H2.
  destruct (leb_true_not_nan _ _ H1) as [Ha Hb].
  destruct (leb_true_not_nan _ _ H2) as [_ Hc].
  fold (number a) in Ha. fold (number b) in Hb. fold (number c) in Hc. ranks.
  rewrite (leb_rank _ _ _ _ Hk1 Hk0) in H1. rewrite (leb_rank _ _ _ _ Hk0 Hk) in H2.
  apply (leb_rank _ _ _ _ Hk1 Hk).
  destruct k as [[? ?] ?], k0 as [[? ?] ?], k1 as [[? ?] ?].
  unfold lexle, lexlt in *. simpl in *.
  destruct H1 as [H1|[= -> -> ->]], H2 as [H2|[= -> -> ->]];
    first [by right | left; lia].
Qed.



Lemma ltb_leb a b : (a <? b) = true → (a <=? b) = true.
Proof.
  intros H. destruct (ltb_true_not_nan _ _ H) as [Ha Hb].
  fold (number a) in Ha. fold (number b) in Hb. ranks.
  rewrite (ltb_rank _ _ _ _ Hk0 Hk) in H. apply (leb_rank _ _ _ _ Hk0 Hk). by left.
Qed.

Lemma ltb_not_leb a b : (a <? b) = true → (b <=? a) = false.
Proof.
  intros H. destruct (ltb_true_not_nan _ _ H) as [Ha Hb].
  apply not_true_iff_false. intros H'. apply (ltb_false_leb _ _ Hb Ha) in H'. congruence.
Qed.

Lemma leb_total a b : number a → number b → (a <=? b) = true ∨ (b <? a) = true.
Proof.
  intros Ha Hb. destruct (b <? a) eqn:E; [by right|left].
  by apply (ltb_false_leb _ _ Ha Hb).
Qed.

Lemma leb_infinity a : number a → (a <=? infinity) = true.
Proof.
  intros Ha. ranks. apply (leb_rank _ _ _ _ Hk rank_infinity).
  destruct (key_bounds _ _ Hk) as (Hb & Htop & _).
  destruct (decide (k.1.1 = 2%Z)) as [E|E]; [right; by apply Htop|].
  left. unfold lexlt. simpl. lia.
Qed.

Lemma neg_infinity_leb a : number a → (neg_infinity <=? a) = true.
Proof.
  intros Ha. ranks. apply (leb_rank _ _ _ _ rank_neg_infinity Hk).
  destruct (key_bounds _ _ Hk) as (Hb & _ & Hbot).
  destruct (decide (k.1.1 = (-2)%Z)) as [E|E]; [right; symmetry; by apply Hbot|].
  left. unfold lexlt. simpl. lia.
Qed.

Lemma gtb_neg_infinity a : gtb neg_infinity a = false.
Proof.
  unfold gtb. destruct (is_nan a) eqn:E; [apply ltb_nan; by left|].
  apply (ltb_false_leb _ _ number_neg_infinity E). by apply neg_infinity_leb.
Qed.

Lemma gtb_infinity a : gtb a infinity = false.
Proof.
  unfold gtb. destruct (is_nan a) eqn:E; [apply ltb_nan; by right|].
  apply (ltb_false_leb _ _ E number_infinity). by apply leb_infinity.
Qed.

(** [Math.max] and [Math.min] of two numbers: one of the two, and a bound
    of both. *)
Lemma Math_max_spec a b :
  number a → number b →
  (Math_max a b = a ∨ Math_max a b = b) ∧
  (a <=? Math_max a b) = true ∧ (b <=? Math_max a b) = true.
Proof.
  intros Ha Hb. unfold Math_max. rewrite Ha, Hb. simpl.
  destruct (a <? b) eqn:E1.
  { split_and!; [by right|by apply ltb_leb|by apply leb_refl]. }
  destruct (b <? a) eqn:E2.
  { split_and!; [by left|by apply leb_refl|by apply ltb_leb]. }
  apply (ltb_false_leb _ _ Hb Ha) in E1. apply (ltb_false_leb _ _ Ha Hb) in E2.
  destruct (get_sign a); split_and!; first [by left | by right | done | by apply leb_refl].
Qed.

Lemma Math_min_spec a b :
  number a → number b →
  (Math_min a b = a ∨ Math_min a b = b) ∧
  (Math_min a b <=? a) = true ∧ (Math_min a b <=? b) = true.
Proof.
  intros Ha Hb. unfold Math_min. rewrite Ha, Hb. simpl.
  destruct (a <? b) eqn:E1.
  { split_and!; [by left|by apply leb_refl|by apply ltb_leb]. }
  destruct (b <? a) eqn:E2.
  { split_and!; [by right|by apply ltb_leb|by apply leb_refl]. }
  apply (ltb_false_leb _ _ Hb Ha) in E1. apply (ltb_false_leb _ _ Ha Hb) in E2.
  destruct (get_sign a); split_and!; first [by left | by right | done | by apply leb_refl].
Qed.

Lemma Math_max_nan a b : is_nan a = true ∨ is_nan b = true → Math_max a b = nan.
Proof. unfold Math_max. intros [->| ->]; [done|]. by rewrite orb_true_r. Qed.

Lemma Math_min_nan a b : is_nan a = true ∨ is_nan b = true → Math_min a b = nan.
Proof. unfold Math_min. intros [->| ->]; [done|]. by rewrite orb_true_r. Qed.

(** ** containsPoint *)

Lemma containsPoint_no_face_beyond h point :
  containsPoint h point = true ↔
  ∀ face, face ∈ faces h →
          gtb (Face.distanceToPoint face point) (tolerance h) = false.
Proof.
  unfold containsPoint. generalize (faces h) as fs.
  induction fs as [|face fs IH].
  - split; [|done]. intros _ face Hin. by apply elem_of_nil in Hin.
  - destruct (gtb (Face.distanceToPoint face point) (tolerance h)) eqn:E.
    + split; [done|]. intros H. rewrite (H face) in E; [done|by left].
    + rewrite IH. split.
      * intros H f [->|Hin]%elem_of_cons; [done|by apply H].
      * intros H f Hin. apply H. by right.
Qed.

(** C4, as the code has it.  [containsPoint( point )] is [true] exactly when
    no face of the hull has the point at a signed distance greater than
    the tolerance.  When the tolerance and the distances are numbers, this
    is the same as every distance being at most the tolerance; a distance
    or a tolerance that is NaN excludes no point, so that on a hull whose
    tolerance is NaN, and for a point all of whose distances are NaN, the
    result is [true]. *)
Theorem containsPoint_iff_no_face_beyond_tolerance (h : ConvexHull)
  (point : Vector3) :
  (containsPoint h point = true ↔
   ∀ face, face ∈ faces h →
           gtb (Face.distanceToPoint face point) (tolerance h) = false) ∧
  (number (tolerance h) →
   (∀ face, face ∈ faces h → number (Face.distanceToPoint face point)) →
   (containsPoint h point = true ↔
    ∀ face, face ∈ faces h →
            leb (Face.distanceToPoint face point) (tolerance h) = true)) ∧
  ((is_nan (tolerance h) = true ∨
    ∀ face, face ∈ faces h → is_nan (Face.distanceToPoint face point) = true) →
   containsPoint h point = true ∧
   ∀ face, face ∈ faces h →
           leb (Face.distanceToPoint face point) (tolerance h) = false).
Proof.
  split_and!.
  - apply containsPoint_no_face_beyond.
  - intros Htol Hd. rewrite containsPoint_no_face_beyond.
    split; intros H face Hin.
    + apply (ltb_false_leb _ _ (Hd face Hin) Htol). by apply H.
    + apply (ltb_false_leb _ _ (Hd face Hin) Htol). by apply H.
  - intros Hnan. split.
    + apply containsPoint_no_face_beyond. intros face Hin. unfold gtb.
      apply ltb_nan. destruct Hnan as [H|H]; [by left|right; by apply H].
    + intros face Hin. unfold leb.
      apply leb_nan. destruct Hnan as [H|H]; [by right|left; by apply H].
Qed.

(** ** intersectRay *)

(** The quantities of one face in [intersectRay]. *)
Definition vN (ray : Ray) (face : Face.t) : float :=
  Face.distanceToPoint face (origin ray).
Definition vD (ray : Ray) (face : Face.t) : float :=
  dot (Face.normal face) (direction ray).
Definition hitParameter (ray : Ray) (face : Face.t) : float :=
  if neqb (vD ray face) 0 then - vN ray face / vD ray face else 0.

(** The origin is strictly on the outward side of the face and the ray is
    turned away from the face or parallel to it. *)
Definition definiteMiss (ray : Ray) (face : Face.t) : bool :=
  gtb (vN ray face) 0 && geb (vD ray face) 0.

(** The face is not skipped by [if ( t <= 0 ) continue], and it is taken as
    a back face (the ray leaves through its plane, [vD > 0]) or as a front
    face (the ray enters through it). *)
Definition backFace (ray : Ray) (face : Face.t) : bool :=
  negb (leb (hitParameter ray face) 0) && gtb (vD ray face) 0.
Definition frontFace (ray : Ray) (face : Face.t) : bool :=
  negb (leb (hitParameter ray face) 0) && negb (gtb (vD ray face) 0).

(** The entry parameters and the exit parameters of a list of faces. *)
Definition entryParameters (ray : Ray) (fs : list Face.t) : list float :=
  map (hitParameter ray) (List.filter (frontFace ray) fs).
Definition exitParameters (ray : Ray) (fs : list Face.t) : list float :=
  map (hitParameter ray) (List.filter (backFace ray) fs).

(** [greatest ts m]: [m] is what [Math.max( -Infinity, ...ts )] is: minus
    infinity for no number, NaN when one of them is NaN, and otherwise one of
    them that none exceeds.  [least ts m] is [Math.min( Infinity, ...ts )]. *)
Definition greatest (ts : list float) (m : float) : Prop :=
  (ts = [] ∧ m = neg_infinity) ∨
  ((∃ t, t ∈ ts ∧ is_nan t = true) ∧ m = nan) ∨
  ((∀ t, t ∈ ts → number t) ∧ m ∈ ts ∧ ∀ t, t ∈ ts → leb t m = true).

Definition least (ts : list float) (m : float) : Prop :=
  (ts = [] ∧ m = infinity) ∨
  ((∃ t, t ∈ ts ∧ is_nan t = true) ∧ m = nan) ∨
  ((∀ t, t ∈ ts → number t) ∧ m ∈ ts ∧ ∀ t, t ∈ ts → leb m t = true).

Lemma is_nan_eq a : is_nan a = true → a = nan.
Proof.
  intros H%is_nan_rank. apply Prim2SF_inj. unfold rank in H.
  by destruct (Prim2SF a) as [[|]|[|]| |[|] m e].
Qed.

Lemma rank_infinity_eq a : rank a = Some (2, 0, 0)%Z → a = infinity.
Proof.
  intros H. apply Prim2SF_inj. unfold rank in H.
  destruct (Prim2SF a) as [[|]|[|]| |[|] m e]; simpl in H; try done.
Qed.

Lemma rank_neg_infinity_eq a : rank a = Some (-2, 0, 0)%Z → a = neg_infinity.
Proof.
  intros H. apply Prim2SF_inj. unfold rank in H.
  destruct (Prim2SF a) as [[|]|[|]| |[|] m e]; simpl in H; try done.
Qed.

Lemma leb_neg_infinity_eq a : (a <=? neg_infinity) = true → a = neg_infinity.
Proof.
  intros H. destruct (leb_true_not_nan _ _ H) as [Ha _].
  pose proof (neg_infinity_leb _ Ha) as H'.
  apply not_nan_rank in Ha as [k Hk].
  apply (leb_rank _ _ _ _ Hk rank_neg_infinity) in H.
  apply (leb_rank _ _ _ _ rank_neg_infinity Hk) in H'.
  apply rank_neg_infinity_eq. rewrite Hk. f_equal.
  destruct k as [[k1 k2] k3]. unfold lexle, lexlt in *. simpl in *.
  destruct H as [H|H]; [|done]. destruct H' as [H'|H']; [lia|done].
Qed.

Lemma infinity_leb_eq a : (infinity <=? a) = true → a = infinity.
Proof.
  intros H. destruct (leb_true_not_nan _ _ H) as [_ Ha].
  pose proof (leb_infinity _ Ha) as H'.
  apply not_nan_rank in Ha as [k Hk].
  apply (leb_rank _ _ _ _ rank_infinity Hk) in H.
  apply (leb_rank _ _ _ _ Hk rank_infinity) in H'.
  apply rank_infinity_eq. rewrite Hk. f_equal.
  destruct k as [[k1 k2] k3]. unfold lexle, lexlt in *. simpl in *.
  destruct H as [H|H]; [|done]. destruct H' as [H'|H']; [lia|done].
Qed.

(** Two numbers that bound each other compare alike with every number. *)
Lemma ltb_congr a a' b :
  (a <=? a') = true → (a' <=? a) = true →
  (b <? a) = (b <? a') ∧ (a <? b) = (a' <? b).
Proof.
  intros H1 H2. destruct (leb_true_not_nan _ _ H1) as [Ha Ha'].
  destruct (is_nan b) eqn:Eb.
  { rewrite !ltb_nan; auto. }
  apply not_nan_rank in Ha as [k Hk]. apply not_nan_rank in Ha' as [k' Hk'].
  apply not_nan_rank in Eb as [l Hl].
  apply (leb_rank _ _ _ _ Hk Hk') in H1. apply (leb_rank _ _ _ _ Hk' Hk) in H2.
  assert (k = k') as <-.
  { destruct k as [[k1 k2] k3], k' as [[l1 l2] l3]. unfold lexle, lexlt in *. simpl in *.
    destruct H1 as [H1|H1]; [|done]. destruct H2 as [H2|H2]; [lia|done]. }
  pose proof (ltb_rank _ _ _ _ Hl Hk) as E1. pose proof (ltb_rank _ _ _ _ Hl Hk') as E2.
  pose proof (ltb_rank _ _ _ _ Hk Hl) as E3. pose proof (ltb_rank _ _ _ _ Hk' Hl) as E4.
  split; apply eq_true_iff_eq.
  - by rewrite E1, E2.
  - by rewrite E3, E4.
Qed.

Lemma Math_max_neg_infinity t : Math_max t neg_infinity = t.
Proof.
  destruct (is_nan t) eqn:E.
  { rewrite Math_max_nan by (by left). symmetry. by apply is_nan_eq. }
  destruct (Math_max_spec t neg_infinity E number_neg_infinity) as ([H|H] & H1 & _); [done|].
  rewrite H in H1 |- *. symmetry. by apply leb_neg_infinity_eq.
Qed.

Lemma Math_min_infinity t : Math_min t infinity = t.
Proof.
  destruct (is_nan t) eqn:E.
  { rewrite Math_min_nan by (by left). symmetry. by apply is_nan_eq. }
  destruct (Math_min_spec t infinity E number_infinity) as ([H|H] & H1 & _); [done|].
  rewrite H in H1 |- *. symmetry. by apply infinity_leb_eq.
Qed.

(** One more number: [Math.max( t, tNear )] and [Math.min( t, tFar )]. *)
Lemma greatest_snoc ts m t :
  greatest ts m → greatest (ts ++ [t]) (Math_max t m).
Proof.
  intros [[-> ->]|[[(u & Hin & Hn) ->]|(Hall & Hin & Hmax)]].
  - rewrite Math_max_neg_infinity. simpl. destruct (is_nan t) eqn:E.
    + right; left. split; [exists t; split; [by left|done]|by apply is_nan_eq].
    + right; right. split_and!.
      * by intros u ->%list_elem_of_singleton.
      * by left.
      * intros u ->%list_elem_of_singleton. by apply leb_refl.
  - right; left. split; [|apply Math_max_nan; by right].
    exists u. split; [apply elem_of_app; by left|done].
  - destruct (is_nan t) eqn:E.
    + right; left. split; [|apply Math_max_nan; by left].
      exists t. split; [apply elem_of_app; right; by left|done].
    + destruct (Math_max_spec t m E (Hall _ Hin)) as (Hor & H1 & H2).
      right; right. split_and!.
      * intros u [Hu| ->%list_elem_of_singleton]%elem_of_app; [by apply Hall|done].
      * apply elem_of_app. destruct Hor as [-> | ->]; [right; by left|by left].
      * intros u [Hu| ->%list_elem_of_singleton]%elem_of_app; [|done].
        eapply leb_trans; [by apply Hmax|done].
Qed.

Lemma least_snoc ts m t :
  least ts m → least (ts ++ [t]) (Math_min t m).
Proof.
  intros [[-> ->]|[[(u & Hin & Hn) ->]|(Hall & Hin & Hmin)]].
  - rewrite Math_min_infinity. simpl. destruct (is_nan t) eqn:E.
    + right; left. split; [exists t; split; [by left|done]|by apply is_nan_eq].
    + right; right. split_and!.
      * by intros u ->%list_elem_of_singleton.
      * by left.
      * intros u ->%list_elem_of_singleton. by apply leb_refl.
  - right; left. split; [|apply Math_min_nan; by right].
    exists u. split; [apply elem_of_app; by left|done].
  - destruct (is_nan t) eqn:E.
    + right; left. split; [|apply Math_min_nan; by left].
      exists t. split; [apply elem_of_app; right; by left|done].
    + destruct (Math_min_spec t m E (Hall _ Hin)) as (Hor & H1 & H2).
      right; right. split_and!.
      * intros u [Hu| ->%list_elem_of_singleton]%elem_of_app; [by apply Hall|done].
      * apply elem_of_app. destruct Hor as [-> | ->]; [right; by left|by left].
      * intros u [Hu| ->%list_elem_of_singleton]%elem_of_app; [|done].
        eapply leb_trans; [done|by apply Hmin].
Qed.

(** What [greatest] and [least] say fixes the outcome of [tNear > tFar]. *)
Lemma greatest_gtb ts a a' b :
  greatest ts a → greatest ts a' → gtb a b = gtb a' b.
Proof.
  intros [[E ->]|[[(u & Hu & Hn) ->]|(Hall & Hin & Hmax)]]
         [[E' ->]|[[(u' & Hu' & Hn') ->]|(Hall' & Hin' & Hmax')]]; try done.
  - subst ts. by apply elem_of_nil in Hu'.
  - subst ts. by apply elem_of_nil in Hin'.
  - subst ts. by apply elem_of_nil in Hu.
  - specialize (Hall' u Hu). unfold number in Hall'. congruence.
  - subst ts. by apply elem_of_nil in Hin.
  - specialize (Hall u' Hu'). unfold number in Hall. congruence.
  - unfold gtb. apply (ltb_congr a a' b); [by apply Hmax'|by apply Hmax].
Qed.

Lemma least_gtb ts a b b' :
  least ts b → least ts b' → gtb a b = gtb a b'.
Proof.
  intros [[E ->]|[[(u & Hu & Hn) ->]|(Hall & Hin & Hmin)]]
         [[E' ->]|[[(u' & Hu' & Hn') ->]|(Hall' & Hin' & Hmin')]]; try done.
  - subst ts. by apply elem_of_nil in Hu'.
  - subst ts. by apply elem_of_nil in Hin'.
  - subst ts. by apply elem_of_nil in Hu.
  - specialize (Hall' u Hu). unfold number in Hall'. congruence.
  - subst ts. by apply elem_of_nil in Hin.
  - specialize (Hall u' Hu'). unfold number in Hall. congruence.
  - unfold gtb. apply (ltb_congr b b' a); [by apply Hmin|by apply Hmin'].
Qed.

Lemma entryParameters_snoc ray fs face :
  entryParameters ray (fs ++ [face]) =
  entryParameters ray fs ++
    (if frontFace ray face then [hitParameter ray face] else []).
Proof.
  unfold entryParameters. rewrite List.filter_app, map_app. simpl.
  by destruct (frontFace ray face).
Qed.

Lemma exitParameters_snoc ray fs face :
  exitParameters ray (fs ++ [face]) =
  exitParameters ray fs ++
    (if backFace ray face then [hitParameter ray face] else []).
Proof.
  unfold exitParameters. rewrite List.filter_app, map_app. simpl.
  by destruct (backFace ray face).
Qed.

(** The loop body in the words of the definitions above. *)
Lemma intersectRay_body_eq ray face tNear tFar :
  intersectRay_body ray face tNear tFar =
  if definiteMiss ray face then None
  else
    let tNear' := if frontFace ray face
                  then Math_max (hitParameter ray face) tNear else tNear in
    let tFar' := if backFace ray face
                 then Math_min (hitParameter ray face) tFar else tFar in
    if (frontFace ray face || backFace ray face) && gtb tNear' tFar'
    then None else Some (tNear', tFar').
Proof.
  unfold intersectRay_body, definiteMiss, frontFace, backFace, hitParameter, vN, vD.
  destruct (gtb _ 0 && geb _ 0); [done|].
  destruct (leb _ 0); simpl; [done|].
  destruct (gtb (dot _ _) 0); simpl; by destruct (gtb _ _).
Qed.

(** The loop, with the faces already visited: it ends in [null] exactly at a
    face that is a definite miss or where the greatest entry parameter of the
    faces up to it exceeds their least exit parameter. *)
Lemma intersectRay_loop_spec ray fs : ∀ visited tNear tFar,
  greatest (entryParameters ray visited) tNear →
  least (exitParameters ray visited) tFar →
  gtb tNear tFar = false →
  match intersectRay_loop ray fs tNear tFar with
  | None =>
      ∃ n face, fs !! n = Some face ∧
        (definiteMiss ray face = true ∨
         ∃ tN tF, greatest (entryParameters ray (visited ++ take (S n) fs)) tN ∧
                  least (exitParameters ray (visited ++ take (S n) fs)) tF ∧
                  gtb tN tF = true)
  | Some (tNear', tFar') =>
      greatest (entryParameters ray (visited ++ fs)) tNear' ∧
      least (exitParameters ray (visited ++ fs)) tFar' ∧
      gtb tNear' tFar' = false ∧
      (∀ face, face ∈ fs → definiteMiss ray face = false) ∧
      (∀ n tN tF,
         greatest (entryParameters ray (visited ++ take n fs)) tN →
         least (exitParameters ray (visited ++ take n fs)) tF →
         gtb tN tF = false)
  end.
Proof.
  induction fs as [|face fs IH]; intros visited tNear tFar Hnear Hfar Hinv.
  - simpl. rewrite app_nil_r. split_and!; [done|done|done| |].
    + intros face H. by apply elem_of_nil in H.
    + intros n tN tF HN HF. rewrite take_nil, app_nil_r in HN, HF.
      by rewrite (greatest_gtb _ _ _ _ HN Hnear), (least_gtb _ _ _ _ HF Hfar).
  - simpl. rewrite intersectRay_body_eq.
    destruct (definiteMiss ray face) eqn:Hmiss.
    { simpl. exists 0%nat, face. split; [done|by left]. }
    set (tNear' := if frontFace ray face then _ else tNear).
    set (tFar' := if backFace ray face then _ else tFar).
    assert (Hnear' : greatest (entryParameters ray (visited ++ [face])) tNear').
    { rewrite entryParameters_snoc. subst tNear'.
      destruct (frontFace ray face); [by apply greatest_snoc|by rewrite app_nil_r]. }
    assert (Hfar' : least (exitParameters ray (visited ++ [face])) tFar').
    { rewrite exitParameters_snoc. subst tFar'.
      destruct (backFace ray face); [by apply least_snoc|by rewrite app_nil_r]. }
    assert (Hsame : (frontFace ray face || backFace ray face) = false →
                    gtb tNear' tFar' = false).
    { intros [E1 E2]%orb_false_iff. subst tNear' tFar'. by rewrite E1, E2. }
    simpl. change (visited ++ face :: fs) with (visited ++ [face] ++ fs).
    destruct ((frontFace ray face || backFace ray face) && gtb tNear' tFar') eqn:Hcross.
    { simpl. apply andb_true_iff in Hcross as [_ Hcross].
      exists 0%nat, face. split; [done|right]. exists tNear', tFar'. by rewrite take_0. }
    assert (Hinv' : gtb tNear' tFar' = false).
    { apply andb_false_iff in Hcross as [H|H]; [by apply Hsame|done]. }
    simpl. specialize (IH (visited ++ [face]) tNear' tFar' Hnear' Hfar' Hinv').
    destruct (intersectRay_loop ray fs tNear' tFar') as [[tN tF]|].
    + rewrite <- !app_assoc in IH. destruct IH as (H1 & H2 & H3 & H4 & H5).
      split_and!; [done|done|done| |].
      * intros g [->|Hg]%elem_of_cons; [done|by apply H4].
      * intros [|n] tN' tF' HN HF.
        -- rewrite take_0, app_nil_r in HN, HF.
           by rewrite (greatest_gtb _ _ _ _ HN Hnear), (least_gtb _ _ _ _ HF Hfar).
        -- apply (H5 n); [rewrite <- app_assoc; exact HN|rewrite <- app_assoc; exact HF].
    + destruct IH as (n & g & Hg & Hev). exists (S n), g. split; [done|].
      destruct Hev as [Hev|(tN & tF & HN & HF & Hgt)]; [by left|right].
      exists tN, tF. rewrite <- !app_assoc in HN, HF. done.
Qed.

(** C5, as the code has it.  [intersectRay] returns [null] exactly when some
    face has the origin of the ray strictly on its outward side while the ray
    is turned away from it or parallel to it, or when, for the faces up to
    some face, the greatest entry parameter exceeds the least exit
    parameter: the running [tNear] and [tFar] are [Math.max] of minus
    infinity and the entry parameters, and [Math.min] of infinity and the
    exit parameters, of the faces visited.  Otherwise the parameter of
    the point returned is [tNear] of all faces unless that is minus
    infinity, and [tFar] then: it is the greatest entry parameter when the
    ray enters through some face, and the least exit parameter when through
    none. *)
Theorem intersectRay_null_or_parameter (h : ConvexHull) (ray : Ray) :
  (intersectRay h ray = None ↔
     (∃ face, face ∈ faces h ∧ definiteMiss ray face = true) ∨
     (∃ n tNear tFar,
        greatest (entryParameters ray (take n (faces h))) tNear ∧
        least (exitParameters ray (take n (faces h))) tFar ∧
        gtb tNear tFar = true)) ∧
  (∀ r, intersectRay h ray = Some r →
     ∃ tNear tFar,
       intersectRay_loop ray (faces h) neg_infinity infinity = Some (tNear, tFar) ∧
       greatest (entryParameters ray (faces h)) tNear ∧
       least (exitParameters ray (faces h)) tFar ∧
       gtb tNear tFar = false ∧
       r = (if neqb tNear neg_infinity then tNear else tFar) ∧
       (entryParameters ray (faces h) ≠ [] → r = tNear) ∧
       (entryParameters ray (faces h) = [] → r = tFar)).
Proof.
  assert (H0 : greatest (entryParameters ray []) neg_infinity) by (by left).
  assert (H1 : least (exitParameters ray []) infinity) by (by left).
  pose proof (intersectRay_loop_spec ray (faces h) [] _ _ H0 H1 eq_refl) as Hloop.
  unfold intersectRay. simpl in Hloop.
  destruct (intersectRay_loop ray (faces h) neg_infinity infinity) as [[tN tF]|]; simpl.
  - destruct Hloop as (HN & HF & Hle & Hmiss & Hpre). split.
    + split; [done|]. intros [(face & Hin & Hm)|(n & tNear & tFar & HN' & HF' & Hgt)].
      * rewrite (Hmiss face Hin) in Hm. done.
      * rewrite (Hpre n _ _ HN' HF') in Hgt. done.
    + intros r [= <-]. exists tN, tF. split_and!; try done.
      * intros Hne. destruct HN as [[E _]|[[_ ->]|(Hall & Hin & Hmax)]]; [done|done|].
        destruct (neqb tN neg_infinity) eqn:E; [done|].
        (* an entry parameter is not minus infinity *)
        exfalso. unfold entryParameters in Hin.
        apply list_elem_of_In, in_map_iff in Hin as (f & <- & Hf).
        apply List.filter_In in Hf as [_ Hf]. unfold frontFace in Hf.
        apply andb_true_iff in Hf as [Hf _]. apply negb_true_iff in Hf.
        unfold neqb in E. apply negb_false_iff in E.
        assert (Hn : (hitParameter ray f <=? 0) = true).
        { assert (Hr : rank (hitParameter ray f) = Some (-2, 0, 0)%Z).
          { destruct (rank (hitParameter ray f)) as [k|] eqn:Hk.
            - apply (eqb_rank _ _ _ _ Hk rank_neg_infinity) in E. by subst.
            - apply is_nan_rank in Hk. rewrite eqb_nan in E by (by left). done. }
          apply rank_neg_infinity_eq in Hr. by rewrite Hr. }
        unfold leb in Hf. congruence.
      * intros Hnil. rewrite Hnil in HN.
        destruct HN as [[_ ->]|[[(t & Ht & _) _]|(_ & Hin & _)]]; [done| |].
        -- by apply elem_of_nil in Ht.
        -- by apply elem_of_nil in Hin.
  - destruct Hloop as (n & face & Hface & Hev). split; [|done].
    split; [|done]. intros _.
    destruct Hev as [Hm|(tN & tF & HN & HF & Hgt)].
    + left. exists face. split; [by eapply list_elem_of_lookup_2|done].
    + right. by exists (S n), tN, tF.
Qed.

(** ** The tolerance *)

(** The [j]-th coordinates of a list of points. *)
Definition coords (j : nat) (ps : list Vector3) : list float :=
  map (λ p, getComponent p j) ps.

Definition isMin (m : float) (l : list float) : Prop :=
  m ∈ l ∧ ∀ q, q ∈ l → leb m q = true.
Definition isMax (m : float) (l : list float) : Prop :=
  m ∈ l ∧ ∀ q, q ∈ l → leb q m = true.

(** [mn] and [mx] are the two corners of the bounding box of the points. *)
Definition boundingBox (mn mx : Vector3) (ps : list Vector3) : Prop :=
  ∀ j, (j < 3)%nat →
       isMin (getComponent mn j) (coords j ps) ∧
       isMax (getComponent mx j) (coords j ps).

(** No coordinate of the points is NaN. *)
Definition numbers (ps : list Vector3) : Prop :=
  ∀ p j, p ∈ ps → number (getComponent p j).












(** ** Rays and the sign of the hit parameter *)

Lemma entryParameters_ahead ray fs t :
  t ∈ entryParameters ray fs → leb t 0 = false.
Proof.
  unfold entryParameters. intros (f & <- & Hf)%list_elem_of_In%in_map_iff.
  apply List.filter_In in Hf as [_ Hf]. unfold frontFace in Hf.
  apply andb_true_iff in Hf as [Hf _]. by apply negb_true_iff in Hf.
Qed.

Lemma exitParameters_ahead ray fs t :
  t ∈ exitParameters ray fs → leb t 0 = false.
Proof.
  unfold exitParameters. intros (f & <- & Hf)%list_elem_of_In%in_map_iff.
  apply List.filter_In in Hf as [_ Hf]. unfold backFace in Hf.
  apply andb_true_iff in Hf as [Hf _]. by apply negb_true_iff in Hf.
Qed.

Lemma greatest_ahead ts m :
  greatest ts m → (∀ t, t ∈ ts → leb t 0 = false) →
  (ts = [] ∧ m = neg_infinity) ∨ (ts ≠ [] ∧ leb m 0 = false).
Proof.
  intros [[-> ->]|[[(t & Hin & _) ->]|(_ & Hin & _)]] H; [by left|right|right].
  - split; [|done]. intros ->. by apply elem_of_nil in Hin.
  - split; [|by apply H]. intros ->. by apply elem_of_nil in Hin.
Qed.

Lemma least_ahead ts m :
  least ts m → (∀ t, t ∈ ts → leb t 0 = false) → leb m 0 = false.
Proof. intros [[_ ->]|[[_ ->]|(_ & Hin & _)]] H; [done|done|by apply H]. Qed.

(** A number that is not at most zero is positive. *)
Lemma leb_false_positive a : number a → leb a 0 = false → ltb 0 a = true.
Proof.
  intros Ha H. unfold leb in H. unfold ltb.
  destruct (leb_total a 0 Ha number_zero) as [H'|H']; [congruence|done].
Qed.

(** What rounding gives has the sign it was asked for, or it is NaN. *)
Definition signed (s : bool) (f : spec_float) : Prop :=
  match f with
  | S754_nan => True
  | S754_zero s' | S754_infinity s' | S754_finite s' _ _ => s' = s
  end.

Lemma binary_round_aux_signed prec emax s m e l :
  signed s (binary_round_aux prec emax s m e l).
Proof.
  unfold binary_round_aux.
  destruct (shr_fexp prec emax m e l) as [mrs' e'].
  destruct (shr_fexp prec emax _ e' loc_Exact) as [mrs'' e''].
  destruct (shr_m mrs'') as [|p|p]; simpl; [done| |done].
  by destruct (_ <=? _)%Z.
Qed.

Lemma signed_true_leb f : signed true f → f = S754_nan ∨ SFleb f (S754_zero false) = true.
Proof. destruct f as [s|s| |s m e]; simpl; intros H; subst; auto. Qed.

(** The quotient of a number that is not negative by a negative number is
    not positive, or it is NaN. *)
Lemma SFdiv_opp_inside prec emax X Y :
  SFleb X (S754_zero false) = true →
  SFltb (S754_zero false) Y = false →
  SFeqb Y (S754_zero false) = false →
  SFdiv prec emax (SFopp X) Y = S754_nan ∨
  SFleb (SFdiv prec emax (SFopp X) Y) (S754_zero false) = true.
Proof.
  intros HX HY HY0.
  destruct X as [sx|sx| |sx mx ex], Y as [sy|sy| |sy my ey];
    try destruct sx; try destruct sy; simpl in *; try done; auto.
  all: try (destruct (SFdiv_core_binary _ _ _ _ _ _) as [[mz ez] lz];
            apply signed_true_leb, binary_round_aux_signed).
Qed.

Lemma hitParameter_inside ray face :
  leb (vN ray face) 0 = true →
  leb (hitParameter ray face) 0 = true ∨
  (is_nan (hitParameter ray face) = true ∧ gtb (vD ray face) 0 = false) ∨
  gtb (vD ray face) 0 = true.
Proof.
  intros HN. destruct (gtb (vD ray face) 0) eqn:HD; [by right; right|].
  unfold hitParameter, neqb. destruct (vD ray face =? 0) eqn:H0; simpl; [by left|].
  set (n := vN ray face) in *. set (d := vD ray face) in *. clearbody n d.
  unfold leb, gtb in *.
  rewrite FloatAxioms.leb_spec in HN. rewrite FloatAxioms.ltb_spec in HD.
  rewrite FloatAxioms.eqb_spec in H0.
  change (Prim2SF 0) with (S754_zero false) in *.
  assert (E : Prim2SF (- n / d) = SFdiv prec emax (SFopp (Prim2SF n)) (Prim2SF d)).
  { by rewrite FloatAxioms.div_spec, FloatAxioms.opp_spec. }
  destruct (SFdiv_opp_inside prec emax _ _ HN HD H0) as [H|H].
  - right; left. split; [|done]. apply is_nan_rank. unfold rank. by rewrite E, H.
  - left. rewrite FloatAxioms.leb_spec, E. exact H.
Qed.

(** A face that the origin of the ray is not outside of is not an entry face
    unless its hit parameter is NaN. *)
Lemma entryParameters_inside ray fs t :
  (∀ face, face ∈ fs → leb (vN ray face) 0 = true) →
  t ∈ entryParameters ray fs → is_nan t = true.
Proof.
  intros Hin. unfold entryParameters. intros (f & <- & Hf)%list_elem_of_In%in_map_iff.
  apply List.filter_In in Hf as [Hf%list_elem_of_In Hfront]. unfold frontFace in Hfront.
  apply andb_true_iff in Hfront as [Ht%negb_true_iff Hd%negb_true_iff].
  destruct (hitParameter_inside ray f (Hin f Hf)) as [H|[[H _]|H]]; congruence.
Qed.

(** X12.  The point that [intersectRay] returns is never at the origin of the
    ray or behind it: its parameter along the ray is not at most zero, so
    that it is positive unless it is NaN (the positive parameters include
    [Infinity], the result when no face is hit at a positive parameter).  On
    a hull without faces [ray.at( Infinity )] is the result for every ray,
    so that [intersectsRay] is [true] there. *)
Theorem intersectRay_ahead_of_origin (h : ConvexHull) (ray : Ray) :
  (∀ r, intersectRay h ray = Some r →
        leb r 0 = false ∧ (number r → ltb 0 r = true)) ∧
  (faces h = [] →
   intersectRay h ray = Some infinity ∧ intersectsRay h ray = true).
Proof.
  split.
  - intros r Hr.
    assert (H : leb r 0 = false); [|split; [done|intros Hn; by apply leb_false_positive]].
    assert (H0 : greatest (entryParameters ray []) neg_infinity) by (by left).
    assert (H1 : least (exitParameters ray []) infinity) by (by left).
    pose proof (intersectRay_loop_spec ray (faces h) [] _ _ H0 H1 eq_refl) as Hloop.
    unfold intersectRay in Hr. simpl in Hloop.
    destruct (intersectRay_loop ray (faces h) neg_infinity infinity) as [[tN tF]|];
      [|done].
    simpl in Hr. injection Hr as <-. destruct Hloop as (HN & HF & _).
    pose proof (least_ahead _ _ HF (exitParameters_ahead ray (faces h))) as HF'.
    destruct (greatest_ahead _ _ HN (entryParameters_ahead ray (faces h)))
      as [[_ ->]|[_ HN']]; [done|].
    by destruct (neqb tN neg_infinity).
  - intros Hf. unfold intersectsRay, intersectRay. rewrite Hf. done.
Qed.

(** X13.  A ray whose origin no face has on its outward side (the distance
    that [distanceToPoint] computes is at most zero for every face) is never
    a miss.  [intersectRay] returns the point at which the ray leaves the
    hull: its parameter is the least of the exit parameters, [Infinity] when
    there is none, and NaN when a hit parameter is NaN. *)
Theorem intersectRay_from_inside (h : ConvexHull) (ray : Ray) :
  (∀ face, face ∈ faces h → leb (vN ray face) 0 = true) →
  ∃ r,
    intersectRay h ray = Some r ∧ intersectsRay h ray = true ∧
    ((∀ t, t ∈ entryParameters ray (faces h) → number t) →
       entryParameters ray (faces h) = [] ∧
       least (exitParameters ray (faces h)) r) ∧
    ((∃ t, t ∈ entryParameters ray (faces h) ∧ is_nan t = true) → r = nan).
Proof.
  intros Hin.
  assert (Hnone : ∀ fs tN, (∀ face, face ∈ fs → face ∈ faces h) →
            greatest (entryParameters ray fs) tN →
            (entryParameters ray fs = [] ∧ tN = neg_infinity) ∨
            tN = nan ∧ ∃ t, t ∈ entryParameters ray fs ∧ is_nan t = true).
  { intros fs tN Hfs [[E ->]|[[(t & Ht & Hn) ->]|(Hall & Hm & _)]]; [by left| |].
    - right. split; [done|]. by exists t.
    - exfalso. specialize (Hall _ Hm). unfold number in Hall.
      rewrite (entryParameters_inside ray fs tN) in Hall; [done| |done].
      intros face Hface. by apply Hin, Hfs. }
  assert (H0 : greatest (entryParameters ray []) neg_infinity) by (by left).
  assert (H1 : least (exitParameters ray []) infinity) by (by left).
  pose proof (intersectRay_loop_spec ray (faces h) [] _ _ H0 H1 eq_refl) as Hloop.
  unfold intersectsRay, intersectRay. simpl in Hloop.
  destruct (intersectRay_loop ray (faces h) neg_infinity infinity) as [[tN tF]|].
  - simpl. eexists. split; [done|]. split; [done|].
    destruct Hloop as (HN & HF & _).
    destruct (Hnone _ _ (λ f Hf, Hf) HN) as [[E ->]|[-> (t & Ht & Hn)]].
    + split; [done|]. intros (t & Ht & _). rewrite E in Ht. by apply elem_of_nil in Ht.
    + split; [|done]. intros Hall. specialize (Hall t Ht). unfold number in Hall. congruence.
  - exfalso. destruct Hloop as (n & face & Hface & [Hm|(tN & tF & HN & HF & Hgt)]).
    + unfold definiteMiss in Hm. apply andb_true_iff in Hm as [Hm _].
      apply list_elem_of_lookup_2 in Hface. specialize (Hin _ Hface).
      unfold gtb in Hm. unfold leb in Hin. apply ltb_not_leb in Hm. congruence.
    + destruct (Hnone _ _ (subseteq_take (S n) (faces h)) HN) as [[_ ->]|[-> _]].
      * by rewrite gtb_neg_infinity in Hgt.
      * unfold gtb in Hgt. rewrite ltb_nan in Hgt; [done|by right].
Qed.

(** ** A tetrahedron and some rays *)

Definition tetraPoints : list Vector3 :=
  [V3 (-3) 0 0; V3 3 0 0; V3 0 2 0; V3 0 0 1].

(** The four faces that [_computeInitialHull] makes for these points, in the
    order of the face array: [Face.create] of the vertices 0, 2, 1, then of
    3, 0, 1, of 3, 1, 2 and of 3, 2, 0.  The triangle of [compute()] starts
    at the tail of the edge of the face, the third vertex of [create]. *)
Definition tetraFaces : list Face.t :=
  [Face.compute (V3 3 0 0) (V3 (-3) 0 0) (V3 0 2 0);
   Face.compute (V3 3 0 0) (V3 0 0 1) (V3 (-3) 0 0);
   Face.compute (V3 0 2 0) (V3 0 0 1) (V3 3 0 0);
   Face.compute (V3 (-3) 0 0) (V3 0 0 1) (V3 0 2 0)].

Definition tetraTolerance : float :=
  toleranceOf (V3 (-3) 0 0) (V3 3 2 1).

Definition tetraHull : ConvexHull := mkHull tetraTolerance tetraFaces.

(** A ray that enters the tetrahedron through the face in the plane y = 0. *)
Definition hitRay : Ray := mkRay (V3 (3 / 2) (-1) (1 / 2)) (V3 0 1 0x1p-60).

(** A ray that passes over the tetrahedron. *)
Definition missRay : Ray := mkRay (V3 0 (-1) 2) (V3 0 1 0).

(** A ray from inside. *)
Definition insideRay : Ray := mkRay (V3 0 (1 / 2) (1 / 4)) (V3 0 0 1).

(** A ray whose direction is not a vector of numbers. *)
Definition nanRay : Ray := mkRay (V3 0 (1 / 2) (1 / 4)) (V3 nan 1 0).


Lemma tetraHull_extremes :
  _computeExtremes tetraPoints =
  Some (mkExtremes (V3 (-3) 0 0) (V3 3 2 1) [0; 0; 0]%nat [1; 2; 3]%nat,
        tetraTolerance).
Proof. vm_compute. reflexivity. Qed.

Lemma tetraPoints_numbers : numbers tetraPoints.
Proof.
  intros p j Hp. unfold tetraPoints in Hp.
  repeat (apply elem_of_cons in Hp as [->|Hp]; [by destruct j as [|[|j]]|]).
  by apply elem_of_nil in Hp.
Qed.

Lemma nan_not_infinity : nan ≠ infinity.
Proof. intros H. assert (E : is_nan nan = is_nan infinity) by (by rewrite H). done. Qed.

(** The point (NaN, 0, 0) is contained in the tetrahedron, and its distance
    to no face is at most the tolerance. *)
Lemma containsPoint_iff_no_face_beyond_tolerance_counterexample :
  ¬ (containsPoint tetraHull (V3 nan 0 0) = true ↔
     ∀ face, face ∈ faces tetraHull →
             leb (Face.distanceToPoint face (V3 nan 0 0)) (tolerance tetraHull) = true).
Proof.
  intros [H _].
  assert (Hc : containsPoint tetraHull (V3 nan 0 0) = true) by (vm_compute; reflexivity).
  specialize (H Hc (Face.compute (V3 3 0 0) (V3 (-3) 0 0) (V3 0 2 0))).
  assert (Hin : Face.compute (V3 3 0 0) (V3 (-3) 0 0) (V3 0 2 0) ∈ faces tetraHull).
  { change (faces tetraHull) with tetraFaces. unfold tetraFaces. by left. }
  specialize (H Hin). vm_compute in H. discriminate H.
Qed.

Lemma containsPoint_iff_no_face_beyond_tolerance_witness :
  containsPoint tetraHull (V3 0 (1 / 2) (1 / 4)) = true ∧
  (∀ face, face ∈ faces tetraHull →
     leb (Face.distanceToPoint face (V3 0 (1 / 2) (1 / 4))) (tolerance tetraHull) = true) ∧
  containsPoint tetraHull (V3 nan 0 0) = true ∧
  (∀ face, face ∈ faces tetraHull →
     leb (Face.distanceToPoint face (V3 nan 0 0)) (tolerance tetraHull) = false).
Proof.
  assert (Hc : containsPoint tetraHull (V3 0 (1 / 2) (1 / 4)) = true)
    by (vm_compute; reflexivity).
  assert (Hnum : number (tolerance tetraHull)) by (vm_compute; reflexivity).
  assert (Hd : ∀ face, face ∈ faces tetraHull →
            number (Face.distanceToPoint face (V3 0 (1 / 2) (1 / 4)))).
  { intros face Hin. change (faces tetraHull) with tetraFaces in Hin.
    unfold tetraFaces in Hin.
    repeat (apply elem_of_cons in Hin as [->|Hin]; [vm_compute; reflexivity|]).
    by apply elem_of_nil in Hin. }
  assert (Hn : is_nan (tolerance tetraHull) = true ∨
               ∀ face, face ∈ faces tetraHull →
                 is_nan (Face.distanceToPoint face (V3 nan 0 0)) = true).
  { right. intros face Hin. change (faces tetraHull) with tetraFaces in Hin.
    unfold tetraFaces in Hin.
    repeat (apply elem_of_cons in Hin as [->|Hin]; [vm_compute; reflexivity|]).
    by apply elem_of_nil in Hin. }
  destruct (containsPoint_iff_no_face_beyond_tolerance tetraHull (V3 0 (1 / 2) (1 / 4)))
    as (_ & H2 & _).
  destruct (containsPoint_iff_no_face_beyond_tolerance tetraHull (V3 nan 0 0))
    as (_ & _ & H3).
  split; [exact Hc|]. split; [exact (proj1 (H2 Hnum Hd) Hc)|]. exact (H3 Hn).
Defined.

(** For the ray with a NaN in its direction, [tNear] is NaN at the end of the
    loop, which is not finite, and [tFar] is infinity; the parameter of the
    point returned is [tNear]. *)
Lemma intersectRay_null_or_parameter_counterexample :
  intersectRay_loop nanRay (faces tetraHull) neg_infinity infinity =
    Some (nan, infinity) ∧
  is_finite nan = false ∧
  intersectRay tetraHull nanRay = Some nan ∧
  intersectRay tetraHull nanRay ≠ Some infinity.
Proof.
  split; [vm_compute; reflexivity|]. split; [vm_compute; reflexivity|].
  assert (H : intersectRay tetraHull nanRay = Some nan) by (vm_compute; reflexivity).
  split; [exact H|]. rewrite H. intros E. apply nan_not_infinity.
  exact (f_equal (λ o, match o with Some a => a | None => nan end) E).
Qed.

Lemma intersectRay_null_or_parameter_witness :
  (intersectRay tetraHull hitRay = Some 1 ∧
   ∃ tNear tFar,
     intersectRay_loop hitRay (faces tetraHull) neg_infinity infinity =
       Some (tNear, tFar) ∧
     greatest (entryParameters hitRay (faces tetraHull)) tNear ∧
     least (exitParameters hitRay (faces tetraHull)) tFar ∧
     gtb tNear tFar = false ∧
     1 = (if neqb tNear neg_infinity then tNear else tFar) ∧
     (entryParameters hitRay (faces tetraHull) ≠ [] → 1 = tNear) ∧
     (entryParameters hitRay (faces tetraHull) = [] → 1 = tFar)) ∧
  (intersectRay tetraHull missRay = None ∧
   ((∃ face, face ∈ faces tetraHull ∧ definiteMiss missRay face = true) ∨
    (∃ n tNear tFar,
       greatest (entryParameters missRay (take n (faces tetraHull))) tNear ∧
       least (exitParameters missRay (take n (faces tetraHull))) tFar ∧
       gtb tNear tFar = true))).
Proof.
  assert (H1 : intersectRay tetraHull hitRay = Some 1) by (vm_compute; reflexivity).
  assert (H2 : intersectRay tetraHull missRay = None) by (vm_compute; reflexivity).
  split.
  - split; [exact H1|].
    exact (proj2 (intersectRay_null_or_parameter tetraHull hitRay) 1 H1).
  - split; [exact H2|].
    exact (proj1 (proj1 (intersectRay_null_or_parameter tetraHull missRay)) H2).
Defined.

Lemma intersectRay_ahead_of_origin_witness :
  intersectRay tetraHull hitRay = Some 1 ∧
  leb 1 0 = false ∧ (number 1 → ltb 0 1 = true) ∧
  intersectRay (mkHull 0 []) hitRay = Some infinity ∧
  intersectsRay (mkHull 0 []) hitRay = true.
Proof.
  assert (H1 : intersectRay tetraHull hitRay = Some 1) by (vm_compute; reflexivity).
  destruct (intersectRay_ahead_of_origin tetraHull hitRay) as [Ha _].
  destruct (intersectRay_ahead_of_origin (mkHull 0 []) hitRay) as [_ Hb].
  split; [exact H1|]. destruct (Ha 1 H1) as [Ha1 Ha2].
  split; [exact Ha1|]. split; [exact Ha2|]. exact (Hb eq_refl).
Defined.

Lemma insideRay_inside :
  ∀ face, face ∈ faces tetraHull → leb (vN insideRay face) 0 = true.
Proof.
  intros face Hin. change (faces tetraHull) with tetraFaces in Hin.
  unfold tetraFaces in Hin.
  repeat (apply elem_of_cons in Hin as [->|Hin]; [vm_compute; reflexivity|]).
  by apply elem_of_nil in Hin.
Qed.

Lemma intersectRay_from_inside_witness :
  (∀ face, face ∈ faces tetraHull → leb (vN insideRay face) 0 = true) ∧
  intersectRay tetraHull insideRay = Some (1 / 2) ∧
  ∃ r,
    intersectRay tetraHull insideRay = Some r ∧
    intersectsRay tetraHull insideRay = true ∧
    ((∀ t, t ∈ entryParameters insideRay (faces tetraHull) → number t) →
       entryParameters insideRay (faces tetraHull) = [] ∧
       least (exitParameters insideRay (faces tetraHull)) r) ∧
    ((∃ t, t ∈ entryParameters insideRay (faces tetraHull) ∧ is_nan t = true) →
       r = nan).
Proof.
  split; [exact insideRay_inside|]. split; [vm_compute; reflexivity|].
  exact (intersectRay_from_inside tetraHull insideRay insideRay_inside).
Defined.



End Binary64.


(** * The tolerance: its value and where it is used *)


